(** * pgen: grammar-to-parser-table compiler (parso/pgen2/pgen.py)

    A shallow embedding of the subset construction ([_make_dfas]), the state
    minimiser ([_simplify_dfas]), the first-set analysis ([_calcfirst]) and
    the table assembler ([make_grammar]) of [parso/pgen2/pgen.py], followed
    by the properties of these functions.

    Conventions of the embedding
    - Python exceptions are values of [exn]; a function that may raise
      returns a [result].
    - A Python [dict] is an association list in insertion order with
      distinct keys ([dict]); the dicts the source uses as sets ("Let's
      represent sets as dicts with 1 for values") keep only their keys
      ([pyset]).
    - [NFAState] and [DFAState] objects have reference identity.  The NFA
      fragment of a rule is an arena indexed by handles; DFAState objects
      live in a [heap] and are named by their address ([ref]), so that
      [is], in-place mutation and aliasing are the ones of the source.
    - Recursion that is not structural ([addclosure], the growing [for]
      loop of [_make_dfas], [_calcfirst], the [while] loop of
      [_simplify_dfas]) carries a recursion budget; running out of it is
      the distinguished outcome [OutOfFuel].  The budgets are shown to be
      enough for the minimiser, for the first-set analysis and, on
      well-formed fragments, for the subset construction. *)

From Stdlib Require Import String Ascii List ZArith Arith Bool Lia.
From Stdlib Require Import Permutation Sorted DecimalString Relations.
Import ListNotations.

Local Open Scope string_scope.
Local Open Scope list_scope.
Local Open Scope nat_scope.

(** ** Exceptions and the error monad *)

Inductive exn : Type :=
| OutOfFuel
| AssertionError (msg : string)
| ValueError_recursion (name : string)
| ValueError_ambiguous (name symbol label other : string)
| ValueError_not_in_list
| KeyError (key : string)
| IndexError
| TypeError
| StopIteration
| SyntaxError
| DanglingRef.

Inductive result (A : Type) : Type :=
| Ok (a : A)
| Err (e : exn).

Arguments Ok {A} a.
Arguments Err {A} e.

Definition bind {A B : Type} (m : result A) (k : A -> result B) : result B :=
  match m with
  | Ok a => k a
  | Err e => Err e
  end.

Notation "x <- m ;; k" := (bind m (fun x => k))
  (at level 61, m at next level, right associativity).
Notation "' pat <- m ;; k" := (bind m (fun x => match x with pat => k end))
  (at level 61, pat pattern, m at next level, right associativity).

Definition from_option {A : Type} (e : exn) (o : option A) : result A :=
  match o with
  | Some a => Ok a
  | None => Err e
  end.

Definition is_ok {A : Type} (r : result A) : bool :=
  match r with
  | Ok _ => true
  | Err _ => false
  end.

(** ** Insertion-ordered dictionaries and sets *)

Class EqKey (K : Type) : Type := {
  keqb : K -> K -> bool;
  keqb_spec : forall x y : K, reflect (x = y) (keqb x y)
}.

#[export] Instance EqKey_string : EqKey string :=
  {| keqb := String.eqb; keqb_spec := String.eqb_spec |}.
#[export] Instance EqKey_nat : EqKey nat :=
  {| keqb := Nat.eqb; keqb_spec := Nat.eqb_spec |}.
#[export] Instance EqKey_Z : EqKey Z :=
  {| keqb := Z.eqb; keqb_spec := Z.eqb_spec |}.

Definition dict (K V : Type) : Type := list (K * V).
Definition pyset (K : Type) : Type := list K.

Section Dict.
Context {K V : Type} `{EqKey K}.

(** [d.get(k)] *)
Fixpoint dict_get (k : K) (d : dict K V) : option V :=
  match d with
  | [] => None
  | (k', v) :: rest => if keqb k k' then Some v else dict_get k rest
  end.

(** [k in d] *)
Definition dict_mem (k : K) (d : dict K V) : bool :=
  match dict_get k d with
  | Some _ => true
  | None => false
  end.

(** [d[k] = v]: an existing key keeps its position. *)
Fixpoint dict_set (k : K) (v : V) (d : dict K V) : dict K V :=
  match d with
  | [] => [(k, v)]
  | (k', v') :: rest =>
      if keqb k k' then (k', v) :: rest else (k', v') :: dict_set k v rest
  end.

Definition dict_keys (d : dict K V) : list K := map fst d.

(** [k in s] *)
Fixpoint set_mem (k : K) (s : pyset K) : bool :=
  match s with
  | [] => false
  | k' :: rest => if keqb k k' then true else set_mem k rest
  end.

(** [s[k] = 1] *)
Definition set_add (k : K) (s : pyset K) : pyset K :=
  if set_mem k s then s else s ++ [k].

(** [s.update(other)] *)
Definition set_update (s other : pyset K) : pyset K :=
  fold_left (fun acc k => set_add k acc) other s.

(** [s == other] for two dicts whose values are all 1. *)
Definition set_eqb (s other : pyset K) : bool :=
  (List.length s =? List.length other) && forallb (fun k => set_mem k other) s.
End Dict.

(** ** Automaton primitives *)

(** An NFA fragment as the grammar parser hands it over: the states of one
    rule, addressed by handle; [None] labels an epsilon arc. *)
Definition NFAState : Type := nat.

Record NFA : Type := {
  from_rule : string;
  nfa_arcs : list (list (option string * NFAState));
  nfa_start : NFAState;
  nfa_finish : NFAState
}.

(** [state.arcs] of an NFA state *)
Definition arcs_of (nfa : NFA) (state : NFAState)
  : list (option string * NFAState) :=
  nth state (nfa_arcs nfa) [].

Definition ref : Type := nat.

Record DFAState : Type := {
  nfaset : pyset NFAState;
  isfinal : bool;
  arcs : dict string ref
}.

Definition heap : Type := list DFAState.

Definition deref (h : heap) (r : ref) : result DFAState :=
  from_option DanglingRef (nth_error h r).

(** Overwrite the object at address [r]. *)
Fixpoint store (h : heap) (r : ref) (o : DFAState) : heap :=
  match h, r with
  | [], _ => []
  | _ :: rest, 0 => o :: rest
  | x :: rest, S r' => x :: store rest r' o
  end.

(** [DFAState(nfaset, final)]: the new object and its address. *)
Definition DFAState_new (h : heap) (nfaset0 : pyset NFAState) (final : NFAState)
  : result (heap * ref) :=
  match nfaset0 with
  | [] => Err StopIteration
  | _ :: _ =>
      Ok (h ++ [{| nfaset := nfaset0;
                   isfinal := set_mem final nfaset0;
                   arcs := [] |}],
          List.length h)
  end.

(** The object [o] after an assignment to its [arcs]. *)
Definition set_arcs (o : DFAState) (a : dict string ref) : DFAState :=
  {| nfaset := nfaset o; isfinal := isfinal o; arcs := a |}.

(** [self.add_arc(next, label)] *)
Definition add_arc (h : heap) (self next : ref) (label : string) : result heap :=
  o <- deref h self ;;
  if dict_mem label (arcs o) then Err (AssertionError label)
  else Ok (store h self (set_arcs o (dict_set label next (arcs o)))).

(** [self.unifystate(old, new)] *)
Definition unify_arcs (old new : ref) (a : dict string ref) : dict string ref :=
  map (fun '(label, next) => if next =? old then (label, new) else (label, next)) a.

Definition unifystate (h : heap) (self old new : ref) : result heap :=
  o <- deref h self ;;
  Ok (store h self (set_arcs o (unify_arcs old new (arcs o)))).

(** [self == other] on two DFAState objects ([DFAState.__eq__]) *)
Definition eq_states (self other : DFAState) : bool :=
  if negb (Bool.eqb (isfinal self) (isfinal other)) then false
  else if negb (List.length (arcs self) =? List.length (arcs other)) then false
  else forallb (fun '(label, next) =>
                  match dict_get label (arcs other) with
                  | Some r => r =? next
                  | None => false
                  end) (arcs self).

Definition DFAState_eq (h : heap) (self other : ref) : result bool :=
  a <- deref h self ;;
  b <- deref h other ;;
  Ok (eq_states a b).

(** ** State minimiser *)

(** [del dfas[j]] *)
Fixpoint del {A : Type} (l : list A) (j : nat) : list A :=
  match l, j with
  | [], _ => []
  | _ :: rest, 0 => rest
  | x :: rest, S j' => x :: del rest j'
  end.

(** [for state in dfas: state.unifystate(old, new)] *)
Fixpoint unify_all (h : heap) (dfas : list ref) (old new : ref) : result heap :=
  match dfas with
  | [] => Ok h
  | state :: rest =>
      h' <- unifystate h state old new ;;
      unify_all h' rest old new
  end.

(** The inner loop [for j in range(i + 1, len(dfas))]: the first [j] whose
    state equals [state_i], if there is one.  [tail] is [dfas[j:]]. *)
Fixpoint first_equal (h : heap) (state_i : ref) (tail : list ref) (j : nat)
  : result (option (nat * ref)) :=
  match tail with
  | [] => Ok None
  | state_j :: rest =>
      b <- DFAState_eq h state_i state_j ;;
      if b then Ok (Some (j, state_j))
      else first_equal h state_i rest (S j)
  end.

(** One run of [for i, state_i in enumerate(dfas)], from index [i] on.  The
    list never grows, so [n = len(dfas)] iterations always reach its end. *)
Fixpoint simplify_pass (n : nat) (h : heap) (dfas : list ref) (i : nat)
    (changes : bool) : result (heap * list ref * bool) :=
  match n with
  | 0 => Ok (h, dfas, changes)
  | S n' =>
      match nth_error dfas i with
      | None => Ok (h, dfas, changes)
      | Some state_i =>
          found <- first_equal h state_i (skipn (S i) dfas) (S i) ;;
          match found with
          | Some (j, state_j) =>
              let dfas' := del dfas j in
              h' <- unify_all h dfas' state_j state_i ;;
              simplify_pass n' h' dfas' (S i) true
          | None => simplify_pass n' h dfas (S i) changes
          end
      end
  end.

(** [while changes: ...] *)
Fixpoint simplify_loop (fuel : nat) (h : heap) (dfas : list ref)
  : result (heap * list ref) :=
  match fuel with
  | 0 => Err OutOfFuel
  | S fuel' =>
      '(h', dfas', changes) <- simplify_pass (List.length dfas) h dfas 0 false ;;
      if changes then simplify_loop fuel' h' dfas' else Ok (h', dfas')
  end.

Definition _simplify_dfas (h : heap) (dfas : list ref) : result (heap * list ref) :=
  simplify_loop (S (List.length dfas)) h dfas.

(** ** Subset constructor *)

(** The loop of [addclosure] over the arcs of a state; [rec] is the
    recursive call. *)
Fixpoint closure_arcs
    (rec : NFAState -> pyset NFAState -> result (pyset NFAState))
    (l : list (option string * NFAState)) (base : pyset NFAState)
  : result (pyset NFAState) :=
  match l with
  | [] => Ok base
  | (None, next) :: rest =>
      base' <- rec next base ;;
      closure_arcs rec rest base'
  | (Some _, _) :: rest => closure_arcs rec rest base
  end.

(** [addclosure(state, base)] *)
Fixpoint addclosure (fuel : nat) (nfa : NFA) (state : NFAState)
    (base : pyset NFAState) : result (pyset NFAState) :=
  match fuel with
  | 0 => Err OutOfFuel
  | S fuel' =>
      if set_mem state base then Ok base
      else closure_arcs (addclosure fuel' nfa) (arcs_of nfa state)
             (set_add state base)
  end.

(** [closure(state)] *)
Definition closure (fuel : nat) (nfa : NFA) (state : NFAState)
  : result (pyset NFAState) :=
  addclosure fuel nfa state [].

(** [for label, next in nfastate.arcs: if label is not None:
       addclosure(next, arcs.setdefault(label, {}))] *)
Fixpoint move_arcs (fuel : nat) (nfa : NFA)
    (l : list (option string * NFAState)) (arcs0 : dict string (pyset NFAState))
  : result (dict string (pyset NFAState)) :=
  match l with
  | [] => Ok arcs0
  | (Some label, next) :: rest =>
      let target := match dict_get label arcs0 with
                    | Some s => s
                    | None => []
                    end in
      target' <- addclosure fuel nfa next target ;;
      move_arcs fuel nfa rest (dict_set label target' arcs0)
  | (None, _) :: rest => move_arcs fuel nfa rest arcs0
  end.

(** [for nfastate in state.nfaset: ...] *)
Fixpoint move_sets (fuel : nat) (nfa : NFA) (members : list NFAState)
    (arcs0 : dict string (pyset NFAState))
  : result (dict string (pyset NFAState)) :=
  match members with
  | [] => Ok arcs0
  | nfastate :: rest =>
      arcs1 <- move_arcs fuel nfa (arcs_of nfa nfastate) arcs0 ;;
      move_sets fuel nfa rest arcs1
  end.

(** [for st in states: if st.nfaset == nfaset: break] *)
Fixpoint find_state (h : heap) (states : list ref) (nfaset0 : pyset NFAState)
  : result (option ref) :=
  match states with
  | [] => Ok None
  | st :: rest =>
      o <- deref h st ;;
      if set_eqb (nfaset o) nfaset0 then Ok (Some st)
      else find_state h rest nfaset0
  end.

(** The [for st in states: ... else: ...] statement: the state that has
    exactly this [nfaset], appended to [states] if it is not there yet. *)
Definition target_state (finish : NFAState) (h : heap) (states : list ref)
    (nfaset0 : pyset NFAState) : result (heap * list ref * ref) :=
  found <- find_state h states nfaset0 ;;
  match found with
  | Some st => Ok (h, states, st)
  | None =>
      '(h', st) <- DFAState_new h nfaset0 finish ;;
      Ok (h', states ++ [st], st)
  end.

(** [for label, nfaset in arcs.items(): ...] for the state being processed *)
Fixpoint link_arcs (finish : NFAState) (state : ref)
    (items : dict string (pyset NFAState)) (h : heap) (states : list ref)
  : result (heap * list ref) :=
  match items with
  | [] => Ok (h, states)
  | (label, nfaset0) :: rest =>
      '(h1, states1, st) <- target_state finish h states nfaset0 ;;
      h2 <- add_arc h1 state st label ;;
      link_arcs finish state rest h2 states1
  end.

(** [for state in states:], with [states] growing under the iteration;
    [i] is the position of the iterator, [fuel] bounds the number of
    iterations and [cfuel] the depth of [addclosure]. *)
Fixpoint dfa_loop (fuel cfuel : nat) (nfa : NFA) (h : heap) (states : list ref)
    (i : nat) : result (heap * list ref) :=
  match fuel with
  | 0 => Err OutOfFuel
  | S fuel' =>
      match nth_error states i with
      | None => Ok (h, states)
      | Some state =>
          o <- deref h state ;;
          arcs0 <- move_sets cfuel nfa (nfaset o) [] ;;
          '(h', states') <- link_arcs (nfa_finish nfa) state arcs0 h states ;;
          dfa_loop fuel' cfuel nfa h' states' (S i)
      end
  end.

Definition _make_dfas (fuel : nat) (nfa : NFA) : result (heap * list ref) :=
  start <- closure fuel nfa (nfa_start nfa) ;;
  '(h, st) <- DFAState_new [] start (nfa_finish nfa) ;;
  dfa_loop fuel fuel nfa h [st] 0.

(** ** First-set analyser *)

(** The rule table of the generator ([self.dfas]): every rule owns the
    DFAState objects of its automaton. *)
Definition rule_table : Type := dict string (heap * list ref).

(** A slot of [self._first]: [None] is the dummy that marks a rule whose
    first set is being computed. *)
Definition first_slot : Type := option (pyset string).

(** [names = list(d.keys()); names.sort()] *)
Fixpoint insert_sorted (x : string) (l : list string) : list string :=
  match l with
  | [] => [x]
  | y :: rest => if String.leb x y then x :: l else y :: insert_sorted x rest
  end.

Definition sort (l : list string) : list string :=
  fold_right insert_sorted [] l.

(** The second loop of [_calcfirst]: [inverse] maps each symbol met so far
    to the arc label that brought it. *)
Fixpoint check_symbols (name label : string) (itsfirst : pyset string)
    (inverse : dict string string) : result (dict string string) :=
  match itsfirst with
  | [] => Ok inverse
  | symbol :: rest =>
      match dict_get symbol inverse with
      | Some other => Err (ValueError_ambiguous name symbol label other)
      | None => check_symbols name label rest (dict_set symbol label inverse)
      end
  end.

Fixpoint check_overlap (name : string) (items : dict string (pyset string))
    (inverse : dict string string) : result (dict string string) :=
  match items with
  | [] => Ok inverse
  | (label, itsfirst) :: rest =>
      inverse' <- check_symbols name label itsfirst inverse ;;
      check_overlap name rest inverse'
  end.

(** The first loop of [_calcfirst], over the arcs of the start state.
    [rec] is the recursive call [self._calcfirst]. *)
Fixpoint calcfirst_arcs
    (rec : string -> dict string first_slot -> result (dict string first_slot))
    (dfas : rule_table) (name : string) (items : dict string ref)
    (_first : dict string first_slot)
    (totalset : pyset string) (overlapcheck : dict string (pyset string))
  : result (dict string first_slot * pyset string * dict string (pyset string)) :=
  match items with
  | [] => Ok (_first, totalset, overlapcheck)
  | (label, _) :: rest =>
      if dict_mem label dfas then
        '(_first', slot) <-
          match dict_get label _first with
          | Some slot =>
              match slot with
              | None => Err (ValueError_recursion name)
              | Some _ => Ok (_first, slot)
              end
          | None =>
              _first' <- rec label _first ;;
              slot <- from_option (KeyError label) (dict_get label _first') ;;
              Ok (_first', slot)
          end ;;
        fset <- from_option TypeError slot ;;
        calcfirst_arcs rec dfas name rest _first'
          (set_update totalset fset) (dict_set label fset overlapcheck)
      else
        calcfirst_arcs rec dfas name rest _first
          (set_add label totalset) (dict_set label [label] overlapcheck)
  end.

Fixpoint _calcfirst (fuel : nat) (dfas : rule_table) (name : string)
    (_first : dict string first_slot) : result (dict string first_slot) :=
  match fuel with
  | 0 => Err OutOfFuel
  | S fuel' =>
      '(h, dfa) <- from_option (KeyError name) (dict_get name dfas) ;;
      let _first := dict_set name None _first in
      r <- from_option IndexError (nth_error dfa 0) ;;
      state <- deref h r ;;
      '(_first', totalset, overlapcheck) <-
        calcfirst_arcs (_calcfirst fuel' dfas) dfas name (arcs state)
          _first [] [] ;;
      _ <- check_overlap name overlapcheck [] ;;
      Ok (dict_set name (Some totalset) _first')
  end.

Fixpoint addfirstsets_loop (fuel : nat) (dfas : rule_table) (names : list string)
    (_first : dict string first_slot) : result (dict string first_slot) :=
  match names with
  | [] => Ok _first
  | name :: rest =>
      if dict_mem name _first then addfirstsets_loop fuel dfas rest _first
      else
        _first' <- _calcfirst fuel dfas name _first ;;
        addfirstsets_loop fuel dfas rest _first'
  end.

(** A chain of nested [_calcfirst] calls marks one more rule at every
    level, so it is never deeper than the number of rules. *)
Definition _addfirstsets (dfas : rule_table) (_first : dict string first_slot)
  : result (dict string first_slot) :=
  addfirstsets_loop (S (List.length dfas)) dfas (sort (dict_keys dfas)) _first.

(** ** Label and table assembler *)

Record Grammar : Type := {
  symbol2number : dict string Z;
  number2symbol : dict Z string;
  states : list (list (list (nat * nat)));
  dfas : dict Z (list (list (nat * nat)) * pyset nat);
  labels : list (Z * option string);
  keywords : dict string nat;
  tokens : dict Z nat;
  symbol2label : dict string nat;
  label2symbol : dict nat string;
  start : option string
}.

(** Modelled from the spec: the constructor of [Grammar]
    (parso/pgen2/grammar.py, not among the sources).  All tables start
    empty, except that label id 0 is the reserved entry that stands for
    "rule accepted". *)
Definition Grammar_new (start_symbol : option string) : Grammar :=
  {| symbol2number := [];
     number2symbol := [];
     states := [];
     dfas := [];
     labels := [(0%Z, Some "EMPTY")];
     keywords := [];
     tokens := [];
     symbol2label := [];
     label2symbol := [];
     start := start_symbol |}.

(** The token namespace handed to the generator: [getattr(ns, label, None)]
    restricted to the attributes that are integers, and
    [ns.generate_token_id(value)]. *)
Record TokenNamespace : Type := {
  token_attr : string -> option Z;
  generate_token_id : string -> result Z
}.

(** [c.isalpha()] on a one-character string, for the ASCII range. *)
Definition isalpha (c : ascii) : bool :=
  let n := nat_of_ascii c in
  ((65 <=? n) && (n <=? 90)) || ((97 <=? n) && (n <=? 122)).

Definition is_quote (c : ascii) : bool :=
  (nat_of_ascii c =? 34) || (nat_of_ascii c =? 39).

Definition is_backslash (c : ascii) : bool := nat_of_ascii c =? 92.

(** The body of a string literal opened by [q]: everything up to the closing
    [q], which must end the text. *)
Fixpoint literal_body (q : ascii) (s : string) : result string :=
  match s with
  | EmptyString => Err SyntaxError
  | String c rest =>
      if Ascii.eqb c q then
        match rest with
        | EmptyString => Ok EmptyString
        | String _ _ => Err SyntaxError
        end
      else if is_backslash c then Err SyntaxError
      else
        body <- literal_body q rest ;;
        Ok (String c body)
  end.

(** [eval(label)] for a label that is a quoted literal without escape
    sequences; other texts are rejected. *)
Definition eval (label : string) : result string :=
  match label with
  | EmptyString => Err SyntaxError
  | String q rest => if is_quote q then literal_body q rest else Err SyntaxError
  end.

Section Assembler.
(** [token.NAME] of parso.python.token, the terminal class of names. *)
Variable token_NAME : Z.
Variable token_namespace : TokenNamespace.

Definition add_label (g : Grammar) (entry : Z * option string) : Grammar :=
  {| symbol2number := symbol2number g;
     number2symbol := number2symbol g;
     states := states g;
     dfas := dfas g;
     labels := labels g ++ [entry];
     keywords := keywords g;
     tokens := tokens g;
     symbol2label := symbol2label g;
     label2symbol := label2symbol g;
     start := start g |}.

Definition set_symbol_label (g : Grammar) (label : string) (ilabel : nat)
  : Grammar :=
  {| symbol2number := symbol2number g;
     number2symbol := number2symbol g;
     states := states g;
     dfas := dfas g;
     labels := labels g;
     keywords := keywords g;
     tokens := tokens g;
     symbol2label := dict_set label ilabel (symbol2label g);
     label2symbol := dict_set ilabel label (label2symbol g);
     start := start g |}.

Definition set_token (g : Grammar) (itoken : Z) (ilabel : nat) : Grammar :=
  {| symbol2number := symbol2number g;
     number2symbol := number2symbol g;
     states := states g;
     dfas := dfas g;
     labels := labels g;
     keywords := keywords g;
     tokens := dict_set itoken ilabel (tokens g);
     symbol2label := symbol2label g;
     label2symbol := label2symbol g;
     start := start g |}.

Definition set_keyword (g : Grammar) (value : string) (ilabel : nat)
  : Grammar :=
  {| symbol2number := symbol2number g;
     number2symbol := number2symbol g;
     states := states g;
     dfas := dfas g;
     labels := labels g;
     keywords := dict_set value ilabel (keywords g);
     tokens := tokens g;
     symbol2label := symbol2label g;
     label2symbol := label2symbol g;
     start := start g |}.

Definition set_symbol_number (g : Grammar) (name : string) (i : Z) : Grammar :=
  {| symbol2number := dict_set name i (symbol2number g);
     number2symbol := dict_set i name (number2symbol g);
     states := states g;
     dfas := dfas g;
     labels := labels g;
     keywords := keywords g;
     tokens := tokens g;
     symbol2label := symbol2label g;
     label2symbol := label2symbol g;
     start := start g |}.

Definition add_dfa (g : Grammar) (states0 : list (list (nat * nat)))
    (number : Z) (first : pyset nat) : Grammar :=
  {| symbol2number := symbol2number g;
     number2symbol := number2symbol g;
     states := states g ++ [states0];
     dfas := dict_set number (states0, first) (dfas g);
     labels := labels g;
     keywords := keywords g;
     tokens := tokens g;
     symbol2label := symbol2label g;
     label2symbol := label2symbol g;
     start := start g |}.

(** The tail shared by the named-token and the operator branch. *)
Definition label_of_token (g : Grammar) (itoken : Z) : nat * Grammar :=
  let ilabel := List.length (labels g) in
  match dict_get itoken (tokens g) with
  | Some l => (l, g)
  | None => (ilabel, set_token (add_label g (itoken, None)) itoken ilabel)
  end.

Definition _make_label (g : Grammar) (label : string) : result (nat * Grammar) :=
  let ilabel := List.length (labels g) in
  match label with
  | EmptyString => Err IndexError
  | String c _ =>
      if isalpha c then
        match dict_get label (symbol2number g) with
        | Some number =>
            match dict_get label (symbol2label g) with
            | Some l => Ok (l, g)
            | None =>
                Ok (ilabel,
                    set_symbol_label (add_label g (number, None)) label ilabel)
            end
        | None =>
            match token_attr token_namespace label with
            | None => Err (AssertionError label)
            | Some itoken => Ok (label_of_token g itoken)
            end
        end
      else if negb (is_quote c) then Err (AssertionError label)
      else
        value <- eval label ;;
        match value with
        | EmptyString => Err IndexError
        | String v _ =>
            if isalpha v then
              match dict_get value (keywords g) with
              | Some l => Ok (l, g)
              | None =>
                  Ok (ilabel,
                      set_keyword (add_label g (token_NAME, Some value))
                        value ilabel)
              end
            else
              itoken <- generate_token_id token_namespace value ;;
              Ok (label_of_token g itoken)
        end
  end.

(** [for label in rawfirst: first[self._make_label(grammar, label)] = 1] *)
Fixpoint make_first_loop (g : Grammar) (rawfirst : pyset string)
    (first : pyset nat) : result (pyset nat * Grammar) :=
  match rawfirst with
  | [] => Ok (first, g)
  | label :: rest =>
      '(ilabel, g') <- _make_label g label ;;
      make_first_loop g' rest (set_add ilabel first)
  end.

Definition _make_first (_first : dict string first_slot) (g : Grammar)
    (name : string) : result (pyset nat * Grammar) :=
  slot <- from_option (KeyError name) (dict_get name _first) ;;
  rawfirst <- from_option TypeError slot ;;
  make_first_loop g rawfirst [].

(** [dfa.index(x)]: the first position whose element is [x] or equals it. *)
Fixpoint index_from (h : heap) (dfa : list ref) (x : ref) (k : nat)
  : result nat :=
  match dfa with
  | [] => Err ValueError_not_in_list
  | e :: rest =>
      if e =? x then Ok k
      else
        b <- DFAState_eq h e x ;;
        if b then Ok k else index_from h rest x (S k)
  end.

Definition index (h : heap) (dfa : list ref) (x : ref) : result nat :=
  index_from h dfa x 0.

(** [for label, next in state.arcs.items(): arcs.append(...)] *)
Fixpoint make_arcs (h : heap) (dfa : list ref) (items : dict string ref)
    (g : Grammar) : result (list (nat * nat) * Grammar) :=
  match items with
  | [] => Ok ([], g)
  | (label, next) :: rest =>
      '(ilabel, g1) <- _make_label g label ;;
      target <- index h dfa next ;;
      '(arcs0, g2) <- make_arcs h dfa rest g1 ;;
      Ok ((ilabel, target) :: arcs0, g2)
  end.

(** [for state in dfa: ...; states.append(arcs)] *)
Fixpoint make_states (h : heap) (dfa : list ref) (todo : list ref)
    (g : Grammar) : result (list (list (nat * nat)) * Grammar) :=
  match todo with
  | [] => Ok ([], g)
  | state :: rest =>
      o <- deref h state ;;
      '(arcs0, g1) <- make_arcs h dfa (arcs o) g ;;
      arcs1 <- (if isfinal o then
                  self <- index h dfa state ;;
                  Ok (arcs0 ++ [(0, self)])
                else Ok arcs0) ;;
      '(states0, g2) <- make_states h dfa rest g1 ;;
      Ok (arcs1 :: states0, g2)
  end.

(** The first loop of [make_grammar]. *)
Fixpoint number_symbols (names : list string) (g : Grammar) : Grammar :=
  match names with
  | [] => g
  | name :: rest =>
      let i := (256 + Z.of_nat (List.length (symbol2number g)))%Z in
      number_symbols rest (set_symbol_number g name i)
  end.

(** The second loop of [make_grammar]. *)
Fixpoint assemble (rules : rule_table) (_first : dict string first_slot)
    (names : list string) (g : Grammar) : result Grammar :=
  match names with
  | [] => Ok g
  | name :: rest =>
      '(h, dfa) <- from_option (KeyError name) (dict_get name rules) ;;
      '(states0, g1) <- make_states h dfa dfa g ;;
      '(first, g2) <- _make_first _first g1 name ;;
      number <- from_option (KeyError name) (dict_get name (symbol2number g2)) ;;
      assemble rules _first rest (add_dfa g2 states0 number first)
  end.

Definition make_grammar (rules : rule_table) (g : Grammar) : result Grammar :=
  _first <- _addfirstsets rules [] ;;
  let names := sort (dict_keys rules) in
  assemble rules _first names (number_symbols names g).

(** The loop of [generate_grammar] over the fragments of the grammar
    parser. *)
Fixpoint convert_rules (fuel : nat) (fragments : list NFA)
    (rule_to_dfas : rule_table) (start_symbol : option string)
  : result (rule_table * option string) :=
  match fragments with
  | [] => Ok (rule_to_dfas, start_symbol)
  | nfa :: rest =>
      '(h, dfas0) <- _make_dfas fuel nfa ;;
      '(h', dfas1) <- _simplify_dfas h dfas0 ;;
      convert_rules fuel rest
        (dict_set (from_rule nfa) (h', dfas1) rule_to_dfas)
        (match start_symbol with
         | None => Some (from_rule nfa)
         | Some s => Some s
         end)
  end.

Definition generate_grammar (fuel : nat) (fragments : list NFA)
  : result Grammar :=
  '(rule_to_dfas, start_symbol) <- convert_rules fuel fragments [] None ;;
  make_grammar rule_to_dfas (Grammar_new start_symbol).
End Assembler.

(** ** Sample inputs

    NFA fragments as the grammar parser builds them: an atom is a pair of
    states joined by a labelled arc, a sequence joins atoms by epsilon arcs,
    an alternation adds a common start and a common finish state. *)
Module Samples.
Definition fragment (name : string)
    (a : list (list (option string * NFAState))) (s f : NFAState) : NFA :=
  {| from_rule := name; nfa_arcs := a; nfa_start := s; nfa_finish := f |}.

(** [a: a 'x' | 'y'] *)
Definition left_recursive : NFA :=
  fragment "a"
    [ [(Some "a", 1)]; [(None, 2)]; [(Some "'x'", 3)]; [(None, 7)];
      [(Some "'y'", 5)]; [(None, 7)]; [(None, 0); (None, 4)]; [] ] 6 7.

(** [a: b | c] *)
Definition a_is_b_or_c : NFA :=
  fragment "a"
    [ [(Some "b", 1)]; [(None, 5)]; [(Some "c", 3)]; [(None, 5)];
      [(None, 0); (None, 2)]; [] ] 4 5.

(** [a: b] *)
Definition a_is_b : NFA :=
  fragment "a" [ [(Some "b", 1)]; [] ] 0 1.

(** [<name>: 'x'] *)
Definition is_x (name : string) : NFA :=
  fragment name [ [(Some "'x'", 1)]; [] ] 0 1.

(** [start: ('a' | 'b') 'c'] *)
Definition a_or_b_then_c : NFA :=
  fragment "start"
    [ [(Some "'a'", 1)]; [(None, 5)]; [(Some "'b'", 3)]; [(None, 5)];
      [(None, 0); (None, 2)]; [(None, 6)]; [(Some "'c'", 7)]; [] ] 4 7.

(** [comp_op: '<>' | '!='] *)
Definition comp_op : NFA :=
  fragment "comp_op"
    [ [(Some "'<>'", 1)]; [(None, 5)]; [(Some "'!='", 3)]; [(None, 5)];
      [(None, 0); (None, 2)]; [] ] 4 5.

(** A token namespace in the manner of Python's token module: [NAME],
    [NUMBER] and [STRING] are named classes, and the two spellings of
    "not equal" belong to one class. *)
Definition opmap : dict string Z :=
  [ ("(", 7); (")", 8); ("<", 20); (">", 21); ("==", 28);
    ("!=", 29); ("<>", 29) ]%Z.

Definition python_tokens : TokenNamespace :=
  {| token_attr := fun name =>
       dict_get name [ ("ENDMARKER", 0); ("NAME", 1); ("NUMBER", 2);
                       ("STRING", 3); ("NEWLINE", 4) ]%Z;
     generate_token_id := fun value =>
       from_option (KeyError value) (dict_get value opmap) |}.

Definition NAME : Z := 1.

(** The rule table [generate_grammar] builds from the fragments. *)
Definition rules_of (fragments : list NFA) : rule_table :=
  match convert_rules 20 fragments [] None with
  | Ok (rules, _) => rules
  | Err _ => []
  end.

(** The states of [start: ('a' | 'b') 'c'] before minimisation. *)
Definition a_or_b_then_c_dfa : heap * list ref :=
  Eval vm_compute in
    match _make_dfas 20 a_or_b_then_c with
    | Ok r => r
    | Err _ => ([], [])
    end.

Definition left_recursive_rules : rule_table :=
  Eval vm_compute in rules_of [left_recursive].

Definition ambiguous_rules : rule_table :=
  Eval vm_compute in rules_of [a_is_b_or_c; is_x "b"; is_x "c"].

(** [b: 'x'] and [a: b], in this order. *)
Definition b_then_a_rules : rule_table :=
  Eval vm_compute in rules_of [is_x "b"; a_is_b].

Definition comp_op_rules : rule_table :=
  Eval vm_compute in rules_of [comp_op].
End Samples.

(** * Vocabulary of the properties *)

(** ** The minimiser: heaps, state lists and merges *)

(** Every reference of [l] names an object of [h]. *)
Definition valid (h : heap) (l : list ref) : Prop :=
  Forall (fun r => r < List.length h) l.

(** One merge of [_simplify_dfas]: [state_j], the first state after
    position [i] that equals [state_i], leaves the list, and the arcs of the
    states that remain are redirected from it to [state_i]. *)
Definition merge_step (h : heap) (dfas : list ref) (h' : heap)
    (dfas' : list ref) : Prop :=
  exists i j state_i state_j,
    i < j /\
    nth_error dfas i = Some state_i /\
    nth_error dfas j = Some state_j /\
    DFAState_eq h state_i state_j = Ok true /\
    dfas' = del dfas j /\
    unify_all h dfas' state_j state_i = Ok h'.

(** The list and heap reached from [(h, dfas)] by a sequence of merges. *)
Inductive merges (h : heap) (dfas : list ref) : heap -> list ref -> Prop :=
| merges_none : merges h dfas h dfas
| merges_more (h1 : heap) (dfas1 : list ref) (h2 : heap) (dfas2 : list ref) :
    merges h dfas h1 dfas1 -> merge_step h1 dfas1 h2 dfas2 ->
    merges h dfas h2 dfas2.

(** No state equals a later state of the list. *)
Definition irredundant (h : heap) (dfas : list ref) : Prop :=
  forall i j a b,
    i < j -> nth_error dfas i = Some a -> nth_error dfas j = Some b ->
    DFAState_eq h a b = Ok false.

(** The arc maps of all objects have distinct labels. *)
Definition wf_arcs (h : heap) : Prop :=
  Forall (fun o => NoDup (dict_keys (arcs o))) h.

(** Every arc of a state of the list leads to a state of the list. *)
Definition closed (h : heap) (dfas : list ref) : Prop :=
  forall r o label t,
    In r dfas -> nth_error h r = Some o -> In (label, t) (arcs o) ->
    In t dfas.

(** [o'] is [o] up to the targets of its arcs. *)
Definition same_shape (o o' : DFAState) : Prop :=
  nfaset o' = nfaset o /\ isfinal o' = isfinal o /\
  dict_keys (arcs o') = dict_keys (arcs o).

(** The arcs of [o] that lead to [keep] still do so in [o']. *)
Definition keeps_arcs_to (keep : ref) (o o' : DFAState) : Prop :=
  forall label,
    dict_get label (arcs o) = Some keep -> dict_get label (arcs o') = Some keep.

(** The properties that [_simplify_dfas] maintains from one merge to the
    next, relative to the heap [h0] and the first state [dfas0] it was
    given. *)
Definition simplify_inv (h0 : heap) (dfas0 : list ref) (h : heap)
    (dfas : list ref) : Prop :=
  valid h dfas /\ NoDup dfas /\ incl dfas dfas0 /\
  nth_error dfas 0 = nth_error dfas0 0 /\
  Forall2 same_shape h0 h /\
  (forall keep, nth_error dfas0 0 = Some keep ->
                Forall2 (keeps_arcs_to keep) h0 h) /\
  (closed h0 dfas0 -> closed h dfas).

(** ** The subset constructor *)

(** The candidate targets: distinct labels, each with a non-empty set of NFA
    states without repetition. *)
Definition wf_moves (arcs0 : dict string (pyset NFAState)) : Prop :=
  NoDup (dict_keys arcs0) /\
  forall label s, In (label, s) arcs0 -> NoDup s /\ s <> [].

(** What holds of the objects of [_make_dfas] at every moment: the list
    [states] names all of them in the order of their creation; every state
    stands for a non-empty set of NFA states and is final when the finish
    state is among them; no two states stand for the same set; the arcs of a
    state have distinct labels and lead to existing states. *)
Definition dfa_inv (finish : NFAState) (h : heap) (states : list ref) : Prop :=
  states = seq 0 (List.length h) /\
  (forall o, In o h ->
             NoDup (nfaset o) /\ nfaset o <> [] /\
             isfinal o = set_mem finish (nfaset o)) /\
  (forall k1 k2 o1 o2,
      k1 < k2 -> nth_error h k1 = Some o1 -> nth_error h k2 = Some o2 ->
      set_eqb (nfaset o1) (nfaset o2) = false) /\
  wf_arcs h /\
  (forall o label t, In o h -> In (label, t) (arcs o) -> t < List.length h).

(** The states from position [i] on have no arcs yet. *)
Definition fresh_from (i : nat) (h : heap) : Prop :=
  forall k o, i <= k -> nth_error h k = Some o -> arcs o = [].

(** The heap while state [i] is processed: objects are added, the NFA sets
    stay, and only object [i] is written to. *)
Definition grows (i : nat) (h h' : heap) : Prop :=
  forall k o,
    nth_error h k = Some o ->
    exists o', nth_error h' k = Some o' /\ nfaset o' = nfaset o /\
               isfinal o' = isfinal o /\ (k <> i -> o' = o).

(** The arc made for a candidate target leads to a state that stands for
    this very set. *)
Definition link_rel (h : heap) (item : string * pyset NFAState)
    (arc : string * ref) : Prop :=
  fst arc = fst item /\
  exists o, nth_error h (snd arc) = Some o /\
            set_eqb (nfaset o) (snd item) = true.

(** State [k] has been processed: its arcs are the candidate targets of its
    NFA set, label by label, each leading to the state that stands for the
    candidate. *)
Definition processed (cfuel : nat) (nfa : NFA) (h : heap) (k : nat) : Prop :=
  exists o arcs0,
    nth_error h k = Some o /\
    move_sets cfuel nfa (nfaset o) [] = Ok arcs0 /\
    Forall2 (link_rel h) arcs0 (arcs o).

(** The states of [h] are in [h'], and stand for the same NFA sets. *)
Definition extends (h h' : heap) : Prop :=
  forall k o,
    nth_error h k = Some o ->
    exists o', nth_error h' k = Some o' /\ nfaset o' = nfaset o /\
               isfinal o' = isfinal o.

(** The arcs of the fragment lead to states of the fragment, and so does
    its start. *)
Definition nfa_wf (nfa : NFA) : Prop :=
  nfa_start nfa < List.length (nfa_arcs nfa) /\
  forall state label next,
    In (label, next) (arcs_of nfa state) -> next < List.length (nfa_arcs nfa).

(** The states of an [n]-state fragment that are not in [base].  A call of
    [addclosure] that goes on puts one of them into [base], so their number
    bounds the depth of the recursion. *)
Definition unvisited (n : nat) (base : pyset NFAState) : nat :=
  List.length (filter (fun s => negb (set_mem s base)) (seq 0 n)).

(** The set [s] of states of an [n]-state fragment as a row of [n]
    membership bits... *)
Definition membership (n : nat) (s : pyset NFAState) : list bool :=
  map (fun k => set_mem k s) (seq 0 n).

(** ... and all rows of [n] bits. *)
Fixpoint bit_rows (n : nat) : list (list bool) :=
  match n with
  | 0 => [[]]
  | S n' => map (cons true) (bit_rows n') ++ map (cons false) (bit_rows n')
  end.

(** ** First sets *)

(** What the arc [label] of a start state contributes to the first set:
    the label itself if it is a terminal, the first set of the rule in the
    table [_first] if it names a rule. *)
Definition contribution (dfas : rule_table) (_first : dict string first_slot)
    (label : string) : pyset string :=
  if dict_mem label dfas then
    match dict_get label _first with
    | Some (Some fset) => fset
    | _ => []
    end
  else [label].

(** The first sets computed so far have no repeated symbol. *)
Definition first_wf (_first : dict string first_slot) : Prop :=
  forall k fs, dict_get k _first = Some (Some fs) -> NoDup fs.

(** What the loop over the arcs relies on in a recursive call: called on a
    rule that has no slot yet, it leaves the slots of the other rules
    alone. *)
Definition stable_call
    (rec : string -> dict string first_slot -> result (dict string first_slot))
  : Prop :=
  forall label f f',
    rec label f = Ok f' -> dict_get label f = None -> first_wf f ->
    first_wf f' /\ (forall k v, dict_get k f = Some v -> dict_get k f' = Some v).

(** [invokes dfas fuel name f fuel' name' f']: the call
    [_calcfirst(name)], entered with the table [f], comes to the call
    [_calcfirst(name')] with the table [f'], directly or through the calls
    for the rules referenced at the start of one another. *)
Inductive invokes (dfas : rule_table)
  : nat -> string -> dict string first_slot ->
    nat -> string -> dict string first_slot -> Prop :=
| invokes_here (fuel : nat) (name : string) (f : dict string first_slot) :
    invokes dfas fuel name f fuel name f
| invokes_arc (fuel : nat) (name : string) (f : dict string first_slot)
    (h : heap) (dfa : list ref) (r : ref) (state : DFAState)
    (pre rest : dict string ref) (label : string) (next : ref)
    (f1 : dict string first_slot) (t1 : pyset string)
    (oc1 : dict string (pyset string))
    (fuel' : nat) (name' : string) (f' : dict string first_slot) :
    dict_get name dfas = Some (h, dfa) ->
    nth_error dfa 0 = Some r ->
    nth_error h r = Some state ->
    arcs state = pre ++ (label, next) :: rest ->
    calcfirst_arcs (_calcfirst fuel dfas) dfas name pre
      (dict_set name None f) [] [] = Ok (f1, t1, oc1) ->
    dict_mem label dfas = true ->
    dict_get label f1 = None ->
    invokes dfas fuel label f1 fuel' name' f' ->
    invokes dfas (S fuel) name f fuel' name' f'.

(** [make_grammar], on its way through the sorted rule names, comes to the
    call [_calcfirst(name')] with the table [f']. *)
Definition analysis_invokes (rules : rule_table) (fuel' : nat) (name' : string)
    (f' : dict string first_slot) : Prop :=
  exists names_before name names_after f,
    sort (dict_keys rules) = names_before ++ name :: names_after /\
    addfirstsets_loop (S (List.length rules)) rules names_before [] = Ok f /\
    dict_mem name f = false /\
    invokes rules (S (List.length rules)) name f fuel' name' f'.

(** The rules that have no slot in the table [f] yet.  A call of
    [_calcfirst] gives a slot to one of them, so their number bounds the
    depth of the recursion. *)
Definition missing (dfas : rule_table) (f : dict string first_slot) : nat :=
  List.length (filter (fun k => negb (dict_mem k f)) (dict_keys dfas)).

(** ** Names, labels and tables *)



(** The number of the [k]-th rule name: the numbers below 256 are left to
    the terminals. *)
Definition symbol_number (k : nat) : Z := (256 + Z.of_nat k)%Z.

(** The kinds of labels [_make_label] tells apart, each with the key under
    which its id is kept: a rule name in [symbol2label], a terminal class
    (for a named token or an operator) in [tokens], a keyword in
    [keywords]. *)
Inductive label_kind : Type :=
| SymbolRef (name : string)
| TokenClass (itoken : Z)
| Keyword (value : string).

(** The id already given to a kind, if any. *)
Definition label_of (g : Grammar) (k : label_kind) : option nat :=
  match k with
  | SymbolRef name => dict_get name (symbol2label g)
  | TokenClass itoken => dict_get itoken (tokens g)
  | Keyword value => dict_get value (keywords g)
  end.

Section ClassifierVocabulary.
Variable token_NAME : Z.
Variable token_namespace : TokenNamespace.

(** The branch [_make_label] takes for [label]: the kind of the label and
    the entry it appends to [labels] on first use. *)
Definition classify (g : Grammar) (label : string)
  : result (label_kind * (Z * option string)) :=
  match label with
  | EmptyString => Err IndexError
  | String c _ =>
      if isalpha c then
        match dict_get label (symbol2number g) with
        | Some number => Ok (SymbolRef label, (number, None))
        | None =>
            match token_attr token_namespace label with
            | None => Err (AssertionError label)
            | Some itoken => Ok (TokenClass itoken, (itoken, None))
            end
        end
      else if negb (is_quote c) then Err (AssertionError label)
      else
        value <- eval label ;;
        match value with
        | EmptyString => Err IndexError
        | String v _ =>
            if isalpha v then Ok (Keyword value, (token_NAME, Some value))
            else
              itoken <- generate_token_id token_namespace value ;;
              Ok (TokenClass itoken, (itoken, None))
        end
  end.

(** The first use of a kind: one more entry in [labels], and its index
    recorded under the key of the kind. *)
Definition assign (g : Grammar) (k : label_kind) (entry : Z * option string)
  : Grammar :=
  let ilabel := List.length (labels g) in
  match k with
  | SymbolRef name => set_symbol_label (add_label g entry) name ilabel
  | TokenClass itoken => set_token (add_label g entry) itoken ilabel
  | Keyword value => set_keyword (add_label g entry) value ilabel
  end.

(** [label] has the id [i] in [g]. *)
Definition known (g : Grammar) (label : string) (i : nat) : Prop :=
  exists k entry, classify g label = Ok (k, entry) /\ label_of g k = Some i.

(** The relation between an arc of a state and its entry in the table of
    the grammar [g]. *)
Definition arc_entry (g : Grammar) (h : heap) (dfa : list ref)
    (arc : string * ref) (entry : nat * nat) : Prop :=
  known g (fst arc) (fst entry) /\
  index h dfa (snd arc) = Ok (snd entry).

(** The relation between a state and its list of entries. *)
Definition state_entry (g : Grammar) (h : heap) (dfa : list ref)
    (state : ref) (entries : list (nat * nat)) : Prop :=
  exists o arcs0,
    nth_error h state = Some o /\
    Forall2 (arc_entry g h dfa) (arcs o) arcs0 /\
    (if isfinal o
     then exists self, index h dfa state = Ok self /\
                       entries = arcs0 ++ [(0, self)]
     else entries = arcs0).
End ClassifierVocabulary.

(** The ids in use: they start at 1, index [labels], and belong to one kind
    each. *)
Definition label_inv (g : Grammar) : Prop :=
  1 <= List.length (labels g) /\
  (forall k i, label_of g k = Some i -> 1 <= i < List.length (labels g)) /\
  (forall k1 k2 i, label_of g k1 = Some i -> label_of g k2 = Some i -> k1 = k2).

(** [g'] is [g] after more labels were classified: the symbol numbers are
    the same, [labels] has grown at its end, every id is kept. *)
Definition grammar_le (g g' : Grammar) : Prop :=
  symbol2number g' = symbol2number g /\
  number2symbol g' = number2symbol g /\
  (exists more, labels g' = labels g ++ more) /\
  (forall k i, label_of g k = Some i -> label_of g' k = Some i).

(** The kind of a label, if the label can be classified. *)
Definition kind_of (token_NAME : Z) (ns : TokenNamespace) (g : Grammar)
    (label : string) : option label_kind :=
  match classify token_NAME ns g label with
  | Ok (k, _) => Some k
  | Err _ => None
  end.

(** The grammar just before the first set of rule [a] is translated, when
    [make_grammar] compiles [b: 'x'] and [a: b]: the symbols are numbered
    and the arcs of [a] are in the table. *)
Definition grammar_before_first_of_a : Grammar :=
  {| symbol2number := [("a", 256%Z); ("b", 257%Z)];
     number2symbol := [(256%Z, "a"); (257%Z, "b")];
     states := [];
     dfas := [];
     labels := [(0%Z, Some "EMPTY"); (257%Z, None)];
     keywords := [];
     tokens := [];
     symbol2label := [("b", 1)];
     label2symbol := [(1, "b")];
     start := Some "b" |}.

(** ** Epsilon closure as reachability *)

(** [y] is reached from [s] through epsilon arcs alone. *)
Inductive eps_reach (nfa : NFA) (s : NFAState) : NFAState -> Prop :=
| eps_here : eps_reach nfa s s
| eps_more (x y : NFAState) :
    eps_reach nfa s x -> In (None, y) (arcs_of nfa x) -> eps_reach nfa s y.

(** The set [base] has the epsilon successors of its members. *)
Definition eps_closed (nfa : NFA) (base : pyset NFAState) : Prop :=
  forall x y, In x base -> In (None, y) (arcs_of nfa x) -> In y base.

(** ** The language of a fragment and of its automaton *)

(** [nfa_run nfa s w s']: the NFA gets from [s] to [s'] reading the labels
    [w]; epsilon arcs read nothing. *)
Inductive nfa_run (nfa : NFA) : NFAState -> list string -> NFAState -> Prop :=
| nfa_stay (s : NFAState) : nfa_run nfa s [] s
| nfa_eps (s t : NFAState) (w : list string) (s' : NFAState) :
    In (None, t) (arcs_of nfa s) -> nfa_run nfa t w s' -> nfa_run nfa s w s'
| nfa_read (s : NFAState) (label : string) (t : NFAState) (w : list string)
    (s' : NFAState) :
    In (Some label, t) (arcs_of nfa s) -> nfa_run nfa t w s' ->
    nfa_run nfa s (label :: w) s'.

(** The label sequences of the rule: from the start state to the finish
    state. *)
Definition nfa_accepts (nfa : NFA) (w : list string) : Prop :=
  nfa_run nfa (nfa_start nfa) w (nfa_finish nfa).

(** The state a DFA comes to from [r] along the arcs labelled [w]. *)
Fixpoint run_dfa (h : heap) (r : ref) (w : list string) : option ref :=
  match w with
  | [] => Some r
  | label :: rest =>
      match nth_error h r with
      | Some o =>
          match dict_get label (arcs o) with
          | Some t => run_dfa h t rest
          | None => None
          end
      | None => None
      end
  end.

(** The DFA accepts [w] from [r]: the run ends in a final state. *)
Definition dfa_accepts (h : heap) (r : ref) (w : list string) : bool :=
  match run_dfa h r w with
  | Some r' =>
      match nth_error h r' with
      | Some o => isfinal o
      | None => false
      end
  | None => false
  end.

(** The candidate targets [arcs0] after the arcs [done] have been gone
    through: a label has a set exactly if one of the arcs has it, and the
    set holds what is reached from the targets of these arcs through
    epsilon arcs. *)
Definition move_spec (nfa : NFA) (done : list (option string * NFAState))
    (arcs0 : dict string (pyset NFAState)) : Prop :=
  forall label,
    match dict_get label arcs0 with
    | None => forall y, ~ In (Some label, y) done
    | Some s =>
        eps_closed nfa s /\
        forall x, In x s <->
                  exists y, In (Some label, y) done /\ eps_reach nfa y x
    end.

(** ** First-set analyser: what the computed table holds *)

(** The arcs of the start state of a rule. *)
Definition start_arcs (dfas : rule_table) (name : string)
  : option (dict string ref) :=
  match dict_get name dfas with
  | Some (h, dfa) =>
      match nth_error dfa 0 with
      | Some r => option_map arcs (nth_error h r)
      | None => None
      end
  | None => None
  end.

(** The rule [name] refers to the rule [label] at its start: the start state
    of [name] has an arc with this label. *)
Definition refers (dfas : rule_table) (name label : string) : Prop :=
  exists items,
    start_arcs dfas name = Some items /\ In label (dict_keys items) /\
    dict_mem label dfas = true.

(** The rule [label] is referred to by [name]; a rule is accessible for
    this relation when no chain of references from it goes on for ever. *)
Definition referred_by (dfas : rule_table) (label name : string) : Prop :=
  refers dfas name label.

(** The first symbols of a rule: the terminals on the arcs of its start
    state, and the first symbols of the rules on these arcs. *)
Inductive first_of (dfas : rule_table) : string -> string -> Prop :=
| first_terminal (name : string) (items : dict string ref) (label : string) :
    start_arcs dfas name = Some items -> In label (dict_keys items) ->
    dict_mem label dfas = false -> first_of dfas name label
| first_rule (name label s : string) :
    refers dfas name label -> first_of dfas label s -> first_of dfas name s.

(** The first symbols of an arc: its label if that is a terminal, the
    first symbols of the rule it names otherwise. *)
Definition arc_first (dfas : rule_table) (label s : string) : Prop :=
  if dict_mem label dfas then first_of dfas label s else s = label.

(** [fs] is the first set of [name] with respect to the table [f]: the
    rules referenced at the start of [name] have their first sets in [f],
    [fs] holds what the arcs of the start state contribute and nothing
    else, no two of these arcs contribute a common symbol, and no symbol of
    [fs] names a rule; the symbols of [fs] are first symbols of [name], and
    no chain of references from [name] goes on for ever. *)
Definition solved (dfas : rule_table) (f : dict string first_slot)
    (name : string) (fs : pyset string) : Prop :=
  exists items,
    start_arcs dfas name = Some items /\
    NoDup fs /\
    (forall label,
        In label (dict_keys items) -> dict_mem label dfas = true ->
        exists fset, dict_get label f = Some (Some fset)) /\
    (forall s,
        In s fs <->
        exists label, In label (dict_keys items) /\
                      In s (contribution dfas f label)) /\
    (forall l1 l2 s,
        In l1 (dict_keys items) -> In l2 (dict_keys items) ->
        In s (contribution dfas f l1) -> In s (contribution dfas f l2) ->
        l1 = l2) /\
    (forall s, In s fs -> dict_mem s dfas = false) /\
    (forall s, In s fs -> first_of dfas name s) /\
    Acc (referred_by dfas) name.

(** Every first set of the table is one. *)
Definition first_complete (dfas : rule_table) (f : dict string first_slot)
  : Prop :=
  forall name fs, dict_get name f = Some (Some fs) -> solved dfas f name fs.

(** The arc maps of the rule table have distinct labels. *)
Definition table_wf (dfas : rule_table) : Prop :=
  Forall (fun rule => wf_arcs (fst (snd rule))) dfas.

(** What the loop over the arcs needs of a recursive call, beyond
    [stable_call]: called on a rule without a slot, it leaves a table of
    first sets, with the first set of the rule in it and no dummy that was
    not there before. *)
Definition solving_call (dfas : rule_table)
    (rec : string -> dict string first_slot -> result (dict string first_slot))
  : Prop :=
  forall label f f',
    rec label f = Ok f' -> dict_get label f = None -> first_complete dfas f ->
    first_complete dfas f' /\
    (forall k v, dict_get k f = Some v -> dict_get k f' = Some v) /\
    (exists fs, dict_get label f' = Some (Some fs)) /\
    (forall k, dict_get k f' = Some None -> dict_get k f = Some None).

(** ** Label ids and the entries of [labels] *)

(** The entry of [labels] that describes a kind: the number of the rule, the
    terminal class, or [token.NAME] with the text of the keyword. *)
Definition entry_of (token_NAME : Z) (g : Grammar) (k : label_kind)
  : option (Z * option string) :=
  match k with
  | SymbolRef name =>
      option_map (fun number => (number, None)) (dict_get name (symbol2number g))
  | TokenClass itoken => Some (itoken, None)
  | Keyword value => Some (token_NAME, Some value)
  end.

(** Every id in use indexes the entry that describes its kind. *)
Definition labels_ok (token_NAME : Z) (g : Grammar) : Prop :=
  forall k i,
    label_of g k = Some i ->
    exists entry,
      entry_of token_NAME g k = Some entry /\
      nth_error (labels g) i = Some entry.

(** [symbol2label] and [label2symbol] are inverse to each other. *)
Definition symbol_labels_inverse (g : Grammar) : Prop :=
  forall name i,
    dict_get name (symbol2label g) = Some i <->
    dict_get i (label2symbol g) = Some name.

(** ** From the fragments to the rule table *)

(** The automaton [rule] is a minimised automaton of the fragment [nfa]:
    its references are in order, no state equals another one, and from its
    first state it accepts the label sequences of the fragment. *)
Definition rule_ok (nfa : NFA) (rule : heap * list ref) : Prop :=
  valid (fst rule) (snd rule) /\ NoDup (snd rule) /\ wf_arcs (fst rule) /\
  closed (fst rule) (snd rule) /\ irredundant (fst rule) (snd rule) /\
  exists start,
    nth_error (snd rule) 0 = Some start /\
    forall w, dfa_accepts (fst rule) start w = true <-> nfa_accepts nfa w.

(** ** First-set analyser: the errors it raises *)

(** The two errors of a grammar that the first-set analysis reports. *)
Definition grammar_error (e : exn) : Prop :=
  (exists name, e = ValueError_recursion name) \/
  (exists name symbol label other,
      e = ValueError_ambiguous name symbol label other).

(** The error [e] tells the truth about the grammar: the rule it reports
    as left-recursive comes back to itself along references at the start of
    rules; the two arcs it reports as ambiguous are different arcs of the
    start state of the rule, and the symbol is a first symbol of both. *)
Definition genuine (dfas : rule_table) (e : exn) : Prop :=
  match e with
  | OutOfFuel => True
  | ValueError_recursion name => clos_trans string (refers dfas) name name
  | ValueError_ambiguous name symbol label other =>
      exists items,
        start_arcs dfas name = Some items /\
        In label (dict_keys items) /\ In other (dict_keys items) /\
        label <> other /\
        arc_first dfas label symbol /\ arc_first dfas other symbol
  | _ => False
  end.

(** Every rule of the table has a start state. *)
Definition table_startable (dfas : rule_table) : Prop :=
  Forall (fun rule =>
            exists r state,
              nth_error (snd (snd rule)) 0 = Some r /\
              nth_error (fst (snd rule)) r = Some state) dfas.

(** What the loop over the arcs needs of a recursive call that fails: when
    the rules that carry the dummy lead to the rule of the call, the error
    is genuine. *)
Definition failing_call (dfas : rule_table)
    (rec : string -> dict string first_slot -> result (dict string first_slot))
  : Prop :=
  forall label f e,
    rec label f = Err e -> dict_mem label dfas = true ->
    dict_get label f = None -> first_complete dfas f ->
    (forall k, dict_get k f = Some None ->
               clos_trans string (refers dfas) k label) ->
    genuine dfas e.

(** ** The errors of the compiler *)

(** The references of every rule are in order, and the arcs of its states
    stay inside its list of states. *)
Definition table_closed (dfas : rule_table) : Prop :=
  Forall (fun rule =>
            valid (fst (snd rule)) (snd (snd rule)) /\
            closed (fst (snd rule)) (snd (snd rule))) dfas.

(** [label] is on an arc of a state of one of the rules. *)
Definition rule_label (rules : rule_table) (label : string) : Prop :=
  exists name h dfa r o next,
    dict_get name rules = Some (h, dfa) /\ In r dfa /\
    nth_error h r = Some o /\ In (label, next) (arcs o).

(** [label] is on an arc of one of the fragments. *)
Definition fragment_label (fragments : list NFA) (label : string) : Prop :=
  exists nfa state next,
    In nfa fragments /\ In (Some label, next) (arcs_of nfa state).

(** The labels that have no id, and the exception each of them stands for,
    given the names of the rules: the empty label ([label[0]]); a name that
    is neither a rule nor an attribute of the token namespace, and a text
    that starts with neither a letter nor a quote (the two [assert]s); a
    quoted text that [eval] rejects; the empty literal ([value[0]]); an
    operator for which [generate_token_id] raises. *)
Inductive label_failure (ns : TokenNamespace) (names : list string)
  : string -> exn -> Prop :=
| fail_empty_label : label_failure ns names EmptyString IndexError
| fail_unknown_name (c : ascii) (rest : string) :
    isalpha c = true -> ~ In (String c rest) names ->
    token_attr ns (String c rest) = None ->
    label_failure ns names (String c rest) (AssertionError (String c rest))
| fail_not_quoted (c : ascii) (rest : string) :
    isalpha c = false -> is_quote c = false ->
    label_failure ns names (String c rest) (AssertionError (String c rest))
| fail_literal (c : ascii) (rest : string) (e : exn) :
    isalpha c = false -> is_quote c = true ->
    eval (String c rest) = Err e ->
    label_failure ns names (String c rest) e
| fail_empty_literal (c : ascii) (rest : string) :
    isalpha c = false -> is_quote c = true ->
    eval (String c rest) = Ok EmptyString ->
    label_failure ns names (String c rest) IndexError
| fail_operator (c : ascii) (rest : string) (v : ascii) (more : string)
    (e : exn) :
    isalpha c = false -> is_quote c = true ->
    eval (String c rest) = Ok (String v more) -> isalpha v = false ->
    generate_token_id ns (String v more) = Err e ->
    label_failure ns names (String c rest) e.

(** ** The tables and the rules *)

(** A path in a table of the grammar: from the state at position [p] along
    entries with the label ids [ids] to the state at position [q].  The
    entry with the id 0 marks a final state and is no step. *)
Inductive table_run (table : list (list (nat * nat)))
  : nat -> list nat -> nat -> Prop :=
| table_stay (p : nat) : table_run table p [] p
| table_step (p : nat) (entries : list (nat * nat)) (i t : nat)
    (ids : list nat) (q : nat) :
    nth_error table p = Some entries -> In (i, t) entries -> i <> 0 ->
    table_run table t ids q -> table_run table p (i :: ids) q.

(** The table accepts the ids: a path from position 0 ends at a state that
    has the entry [(0, self)]. *)
Definition table_accepts (table : list (list (nat * nat))) (ids : list nat)
  : Prop :=
  exists q entries,
    table_run table 0 ids q /\ nth_error table q = Some entries /\
    In (0, q) entries.

(** ** Dumps *)

(** [_dump_nfa] and [_dump_dfas] print.  A function that prints returns the
    lines it has printed, in order, together with its outcome; after an
    exception nothing more is printed. *)

Definition printing (A : Type) : Type := list string * result A.

Definition pure {A : Type} (a : A) : printing A := ([], Ok a).

(** [print(line)] *)
Definition print (line : string) : printing unit := ([line], Ok tt).

Definition raising {A : Type} (r : result A) : printing A := ([], r).

Definition and_then {A B : Type} (m : printing A) (k : A -> printing B)
  : printing B :=
  match snd m with
  | Ok a => (fst m ++ fst (k a), snd (k a))
  | Err e => (fst m, Err e)
  end.

(** [str(n)], and ["%d" % n], for an index. *)
Definition str (n : nat) : string := NilZero.string_of_uint (Nat.to_uint n).

(** [for label, next in state.arcs.items():
       print("    %s -> %d" % (label, dfas.index(next)))] *)
Fixpoint dump_dfa_arcs (h : heap) (dfas : list ref) (items : dict string ref)
  : printing unit :=
  match items with
  | [] => pure tt
  | (label, next) :: rest =>
      and_then (raising (index h dfas next)) (fun j =>
      and_then (print ("    " ++ label ++ " -> " ++ str j)) (fun _ =>
      dump_dfa_arcs h dfas rest))
  end.

(** [for i, state in enumerate(dfas): ...], from position [i] on. *)
Fixpoint dump_dfa_states (h : heap) (dfas todo : list ref) (i : nat)
  : printing unit :=
  match todo with
  | [] => pure tt
  | state :: rest =>
      and_then (raising (deref h state)) (fun o =>
      and_then (print ("  State " ++ str i ++ " " ++
                       (if isfinal o then "(final)" else EmptyString))) (fun _ =>
      and_then (dump_dfa_arcs h dfas (arcs o)) (fun _ =>
      dump_dfa_states h dfas rest (S i))))
  end.

Definition _dump_dfas (h : heap) (name : string) (dfas : list ref)
  : printing unit :=
  and_then (print ("Dump of DFA for " ++ name)) (fun _ =>
  dump_dfa_states h dfas dfas 0).

(** [todo.index(next)] on NFA states, which are compared by identity;
    [None] when [next] is not in [todo]. *)
Fixpoint position (x : NFAState) (todo : list NFAState) : option nat :=
  match todo with
  | [] => None
  | y :: rest => if y =? x then Some 0 else option_map S (position x rest)
  end.

(** [for label, next in state.arcs: ...]: the arcs of one state, with the
    list [todo] as it grows. *)
Fixpoint dump_nfa_arcs (l : list (option string * NFAState))
    (todo : list NFAState) : printing (list NFAState) :=
  match l with
  | [] => pure todo
  | (label, next) :: rest =>
      let '(j, todo') :=
        match position next todo with
        | Some j => (j, todo)
        | None => (List.length todo, todo ++ [next])
        end in
      and_then (print (match label with
                       | None => "    -> " ++ str j
                       | Some text => "    " ++ text ++ " -> " ++ str j
                       end)) (fun _ =>
      dump_nfa_arcs rest todo')
  end.

(** [for i, state in enumerate(todo):], with [todo] growing under the
    iteration; [fuel] bounds the number of iterations. *)
Fixpoint dump_nfa_loop (fuel : nat) (nfa : NFA) (todo : list NFAState)
    (i : nat) : printing (list NFAState) :=
  match fuel with
  | 0 => raising (Err OutOfFuel)
  | S fuel' =>
      match nth_error todo i with
      | None => pure todo
      | Some state =>
          and_then (print ("  State " ++ str i ++ " " ++
                           (if state =? nfa_finish nfa then "(final)"
                            else EmptyString)))
            (fun _ =>
          and_then (dump_nfa_arcs (arcs_of nfa state) todo) (fun todo' =>
          dump_nfa_loop fuel' nfa todo' (S i)))
      end
  end.

Definition _dump_nfa (fuel : nat) (nfa : NFA) : printing unit :=
  and_then (print ("Dump of NFA for " ++ from_rule nfa)) (fun _ =>
  and_then (dump_nfa_loop fuel nfa [nfa_start nfa] 0) (fun _ =>
  pure tt)).

(** [x] is reached from [s] through arcs of the fragment, whatever their
    labels. *)
Inductive nfa_reach (nfa : NFA) (s : NFAState) : NFAState -> Prop :=
| reach_here : nfa_reach nfa s s
| reach_more (x : NFAState) (label : option string) (y : NFAState) :
    nfa_reach nfa s x -> In (label, y) (arcs_of nfa x) -> nfa_reach nfa s y.

(** The number of lines for the states [l]: one per state and one per arc. *)
Definition nfa_lines (nfa : NFA) (l : list NFAState) : nat :=
  list_sum (map (fun s => S (List.length (arcs_of nfa s))) l).

(** The number of lines for the states [l] of an automaton. *)
Definition dfa_lines (h : heap) (l : list ref) : nat :=
  list_sum (map (fun r => match nth_error h r with
                          | Some o => S (List.length (arcs o))
                          | None => 0
                          end) l).

(** * Properties *)

(** ** The error monad *)

Lemma bind_Ok {A B : Type} (m : result A) (k : A -> result B) (b : B) :
  bind m k = Ok b -> exists a, m = Ok a /\ k a = Ok b.
Proof. destruct m as [a|e]; simpl; intros E; [eauto | discriminate]. Qed.

Lemma bind_Err {A B : Type} (m : result A) (k : A -> result B) (e : exn) :
  m = Err e -> bind m k = Err e.
Proof. intros ->; reflexivity. Qed.

(** Invert a successful sequence of binds in hypothesis [H]. *)
Ltac inv_bind H :=
  let a := fresh "x" in
  let E := fresh "E" in
  apply bind_Ok in H; destruct H as (a & E & H).

Ltac inv_ok H := injection H as H; subst.

(** ** Dictionaries and sets *)

Section DictFacts.
Context {K V : Type} `{EqKey K}.

Lemma keqb_refl (k : K) : keqb k k = true.
Proof. destruct (keqb_spec k k); congruence. Qed.

Lemma keqb_neq (k k' : K) : k <> k' -> keqb k k' = false.
Proof. destruct (keqb_spec k k'); congruence. Qed.

Lemma dict_get_In (k : K) (v : V) (d : dict K V) :
  dict_get k d = Some v -> In (k, v) d.
Proof.
  induction d as [|[k' v'] d IH]; simpl; [discriminate|].
  destruct (keqb_spec k k') as [->|]; intros E.
  - inv_ok E. now left.
  - right; auto.
Qed.

Lemma dict_get_None (k : K) (d : dict K V) :
  dict_get k d = None <-> ~ In k (dict_keys d).
Proof.
  induction d as [|[k' v'] d IH]; simpl.
  - tauto.
  - destruct (keqb_spec k k') as [->|N].
    + split; [discriminate | intros F; exfalso; apply F; now left].
    + rewrite IH. split; intros F; [intros [?|?]; [congruence | tauto] | tauto].
Qed.

Lemma dict_mem_In (k : K) (d : dict K V) :
  dict_mem k d = true <-> In k (dict_keys d).
Proof.
  unfold dict_mem. destruct (dict_get k d) eqn:E.
  - split; [intros _ | reflexivity].
    apply dict_get_In in E. apply (in_map fst) in E. exact E.
  - apply dict_get_None in E. split; [discriminate | tauto].
Qed.

Lemma dict_mem_false (k : K) (d : dict K V) :
  dict_mem k d = false <-> ~ In k (dict_keys d).
Proof.
  rewrite <- dict_mem_In. destruct (dict_mem k d); split; congruence.
Qed.

Lemma In_dict_get (k : K) (v : V) (d : dict K V) :
  NoDup (dict_keys d) -> In (k, v) d -> dict_get k d = Some v.
Proof.
  induction d as [|[k' v'] d IH]; simpl; [tauto|].
  intros ND [E|I].
  - inv_ok E. now rewrite keqb_refl.
  - inversion ND as [|? ? N ND']; subst.
    destruct (keqb_spec k k') as [->|]; [|auto].
    exfalso. apply N. apply (in_map fst) in I. exact I.
Qed.

Lemma dict_get_set_same (k : K) (v : V) (d : dict K V) :
  dict_get k (dict_set k v d) = Some v.
Proof.
  induction d as [|[k' v'] d IH]; simpl.
  - now rewrite keqb_refl.
  - destruct (keqb_spec k k') as [->|N]; simpl.
    + now rewrite keqb_refl.
    + now rewrite (keqb_neq _ _ N).
Qed.

Lemma dict_get_set_other (k k0 : K) (v : V) (d : dict K V) :
  k0 <> k -> dict_get k0 (dict_set k v d) = dict_get k0 d.
Proof.
  intros N. induction d as [|[k' v'] d IH]; simpl.
  - now rewrite (keqb_neq _ _ N).
  - destruct (keqb_spec k k') as [->|N']; simpl.
    + now rewrite (keqb_neq _ _ N).
    + now rewrite IH.
Qed.

Lemma dict_keys_set (k : K) (v : V) (d : dict K V) :
  dict_keys (dict_set k v d) =
  if dict_mem k d then dict_keys d else dict_keys d ++ [k].
Proof.
  unfold dict_mem. induction d as [|[k' v'] d IH]; simpl; [reflexivity|].
  destruct (keqb_spec k k') as [->|N]; simpl; [reflexivity|].
  rewrite IH. now destruct (dict_get k d).
Qed.

Lemma dict_set_length (k : K) (v : V) (d : dict K V) :
  List.length (dict_set k v d) =
  if dict_mem k d then List.length d else S (List.length d).
Proof.
  unfold dict_mem. induction d as [|[k' v'] d IH]; simpl; [reflexivity|].
  destruct (keqb_spec k k') as [->|N]; simpl; [reflexivity|].
  rewrite IH. now destruct (dict_get k d).
Qed.

Lemma dict_set_new (k : K) (v : V) (d : dict K V) :
  dict_get k d = None -> dict_set k v d = d ++ [(k, v)].
Proof.
  induction d as [|[k' v'] d IH]; simpl; [reflexivity|].
  destruct (keqb_spec k k') as [->|N]; [discriminate|].
  intros E. now rewrite IH.
Qed.

Lemma dict_set_NoDup (k : K) (v : V) (d : dict K V) :
  NoDup (dict_keys d) -> NoDup (dict_keys (dict_set k v d)).
Proof.
  intros ND. rewrite dict_keys_set. destruct (dict_mem k d) eqn:E; [exact ND|].
  apply dict_mem_false in E.
  apply NoDup_incl_NoDup with (l := k :: dict_keys d).
  - now constructor.
  - rewrite length_app; simpl; lia.
  - intros x I. apply in_or_app. simpl in *. tauto.
Qed.

Lemma set_mem_In (k : K) (s : pyset K) : set_mem k s = true <-> In k s.
Proof.
  induction s as [|k' s IH]; simpl.
  - split; [discriminate | tauto].
  - destruct (keqb_spec k k') as [->|N].
    + split; auto.
    + rewrite IH. split; [tauto | intros [?|?]; [congruence | tauto]].
Qed.

Lemma set_mem_false (k : K) (s : pyset K) : set_mem k s = false <-> ~ In k s.
Proof.
  rewrite <- set_mem_In. destruct (set_mem k s); split; congruence.
Qed.

Lemma set_add_In (k x : K) (s : pyset K) :
  In x (set_add k s) <-> x = k \/ In x s.
Proof.
  unfold set_add. destruct (set_mem k s) eqn:E.
  - apply set_mem_In in E. split; [tauto | intros [->|?]; auto].
  - rewrite in_app_iff. simpl. split; [intros [?|[?|[]]]; auto | intros [?|?]; auto].
Qed.

Lemma set_add_NoDup (k : K) (s : pyset K) : NoDup s -> NoDup (set_add k s).
Proof.
  intros ND. unfold set_add. destruct (set_mem k s) eqn:E; [exact ND|].
  apply set_mem_false in E.
  apply NoDup_incl_NoDup with (l := k :: s).
  - now constructor.
  - rewrite length_app; simpl; lia.
  - intros x I. apply in_or_app. simpl in *. tauto.
Qed.

Lemma set_update_In (x : K) (other s : pyset K) :
  In x (set_update s other) <-> In x s \/ In x other.
Proof.
  unfold set_update. revert s.
  induction other as [|k other IH]; intros s; simpl; [tauto|].
  rewrite IH, set_add_In. intuition congruence.
Qed.

Lemma set_update_NoDup (other s : pyset K) :
  NoDup s -> NoDup (set_update s other).
Proof.
  unfold set_update. revert s.
  induction other as [|k other IH]; intros s ND; simpl; [exact ND|].
  apply IH. now apply set_add_NoDup.
Qed.

(** On duplicate-free key lists [==] is equality of the sets of keys. *)
Lemma set_eqb_true (s other : pyset K) :
  NoDup s ->
  set_eqb s other = true <->
  List.length s = List.length other /\ (forall x, In x s <-> In x other).
Proof.
  intros ND. unfold set_eqb.
  rewrite andb_true_iff, Nat.eqb_eq, forallb_forall.
  split.
  - intros [L I]. split; [exact L|].
    assert (I' : incl s other) by (intros x Hx; apply set_mem_In; auto).
    intros x; split; [apply I'|].
    apply NoDup_length_incl; [exact ND | lia | exact I'].
  - intros [L I]. split; [exact L|].
    intros x Hx. apply set_mem_In. now apply I.
Qed.
End DictFacts.

(** ** The heap of DFAState objects *)

Lemma deref_Ok (h : heap) (r : ref) (o : DFAState) :
  deref h r = Ok o <-> nth_error h r = Some o.
Proof.
  unfold deref. destruct (nth_error h r); simpl; split; congruence.
Qed.

Lemma deref_valid (h : heap) (r : ref) :
  r < List.length h -> exists o, deref h r = Ok o.
Proof.
  intros L. unfold deref. destruct (nth_error h r) eqn:E; simpl; [eauto|].
  apply nth_error_None in E. lia.
Qed.

Lemma deref_lt (h : heap) (r : ref) (o : DFAState) :
  deref h r = Ok o -> r < List.length h.
Proof.
  rewrite deref_Ok. intros E. apply nth_error_Some. congruence.
Qed.

Lemma store_length (h : heap) (r : ref) (o : DFAState) :
  List.length (store h r o) = List.length h.
Proof.
  revert r. induction h as [|x h IH]; intros [|r]; simpl; auto.
Qed.

Lemma nth_error_store_same (h : heap) (r : ref) (o : DFAState) :
  r < List.length h -> nth_error (store h r o) r = Some o.
Proof.
  revert r. induction h as [|x h IH]; intros [|r]; simpl; intros L;
    try lia; auto. apply IH. lia.
Qed.

Lemma nth_error_store_other (h : heap) (r r' : ref) (o : DFAState) :
  r' <> r -> nth_error (store h r o) r' = nth_error h r'.
Proof.
  revert r r'. induction h as [|x h IH]; intros [|r] [|r'] N; simpl;
    try congruence; auto.
Qed.

Lemma valid_length (h h' : heap) (l : list ref) :
  List.length h' = List.length h -> valid h l -> valid h' l.
Proof. unfold valid. intros ->. auto. Qed.

Lemma valid_incl (h : heap) (l l' : list ref) :
  incl l' l -> valid h l -> valid h l'.
Proof.
  unfold valid. rewrite !Forall_forall. intros I V x Hx. auto.
Qed.

(** A pointwise relation between two heaps is kept by a store that respects
    it. *)
Lemma Forall2_store (R : DFAState -> DFAState -> Prop) (h : heap) (r : ref)
    (o o' : DFAState) :
  (forall x, R x x) -> nth_error h r = Some o -> R o o' ->
  Forall2 R h (store h r o').
Proof.
  intros Rrefl. revert r.
  induction h as [|x h IH]; intros [|r]; simpl; try discriminate.
  - intros E Ro. inv_ok E. constructor; [exact Ro|].
    clear IH. induction h; constructor; auto.
  - intros E Ro. constructor; eauto.
Qed.

Lemma Forall2_refl {A : Type} (R : A -> A -> Prop) (l : list A) :
  (forall x, R x x) -> Forall2 R l l.
Proof. intros Rrefl. induction l; constructor; auto. Qed.

Lemma Forall2_trans {A : Type} (R : A -> A -> Prop) (l1 l2 l3 : list A) :
  (forall x y z, R x y -> R y z -> R x z) ->
  Forall2 R l1 l2 -> Forall2 R l2 l3 -> Forall2 R l1 l3.
Proof.
  intros Rtrans F. revert l3.
  induction F as [|x y l1 l2 Rxy F IH]; intros l3 G; inversion G; subst;
    constructor; eauto.
Qed.

Lemma Forall2_nth_error {A : Type} (R : A -> A -> Prop) (l1 l2 : list A)
    (n : nat) (x : A) :
  Forall2 R l1 l2 -> nth_error l1 n = Some x ->
  exists y, nth_error l2 n = Some y /\ R x y.
Proof.
  intros F. revert n.
  induction F as [|a b l1 l2 Rab F IH]; intros [|n]; simpl; try discriminate.
  - intros E. inv_ok E. eauto.
  - apply IH.
Qed.

(** ** Deleting from a list *)

Lemma del_length {A : Type} (l : list A) (j : nat) :
  j < List.length l -> S (List.length (del l j)) = List.length l.
Proof.
  revert j. induction l as [|x l IH]; intros [|j]; simpl; intros L;
    try lia. rewrite IH; lia.
Qed.

Lemma del_incl {A : Type} (l : list A) (j : nat) : incl (del l j) l.
Proof.
  unfold incl. revert j.
  induction l as [|x l IH]; intros [|j]; simpl; intros y I; auto.
  destruct I as [->|I]; [now left | right; eapply IH; eauto].
Qed.

Lemma del_NoDup {A : Type} (l : list A) (j : nat) :
  NoDup l -> NoDup (del l j).
Proof.
  revert j. induction l as [|x l IH]; intros [|j] ND; simpl; auto;
    inversion ND; subst; auto.
  constructor; auto. intros I. apply del_incl in I. contradiction.
Qed.

Lemma del_nth_error_lt {A : Type} (l : list A) (j k : nat) :
  k < j -> nth_error (del l j) k = nth_error l k.
Proof.
  revert j k. induction l as [|x l IH]; intros [|j] [|k] L; simpl;
    try lia; auto. apply IH. lia.
Qed.

Lemma del_nth_error_ge {A : Type} (l : list A) (j k : nat) :
  j <= k -> nth_error (del l j) k = nth_error l (S k).
Proof.
  revert j k. induction l as [|x l IH]; intros [|j] [|k] L; simpl;
    try lia; auto.
  apply IH. lia.
Qed.

(** In a list without repetition, deleting position [j] removes exactly the
    element found there. *)
Lemma del_In {A : Type} (l : list A) (j : nat) (x y : A) :
  NoDup l -> nth_error l j = Some x ->
  (In y (del l j) <-> In y l /\ y <> x).
Proof.
  revert j. induction l as [|a l IH]; intros [|j] ND E; simpl in *;
    try discriminate; inversion ND as [|? ? N ND']; subst.
  - inv_ok E. split.
    + intros I. split; [now right | intros ->; contradiction].
    + intros [[->|I] Ne]; [congruence | exact I].
  - rewrite (IH j ND' E). split.
    + intros [->|[I Ne]].
      * split; [now left|]. intros ->. apply N. eapply nth_error_In; eauto.
      * split; [now right | exact Ne].
    + intros [[->|I] Ne]; [now left | right; auto].
Qed.

(** ** State minimiser: the merge step *)

Lemma unify_arcs_keys (old new : ref) (a : dict string ref) :
  dict_keys (unify_arcs old new a) = dict_keys a.
Proof.
  unfold dict_keys, unify_arcs. rewrite map_map. apply map_ext.
  intros [l n]. now destruct (n =? old).
Qed.

Lemma unify_arcs_length (old new : ref) (a : dict string ref) :
  List.length (unify_arcs old new a) = List.length a.
Proof. apply length_map. Qed.

Lemma unify_arcs_get (old new : ref) (a : dict string ref) (label : string) :
  dict_get label (unify_arcs old new a) =
  option_map (fun n => if n =? old then new else n) (dict_get label a).
Proof.
  induction a as [|[l n] a IH]; simpl; [reflexivity|].
  destruct (n =? old) eqn:En; simpl; rewrite IH;
    destruct (String.eqb label l); simpl; rewrite ?En; reflexivity.
Qed.

Lemma unify_arcs_targets (old new : ref) (a : dict string ref)
    (label : string) (t : ref) :
  In (label, t) (unify_arcs old new a) ->
  (t = new /\ In (label, old) a) \/ (t <> old /\ In (label, t) a).
Proof.
  unfold unify_arcs. rewrite in_map_iff. intros ([l n] & E & I).
  destruct (Nat.eqb_spec n old) as [Eq|N]; injection E as E1 E2; subst; auto.
Qed.

Lemma unifystate_Ok (h h' : heap) (self old new : ref) :
  unifystate h self old new = Ok h' <->
  exists o, nth_error h self = Some o /\
            h' = store h self (set_arcs o (unify_arcs old new (arcs o))).
Proof.
  unfold unifystate. split.
  - intros E. inv_bind E. inv_ok E. apply deref_Ok in E0. eauto.
  - intros (o & E & ->). apply deref_Ok in E. now rewrite E.
Qed.

(** What [for state in dfas: state.unifystate(old, new)] does to the heap:
    the objects of [dfas] get their arcs redirected, the others are left
    alone. *)
Lemma unify_all_spec (dfas : list ref) :
  forall (h : heap) (old new : ref),
    valid h dfas -> NoDup dfas ->
    exists h',
      unify_all h dfas old new = Ok h' /\
      List.length h' = List.length h /\
      (forall r, ~ In r dfas -> nth_error h' r = nth_error h r) /\
      (forall r o, In r dfas -> nth_error h r = Some o ->
                   nth_error h' r =
                   Some (set_arcs o (unify_arcs old new (arcs o)))).
Proof.
  induction dfas as [|s dfas IH]; intros h old new V ND; simpl.
  - exists h. repeat split; auto. intros r o [].
  - inversion V as [|? ? Ls V']; subst. inversion ND as [|? ? Ns ND']; subst.
    destruct (deref_valid h s Ls) as (o & Eo).
    unfold unifystate. rewrite Eo. simpl. apply deref_Ok in Eo.
    set (h1 := store h s (set_arcs o (unify_arcs old new (arcs o)))).
    assert (L1 : List.length h1 = List.length h) by apply store_length.
    destruct (IH h1 old new (valid_length _ _ _ L1 V') ND')
      as (h' & E & L & Out & Inn).
    exists h'. split; [exact E|]. split; [congruence|]. split.
    + intros r N. rewrite Out by tauto.
      apply nth_error_store_other. intros ->. apply N. now left.
    + intros r o' [<-|I] Er.
      * rewrite Out by exact Ns. unfold h1.
        rewrite nth_error_store_same by exact Ls. congruence.
      * apply Inn; [exact I|]. unfold h1.
        rewrite nth_error_store_other; [exact Er|]. intros ->. contradiction.
Qed.

Lemma first_equal_Some (h : heap) (state_i : ref) (tail : list ref) :
  forall j0 j state_j,
    first_equal h state_i tail j0 = Ok (Some (j, state_j)) ->
    j0 <= j /\ nth_error tail (j - j0) = Some state_j /\
    DFAState_eq h state_i state_j = Ok true.
Proof.
  induction tail as [|a tail IH]; intros j0 j state_j E; simpl in E.
  - discriminate.
  - inv_bind E. destruct x.
    + inv_ok E. rewrite Nat.sub_diag. auto.
    + apply IH in E. destruct E as (L & N & Q).
      split; [lia|]. split; [|exact Q].
      replace (j - j0) with (S (j - S j0)) by lia. exact N.
Qed.

Lemma first_equal_None (h : heap) (state_i : ref) (tail : list ref) :
  forall j0,
    first_equal h state_i tail j0 = Ok None ->
    forall a, In a tail -> DFAState_eq h state_i a = Ok false.
Proof.
  induction tail as [|a tail IH]; intros j0 E b I; simpl in E.
  - destruct I.
  - inv_bind E. destruct x; [discriminate|].
    destruct I as [<-|I]; [exact E0 | eauto].
Qed.

Lemma DFAState_eq_valid (h : heap) (a b : ref) :
  a < List.length h -> b < List.length h ->
  exists v, DFAState_eq h a b = Ok v.
Proof.
  intros La Lb. unfold DFAState_eq.
  destruct (deref_valid h a La) as (oa & ->).
  destruct (deref_valid h b Lb) as (ob & ->). simpl. eauto.
Qed.

Lemma first_equal_valid (h : heap) (state_i : ref) (tail : list ref) :
  forall j0,
    state_i < List.length h -> valid h tail ->
    exists found, first_equal h state_i tail j0 = Ok found.
Proof.
  induction tail as [|a tail IH]; intros j0 L V; simpl; [eauto|].
  inversion V; subst.
  destruct (DFAState_eq_valid h state_i a) as ([|] & ->); simpl; eauto.
Qed.

Lemma nth_error_valid (h : heap) (l : list ref) (k : nat) (r : ref) :
  valid h l -> nth_error l k = Some r -> r < List.length h.
Proof.
  unfold valid. rewrite Forall_forall. intros V E.
  apply V. eapply nth_error_In; eauto.
Qed.

Lemma skipn_valid (h : heap) (l : list ref) (k : nat) :
  valid h l -> valid h (skipn k l).
Proof.
  apply valid_incl. intros x I.
  rewrite <- (firstn_skipn k l). apply in_or_app. now right.
Qed.

(** A merge keeps the references valid and distinct. *)
Lemma merge_step_valid (h : heap) (dfas : list ref) (h' : heap)
    (dfas' : list ref) :
  valid h dfas /\ NoDup dfas -> merge_step h dfas h' dfas' ->
  valid h' dfas' /\ NoDup dfas'.
Proof.
  intros [V ND] (i & j & si & sj & Lt & Ei & Ej & Q & -> & U).
  assert (V' : valid h (del dfas j)) by (eapply valid_incl; eauto using del_incl).
  assert (ND' : NoDup (del dfas j)) by now apply del_NoDup.
  destruct (unify_all_spec (del dfas j) h sj si V' ND') as (h2 & E & L & _).
  assert (h2 = h') by congruence. subst h2.
  split; [eapply valid_length; eauto | exact ND'].
Qed.

Lemma simplify_pass_S (n : nat) (h : heap) (dfas : list ref) (i : nat)
    (changes : bool) :
  simplify_pass (S n) h dfas i changes =
  match nth_error dfas i with
  | None => Ok (h, dfas, changes)
  | Some state_i =>
      found <- first_equal h state_i (skipn (S i) dfas) (S i) ;;
      match found with
      | Some (j, state_j) =>
          h' <- unify_all h (del dfas j) state_j state_i ;;
          simplify_pass n h' (del dfas j) (S i) true
      | None => simplify_pass n h dfas (S i) changes
      end
  end.
Proof. reflexivity. Qed.

(** Every property kept by a merge is kept by a pass of the [for] loop... *)
Lemma simplify_pass_invariant (P : heap -> list ref -> Prop) :
  (forall h dfas h' dfas', P h dfas -> merge_step h dfas h' dfas' -> P h' dfas') ->
  forall n h dfas i changes h' dfas' changes',
    P h dfas ->
    simplify_pass n h dfas i changes = Ok (h', dfas', changes') ->
    P h' dfas'.
Proof.
  intros Step.
  induction n as [|n IH]; intros h dfas i changes h' dfas' changes' HP E.
  - simpl in E. inv_ok E. exact HP.
  - rewrite simplify_pass_S in E.
    destruct (nth_error dfas i) as [state_i|] eqn:Ei; [|inv_ok E; exact HP].
    inv_bind E. destruct x as [[j state_j]|].
    + inv_bind E.
      apply first_equal_Some in E0. destruct E0 as (L & N & Q).
      rewrite nth_error_skipn in N.
      eapply IH; [|exact E]. eapply Step; [exact HP|].
      exists i, j, state_i, state_j.
      replace (S i + (j - S i)) with j in N by lia.
      repeat split; auto.
    + eapply IH; eauto.
Qed.

(** ... and by the whole [while] loop. *)
Lemma simplify_loop_invariant (P : heap -> list ref -> Prop) :
  (forall h dfas h' dfas', P h dfas -> merge_step h dfas h' dfas' -> P h' dfas') ->
  forall fuel h dfas h' dfas',
    P h dfas ->
    simplify_loop fuel h dfas = Ok (h', dfas') ->
    P h' dfas'.
Proof.
  intros Step.
  induction fuel as [|fuel IH]; intros h dfas h' dfas' HP E; simpl in E.
  - discriminate.
  - inv_bind E. destruct x as [[h1 dfas1] changes].
    pose proof (simplify_pass_invariant P Step _ _ _ _ _ _ _ _ HP E0) as HP1.
    destruct changes.
    + eapply IH; eauto.
    + inv_ok E. exact HP1.
Qed.

(** ** State minimiser: passes and the fixpoint loop *)

Lemma nth_error_Some_lt {A : Type} (l : list A) (n : nat) (x : A) :
  nth_error l n = Some x -> n < List.length l.
Proof. intros E. apply nth_error_Some. congruence. Qed.

Lemma unify_all_total (dfas : list ref) :
  forall (h : heap) (old new : ref),
    valid h dfas -> exists h', unify_all h dfas old new = Ok h'.
Proof.
  induction dfas as [|s dfas IH]; intros h old new V; simpl; [eauto|].
  inversion V as [|? ? Ls V']; subst.
  destruct (deref_valid h s Ls) as (o & Eo).
  unfold unifystate. rewrite Eo. simpl.
  apply IH. eapply valid_length; [apply store_length | exact V'].
Qed.

(** A relation that holds between an object and its redirected version
    holds pointwise between the heaps before and after [unify_all]. *)
Lemma unify_all_rel (R : DFAState -> DFAState -> Prop) (old new : ref) :
  (forall o, R o o) ->
  (forall x y z, R x y -> R y z -> R x z) ->
  (forall o, R o (set_arcs o (unify_arcs old new (arcs o)))) ->
  forall dfas h h', unify_all h dfas old new = Ok h' -> Forall2 R h h'.
Proof.
  intros Rrefl Rtrans Rstep dfas0.
  induction dfas0 as [|s dfas0 IH]; intros h h' E; simpl in E.
  - inv_ok E. now apply Forall2_refl.
  - inv_bind E. apply unifystate_Ok in E0. destruct E0 as (o & Eo & ->).
    eapply Forall2_trans; [exact Rtrans | | eapply IH; exact E].
    eapply Forall2_store; eauto.
Qed.

Lemma unify_all_length (dfas : list ref) (h h' : heap) (old new : ref) :
  unify_all h dfas old new = Ok h' -> List.length h' = List.length h.
Proof.
  intros E. symmetry. eapply Forall2_length.
  eapply (unify_all_rel (fun _ _ => True)); eauto.
Qed.

(** A pass that reports no change has changed nothing, and has compared
    every state from position [i] on with every later state. *)
Lemma simplify_pass_unchanged (n : nat) :
  forall h dfas i changes h' dfas',
    simplify_pass n h dfas i changes = Ok (h', dfas', false) ->
    changes = false /\ h' = h /\ dfas' = dfas /\
    (List.length dfas <= n + i ->
     forall i' j a b,
       i <= i' -> i' < j ->
       nth_error dfas i' = Some a -> nth_error dfas j = Some b ->
       DFAState_eq h a b = Ok false).
Proof.
  induction n as [|n IH]; intros h dfas i changes h' dfas' E.
  - simpl in E. inv_ok E. repeat split; auto.
    intros L i' j a b Li Lj Ea Eb.
    pose proof (nth_error_Some_lt _ _ _ Ea). lia.
  - rewrite simplify_pass_S in E.
    destruct (nth_error dfas i) as [state_i|] eqn:Ei.
    + inv_bind E. destruct x as [[j state_j]|].
      * inv_bind E. apply IH in E. destruct E as (F & _). discriminate.
      * apply IH in E. destruct E as (-> & -> & -> & Irr).
        repeat split; auto.
        intros L i' j a b Li Lj Ea Eb.
        destruct (Nat.eq_dec i' i) as [->|Ne].
        -- assert (a = state_i) by congruence. subst a.
           eapply first_equal_None; [exact E0|].
           apply nth_error_In with (n := j - S i).
           rewrite nth_error_skipn. now replace (S i + (j - S i)) with j by lia.
        -- apply (Irr ltac:(lia) i' j); auto. lia.
    + inv_ok E. repeat split; auto.
      intros L i' j a b Li Lj Ea Eb.
      apply nth_error_None in Ei.
      pose proof (nth_error_Some_lt _ _ _ Ea). lia.
Qed.

(** Every merge deletes exactly one state: a pass never lengthens the list,
    and a pass that turns [changes] on has shortened it. *)
Lemma simplify_pass_length (n : nat) :
  forall h dfas i changes h' dfas' changes',
    simplify_pass n h dfas i changes = Ok (h', dfas', changes') ->
    List.length dfas' <= List.length dfas /\
    (changes' = true -> changes = true \/ List.length dfas' < List.length dfas).
Proof.
  induction n as [|n IH]; intros h dfas i changes h' dfas' changes' E.
  - simpl in E. inv_ok E. auto.
  - rewrite simplify_pass_S in E.
    destruct (nth_error dfas i) as [state_i|] eqn:Ei; [|inv_ok E; auto].
    inv_bind E. destruct x as [[j state_j]|].
    + inv_bind E. apply first_equal_Some in E0. destruct E0 as (L & N & _).
      rewrite nth_error_skipn in N.
      pose proof (nth_error_Some_lt _ _ _ N) as Lj.
      replace (S i + (j - S i)) with j in Lj by lia.
      pose proof (del_length dfas j Lj) as D.
      apply IH in E. destruct E as (L1 & _). split; [lia | intros _; right; lia].
    + eapply IH; eauto.
Qed.

Lemma simplify_pass_total (n : nat) :
  forall h dfas i changes,
    valid h dfas ->
    exists h' dfas' changes',
      simplify_pass n h dfas i changes = Ok (h', dfas', changes') /\
      valid h' dfas'.
Proof.
  induction n as [|n IH]; intros h dfas i changes V.
  - simpl. eauto.
  - rewrite simplify_pass_S.
    destruct (nth_error dfas i) as [state_i|] eqn:Ei; [|eauto].
    destruct (first_equal_valid h state_i (skipn (S i) dfas) (S i))
      as (found & ->).
    + eapply nth_error_valid; eauto.
    + now apply skipn_valid.
    + simpl. destruct found as [[j state_j]|]; [|apply IH; exact V].
      assert (V' : valid h (del dfas j))
        by (eapply valid_incl; eauto using del_incl).
      destruct (unify_all_total (del dfas j) h state_j state_i V') as (h1 & E1).
      rewrite E1. simpl. apply IH.
      eapply valid_length; [eapply unify_all_length; eauto | exact V'].
Qed.

(** The [while] loop needs at most one pass per state, plus the last one
    that finds nothing to merge. *)
Lemma simplify_loop_total (fuel : nat) :
  forall h dfas,
    valid h dfas -> List.length dfas < fuel ->
    exists h' dfas',
      simplify_loop fuel h dfas = Ok (h', dfas') /\
      List.length dfas' <= List.length dfas.
Proof.
  induction fuel as [|fuel IH]; intros h dfas V L; [lia|].
  simpl.
  destruct (simplify_pass_total (List.length dfas) h dfas 0 false V)
    as (h1 & dfas1 & changes & E & V1).
  rewrite E. simpl.
  pose proof (simplify_pass_length _ _ _ _ _ _ _ _ E) as (L1 & D).
  destruct changes.
  - destruct (D eq_refl) as [F|Lt]; [discriminate|].
    destruct (IH h1 dfas1 V1 ltac:(lia)) as (h' & dfas' & E' & L').
    exists h', dfas'. split; [exact E' | lia].
  - eauto.
Qed.

(** The result of the loop does not depend on the budget left over. *)
Lemma simplify_loop_fuel (fuel : nat) :
  forall h dfas r fuel',
    simplify_loop fuel h dfas = Ok r -> fuel <= fuel' ->
    simplify_loop fuel' h dfas = Ok r.
Proof.
  induction fuel as [|fuel IH]; intros h dfas r fuel' E L; [discriminate|].
  destruct fuel' as [|fuel']; [lia|].
  simpl in *.
  destruct (simplify_pass (List.length dfas) h dfas 0 false)
    as [[[h1 dfas1] changes]|]; simpl in *; [|discriminate].
  destruct changes; [apply IH; [exact E | lia] | exact E].
Qed.

(** When the loop stops, its last pass has found no two equal states. *)
Lemma simplify_loop_irredundant (fuel : nat) :
  forall h dfas h' dfas',
    simplify_loop fuel h dfas = Ok (h', dfas') -> irredundant h' dfas'.
Proof.
  induction fuel as [|fuel IH]; intros h dfas h' dfas' E; [discriminate|].
  simpl in E. inv_bind E. destruct x as [[h1 dfas1] changes].
  destruct changes; [eapply IH; eauto|].
  inv_ok E.
  apply simplify_pass_unchanged in E0. destruct E0 as (_ & -> & -> & Irr).
  intros i j a b Lt Ea Eb. apply (Irr ltac:(lia) i j); auto. lia.
Qed.

(** ** State minimiser: what a merge keeps *)

Lemma eq_states_true (a b : DFAState) :
  eq_states a b = true <->
  isfinal a = isfinal b /\
  List.length (arcs a) = List.length (arcs b) /\
  (forall label next, In (label, next) (arcs a) ->
                      dict_get label (arcs b) = Some next).
Proof.
  unfold eq_states.
  destruct (Bool.eqb (isfinal a) (isfinal b)) eqn:Ef; simpl.
  - apply Bool.eqb_prop in Ef.
    destruct (Nat.eqb_spec (List.length (arcs a)) (List.length (arcs b)))
      as [El|Nl]; simpl.
    + rewrite forallb_forall. split.
      * intros F. repeat split; auto. intros label next I.
        specialize (F _ I). simpl in F.
        destruct (dict_get label (arcs b)) as [r|]; [|discriminate].
        apply Nat.eqb_eq in F. congruence.
      * intros (_ & _ & F) [label next] I. rewrite (F _ _ I).
        apply Nat.eqb_refl.
    + split; [discriminate | tauto].
  - split; [discriminate|]. intros (F & _).
    rewrite F, Bool.eqb_reflx in Ef. discriminate.
Qed.

(** On arc maps with distinct labels the equality test is symmetric. *)
Lemma eq_states_sym (a b : DFAState) :
  NoDup (dict_keys (arcs a)) -> NoDup (dict_keys (arcs b)) ->
  eq_states a b = true -> eq_states b a = true.
Proof.
  intros NDa NDb. rewrite !eq_states_true. intros (Ef & El & F).
  repeat split; auto.
  assert (I : incl (arcs a) (arcs b)).
  { intros [l n] Hin. apply dict_get_In. auto. }
  assert (I' : incl (arcs b) (arcs a)).
  { apply NoDup_length_incl; [|lia|exact I].
    unfold dict_keys in NDa. eapply NoDup_map_inv; eauto. }
  intros label next Hin. apply In_dict_get; auto.
Qed.

(** On arc maps with distinct labels the test of [DFAState.__eq__] says
    that the two states have the same [isfinal] flag and the same set of
    (label, target) pairs; nothing else of the states is looked at. *)
Lemma eq_states_same_arcs (a b : DFAState) :
  NoDup (dict_keys (arcs a)) -> NoDup (dict_keys (arcs b)) ->
  (eq_states a b = true <->
   isfinal a = isfinal b /\
   forall label next, In (label, next) (arcs a) <-> In (label, next) (arcs b)).
Proof.
  intros NDa NDb.
  assert (NDa' : NoDup (arcs a)) by (eapply NoDup_map_inv; exact NDa).
  assert (NDb' : NoDup (arcs b)) by (eapply NoDup_map_inv; exact NDb).
  rewrite eq_states_true. split.
  - intros (Ef & El & F). split; [exact Ef|].
    assert (I : incl (arcs a) (arcs b)).
    { intros [l n] Hin. apply dict_get_In. auto. }
    assert (I' : incl (arcs b) (arcs a)).
    { apply NoDup_length_incl; [exact NDa' | lia | exact I]. }
    intros label next. split; [apply I | apply I'].
  - intros (Ef & Same). split; [exact Ef|]. split.
    + apply Nat.le_antisymm; apply NoDup_incl_length; auto;
        intros [l n] I; now apply Same.
    + intros label next I. apply In_dict_get; [exact NDb|]. now apply Same.
Qed.

Lemma same_shape_refl (o : DFAState) : same_shape o o.
Proof. unfold same_shape; auto. Qed.

Lemma same_shape_trans (x y z : DFAState) :
  same_shape x y -> same_shape y z -> same_shape x z.
Proof. unfold same_shape. intuition congruence. Qed.

Lemma same_shape_unify (old new : ref) (o : DFAState) :
  same_shape o (set_arcs o (unify_arcs old new (arcs o))).
Proof.
  unfold same_shape, set_arcs; simpl. auto using unify_arcs_keys.
Qed.

Lemma keeps_arcs_unify (keep old new : ref) (o : DFAState) :
  old <> keep ->
  keeps_arcs_to keep o (set_arcs o (unify_arcs old new (arcs o))).
Proof.
  intros N label E. simpl. rewrite unify_arcs_get, E. simpl.
  destruct (Nat.eqb_spec keep old); congruence.
Qed.

Lemma merge_step_shape (h : heap) (dfas : list ref) (h' : heap)
    (dfas' : list ref) :
  merge_step h dfas h' dfas' -> Forall2 same_shape h h'.
Proof.
  intros (i & j & si & sj & _ & _ & _ & _ & _ & U).
  eapply unify_all_rel; eauto using same_shape_refl, same_shape_trans,
    same_shape_unify.
Qed.

Lemma wf_arcs_shape (h h' : heap) :
  Forall2 same_shape h h' -> wf_arcs h -> wf_arcs h'.
Proof.
  unfold wf_arcs. induction 1 as [|o o' h h' (_ & _ & Ek) F IH];
    intros W; inversion W; subst; constructor; auto. now rewrite Ek.
Qed.

(** A merge never deletes the first state of the list, and leaves the arcs
    into it alone. *)
Lemma merge_step_head (keep : ref) (h : heap) (dfas : list ref) (h' : heap)
    (dfas' : list ref) :
  NoDup dfas -> nth_error dfas 0 = Some keep ->
  merge_step h dfas h' dfas' ->
  nth_error dfas' 0 = Some keep /\ Forall2 (keeps_arcs_to keep) h h'.
Proof.
  intros ND Hd (i & j & si & sj & Lt & Ei & Ej & _ & -> & U).
  split.
  - rewrite del_nth_error_lt by lia. exact Hd.
  - assert (N : sj <> keep).
    { intros ->. rewrite NoDup_nth_error in ND.
      assert (j = 0); [|lia].
      apply ND; [eapply nth_error_Some_lt; eauto | congruence]. }
    eapply (unify_all_rel (keeps_arcs_to keep) sj si); [| | |exact U].
    + intros o label E; exact E.
    + intros x y z A B label E. auto.
    + intros o. now apply keeps_arcs_unify.
Qed.

(** A merge leaves no arc behind that leads to the deleted state: the arcs
    of the remaining states are the old ones with [state_j] replaced by
    [state_i]. *)
Lemma merge_step_redirects (h : heap) (dfas : list ref) (h' : heap)
    (dfas' : list ref) :
  valid h dfas -> NoDup dfas -> merge_step h dfas h' dfas' ->
  exists state_i state_j,
    In state_i dfas' /\ In state_j dfas /\ ~ In state_j dfas' /\
    S (List.length dfas') = List.length dfas /\
    forall r o,
      In r dfas' -> nth_error h r = Some o ->
      nth_error h' r = Some (set_arcs o (unify_arcs state_j state_i (arcs o))).
Proof.
  intros V ND (i & j & si & sj & Lt & Ei & Ej & _ & -> & U).
  assert (V' : valid h (del dfas j)) by (eapply valid_incl; eauto using del_incl).
  assert (ND' : NoDup (del dfas j)) by now apply del_NoDup.
  destruct (unify_all_spec (del dfas j) h sj si V' ND') as (h2 & E & L & _ & Inn).
  assert (h2 = h') by congruence. subst h2.
  exists si, sj. repeat split.
  - apply (del_In dfas j sj si ND Ej). split; [eapply nth_error_In; eauto|].
    intros ->. rewrite NoDup_nth_error in ND.
    assert (i = j); [|lia].
    apply ND; [eapply nth_error_Some_lt; eauto | congruence].
  - eapply nth_error_In; eauto.
  - intros I. apply (del_In dfas j sj sj ND Ej) in I. tauto.
  - apply del_length. eapply nth_error_Some_lt; eauto.
  - exact Inn.
Qed.

Lemma merge_step_closed (h : heap) (dfas : list ref) (h' : heap)
    (dfas' : list ref) :
  valid h dfas -> NoDup dfas -> closed h dfas ->
  merge_step h dfas h' dfas' -> closed h' dfas'.
Proof.
  intros V ND C M.
  pose proof M as (i & j & si & sj & Lt & Ei & Ej & _ & Ed & U).
  destruct (merge_step_redirects _ _ _ _ V ND M)
    as (si' & sj' & Ii & Ij & Nj & _ & Inn).
  intros r o' label t Ir Er It.
  assert (Ir0 : In r dfas) by (subst dfas'; eapply del_incl; eauto).
  assert (Lr : r < List.length h).
  { unfold valid in V. rewrite Forall_forall in V. auto. }
  destruct (deref_valid h r Lr) as (o & Eo). apply deref_Ok in Eo.
  rewrite (Inn r o Ir Eo) in Er. inv_ok Er. simpl in It.
  apply unify_arcs_targets in It. destruct It as [[-> _]|[Ne It]].
  - exact Ii.
  - pose proof (C r o label t Ir0 Eo It) as It0.
    destruct (Nat.eq_dec t sj') as [->|Nt]; [congruence|].
    assert (sj' = sj).
    { destruct (Nat.eq_dec sj' sj) as [|Nsj]; [assumption|].
      exfalso. apply Nj. apply (del_In dfas j sj sj' ND Ej). auto. }
    subst sj'. apply (del_In dfas j sj t ND Ej). auto.
Qed.

Lemma simplify_inv_init (h : heap) (dfas : list ref) :
  valid h dfas -> NoDup dfas -> simplify_inv h dfas h dfas.
Proof.
  intros V ND. unfold simplify_inv. repeat split; auto.
  - apply incl_refl.
  - apply Forall2_refl, same_shape_refl.
  - intros keep _. apply Forall2_refl. intros o label E; exact E.
Qed.

Lemma simplify_inv_step (h0 : heap) (dfas0 : list ref) (h : heap)
    (dfas : list ref) (h' : heap) (dfas' : list ref) :
  simplify_inv h0 dfas0 h dfas -> merge_step h dfas h' dfas' ->
  simplify_inv h0 dfas0 h' dfas'.
Proof.
  intros (V & ND & I & Hd & Sh & Keep & Cl) M.
  destruct (merge_step_valid _ _ _ _ (conj V ND) M) as (V' & ND').
  unfold simplify_inv. repeat split; auto.
  - pose proof M as (i & j & si & sj & _ & _ & _ & _ & -> & _).
    eapply incl_tran; [apply del_incl | exact I].
  - pose proof M as (i & j & si & sj & Lt & _ & _ & _ & -> & _).
    rewrite del_nth_error_lt by lia. exact Hd.
  - eapply Forall2_trans; [apply same_shape_trans | exact Sh |].
    eapply merge_step_shape; eauto.
  - intros keep Ek.
    eapply Forall2_trans; [| exact (Keep keep Ek) |].
    + intros x y z A B label E. auto.
    + assert (Hk : nth_error dfas 0 = Some keep) by congruence.
      exact (proj2 (merge_step_head keep h dfas h' dfas' ND Hk M)).
  - intros C0. exact (merge_step_closed h dfas h' dfas' V ND (Cl C0) M).
Qed.

Lemma simplify_dfas_inv (h : heap) (dfas : list ref) (h' : heap)
    (dfas' : list ref) :
  valid h dfas -> NoDup dfas ->
  _simplify_dfas h dfas = Ok (h', dfas') ->
  simplify_inv h dfas h' dfas'.
Proof.
  intros V ND E. unfold _simplify_dfas in E.
  eapply (simplify_loop_invariant (simplify_inv h dfas)); eauto.
  - apply simplify_inv_step.
  - now apply simplify_inv_init.
Qed.

(** ** Subset constructor: epsilon closure *)

(** Every relation between key sets that is a preorder and that relates a
    set to the set with one more key relates [base] to the result of
    [addclosure]. *)
Lemma addclosure_rel (R : pyset NFAState -> pyset NFAState -> Prop) :
  (forall s, R s s) ->
  (forall x y z, R x y -> R y z -> R x z) ->
  (forall k s, R s (set_add k s)) ->
  forall fuel nfa state base base',
    addclosure fuel nfa state base = Ok base' -> R base base'.
Proof.
  intros Rrefl Rtrans Radd.
  induction fuel as [|fuel IH]; intros nfa state base base' E; simpl in E.
  - discriminate.
  - destruct (set_mem state base); [inv_ok E; apply Rrefl|].
    apply Rtrans with (y := set_add state base); [apply Radd|].
    revert E. generalize (set_add state base).
    induction (arcs_of nfa state) as [|[[label|] next] l IHl]; intros b E;
      simpl in E.
    + inv_ok E. apply Rrefl.
    + auto.
    + inv_bind E. eapply Rtrans; [eapply IH; exact E0 | auto].
Qed.

Lemma addclosure_NoDup (fuel : nat) (nfa : NFA) (state : NFAState)
    (base base' : pyset NFAState) :
  addclosure fuel nfa state base = Ok base' -> NoDup base -> NoDup base'.
Proof.
  apply (addclosure_rel (fun s s' => NoDup s -> NoDup s')); auto.
  intros k s. apply set_add_NoDup.
Qed.

Lemma addclosure_incl (fuel : nat) (nfa : NFA) (state : NFAState)
    (base base' : pyset NFAState) :
  addclosure fuel nfa state base = Ok base' -> incl base base'.
Proof.
  apply (addclosure_rel (fun s s' => incl s s')).
  - apply incl_refl.
  - intros x y z. apply incl_tran.
  - intros k s x I. apply set_add_In. now right.
Qed.

Lemma addclosure_In (fuel : nat) (nfa : NFA) (state : NFAState)
    (base base' : pyset NFAState) :
  addclosure fuel nfa state base = Ok base' -> In state base'.
Proof.
  destruct fuel as [|fuel]; simpl; [discriminate|].
  destruct (set_mem state base) eqn:M; intros E.
  - inv_ok E. now apply set_mem_In.
  - assert (I : incl (set_add state base) base').
    { revert E. generalize (set_add state base).
      induction (arcs_of nfa state) as [|[[label|] next] l IHl]; intros b E;
        simpl in E.
      - inv_ok E. apply incl_refl.
      - auto.
      - inv_bind E. eapply incl_tran; [eapply addclosure_incl; eauto | auto]. }
    apply I, set_add_In. now left.
Qed.

(** [addclosure] raises nothing but the exhaustion of its budget. *)
Lemma addclosure_Err (fuel : nat) :
  forall nfa state base e,
    addclosure fuel nfa state base = Err e -> e = OutOfFuel.
Proof.
  induction fuel as [|fuel IH]; intros nfa state base e E; simpl in E.
  - congruence.
  - destruct (set_mem state base); [discriminate|].
    revert E. generalize (set_add state base).
    induction (arcs_of nfa state) as [|[[label|] next] l IHl]; intros b E;
      simpl in E.
    + discriminate.
    + eauto.
    + destruct (addclosure fuel nfa next b) eqn:E1; simpl in E; eauto.
      inv_ok E. eauto.
Qed.

(** ** Subset constructor: the move sets of a state *)

Lemma dict_set_In {K V : Type} `{EqKey K} (k k' : K) (v v' : V) (d : dict K V) :
  In (k', v') (dict_set k v d) -> (k' = k /\ v' = v) \/ In (k', v') d.
Proof.
  induction d as [|[k0 v0] d IH]; simpl.
  - intros [E|[]]. inv_ok E. auto.
  - destruct (keqb_spec k k0) as [->|N]; simpl.
    + intros [E|I]; [inv_ok E; auto | auto].
    + intros [E|I]; [auto | destruct (IH I); auto].
Qed.

Lemma move_arcs_wf (fuel : nat) (nfa : NFA) (l : list (option string * NFAState)) :
  forall arcs0 arcs1,
    move_arcs fuel nfa l arcs0 = Ok arcs1 -> wf_moves arcs0 -> wf_moves arcs1.
Proof.
  induction l as [|[[label|] next] l IH]; intros arcs0 arcs1 E W; simpl in E.
  - inv_ok E. exact W.
  - inv_bind E. apply IH in E; [exact E|].
    destruct W as (ND & Vals). split; [now apply dict_set_NoDup|].
    intros label' s I. apply dict_set_In in I. destruct I as [[-> ->]|I]; [|eauto].
    split.
    + eapply addclosure_NoDup; [exact E0|].
      destruct (dict_get label arcs0) eqn:G; [|constructor].
      apply dict_get_In in G. now apply Vals in G.
    + apply addclosure_In in E0. intros ->. destruct E0.
  - eauto.
Qed.

Lemma move_sets_wf (fuel : nat) (nfa : NFA) (members : list NFAState) :
  forall arcs0 arcs1,
    move_sets fuel nfa members arcs0 = Ok arcs1 -> wf_moves arcs0 -> wf_moves arcs1.
Proof.
  induction members as [|m members IH]; intros arcs0 arcs1 E W; simpl in E.
  - inv_ok E. exact W.
  - inv_bind E. eapply IH; [exact E|]. eapply move_arcs_wf; eauto.
Qed.

Lemma move_arcs_Err (fuel : nat) (nfa : NFA) (l : list (option string * NFAState)) :
  forall arcs0 e, move_arcs fuel nfa l arcs0 = Err e -> e = OutOfFuel.
Proof.
  induction l as [|[[label|] next] l IH]; intros arcs0 e E; simpl in E.
  - discriminate.
  - match type of E with bind ?m _ = _ => destruct m eqn:E1 end; simpl in E.
    + eauto.
    + inv_ok E. eapply addclosure_Err; eauto.
  - eauto.
Qed.

Lemma move_sets_Err (fuel : nat) (nfa : NFA) (members : list NFAState) :
  forall arcs0 e, move_sets fuel nfa members arcs0 = Err e -> e = OutOfFuel.
Proof.
  induction members as [|m members IH]; intros arcs0 e E; simpl in E.
  - discriminate.
  - destruct (move_arcs fuel nfa (arcs_of nfa m) arcs0) eqn:E1; simpl in E.
    + eauto.
    + inv_ok E. eapply move_arcs_Err; eauto.
Qed.

(** ** Subset constructor: linking a state to its targets *)

Lemma grows_refl (i : nat) (h : heap) : grows i h h.
Proof. intros k o E. exists o. auto. Qed.

Lemma grows_trans (i : nat) (h1 h2 h3 : heap) :
  grows i h1 h2 -> grows i h2 h3 -> grows i h1 h3.
Proof.
  intros G1 G2 k o E.
  destruct (G1 k o E) as (o2 & E2 & N2 & F2 & U2).
  destruct (G2 k o2 E2) as (o3 & E3 & N3 & F3 & U3).
  exists o3. repeat split; try congruence.
  intros Ne. rewrite U3, U2; auto.
Qed.

Lemma link_rel_grows (i : nat) (h h' : heap) (item : string * pyset NFAState)
    (arc : string * ref) :
  grows i h h' -> link_rel h item arc -> link_rel h' item arc.
Proof.
  intros G (Ef & o & Eo & Q). split; [exact Ef|].
  destruct (G _ _ Eo) as (o' & Eo' & N & _). exists o'. split; congruence.
Qed.

Lemma set_eqb_refl {K : Type} `{EqKey K} (s : pyset K) : set_eqb s s = true.
Proof.
  unfold set_eqb. rewrite Nat.eqb_refl. simpl.
  apply forallb_forall. intros x I. now apply set_mem_In.
Qed.

Lemma seq_snoc (n : nat) : seq 0 (S n) = seq 0 n ++ [n].
Proof. rewrite seq_S. reflexivity. Qed.

Lemma find_state_spec (h : heap) (states : list ref) (s : pyset NFAState) :
  valid h states ->
  (exists st o, find_state h states s = Ok (Some st) /\ In st states /\
                nth_error h st = Some o /\ set_eqb (nfaset o) s = true) \/
  (find_state h states s = Ok None /\
   forall st o, In st states -> nth_error h st = Some o ->
                set_eqb (nfaset o) s = false).
Proof.
  induction states as [|a states IH]; intros V; simpl.
  - right. split; [reflexivity|]. intros st o [].
  - inversion V as [|? ? La V']; subst.
    destruct (deref_valid h a La) as (oa & Ea). rewrite Ea. simpl.
    apply deref_Ok in Ea.
    destruct (set_eqb (nfaset oa) s) eqn:Q.
    + left. exists a, oa. auto.
    + destruct (IH V') as [(st & o & E & I & Eo & Qo)|(E & None)].
      * left. exists st, o. auto.
      * right. split; [exact E|].
        intros st o [<-|I] Eo; [congruence | eauto].
Qed.

Lemma dfa_inv_valid (finish : NFAState) (h : heap) (states : list ref) :
  dfa_inv finish h states -> valid h states /\ NoDup states.
Proof.
  intros (-> & _). split.
  - unfold valid. apply Forall_forall. intros r I. apply in_seq in I. lia.
  - apply seq_NoDup.
Qed.

(** Allocating a state for a set that no state stands for yet. *)
Lemma dfa_inv_new (finish : NFAState) (h : heap) (states : list ref)
    (s : pyset NFAState) :
  dfa_inv finish h states -> NoDup s -> s <> [] ->
  (forall st o, In st states -> nth_error h st = Some o ->
                set_eqb (nfaset o) s = false) ->
  exists h',
    DFAState_new h s finish = Ok (h', List.length h) /\
    h' = h ++ [{| nfaset := s; isfinal := set_mem finish s; arcs := [] |}] /\
    dfa_inv finish h' (states ++ [List.length h]).
Proof.
  intros (Es & Sets & Dist & Wf & Cl) ND Ne None.
  eexists. split; [|split; [reflexivity|]].
  - unfold DFAState_new. destruct s; [congruence | reflexivity].
  - unfold dfa_inv. rewrite length_app. simpl.
    rewrite Nat.add_1_r, seq_snoc, <- Es. repeat split.
    + apply in_app_or in H. destruct H as [I|[<-|[]]]; [now apply Sets | exact ND].
    + apply in_app_or in H. destruct H as [I|[<-|[]]]; [now apply Sets | exact Ne].
    + apply in_app_or in H. destruct H as [I|[<-|[]]]; [now apply Sets | reflexivity].
    + intros k1 k2 o1 o2 Lt E1 E2.
      destruct (Nat.lt_ge_cases k2 (List.length h)) as [L2|L2].
      * rewrite nth_error_app1 in E1, E2 by lia. eauto.
      * pose proof (nth_error_Some_lt _ _ _ E2) as L2'.
        rewrite length_app in L2'. simpl in L2'.
        assert (k2 = List.length h) by lia. subst k2.
        rewrite nth_error_app2, Nat.sub_diag in E2 by lia. simpl in E2.
        inv_ok E2. simpl.
        rewrite nth_error_app1 in E1 by lia.
        apply (None k1 o1); [|exact E1].
        apply in_seq. lia.
    + unfold wf_arcs in *. apply Forall_app. split; [exact Wf|].
      repeat constructor.
    + intros o label t I It.
      apply in_app_or in I. destruct I as [I|[<-|[]]].
      * pose proof (Cl o label t I It). lia.
      * destruct It.
Qed.

(** Writing to a state a version of itself that has one more arc. *)
Lemma dfa_inv_store (finish : NFAState) (h : heap) (states : list ref)
    (i : ref) (o : DFAState) (a : dict string ref) :
  dfa_inv finish h states -> nth_error h i = Some o ->
  NoDup (dict_keys a) ->
  (forall label t, In (label, t) a -> t < List.length h) ->
  dfa_inv finish (store h i (set_arcs o a)) states.
Proof.
  intros (Es & Sets & Dist & Wf & Cl) Eo NDa Ta.
  pose proof (nth_error_Some_lt _ _ _ Eo) as Li.
  assert (Obj : forall k x, nth_error (store h i (set_arcs o a)) k = Some x ->
                            exists y, nth_error h k = Some y /\
                                      nfaset x = nfaset y /\
                                      isfinal x = isfinal y /\
                                      (k <> i -> x = y) /\
                                      (k = i -> x = set_arcs o a)).
  { intros k x E. destruct (Nat.eq_dec k i) as [->|N].
    - rewrite nth_error_store_same in E by exact Li. inv_ok E.
      exists o. repeat split; auto. congruence.
    - rewrite nth_error_store_other in E by exact N.
      exists x. repeat split; auto. congruence. }
  unfold dfa_inv. rewrite store_length. split; [exact Es|].
  split; [|split; [|split]].
  - intros x I. apply In_nth_error in I. destruct I as (k & E).
    destruct (Obj k x E) as (y & Ey & -> & -> & _).
    apply Sets. eapply nth_error_In; eauto.
  - intros k1 k2 o1 o2 Lt E1 E2.
    destruct (Obj k1 o1 E1) as (y1 & Ey1 & -> & _).
    destruct (Obj k2 o2 E2) as (y2 & Ey2 & -> & _). eauto.
  - unfold wf_arcs in *. rewrite Forall_forall in *.
    intros x I. apply In_nth_error in I. destruct I as (k & E).
    destruct (Obj k x E) as (y & Ey & _ & _ & U & U').
    destruct (Nat.eq_dec k i) as [->|N].
    + rewrite (U' eq_refl). exact NDa.
    + rewrite (U N). apply Wf. eapply nth_error_In; eauto.
  - intros x label t I It. apply In_nth_error in I. destruct I as (k & E).
    destruct (Obj k x E) as (y & Ey & _ & _ & U & U').
    destruct (Nat.eq_dec k i) as [->|N].
    + rewrite (U' eq_refl) in It. eauto.
    + rewrite (U N) in It. eapply Cl; eauto. eapply nth_error_In; eauto.
Qed.

Lemma grows_store (i : nat) (h : heap) (o : DFAState) (a : dict string ref) :
  nth_error h i = Some o -> grows i h (store h i (set_arcs o a)).
Proof.
  intros Eo k x E. destruct (Nat.eq_dec k i) as [->|N].
  - exists (set_arcs o a).
    rewrite nth_error_store_same by (eapply nth_error_Some_lt; eauto).
    assert (x = o) by congruence. subst x. repeat split; auto. congruence.
  - exists x. rewrite nth_error_store_other by exact N. auto.
Qed.

Lemma grows_app (i : nat) (h : heap) (l : list DFAState) : grows i h (h ++ l).
Proof.
  intros k x E. exists x. repeat split; auto.
  rewrite nth_error_app1; [exact E | eapply nth_error_Some_lt; eauto].
Qed.

(** The target of an arc: an old state or a new one, it stands for the
    candidate set. *)
Lemma target_state_spec (finish : NFAState) (i : nat) (h : heap)
    (states : list ref) (s : pyset NFAState) :
  dfa_inv finish h states -> fresh_from i h -> NoDup s -> s <> [] ->
  exists h1 states1 st ot,
    target_state finish h states s = Ok (h1, states1, st) /\
    dfa_inv finish h1 states1 /\ fresh_from i h1 /\
    (forall j, grows j h h1) /\
    (forall k o, nth_error h k = Some o -> nth_error h1 k = Some o) /\
    nth_error h1 st = Some ot /\ set_eqb (nfaset ot) s = true.
Proof.
  intros Inv Fr ND Ne. unfold target_state.
  destruct (dfa_inv_valid _ _ _ Inv) as (V & _).
  destruct (find_state_spec h states s V)
    as [(st & o & E & I & Eo & Q)|(E & None)]; rewrite E; simpl.
  - exists h, states, st, o.
    split; [reflexivity|]. split; [exact Inv|]. split; [exact Fr|].
    split; [intros j; apply grows_refl|]. split; [auto|]. split; assumption.
  - destruct (dfa_inv_new finish h states s Inv ND Ne None) as (h' & En & Eh & Inv').
    rewrite En. simpl.
    exists h', (states ++ [List.length h]), (List.length h).
    eexists. split; [reflexivity|]. split; [exact Inv'|]. subst h'.
    split; [|split; [|split; [|split]]].
    + intros k o L Ek.
      destruct (Nat.lt_ge_cases k (List.length h)) as [Lk|Lk].
      * rewrite nth_error_app1 in Ek by lia. eauto.
      * pose proof (nth_error_Some_lt _ _ _ Ek) as Lk'.
        rewrite length_app in Lk'. simpl in Lk'.
        assert (k = List.length h) by lia. subst k.
        rewrite nth_error_app2, Nat.sub_diag in Ek by lia. simpl in Ek.
        inv_ok Ek. reflexivity.
    + intros j. apply grows_app.
    + intros k o Ek. rewrite nth_error_app1; [exact Ek|].
      eapply nth_error_Some_lt; eauto.
    + rewrite nth_error_app2, Nat.sub_diag by lia. reflexivity.
    + simpl. apply set_eqb_refl.
Qed.

Lemma set_arcs_id (o : DFAState) : set_arcs o (arcs o) = o.
Proof. now destruct o. Qed.

Lemma dict_mem_get_None {K V : Type} `{EqKey K} (k : K) (d : dict K V) :
  dict_mem k d = false -> dict_get k d = None.
Proof. unfold dict_mem. now destruct (dict_get k d). Qed.

Lemma dict_keys_app {K V : Type} (d d' : dict K V) :
  dict_keys (d ++ d') = dict_keys d ++ dict_keys d'.
Proof. apply map_app. Qed.

Lemma link_arcs_spec (finish : NFAState) (i : nat) :
  forall items h states o,
    dfa_inv finish h states -> fresh_from (S i) h -> nth_error h i = Some o ->
    wf_moves items ->
    (forall l, In l (dict_keys items) -> ~ In l (dict_keys (arcs o))) ->
    exists h' states' linked,
      link_arcs finish i items h states = Ok (h', states') /\
      dfa_inv finish h' states' /\ fresh_from (S i) h' /\ grows i h h' /\
      nth_error h' i = Some (set_arcs o (arcs o ++ linked)) /\
      Forall2 (link_rel h') items linked.
Proof.
  induction items as [|[label s] items IH]; intros h states o Inv Fr Eo W New.
  - exists h, states, []. simpl. rewrite app_nil_r, set_arcs_id.
    split; [reflexivity|]. split; [exact Inv|]. split; [exact Fr|].
    split; [apply grows_refl|]. split; [exact Eo | constructor].
  - destruct W as (NDk & Vals). simpl in NDk.
    inversion NDk as [|? ? Nl NDk']; subst.
    destruct (Vals label s (or_introl eq_refl)) as (NDs & Nes).
    destruct (target_state_spec finish (S i) h states s Inv Fr NDs Nes)
      as (h1 & states1 & st & ot & Et & Inv1 & Fr1 & G1 & Same1 & Est & Q).
    simpl. rewrite Et. simpl.
    pose proof (Same1 _ _ Eo) as Eo1.
    unfold add_arc. rewrite (proj2 (deref_Ok h1 i o) Eo1). simpl.
    assert (M : dict_mem label (arcs o) = false).
    { apply dict_mem_false. apply New. now left. }
    rewrite M. simpl.
    rewrite (dict_set_new _ _ _ (dict_mem_get_None _ _ M)).
    set (o2 := set_arcs o (arcs o ++ [(label, st)])).
    assert (Wo : NoDup (dict_keys (arcs o))).
    { destruct Inv1 as (_ & _ & _ & Wf & _). unfold wf_arcs in Wf.
      rewrite Forall_forall in Wf. apply Wf. eapply nth_error_In; eauto. }
    assert (Inv2 : dfa_inv finish (store h1 i o2) states1).
    { apply dfa_inv_store; auto.
      - rewrite dict_keys_app. simpl.
        apply dict_mem_false in M.
        apply NoDup_incl_NoDup with (l := label :: dict_keys (arcs o)).
        + now constructor.
        + rewrite length_app. simpl. lia.
        + intros x I. apply in_or_app. simpl in *. tauto.
      - intros l t I. apply in_app_or in I. destruct I as [I|[E|[]]].
        + destruct Inv1 as (_ & _ & _ & _ & Cl).
          eapply Cl; [eapply nth_error_In; exact Eo1 | exact I].
        + inv_ok E. eapply nth_error_Some_lt; eauto. }
    assert (Fr2 : fresh_from (S i) (store h1 i o2)).
    { intros k x L E. rewrite nth_error_store_other in E by lia. eauto. }
    assert (Eo2 : nth_error (store h1 i o2) i = Some o2).
    { apply nth_error_store_same. eapply nth_error_Some_lt; eauto. }
    destruct (IH (store h1 i o2) states1 o2 Inv2 Fr2 Eo2)
      as (h' & states' & linked & E & Inv' & Fr' & G' & Eo' & L').
    { split; [exact NDk' | intros l x I; apply (Vals l x); now right]. }
    { intros l I. unfold o2. simpl. rewrite dict_keys_app. simpl.
      intros I'. apply in_app_or in I'. destruct I' as [I'|[<-|[]]].
      - apply (New l); [now right | exact I'].
      - contradiction. }
    exists h', states', ((label, st) :: linked).
    split; [exact E|]. split; [exact Inv'|]. split; [exact Fr'|].
    assert (G2 : grows i h1 (store h1 i o2)) by now apply grows_store.
    split; [|split].
    + eapply grows_trans; [apply G1|]. eapply grows_trans; eauto.
    + rewrite Eo'. unfold o2. simpl. now rewrite <- app_assoc.
    + constructor; [|exact L'].
      eapply link_rel_grows; [exact G'|].
      eapply link_rel_grows; [exact G2|].
      split; [reflexivity|]. exists ot. auto.
Qed.

(** ** Subset constructor: the main loop *)

Lemma grows_extends (i : nat) (h h' : heap) : grows i h h' -> extends h h'.
Proof.
  intros G k o E. destruct (G k o E) as (o' & E' & N & F & _). eauto.
Qed.

Lemma extends_trans (h1 h2 h3 : heap) :
  extends h1 h2 -> extends h2 h3 -> extends h1 h3.
Proof.
  intros G1 G2 k o E.
  destruct (G1 k o E) as (o2 & E2 & N2 & F2).
  destruct (G2 k o2 E2) as (o3 & E3 & N3 & F3).
  exists o3. repeat split; congruence.
Qed.

Lemma nth_error_seq0 (n i r : nat) :
  nth_error (seq 0 n) i = Some r -> r = i /\ i < n.
Proof.
  intros E. pose proof (nth_error_Some_lt _ _ _ E) as L.
  rewrite length_seq in L. split; [|exact L].
  apply nth_error_nth with (d := 0) in E. rewrite seq_nth in E by exact L. lia.
Qed.

Lemma Forall2_link_rel_grows (i : nat) (h h' : heap)
    (items : dict string (pyset NFAState)) (a : dict string ref) :
  grows i h h' -> Forall2 (link_rel h) items a -> Forall2 (link_rel h') items a.
Proof.
  intros G. induction 1; constructor; eauto using link_rel_grows.
Qed.

Lemma dfa_loop_spec (cfuel : nat) (nfa : NFA) :
  forall fuel h states i,
    dfa_inv (nfa_finish nfa) h states -> fresh_from i h ->
    (forall k, k < i -> processed cfuel nfa h k) ->
    dfa_loop fuel cfuel nfa h states i = Err OutOfFuel \/
    exists h' states',
      dfa_loop fuel cfuel nfa h states i = Ok (h', states') /\
      dfa_inv (nfa_finish nfa) h' states' /\
      (forall k, k < List.length h' -> processed cfuel nfa h' k) /\
      extends h h'.
Proof.
  induction fuel as [|fuel IH]; intros h states i Inv Fr Done; [now left|].
  simpl. pose proof Inv as (Es & _).
  destruct (nth_error states i) as [state|] eqn:Ei.
  - rewrite Es in Ei. apply nth_error_seq0 in Ei. destruct Ei as (-> & Li).
    destruct (deref_valid h i Li) as (o & Eo). rewrite Eo. simpl.
    apply deref_Ok in Eo.
    destruct (move_sets cfuel nfa (nfaset o) []) as [arcs0|e] eqn:Em; simpl.
    + assert (W : wf_moves arcs0).
      { eapply move_sets_wf; [exact Em|]. split; [constructor | intros l s []]. }
      assert (Fr1 : fresh_from (S i) h)
        by (intros k x L E; apply (Fr k x); [lia | exact E]).
      assert (Ao : arcs o = []) by (apply (Fr i o); [lia | exact Eo]).
      destruct (link_arcs_spec (nfa_finish nfa) i arcs0 h states o Inv Fr1 Eo W)
        as (h1 & states1 & linked & El & Inv1 & Fr' & G & Eo' & L).
      { rewrite Ao. intros l _ []. }
      rewrite El. simpl. rewrite Ao in Eo'. simpl in Eo'.
      destruct (IH h1 states1 (S i) Inv1 Fr') as [E|(h' & states' & E & Inv' & Done' & X)].
      * intros k Lk. destruct (Nat.eq_dec k i) as [->|N].
        -- exists (set_arcs o linked), arcs0. auto.
        -- destruct (Done k ltac:(lia)) as (x & a & Ex & Ea & La).
           destruct (G k x Ex) as (x' & Ex' & _ & _ & U).
           rewrite (U N) in Ex'. exists x, a. split; [exact Ex'|].
           split; [exact Ea|]. eapply Forall2_link_rel_grows; eauto.
      * now left.
      * right. exists h', states'. split; [exact E|]. split; [exact Inv'|].
        split; [exact Done'|].
        eapply extends_trans; [eapply grows_extends; exact G | exact X].
    + left. f_equal. eapply move_sets_Err; eauto.
  - right. exists h, states. split; [reflexivity|]. split; [exact Inv|]. split.
    + intros k Lk. apply Done. apply nth_error_None in Ei.
      rewrite Es, length_seq in Ei. lia.
    + intros k o E. eauto.
Qed.

(** The outcome of [_make_dfas]: short of budget, or the states of the
    subset construction. *)
Lemma make_dfas_spec (fuel : nat) (nfa : NFA) :
  _make_dfas fuel nfa = Err OutOfFuel \/
  exists h states start o,
    _make_dfas fuel nfa = Ok (h, states) /\
    closure fuel nfa (nfa_start nfa) = Ok start /\
    dfa_inv (nfa_finish nfa) h states /\
    (forall k, k < List.length h -> processed fuel nfa h k) /\
    nth_error h 0 = Some o /\ nfaset o = start /\
    isfinal o = set_mem (nfa_finish nfa) start.
Proof.
  unfold _make_dfas.
  destruct (closure fuel nfa (nfa_start nfa)) as [start|e] eqn:Ec; simpl.
  - unfold closure in Ec.
    assert (ND : NoDup start) by (eapply addclosure_NoDup; eauto; constructor).
    assert (Ne : start <> []).
    { apply addclosure_In in Ec. intros ->. destruct Ec. }
    assert (Inv0 : dfa_inv (nfa_finish nfa) [] []).
    { unfold dfa_inv, wf_arcs. simpl. split; [reflexivity|].
      split; [intros o []|].
      split; [intros k1 k2 o1 o2 _ E; destruct k1; discriminate|].
      split; [constructor | intros o label t []]. }
    destruct (dfa_inv_new (nfa_finish nfa) [] [] start Inv0 ND Ne)
      as (h0 & En & Eh & Inv1); [intros st o []|].
    rewrite En. simpl. simpl in Eh, Inv1. subst h0.
    destruct (dfa_loop_spec fuel nfa fuel _ _ 0 Inv1)
      as [E|(h' & states' & E & Inv' & Done' & X)].
    + unfold fresh_from. intros [|k] o _ E; simpl in E; [inv_ok E; reflexivity|].
      destruct k; discriminate.
    + intros k L. lia.
    + now left.
    + right. destruct (X 0 _ eq_refl) as (o' & Eo' & N & F).
      exists h', states', start, o'. simpl in N, F. auto 10.
  - left. f_equal. eapply addclosure_Err; eauto.
Qed.

(** ** First-set analyser: the overlap check *)

(** The outcome of the inner loop for the symbols of one arc.  On success,
    no symbol was known before and all of them are bound to [label]; a
    failure names a symbol of [itsfirst] and the arc that brought it
    earlier. *)
Lemma check_symbols_spec (name label : string) :
  forall itsfirst inverse,
    NoDup itsfirst ->
    match check_symbols name label itsfirst inverse with
    | Ok inverse' =>
        (forall s, In s itsfirst -> dict_get s inverse = None) /\
        (forall s, dict_get s inverse' =
                   if set_mem s itsfirst then Some label else dict_get s inverse)
    | Err e =>
        exists symbol other,
          e = ValueError_ambiguous name symbol label other /\
          In symbol itsfirst /\ dict_get symbol inverse = Some other
    end.
Proof.
  induction itsfirst as [|symbol rest IH]; intros inverse ND; simpl.
  - split; [intros s [] | reflexivity].
  - inversion ND as [|? ? Nin ND']; subst.
    destruct (dict_get symbol inverse) as [other|] eqn:G.
    + exists symbol, other. auto.
    + specialize (IH (dict_set symbol label inverse) ND').
      destruct (check_symbols name label rest (dict_set symbol label inverse))
        as [inverse'|e].
      * destruct IH as (Fresh & Bound). split.
        -- intros s [<-|I]; [exact G|].
           rewrite <- (Fresh s I). symmetry. apply dict_get_set_other.
           intros ->. contradiction.
        -- intros s. rewrite Bound.
           destruct (String.eqb_spec s symbol) as [->|Ne].
           ++ rewrite (proj2 (set_mem_false symbol rest) Nin).
              apply dict_get_set_same.
           ++ destruct (set_mem s rest); [reflexivity|].
              now apply dict_get_set_other.
      * destruct IH as (s & other & -> & I & G').
        exists s, other. split; [reflexivity|]. split; [now right|].
        rewrite <- G'. symmetry. apply dict_get_set_other.
        intros ->. contradiction.
Qed.

(** The outcome of the outer loop.  On success, the sets of any two arcs
    are disjoint; a failure names a symbol, the arc [label] in whose set it
    was met and an earlier arc [other] whose set has it too. *)
Lemma check_overlap_spec (name : string) :
  forall items inverse,
    (forall l fs, In (l, fs) items -> NoDup fs) ->
    match check_overlap name items inverse with
    | Ok inverse' =>
        (forall l fs s, In (l, fs) items -> In s fs ->
                        dict_get s inverse = None) /\
        (forall i j l1 f1 l2 f2 s,
            i < j -> nth_error items i = Some (l1, f1) ->
            nth_error items j = Some (l2, f2) -> In s f1 -> ~ In s f2)
    | Err e =>
        exists symbol label fs other,
          e = ValueError_ambiguous name symbol label other /\
          In symbol fs /\
          (dict_get symbol inverse = Some other /\ In (label, fs) items \/
           exists i j fs',
             i < j /\ nth_error items i = Some (other, fs') /\
             nth_error items j = Some (label, fs) /\ In symbol fs')
    end.
Proof.
  induction items as [|[label fs] items IH]; intros inverse ND; simpl.
  - split; [intros l fs s [] | intros [|i] j; discriminate].
  - pose proof (check_symbols_spec name label fs inverse
                  (ND label fs (or_introl eq_refl))) as Hs.
    destruct (check_symbols name label fs inverse) as [inverse1|e]; simpl.
    + destruct Hs as (Fresh & Bound).
      specialize (IH inverse1 (fun l x I => ND l x (or_intror I))).
      destruct (check_overlap name items inverse1) as [inverse'|e].
      * destruct IH as (Fresh' & Disj). split.
        -- intros l x s [E|I] Is; [inv_ok E; auto|].
           pose proof (Fresh' l x s I Is) as G. rewrite Bound in G.
           destruct (set_mem s fs); [discriminate | exact G].
        -- intros [|i] [|j] l1 f1 l2 f2 s Lt E1 E2 I1 I2; simpl in *; try lia.
           ++ inv_ok E1.
              pose proof (Fresh' l2 f2 s (nth_error_In _ _ E2) I2) as G.
              rewrite Bound, (proj2 (set_mem_In s f1) I1) in G. discriminate.
           ++ apply (Disj i j l1 f1 l2 f2 s); auto. lia.
      * destruct IH as (s & l & x & other & -> & Is & [[G I]|(i & j & x' & Lt & Ei & Ej & Is')]).
        -- exists s, l, x, other. split; [reflexivity|]. split; [exact Is|].
           rewrite Bound in G. destruct (set_mem s fs) eqn:M.
           ++ inv_ok G. right. apply In_nth_error in I. destruct I as (j & Ej).
              exists 0, (S j), fs. simpl. repeat split; auto; [lia|].
              now apply set_mem_In.
           ++ left. split; [exact G | now right].
        -- exists s, l, x, other. split; [reflexivity|]. split; [exact Is|].
           right. exists (S i), (S j), x'. simpl. repeat split; auto. lia.
    + destruct Hs as (s & other & -> & Is & G).
      exists s, label, fs, other. split; [reflexivity|]. split; [exact Is|].
      left. split; [exact G | now left].
Qed.

(** ** First-set analyser: the recursion *)

Lemma calcfirst_S (fuel : nat) (dfas : rule_table) (name : string)
    (_first : dict string first_slot) :
  _calcfirst (S fuel) dfas name _first =
  ('(h, dfa) <- from_option (KeyError name) (dict_get name dfas) ;;
   r <- from_option IndexError (nth_error dfa 0) ;;
   state <- deref h r ;;
   '(_first', totalset, overlapcheck) <-
     calcfirst_arcs (_calcfirst fuel dfas) dfas name (arcs state)
       (dict_set name None _first) [] [] ;;
   _ <- check_overlap name overlapcheck [] ;;
   Ok (dict_set name (Some totalset) _first')).
Proof.
  simpl. destruct (dict_get name dfas) as [[h dfa]|]; reflexivity.
Qed.

Lemma calcfirst_arcs_app
    (rec : string -> dict string first_slot -> result (dict string first_slot))
    (dfas : rule_table) (name : string) (pre rest : dict string ref) :
  forall f t oc,
    calcfirst_arcs rec dfas name (pre ++ rest) f t oc =
    ('(f1, t1, oc1) <- calcfirst_arcs rec dfas name pre f t oc ;;
     calcfirst_arcs rec dfas name rest f1 t1 oc1).
Proof.
  induction pre as [|[label next] pre IH]; intros f t oc; simpl; [reflexivity|].
  destruct (dict_mem label dfas); [|apply IH].
  destruct (dict_get label f) as [[fs|]|]; simpl; try reflexivity.
  - apply IH.
  - destruct (rec label f) as [f1|e]; simpl; [|reflexivity].
    destruct (dict_get label f1) as [[fs|]|]; simpl; try reflexivity.
    apply IH.
Qed.

(** One rule-reference arc: the table after the arc and the set it
    contributes. *)
Lemma calcfirst_arcs_cons
    (rec : string -> dict string first_slot -> result (dict string first_slot))
    (dfas : rule_table) (name label : string) (next : ref)
    (rest : dict string ref) (f : dict string first_slot)
    (t : pyset string) (oc : dict string (pyset string))
    (res : dict string first_slot * pyset string * dict string (pyset string)) :
  dict_mem label dfas = true ->
  calcfirst_arcs rec dfas name ((label, next) :: rest) f t oc = Ok res ->
  exists f1 fset,
    dict_get label f1 = Some (Some fset) /\
    (dict_get label f = Some (Some fset) /\ f1 = f \/
     dict_get label f = None /\ rec label f = Ok f1) /\
    calcfirst_arcs rec dfas name rest f1 (set_update t fset)
      (dict_set label fset oc) = Ok res.
Proof.
  intros M E. simpl in E. rewrite M in E.
  destruct (dict_get label f) as [[fs|]|] eqn:G; simpl in E.
  - exists f, fs. auto.
  - discriminate.
  - destruct (rec label f) as [f1|] eqn:R; simpl in E; [|discriminate].
    destruct (dict_get label f1) as [[fs|]|] eqn:G1; simpl in E;
      try discriminate.
    exists f1, fs. auto.
Qed.

(** The loop over the arcs keeps the computed first sets in place and free
    of repetitions. *)
Lemma calcfirst_arcs_stable
    (rec : string -> dict string first_slot -> result (dict string first_slot))
    (dfas : rule_table) (name : string) :
  stable_call rec ->
  forall items f t oc f' t' oc',
    calcfirst_arcs rec dfas name items f t oc = Ok (f', t', oc') ->
    first_wf f -> NoDup t ->
    first_wf f' /\ NoDup t' /\
    (forall k v, dict_get k f = Some v -> dict_get k f' = Some v).
Proof.
  intros Hrec.
  induction items as [|[label next] items IH]; intros f t oc f' t' oc' E W ND.
  - simpl in E. inv_ok E. auto.
  - destruct (dict_mem label dfas) eqn:M.
    + apply calcfirst_arcs_cons in E; [|exact M].
      destruct E as (f1 & fset & G1 & Hf & E).
      assert (W1 : first_wf f1 /\
                   forall k v, dict_get k f = Some v -> dict_get k f1 = Some v).
      { destruct Hf as [[_ ->]|[G R]]; [auto | now apply (Hrec label)]. }
      destruct W1 as (W1 & St1).
      apply IH in E; [|exact W1|now apply set_update_NoDup].
      destruct E as (W' & ND' & St'). auto.
    + simpl in E. rewrite M in E. apply IH in E; [|exact W|now apply set_add_NoDup].
      exact E.
Qed.

(** The entries of [overlapcheck]: one per arc, in the order of the arcs,
    with what the arc contributes. *)
Lemma calcfirst_arcs_overlapcheck
    (rec : string -> dict string first_slot -> result (dict string first_slot))
    (dfas : rule_table) (name : string) :
  stable_call rec ->
  forall items f t oc f' t' oc',
    calcfirst_arcs rec dfas name items f t oc = Ok (f', t', oc') ->
    first_wf f -> NoDup t -> NoDup (dict_keys items) ->
    (forall l, In l (dict_keys items) -> dict_get l oc = None) ->
    oc' = oc ++ map (fun item => (fst item, contribution dfas f' (fst item))) items.
Proof.
  intros Hrec.
  induction items as [|[label next] items IH];
    intros f t oc f' t' oc' E W ND NDk New.
  - simpl in E. inv_ok E. simpl. now rewrite app_nil_r.
  - simpl in NDk. inversion NDk as [|? ? Nl NDk']; subst.
    assert (New' : forall fset l, In l (dict_keys items) ->
                                  dict_get l (dict_set label fset oc) = None).
    { intros fset l I. rewrite dict_get_set_other.
      - apply New. now right.
      - intros ->. contradiction. }
    assert (Eset : forall fset, dict_set label fset oc = oc ++ [(label, fset)]).
    { intros fset. apply dict_set_new. apply New. now left. }
    destruct (dict_mem label dfas) eqn:M.
    + apply calcfirst_arcs_cons in E; [|exact M].
      destruct E as (f1 & fset & G1 & Hf & E).
      assert (W1 : first_wf f1).
      { destruct Hf as [[_ ->]|[G R]]; [auto | now apply (Hrec label f f1)]. }
      pose proof (calcfirst_arcs_stable rec dfas name Hrec _ _ _ _ _ _ _ E W1
                    (set_update_NoDup _ _ ND)) as (_ & _ & St).
      apply IH in E; auto using set_update_NoDup.
      rewrite E, Eset, <- app_assoc. simpl. do 3 f_equal.
      unfold contribution. now rewrite M, (St _ _ G1).
    + simpl in E. rewrite M in E.
      apply IH in E; auto using set_add_NoDup.
      rewrite E, Eset, <- app_assoc. simpl. do 3 f_equal.
      unfold contribution. now rewrite M.
Qed.

Lemma first_wf_sentinel (name : string) (f : dict string first_slot) :
  first_wf f -> first_wf (dict_set name None f).
Proof.
  intros W k fs G. destruct (String.eqb_spec k name) as [->|Ne].
  - rewrite dict_get_set_same in G. discriminate.
  - rewrite dict_get_set_other in G by exact Ne. eauto.
Qed.

(** [_calcfirst] is such a call. *)
Lemma calcfirst_stable (dfas : rule_table) (fuel : nat) :
  stable_call (_calcfirst fuel dfas).
Proof.
  induction fuel as [|fuel IH]; intros name f f' E G W; [discriminate|].
  rewrite calcfirst_S in E.
  inv_bind E. destruct x as [h dfa]. inv_bind E. inv_bind E.
  inv_bind E. destruct x1 as [[f1 totalset] oc]. inv_bind E. inv_ok E.
  apply (calcfirst_arcs_stable _ dfas name IH) in E3;
    [|now apply first_wf_sentinel|constructor].
  destruct E3 as (W1 & NDt & St). split.
  - intros k fs Gk. destruct (String.eqb_spec k name) as [->|Ne].
    + rewrite dict_get_set_same in Gk. now inv_ok Gk.
    + rewrite dict_get_set_other in Gk by exact Ne. eauto.
  - intros k v Gk.
    assert (Ne : k <> name) by (intros ->; congruence).
    rewrite dict_get_set_other by exact Ne. apply St.
    now rewrite dict_get_set_other by exact Ne.
Qed.

(** ** First-set analyser: calls and the errors they raise *)

(** An exception raised in a call is raised by the calls around it. *)
Lemma invokes_Err (dfas : rule_table) (fuel : nat) (name : string)
    (f : dict string first_slot) (fuel' : nat) (name' : string)
    (f' : dict string first_slot) (e : exn) :
  invokes dfas fuel name f fuel' name' f' ->
  _calcfirst fuel' dfas name' f' = Err e ->
  _calcfirst fuel dfas name f = Err e.
Proof.
  induction 1 as [|fuel name f h dfa r state pre rest label next f1 t1 oc1
                   fuel' name' f' Ed Er Es Ea Ep M G Inv IH]; intros E; [exact E|].
  rewrite calcfirst_S, Ed. cbn [from_option bind]. rewrite Er.
  cbn [from_option bind]. rewrite (proj2 (deref_Ok h r state) Es).
  cbn [bind]. rewrite Ea, calcfirst_arcs_app, Ep. cbn [bind calcfirst_arcs].
  rewrite M, G, (IH E). reflexivity.
Qed.

Lemma invokes_wf (dfas : rule_table) (fuel : nat) (name : string)
    (f : dict string first_slot) (fuel' : nat) (name' : string)
    (f' : dict string first_slot) :
  invokes dfas fuel name f fuel' name' f' ->
  first_wf f -> dict_get name f = None ->
  first_wf f' /\ dict_get name' f' = None.
Proof.
  induction 1 as [|fuel name f h dfa r state pre rest label next f1 t1 oc1
                   fuel' name' f' Ed Er Es Ea Ep M G Inv IH]; intros W N; [auto|].
  apply IH; [|exact G].
  apply (calcfirst_arcs_stable _ dfas name (calcfirst_stable dfas fuel)) in Ep;
    [tauto | now apply first_wf_sentinel | constructor].
Qed.

Lemma addfirstsets_loop_app (fuel : nat) (dfas : rule_table)
    (names rest : list string) :
  forall f,
    addfirstsets_loop fuel dfas (names ++ rest) f =
    (f1 <- addfirstsets_loop fuel dfas names f ;;
     addfirstsets_loop fuel dfas rest f1).
Proof.
  induction names as [|name names IH]; intros f; simpl; [reflexivity|].
  destruct (dict_mem name f); [apply IH|].
  destruct (_calcfirst fuel dfas name f); simpl; [apply IH | reflexivity].
Qed.

Lemma addfirstsets_loop_wf (fuel : nat) (dfas : rule_table)
    (names : list string) :
  forall f f',
    addfirstsets_loop fuel dfas names f = Ok f' -> first_wf f -> first_wf f'.
Proof.
  induction names as [|name names IH]; intros f f' E W; simpl in E.
  - now inv_ok E.
  - destruct (dict_mem name f) eqn:M; [eauto|].
    inv_bind E. eapply IH; [exact E|].
    eapply calcfirst_stable; eauto. now apply dict_mem_get_None.
Qed.

Lemma analysis_invokes_wf (rules : rule_table) (fuel' : nat) (name' : string)
    (f' : dict string first_slot) :
  analysis_invokes rules fuel' name' f' ->
  first_wf f' /\ dict_get name' f' = None.
Proof.
  intros (before & name & after & f & _ & El & M & Inv).
  eapply invokes_wf; [exact Inv | | now apply dict_mem_get_None].
  eapply addfirstsets_loop_wf; [exact El|]. intros k fs G. discriminate.
Qed.

Lemma analysis_invokes_Err (rules : rule_table) (fuel' : nat) (name' : string)
    (f' : dict string first_slot) (e : exn) :
  analysis_invokes rules fuel' name' f' ->
  _calcfirst fuel' rules name' f' = Err e ->
  forall token_NAME ns g, make_grammar token_NAME ns rules g = Err e.
Proof.
  intros (before & name & after & f & Es & El & M & Inv) E token_NAME ns g.
  unfold make_grammar, _addfirstsets.
  rewrite Es, addfirstsets_loop_app, El. cbn [bind addfirstsets_loop].
  rewrite M, (invokes_Err _ _ _ _ _ _ _ _ Inv E). reflexivity.
Qed.

(** C1.  Left recursion is fatal.  Let the first-set analysis of
    [make_grammar] come to the call [_calcfirst(name)].  The call stores the
    dummy in the slot of [name] and then goes through the arcs of the start
    state of [name]; if, after the arcs [pre], it meets an arc whose label
    names a rule with the dummy in its slot, then the call raises the
    left-recursion error for [name], [make_grammar] raises it too and
    returns no grammar.  The slot of [name] itself holds the dummy at that
    moment. *)
Theorem left_recursion_is_fatal
    (token_NAME : Z) (ns : TokenNamespace) (rules : rule_table) (g : Grammar)
    (fuel : nat) (name : string) (f : dict string first_slot)
    (h : heap) (dfa : list ref) (r : ref) (state : DFAState)
    (pre rest : dict string ref) (label : string) (next : ref)
    (f1 : dict string first_slot) (t1 : pyset string)
    (oc1 : dict string (pyset string)) :
  analysis_invokes rules (S fuel) name f ->
  dict_get name rules = Some (h, dfa) ->
  nth_error dfa 0 = Some r ->
  nth_error h r = Some state ->
  arcs state = pre ++ (label, next) :: rest ->
  calcfirst_arcs (_calcfirst fuel rules) rules name pre
    (dict_set name None f) [] [] = Ok (f1, t1, oc1) ->
  dict_mem label rules = true ->
  dict_get label f1 = Some None ->
  _calcfirst (S fuel) rules name f = Err (ValueError_recursion name) /\
  make_grammar token_NAME ns rules g = Err (ValueError_recursion name) /\
  dict_get name f1 = Some None.
Proof.
  intros Inv Ed Er Es Ea Ep M G.
  assert (E : _calcfirst (S fuel) rules name f = Err (ValueError_recursion name)).
  { rewrite calcfirst_S, Ed. cbn [from_option bind]. rewrite Er.
    cbn [from_option bind]. rewrite (proj2 (deref_Ok h r state) Es).
    cbn [bind]. rewrite Ea, calcfirst_arcs_app, Ep. cbn [bind calcfirst_arcs].
    rewrite M, G. reflexivity. }
  split; [exact E|]. split; [now apply (analysis_invokes_Err _ _ _ _ _ Inv)|].
  destruct (analysis_invokes_wf _ _ _ _ Inv) as (W & _).
  apply (calcfirst_arcs_stable _ rules name (calcfirst_stable rules fuel)) in Ep;
    [|now apply first_wf_sentinel|constructor].
  apply Ep. apply dict_get_set_same.
Qed.

Lemma left_recursion_is_fatal_witness :
  generate_grammar Samples.NAME Samples.python_tokens 20
    [Samples.left_recursive]
  = Err (ValueError_recursion "a").
Proof.
  change (make_grammar Samples.NAME Samples.python_tokens
            Samples.left_recursive_rules (Grammar_new (Some "a"))
          = Err (ValueError_recursion "a")).
  refine (proj1 (proj2
    (left_recursion_is_fatal Samples.NAME Samples.python_tokens
       Samples.left_recursive_rules (Grammar_new (Some "a"))
       1 "a" [] _ [0; 1; 2] 0 _ [] [("'y'", 2)] "a" 1 [("a", None)] [] []
       _ eq_refl eq_refl eq_refl eq_refl eq_refl eq_refl eq_refl))).
  exists [], "a", [], [].
  split; [reflexivity|]. split; [reflexivity|]. split; [reflexivity|].
  apply invokes_here.
Defined.

(** C2.  An ambiguous first set is fatal.  Let the first-set analysis of
    [make_grammar] come to the call [_calcfirst(name)], and let the loop
    over the arcs of the start state of [name] resolve every arc.  If two
    arcs with different labels contribute a common symbol (an arc
    contributes its own label if that is a terminal, and the first set of
    the rule it names otherwise), then the call raises the ambiguity error,
    which reports [name], a symbol and two different arcs of the start state
    that both contribute this symbol; [make_grammar] raises it too and
    returns no grammar. *)
Theorem ambiguous_first_set_is_fatal
    (token_NAME : Z) (ns : TokenNamespace) (rules : rule_table) (g : Grammar)
    (fuel : nat) (name : string) (f : dict string first_slot)
    (h : heap) (dfa : list ref) (r : ref) (state : DFAState)
    (f1 : dict string first_slot) (totalset : pyset string)
    (overlapcheck : dict string (pyset string))
    (l1 l2 : string) (t1 t2 : ref) (symbol : string) :
  analysis_invokes rules (S fuel) name f ->
  dict_get name rules = Some (h, dfa) ->
  nth_error dfa 0 = Some r ->
  nth_error h r = Some state ->
  NoDup (dict_keys (arcs state)) ->
  calcfirst_arcs (_calcfirst fuel rules) rules name (arcs state)
    (dict_set name None f) [] [] = Ok (f1, totalset, overlapcheck) ->
  In (l1, t1) (arcs state) -> In (l2, t2) (arcs state) -> l1 <> l2 ->
  In symbol (contribution rules f1 l1) ->
  In symbol (contribution rules f1 l2) ->
  exists symbol' label other,
    _calcfirst (S fuel) rules name f =
      Err (ValueError_ambiguous name symbol' label other) /\
    make_grammar token_NAME ns rules g =
      Err (ValueError_ambiguous name symbol' label other) /\
    label <> other /\
    In label (dict_keys (arcs state)) /\ In other (dict_keys (arcs state)) /\
    In symbol' (contribution rules f1 label) /\
    In symbol' (contribution rules f1 other).
Proof.
  intros Inv Ed Er Es NDk Ea I1 I2 Ne S1 S2.
  destruct (analysis_invokes_wf _ _ _ _ Inv) as (W & _).
  pose proof (calcfirst_stable rules fuel) as Hrec.
  pose proof (first_wf_sentinel name f W) as W0.
  pose proof (calcfirst_arcs_stable _ rules name Hrec _ _ _ _ _ _ _ Ea W0
                (NoDup_nil _)) as (W1 & _ & _).
  pose proof (calcfirst_arcs_overlapcheck _ rules name Hrec _ _ _ _ _ _ _ Ea W0
                (NoDup_nil _) NDk (fun l _ => eq_refl)) as Eoc.
  simpl in Eoc.
  set (entry := fun item : string * ref =>
                  (fst item, contribution rules f1 (fst item))) in *.
  assert (Nth : forall i l fs,
             nth_error overlapcheck i = Some (l, fs) ->
             fs = contribution rules f1 l /\
             nth_error (dict_keys (arcs state)) i = Some l).
  { intros i l fs E. rewrite Eoc in E. rewrite nth_error_map in E.
    unfold dict_keys. rewrite nth_error_map.
    destruct (nth_error (arcs state) i) as [[l' t']|]; simpl in *; [|discriminate].
    inv_ok E. auto. }
  assert (NDfs : forall l fs, In (l, fs) overlapcheck -> NoDup fs).
  { intros l fs I. apply In_nth_error in I. destruct I as (i & E).
    apply Nth in E. destruct E as (-> & _). unfold contribution.
    destruct (dict_mem l rules); [|repeat constructor; intros []].
    destruct (dict_get l f1) as [[fs|]|] eqn:G; eauto; constructor. }
  pose proof (check_overlap_spec name overlapcheck [] NDfs) as Hc.
  destruct (check_overlap name overlapcheck []) as [inverse|e] eqn:Ec.
  - exfalso. destruct Hc as (_ & Disj).
    apply In_nth_error in I1, I2.
    destruct I1 as (i1 & E1). destruct I2 as (i2 & E2).
    assert (O1 : nth_error overlapcheck i1 = Some (entry (l1, t1)))
      by (rewrite Eoc; now apply map_nth_error).
    assert (O2 : nth_error overlapcheck i2 = Some (entry (l2, t2)))
      by (rewrite Eoc; now apply map_nth_error).
    unfold entry in O1, O2. simpl in O1, O2.
    destruct (Nat.lt_total i1 i2) as [Lt|[->|Lt]].
    + exact (Disj _ _ _ _ _ _ symbol Lt O1 O2 S1 S2).
    + congruence.
    + exact (Disj _ _ _ _ _ _ symbol Lt O2 O1 S2 S1).
  - destruct Hc as (s & label & fs & other & -> & Is & [[G _]|(i & j & fs' & Lt & Ei & Ej & Is')]);
      [discriminate|].
    apply Nth in Ei, Ej. destruct Ei as (-> & Ki). destruct Ej as (-> & Kj).
    assert (E : _calcfirst (S fuel) rules name f =
                Err (ValueError_ambiguous name s label other)).
    { rewrite calcfirst_S, Ed. cbn [from_option bind]. rewrite Er.
      cbn [from_option bind]. rewrite (proj2 (deref_Ok h r state) Es).
      cbn [bind]. rewrite Ea. cbn [bind]. rewrite Ec. reflexivity. }
    exists s, label, other. split; [exact E|].
    split; [now apply (analysis_invokes_Err _ _ _ _ _ Inv)|].
    split.
    + intros ->. rewrite NoDup_nth_error in NDk.
      assert (i = j); [|lia].
      apply NDk; [eapply nth_error_Some_lt; eauto | congruence].
    + repeat split; eauto using nth_error_In.
Qed.

Lemma ambiguous_first_set_is_fatal_witness :
  exists symbol' label other,
    generate_grammar Samples.NAME Samples.python_tokens 20
      [Samples.a_is_b_or_c; Samples.is_x "b"; Samples.is_x "c"]
    = Err (ValueError_ambiguous "a" symbol' label other) /\
    symbol' = "'x'" /\ label = "c" /\ other = "b".
Proof.
  change (exists symbol' label other,
            make_grammar Samples.NAME Samples.python_tokens
              Samples.ambiguous_rules (Grammar_new (Some "a"))
            = Err (ValueError_ambiguous "a" symbol' label other) /\
            symbol' = "'x'" /\ label = "c" /\ other = "b").
  assert (A : analysis_invokes Samples.ambiguous_rules 4 "a" []).
  { exists [], "a", ["b"; "c"], [].
    split; [reflexivity|]. split; [reflexivity|]. split; [reflexivity|].
    apply invokes_here. }
  pose proof
    (ambiguous_first_set_is_fatal Samples.NAME Samples.python_tokens
       Samples.ambiguous_rules (Grammar_new (Some "a"))
       3 "a" [] _ [0; 1] 0 _
       [("a", None); ("b", Some ["'x'"]); ("c", Some ["'x'"])]
       ["'x'"] [("b", ["'x'"]); ("c", ["'x'"])]
       "b" "c" 1 1 "'x'" A eq_refl eq_refl eq_refl) as H.
  destruct H as (s & label & other & _ & E & _).
  - repeat constructor; simpl; intuition discriminate.
  - reflexivity.
  - simpl; auto.
  - simpl; auto.
  - discriminate.
  - simpl; auto.
  - simpl; auto.
  - exists s, label, other. split; [exact E|].
    assert (V : make_grammar Samples.NAME Samples.python_tokens
                  Samples.ambiguous_rules (Grammar_new (Some "a"))
                = Err (ValueError_ambiguous "a" "'x'" "c" "b"))
      by reflexivity.
    rewrite V in E. injection E as <- <- <-. auto.
Defined.

(** ** First-set analyser: the recursion budget *)

Lemma filter_length_mono {A : Type} (p q : A -> bool) (l : list A) :
  (forall x, In x l -> q x = true -> p x = true) ->
  List.length (filter q l) <= List.length (filter p l).
Proof.
  induction l as [|a l IH]; intros Imp; simpl; [lia|].
  assert (IH' : List.length (filter q l) <= List.length (filter p l))
    by (apply IH; intros x I; apply Imp; now right).
  destruct (q a) eqn:Q.
  - rewrite (Imp a (or_introl eq_refl) Q). simpl. lia.
  - destruct (p a); simpl; lia.
Qed.

Lemma filter_length_strict {A : Type} (p q : A -> bool) (l : list A) (x : A) :
  (forall y, In y l -> q y = true -> p y = true) ->
  In x l -> p x = true -> q x = false ->
  List.length (filter q l) < List.length (filter p l).
Proof.
  induction l as [|a l IH]; intros Imp I Px Qx; simpl; [destruct I|].
  assert (Imp' : forall y, In y l -> q y = true -> p y = true)
    by (intros y Iy; apply Imp; now right).
  destruct I as [->|I].
  - rewrite Px, Qx. simpl.
    pose proof (filter_length_mono p q l Imp'). lia.
  - specialize (IH Imp' I Px Qx). destruct (q a) eqn:Q.
    + rewrite (Imp a (or_introl eq_refl) Q). simpl. lia.
    + destruct (p a); simpl; lia.
Qed.

Lemma missing_le (dfas : rule_table) (f f' : dict string first_slot) :
  (forall k v, dict_get k f = Some v -> dict_get k f' = Some v) ->
  missing dfas f' <= missing dfas f.
Proof.
  intros St. apply filter_length_mono. intros k _.
  unfold dict_mem. destruct (dict_get k f) as [v|] eqn:G; [|reflexivity].
  now rewrite (St k v G).
Qed.

Lemma missing_mark (dfas : rule_table) (name : string) (v : first_slot)
    (f : dict string first_slot) :
  dict_mem name dfas = true -> dict_get name f = None ->
  missing dfas (dict_set name v f) < missing dfas f.
Proof.
  intros M G. apply filter_length_strict with (x := name).
  - intros k _. unfold dict_mem.
    destruct (String.eqb_spec k name) as [->|Ne].
    + now rewrite dict_get_set_same.
    + rewrite dict_get_set_other by exact Ne.
      now destruct (dict_get k f).
  - now apply dict_mem_In.
  - unfold dict_mem. now rewrite G.
  - unfold dict_mem. now rewrite dict_get_set_same.
Qed.

Lemma calcfirst_arcs_budget
    (rec : string -> dict string first_slot -> result (dict string first_slot))
    (dfas : rule_table) (name : string) (fuel : nat) :
  stable_call rec ->
  (forall label f,
      missing dfas f < fuel -> dict_get label f = None -> first_wf f ->
      rec label f <> Err OutOfFuel) ->
  forall items f t oc,
    missing dfas f < fuel -> first_wf f ->
    calcfirst_arcs rec dfas name items f t oc <> Err OutOfFuel.
Proof.
  intros St Rec.
  induction items as [|[label next] items IH]; intros f t oc L W; simpl.
  - discriminate.
  - destruct (dict_mem label dfas); [|now apply IH].
    destruct (dict_get label f) as [[fs|]|] eqn:G; simpl.
    + now apply IH.
    + discriminate.
    + pose proof (Rec label f L G W) as R.
      destruct (rec label f) as [f1|e] eqn:E; simpl; [|congruence].
      destruct (St label f f1 E G W) as (W1 & Keep).
      destruct (dict_get label f1) as [[fs|]|]; simpl; try discriminate.
      apply IH; [|exact W1].
      pose proof (missing_le dfas f f1 Keep). lia.
Qed.

Lemma check_overlap_Err (name : string) (items : dict string (pyset string)) :
  forall inverse e,
    check_overlap name items inverse = Err e ->
    exists symbol label other, e = ValueError_ambiguous name symbol label other.
Proof.
  induction items as [|[l fs] items IH]; intros inverse e E; simpl in E;
    [discriminate|].
  destruct (check_symbols name l fs inverse) as [inv1|e1] eqn:E1; simpl in E;
    [eauto|].
  inv_ok E. clear IH. revert inverse E1.
  induction fs as [|s fs IHs]; intros inverse E1; simpl in E1; [discriminate|].
  destruct (dict_get s inverse); [inv_ok E1; eauto | eauto].
Qed.

(** A budget above the number of rules without a slot is never used up. *)
Lemma calcfirst_budget (dfas : rule_table) (fuel : nat) :
  forall name f,
    missing dfas f < fuel -> dict_get name f = None -> first_wf f ->
    _calcfirst fuel dfas name f <> Err OutOfFuel.
Proof.
  induction fuel as [|fuel IH]; intros name f L G W; [lia|].
  rewrite calcfirst_S.
  destruct (dict_get name dfas) as [[h dfa]|] eqn:Ed; cbn [from_option bind];
    [|discriminate].
  destruct (nth_error dfa 0) as [r|]; cbn [from_option bind]; [|discriminate].
  destruct (deref h r) as [state|e] eqn:Er; cbn [bind].
  - assert (M : dict_mem name dfas = true) by (unfold dict_mem; now rewrite Ed).
    pose proof (missing_mark dfas name None f M G) as L'.
    assert (L0 : missing dfas (dict_set name None f) < fuel)
      by (eapply Nat.lt_le_trans; [exact L' | lia]).
    pose proof (calcfirst_arcs_budget (_calcfirst fuel dfas) dfas name fuel
                  (calcfirst_stable dfas fuel) IH (arcs state)
                  (dict_set name None f) [] [] L0
                  (first_wf_sentinel name f W)) as A.
    destruct (calcfirst_arcs _ _ _ _ _ _ _) as [[[f1 t1] oc1]|e]; cbn [bind];
      [|congruence].
    destruct (check_overlap name oc1 []) as [inv|e] eqn:C; cbn [bind];
      [discriminate|].
    apply check_overlap_Err in C. destruct C as (s & l & o & ->). discriminate.
  - unfold deref in Er. destruct (nth_error h r); simpl in Er;
      [discriminate Er|].
    inv_ok Er. discriminate.
Qed.

Lemma addfirstsets_loop_budget (dfas : rule_table) (fuel : nat)
    (names : list string) :
  forall f,
    missing dfas f < fuel -> first_wf f ->
    addfirstsets_loop fuel dfas names f <> Err OutOfFuel.
Proof.
  induction names as [|name names IH]; intros f L W; simpl; [discriminate|].
  destruct (dict_mem name f) eqn:M; [now apply IH|].
  apply dict_mem_get_None in M.
  pose proof (calcfirst_budget dfas fuel name f L M W) as B.
  destruct (_calcfirst fuel dfas name f) as [f1|e] eqn:E; simpl; [|congruence].
  destruct (calcfirst_stable dfas fuel name f f1 E M W) as (W1 & Keep).
  apply IH; [|exact W1]. pose proof (missing_le dfas f f1 Keep). lia.
Qed.

(** The budget that [_addfirstsets] gives to [_calcfirst] is enough: the
    first-set analysis ends with the first sets or with one of the two
    errors of [_calcfirst], never for want of budget. *)
Lemma addfirstsets_budget (dfas : rule_table) :
  _addfirstsets dfas [] <> Err OutOfFuel.
Proof.
  unfold _addfirstsets. apply addfirstsets_loop_budget.
  - unfold missing. simpl.
    pose proof (filter_length_mono (fun _ => true)
                  (fun k : string => negb (dict_mem k ([] : dict string first_slot)))
                  (dict_keys dfas) (fun _ _ _ => eq_refl)) as L.
    assert (E : filter (fun _ : string => true) (dict_keys dfas) = dict_keys dfas).
    { induction (dict_keys dfas) as [|k l IHl]; simpl;
        [reflexivity | now rewrite IHl]. }
    rewrite E in L. unfold dict_keys in L at 2. rewrite length_map in L.
    simpl in L. lia.
  - intros k fs G. discriminate.
Qed.

(** ** Subset constructor: the budgets *)

Lemma unvisited_le (n : nat) (base base' : pyset NFAState) :
  incl base base' -> unvisited n base' <= unvisited n base.
Proof.
  intros I. apply filter_length_mono. intros k _ M.
  rewrite negb_true_iff in *. apply set_mem_false in M. apply set_mem_false.
  intros Ik. apply M, I, Ik.
Qed.

Lemma unvisited_add (n : nat) (state : NFAState) (base : pyset NFAState) :
  state < n -> set_mem state base = false ->
  unvisited n (set_add state base) < unvisited n base.
Proof.
  intros L M. apply filter_length_strict with (x := state).
  - intros k _ Mk. rewrite negb_true_iff in *.
    apply set_mem_false in Mk. apply set_mem_false.
    intros Ik. apply Mk, set_add_In. now right.
  - apply in_seq. lia.
  - now rewrite M.
  - rewrite negb_false_iff. apply set_mem_In, set_add_In. now left.
Qed.

(** A budget above the number of unvisited states is never used up. *)
Lemma addclosure_budget (nfa : NFA) (fuel : nat) :
  forall state base,
    unvisited (List.length (nfa_arcs nfa)) base < fuel ->
    exists base', addclosure fuel nfa state base = Ok base'.
Proof.
  induction fuel as [|fuel IH]; intros state base L; [lia|].
  simpl. destruct (set_mem state base) eqn:M; [eauto|].
  destruct (Nat.lt_ge_cases state (List.length (nfa_arcs nfa))) as [Ls|Ls].
  - pose proof (unvisited_add _ _ _ Ls M) as L1.
    assert (L2 : unvisited (List.length (nfa_arcs nfa)) (set_add state base) < fuel)
      by lia.
    revert L2. generalize (set_add state base).
    induction (arcs_of nfa state) as [|[[label|] next] l IHl]; intros b Lb;
      simpl; [eauto | apply IHl; exact Lb |].
    destruct (IH next b Lb) as (b' & E). rewrite E. simpl.
    apply IHl. pose proof (unvisited_le (List.length (nfa_arcs nfa)) b b'
                             (addclosure_incl _ _ _ _ _ E)). lia.
  - unfold arcs_of. rewrite nth_overflow by exact Ls. simpl. eauto.
Qed.

Lemma filter_all {A : Type} (l : list A) : filter (fun _ => true) l = l.
Proof. induction l as [|a l IH]; simpl; [reflexivity | now rewrite IH]. Qed.

Lemma unvisited_bound (n : nat) (base : pyset NFAState) : unvisited n base <= n.
Proof.
  unfold unvisited.
  pose proof (filter_length_mono (fun _ => true)
                (fun s => negb (set_mem s base)) (seq 0 n)
                (fun _ _ _ => eq_refl)) as L.
  rewrite filter_all, length_seq in L. exact L.
Qed.

Lemma move_arcs_budget (nfa : NFA) (fuel : nat)
    (l : list (option string * NFAState)) :
  List.length (nfa_arcs nfa) < fuel ->
  forall arcs0, exists arcs1, move_arcs fuel nfa l arcs0 = Ok arcs1.
Proof.
  intros L. induction l as [|[[label|] next] l IH]; intros arcs0; simpl;
    [eauto | | eauto].
  set (target := match dict_get label arcs0 with Some s => s | None => [] end).
  destruct (addclosure_budget nfa fuel next target) as (t' & E).
  - pose proof (unvisited_bound (List.length (nfa_arcs nfa)) target). lia.
  - rewrite E. simpl. apply IH.
Qed.

Lemma move_sets_budget (nfa : NFA) (fuel : nat) (members : list NFAState) :
  List.length (nfa_arcs nfa) < fuel ->
  forall arcs0, exists arcs1, move_sets fuel nfa members arcs0 = Ok arcs1.
Proof.
  intros L. induction members as [|m members IH]; intros arcs0; simpl; [eauto|].
  destruct (move_arcs_budget nfa fuel (arcs_of nfa m) L arcs0) as (a & E).
  rewrite E. simpl. apply IH.
Qed.

(** In a well-formed fragment the closures stay within the fragment. *)
Lemma addclosure_range (nfa : NFA) (fuel : nat) :
  (forall state label next,
      In (label, next) (arcs_of nfa state) -> next < List.length (nfa_arcs nfa)) ->
  forall state base base',
    addclosure fuel nfa state base = Ok base' ->
    state < List.length (nfa_arcs nfa) ->
    Forall (fun x => x < List.length (nfa_arcs nfa)) base ->
    Forall (fun x => x < List.length (nfa_arcs nfa)) base'.
Proof.
  intros Wf. induction fuel as [|fuel IH]; intros state base base' E Ls R;
    simpl in E; [discriminate|].
  destruct (set_mem state base); [inv_ok E; exact R|].
  assert (R1 : Forall (fun x => x < List.length (nfa_arcs nfa))
                 (set_add state base)).
  { apply Forall_forall. intros x I. apply set_add_In in I.
    destruct I as [->|I]; [exact Ls|]. rewrite Forall_forall in R. auto. }
  pose proof (Wf state) as Wfs.
  revert E R1 Wfs. generalize (set_add state base).
  induction (arcs_of nfa state) as [|[[label|] next] l IHl]; intros b E Rb Wfs;
    simpl in E.
  - inv_ok E. exact Rb.
  - apply (IHl b E Rb). intros lb nx I. apply (Wfs lb). now right.
  - inv_bind E. apply (IHl x E).
    + eapply IH; [exact E0 | | exact Rb]. apply (Wfs None). now left.
    + intros lb nx I. apply (Wfs lb). now right.
Qed.

Lemma move_arcs_range (nfa : NFA) (fuel : nat)
    (P := Forall (fun x => x < List.length (nfa_arcs nfa))) :
  (forall state label next,
      In (label, next) (arcs_of nfa state) -> next < List.length (nfa_arcs nfa)) ->
  forall l arcs0 arcs1,
    (forall label next, In (label, next) l -> next < List.length (nfa_arcs nfa)) ->
    move_arcs fuel nfa l arcs0 = Ok arcs1 ->
    (forall label s, In (label, s) arcs0 -> P s) ->
    (forall label s, In (label, s) arcs1 -> P s).
Proof.
  intros Wf. induction l as [|[[label|] next] l IH]; intros arcs0 arcs1 Rl E R0;
    simpl in E.
  - inv_ok E. exact R0.
  - inv_bind E. apply (IH _ _ (fun lb nx I => Rl lb nx (or_intror I)) E).
    intros lb s I. apply dict_set_In in I.
    destruct I as [[-> ->]|I]; [|exact (R0 _ _ I)].
    eapply addclosure_range; [exact Wf | exact E0 | |].
    + apply (Rl (Some label)). now left.
    + destruct (dict_get label arcs0) eqn:G; [|constructor].
      apply dict_get_In in G. exact (R0 _ _ G).
  - apply (IH _ _ (fun lb nx I => Rl lb nx (or_intror I)) E R0).
Qed.

Lemma move_sets_range (nfa : NFA) (fuel : nat)
    (P := Forall (fun x => x < List.length (nfa_arcs nfa))) :
  (forall state label next,
      In (label, next) (arcs_of nfa state) -> next < List.length (nfa_arcs nfa)) ->
  forall members arcs0 arcs1,
    move_sets fuel nfa members arcs0 = Ok arcs1 ->
    (forall label s, In (label, s) arcs0 -> P s) ->
    (forall label s, In (label, s) arcs1 -> P s).
Proof.
  intros Wf. induction members as [|m members IH]; intros arcs0 arcs1 E R0;
    simpl in E.
  - inv_ok E. exact R0.
  - inv_bind E. apply (IH _ _ E).
    eapply move_arcs_range; [exact Wf | | exact E0 | exact R0].
    intros lb nx. apply Wf.
Qed.

Lemma in_store (h : heap) (r : ref) (o x : DFAState) :
  In x (store h r o) -> x = o \/ In x h.
Proof.
  revert r. induction h as [|a h IH]; intros [|r]; simpl; try tauto.
  - intros [<-|I]; auto.
  - intros [<-|I]; auto. destruct (IH r I); auto.
Qed.

(** Linking a state to targets within the fragment leaves all states
    within the fragment. *)
Lemma link_arcs_range (n : nat) (finish : NFAState) (state : ref)
    (items : dict string (pyset NFAState)) :
  forall h states0 h' states',
    link_arcs finish state items h states0 = Ok (h', states') ->
    (forall label s, In (label, s) items -> Forall (fun x => x < n) s) ->
    (forall o, In o h -> Forall (fun x => x < n) (nfaset o)) ->
    (forall o, In o h' -> Forall (fun x => x < n) (nfaset o)).
Proof.
  induction items as [|[label s] items IH]; intros h states0 h' states' E Ri Rh;
    simpl in E.
  - now inv_ok E.
  - inv_bind E. destruct x as [[h1 states1] st]. inv_bind E. rename x into h2.
    apply (IH _ _ _ _ E (fun l x I => Ri l x (or_intror I))).
    assert (R1 : forall o, In o h1 -> Forall (fun x => x < n) (nfaset o)).
    { unfold target_state in E0. inv_bind E0. destruct x as [st'|].
      - now inv_ok E0.
      - inv_bind E0. destruct x as [hn stn]. inv_ok E0.
        unfold DFAState_new in E3. destruct s as [|k s]; [discriminate|].
        inv_ok E3. intros o I. apply in_app_or in I.
        destruct I as [I|[<-|[]]]; [auto|]. simpl. apply (Ri label). now left. }
    unfold add_arc in E1. inv_bind E1. apply deref_Ok in E2.
    destruct (dict_mem label (arcs x)); [discriminate|]. inv_ok E1.
    intros o I. apply in_store in I. destruct I as [->|I]; [|auto].
    simpl. apply R1. eapply nth_error_In; eauto.
Qed.

Lemma bit_rows_length (n : nat) : List.length (bit_rows n) = 2 ^ n.
Proof.
  induction n as [|n IH]; [reflexivity|].
  cbn [bit_rows]. rewrite length_app, !length_map, IH, Nat.pow_succ_r'. lia.
Qed.

Lemma bit_rows_all (n : nat) :
  forall r : list bool, List.length r = n -> In r (bit_rows n).
Proof.
  induction n as [|n IH]; intros [|b r] L; simpl in L; try discriminate.
  - now left.
  - cbn [bit_rows]. apply in_or_app.
    destruct b; [left | right]; apply in_map; apply IH; lia.
Qed.

Lemma membership_eq (n : nat) (s s' : pyset NFAState) :
  Forall (fun x => x < n) s -> Forall (fun x => x < n) s' ->
  membership n s = membership n s' ->
  forall x, In x s <-> In x s'.
Proof.
  intros R R' E x. unfold membership in E. rewrite Forall_forall in R, R'.
  assert (M : forall k, k < n -> set_mem k s = set_mem k s').
  { intros k L. apply (ext_in_map E). apply in_seq. lia. }
  split; intros I.
  - apply set_mem_In. rewrite <- M by auto. now apply set_mem_In.
  - apply set_mem_In. rewrite M by auto. now apply set_mem_In.
Qed.

(** States that stand for different sets of the [n] NFA states: there are
    at most [2 ^ n] of them. *)
Lemma dfa_inv_bound (n : nat) (finish : NFAState) (h : heap)
    (states0 : list ref) :
  dfa_inv finish h states0 ->
  (forall o, In o h -> Forall (fun x => x < n) (nfaset o)) ->
  List.length h <= 2 ^ n.
Proof.
  intros (_ & Sets & Dist & _) R.
  rewrite <- bit_rows_length,
    <- (length_map (fun o => membership n (nfaset o)) h).
  apply NoDup_incl_length.
  - apply NoDup_nth_error. intros i j Li E.
    rewrite length_map in Li. rewrite !nth_error_map in E.
    destruct (nth_error h i) as [oi|] eqn:Ei;
      [|apply nth_error_None in Ei; lia].
    destruct (nth_error h j) as [oj|] eqn:Ej; [|discriminate].
    simpl in E. injection E as E.
    destruct (Nat.eq_dec i j) as [|Ne]; [assumption|exfalso].
    pose proof (nth_error_In _ _ Ei) as Ii. pose proof (nth_error_In _ _ Ej) as Ij.
    destruct (Sets oi Ii) as (NDi & _). destruct (Sets oj Ij) as (NDj & _).
    pose proof (membership_eq n _ _ (R oi Ii) (R oj Ij) E) as Same.
    assert (Li' : List.length (nfaset oi) = List.length (nfaset oj)).
    { apply Nat.le_antisymm; apply NoDup_incl_length; auto;
        intros x I; now apply Same. }
    assert (Qij : set_eqb (nfaset oi) (nfaset oj) = true)
      by (apply set_eqb_true; auto).
    assert (Qji : set_eqb (nfaset oj) (nfaset oi) = true).
    { apply set_eqb_true; [exact NDj|]. split; [lia|].
      intros x. symmetry. apply Same. }
    destruct (Nat.lt_ge_cases i j) as [Lt|Ge].
    + rewrite (Dist i j oi oj Lt Ei Ej) in Qij. discriminate.
    + assert (Lt : j < i) by lia.
      rewrite (Dist j i oj oi Lt Ej Ei) in Qji. discriminate.
  - intros r I. apply in_map_iff in I. destruct I as (o & <- & _).
    apply bit_rows_all. unfold membership. now rewrite length_map, length_seq.
Qed.

(** The main loop of [_make_dfas] ends within [2 ^ n] iterations. *)
Lemma dfa_loop_budget (nfa : NFA) (cfuel : nat)
    (n := List.length (nfa_arcs nfa)) :
  (forall state label next, In (label, next) (arcs_of nfa state) -> next < n) ->
  n < cfuel ->
  forall fuel h states0 i,
    dfa_inv (nfa_finish nfa) h states0 -> fresh_from i h ->
    (forall o, In o h -> Forall (fun x => x < n) (nfaset o)) ->
    2 ^ n - i < fuel ->
    exists h' states', dfa_loop fuel cfuel nfa h states0 i = Ok (h', states').
Proof.
  intros Wf Lc.
  induction fuel as [|fuel IH]; intros h states0 i Inv Fr R L; [lia|].
  simpl. pose proof Inv as (Es & _).
  destruct (nth_error states0 i) as [state|] eqn:Ei; [|eauto].
  rewrite Es in Ei. apply nth_error_seq0 in Ei. destruct Ei as (-> & Li).
  destruct (deref_valid h i Li) as (o & Eo). rewrite Eo. simpl.
  apply deref_Ok in Eo.
  destruct (move_sets_budget nfa cfuel (nfaset o) Lc []) as (arcs0 & Em).
  rewrite Em. simpl.
  assert (W : wf_moves arcs0).
  { eapply move_sets_wf; [exact Em|]. split; [constructor | intros l s []]. }
  assert (Fr1 : fresh_from (S i) h)
    by (intros k x Lk E; apply (Fr k x); [lia | exact E]).
  assert (Ao : arcs o = []) by (apply (Fr i o); [lia | exact Eo]).
  destruct (link_arcs_spec (nfa_finish nfa) i arcs0 h states0 o Inv Fr1 Eo W)
    as (h1 & states1 & linked & El & Inv1 & Fr' & _).
  { rewrite Ao. intros l _ []. }
  rewrite El. simpl.
  assert (R1 : forall x, In x h1 -> Forall (fun y => y < n) (nfaset x)).
  { eapply link_arcs_range; [exact El | | exact R].
    eapply move_sets_range; [exact Wf | exact Em | intros l s []]. }
  apply IH; auto.
  pose proof (dfa_inv_bound n _ _ _ Inv R). lia.
Qed.

(** [_make_dfas] ends on every well-formed fragment: a budget above
    [2 ^ n], for a fragment of [n] states, is never used up. *)
Lemma make_dfas_terminates (nfa : NFA) (fuel : nat) :
  nfa_wf nfa -> 2 ^ List.length (nfa_arcs nfa) < fuel ->
  exists h states0, _make_dfas fuel nfa = Ok (h, states0).
Proof.
  intros (Ls & Wf) L. set (n := List.length (nfa_arcs nfa)) in *.
  pose proof (Nat.pow_gt_lin_r 2 n ltac:(lia)) as Ln.
  unfold _make_dfas, closure.
  destruct (addclosure_budget nfa fuel (nfa_start nfa) []) as (start & Ec).
  { pose proof (unvisited_bound n []). fold n. lia. }
  rewrite Ec. simpl.
  assert (ND : NoDup start) by (eapply addclosure_NoDup; eauto; constructor).
  assert (Ne : start <> []).
  { apply addclosure_In in Ec. intros ->. destruct Ec. }
  assert (Rs : Forall (fun x => x < n) start).
  { eapply addclosure_range; [exact Wf | exact Ec | exact Ls | constructor]. }
  assert (Inv0 : dfa_inv (nfa_finish nfa) [] []).
  { unfold dfa_inv, wf_arcs. simpl. split; [reflexivity|].
    split; [intros o []|].
    split; [intros k1 k2 o1 o2 _ E; destruct k1; discriminate|].
    split; [constructor | intros o label t []]. }
  destruct (dfa_inv_new (nfa_finish nfa) [] [] start Inv0 ND Ne)
    as (h0 & En & Eh & Inv1); [intros st o []|].
  rewrite En. simpl. simpl in Eh, Inv1. subst h0.
  apply (dfa_loop_budget nfa fuel Wf ltac:(fold n; lia)); auto.
  - unfold fresh_from. intros [|k] o _ E; simpl in E; [inv_ok E; reflexivity|].
    destruct k; discriminate.
  - intros o [<-|[]]. exact Rs.
  - fold n. lia.
Qed.

(** ** State minimiser: main results *)

Lemma simplify_dfas_merges (h : heap) (dfas : list ref) (h' : heap)
    (dfas' : list ref) :
  _simplify_dfas h dfas = Ok (h', dfas') -> merges h dfas h' dfas'.
Proof.
  intros E. unfold _simplify_dfas in E.
  eapply (simplify_loop_invariant (merges h dfas)); eauto.
  - intros h1 dfas1 h2 dfas2 M S. eapply merges_more; eauto.
  - constructor.
Qed.

Lemma merges_valid (h : heap) (dfas : list ref) (h' : heap) (dfas' : list ref) :
  merges h dfas h' dfas' -> valid h dfas /\ NoDup dfas ->
  valid h' dfas' /\ NoDup dfas'.
Proof.
  induction 1 as [|h1 dfas1 h2 dfas2 M IH S]; intros V; [exact V|].
  exact (merge_step_valid _ _ _ _ (IH V) S).
Qed.

(** C8.  [_simplify_dfas] terminates on every list of states: it returns,
    with a list that is no longer than the one it was given.  A pass of its
    [while] loop that reports changes has made the list shorter, a pass that
    reports none has changed nothing (and ends the loop), and every merge
    deletes exactly one state. *)
Theorem simplify_dfas_terminates (h : heap) (dfas : list ref) :
  valid h dfas ->
  (exists h' dfas',
      _simplify_dfas h dfas = Ok (h', dfas') /\
      List.length dfas' <= List.length dfas) /\
  (forall h1 dfas1 changes,
      simplify_pass (List.length dfas) h dfas 0 false = Ok (h1, dfas1, changes) ->
      if changes then List.length dfas1 < List.length dfas
      else h1 = h /\ dfas1 = dfas) /\
  (forall h1 dfas1,
      merge_step h dfas h1 dfas1 -> S (List.length dfas1) = List.length dfas).
Proof.
  intros V. split; [|split].
  - unfold _simplify_dfas. apply simplify_loop_total; [exact V | lia].
  - intros h1 dfas1 [|] E.
    + apply simplify_pass_length in E. destruct E as (_ & D).
      destruct (D eq_refl) as [F|Lt]; [discriminate | exact Lt].
    + apply simplify_pass_unchanged in E. tauto.
  - intros h1 dfas1 (i & j & si & sj & _ & _ & Ej & _ & -> & _).
    apply del_length. eapply nth_error_Some_lt; eauto.
Qed.

Lemma simplify_dfas_terminates_witness :
  exists h' dfas',
    _simplify_dfas (fst Samples.a_or_b_then_c_dfa) (snd Samples.a_or_b_then_c_dfa)
    = Ok (h', dfas') /\
    List.length dfas' <= 4.
Proof.
  refine (proj1 (simplify_dfas_terminates
                   (fst Samples.a_or_b_then_c_dfa)
                   (snd Samples.a_or_b_then_c_dfa) _)).
  repeat constructor.
Defined.

(** C5.  When [_simplify_dfas] returns, no state of the list equals another
    state of the list under [DFAState.__eq__], the test that holds of two
    states when they have the same [isfinal] flag and the same set of
    (label, target) pairs, a target being the same when it is the identical
    object; [nfaset] is not looked at.
    The result is reached by merges alone, each merge redirects the arcs of
    all remaining states from the deleted state to the surviving one, and so
    no arc of a remaining state leads out of the list. *)
Theorem simplify_dfas_irredundant (h : heap) (dfas : list ref) (h' : heap)
    (dfas' : list ref) :
  valid h dfas -> NoDup dfas -> wf_arcs h ->
  _simplify_dfas h dfas = Ok (h', dfas') ->
  (forall i j a b,
      i <> j -> nth_error dfas' i = Some a -> nth_error dfas' j = Some b ->
      DFAState_eq h' a b = Ok false) /\
  (forall a b oa ob,
      nth_error h' a = Some oa -> nth_error h' b = Some ob ->
      DFAState_eq h' a b = Ok (eq_states oa ob) /\
      (eq_states oa ob = true <->
       isfinal oa = isfinal ob /\
       forall label next,
         In (label, next) (arcs oa) <-> In (label, next) (arcs ob))) /\
  merges h dfas h' dfas' /\
  (forall h1 dfas1 h2 dfas2,
      merges h dfas h1 dfas1 -> merge_step h1 dfas1 h2 dfas2 ->
      exists state_i state_j,
        In state_i dfas2 /\ In state_j dfas1 /\ ~ In state_j dfas2 /\
        forall r o,
          In r dfas2 -> nth_error h1 r = Some o ->
          nth_error h2 r =
          Some (set_arcs o (unify_arcs state_j state_i (arcs o)))) /\
  (closed h dfas -> closed h' dfas').
Proof.
  intros V ND W E.
  pose proof (simplify_dfas_inv _ _ _ _ V ND E)
    as (V' & ND' & _ & _ & Sh & _ & C').
  pose proof (wf_arcs_shape _ _ Sh W) as W'.
  assert (Irr : irredundant h' dfas').
  { unfold _simplify_dfas in E. eapply simplify_loop_irredundant; eauto. }
  split; [|split; [|split; [|split]]].
  - intros i j a b Ne Ea Eb.
    destruct (Nat.lt_ge_cases i j) as [Lt|Ge]; [exact (Irr i j a b Lt Ea Eb)|].
    assert (Lt : j < i) by lia.
    pose proof (Irr j i b a Lt Eb Ea) as Q.
    unfold DFAState_eq in *.
    destruct (deref h' b) as [ob|] eqn:Eob; [|discriminate].
    destruct (deref h' a) as [oa|] eqn:Eoa; [|discriminate].
    simpl in *. inv_ok Q. f_equal.
    destruct (eq_states oa ob) eqn:Q'; [|reflexivity].
    apply deref_Ok in Eoa, Eob. unfold wf_arcs in W'.
    rewrite Forall_forall in W'.
    apply eq_states_sym in Q'; eauto using nth_error_In; congruence.
  - intros a b oa ob Ea Eb. split.
    + unfold DFAState_eq.
      now rewrite (proj2 (deref_Ok h' a oa) Ea), (proj2 (deref_Ok h' b ob) Eb).
    + unfold wf_arcs in W'. rewrite Forall_forall in W'.
      apply eq_states_same_arcs; eauto using nth_error_In.
  - now apply simplify_dfas_merges.
  - intros h1 dfas1 h2 dfas2 M S.
    destruct (merges_valid _ _ _ _ M (conj V ND)) as (V1 & ND1).
    destruct (merge_step_redirects _ _ _ _ V1 ND1 S)
      as (si & sj & Ii & Ij & Nj & _ & R).
    exists si, sj. auto.
  - auto.
Qed.

(** What [_make_dfas] establishes is what [_simplify_dfas] asks for. *)
Lemma dfa_inv_simplify (finish : NFAState) (h : heap) (states : list ref) :
  dfa_inv finish h states ->
  valid h states /\ NoDup states /\ wf_arcs h /\ closed h states.
Proof.
  intros Inv. destruct (dfa_inv_valid _ _ _ Inv) as (V & ND).
  destruct Inv as (Es & _ & _ & W & Cl).
  split; [exact V|]. split; [exact ND|]. split; [exact W|].
  intros r o label t Ir Er It. rewrite Es. apply in_seq.
  pose proof (Cl o label t (nth_error_In _ _ Er) It). lia.
Qed.

Lemma make_dfas_Ok (fuel : nat) (nfa : NFA) (h : heap) (states : list ref) :
  _make_dfas fuel nfa = Ok (h, states) ->
  exists o,
    dfa_inv (nfa_finish nfa) h states /\
    (forall k, k < List.length h -> processed fuel nfa h k) /\
    nth_error h 0 = Some o /\
    closure fuel nfa (nfa_start nfa) = Ok (nfaset o) /\
    isfinal o = set_mem (nfa_finish nfa) (nfaset o).
Proof.
  intros E.
  destruct (make_dfas_spec fuel nfa)
    as [F|(h' & states' & start & o & E' & Ec & Inv & Done & Eo & <- & Ef)];
    [congruence|].
  rewrite E in E'. inv_ok E'. exists o. auto.
Qed.

Lemma simplify_dfas_irredundant_witness :
  exists h' dfas',
    _simplify_dfas (fst Samples.a_or_b_then_c_dfa) (snd Samples.a_or_b_then_c_dfa)
    = Ok (h', dfas') /\
    dfas' = [0; 1; 3] /\
    forall i j a b,
      i <> j -> nth_error dfas' i = Some a -> nth_error dfas' j = Some b ->
      DFAState_eq h' a b = Ok false.
Proof.
  assert (E : _make_dfas 20 Samples.a_or_b_then_c
              = Ok (fst Samples.a_or_b_then_c_dfa, snd Samples.a_or_b_then_c_dfa))
    by reflexivity.
  destruct (make_dfas_Ok _ _ _ _ E) as (o & Inv & _).
  destruct (dfa_inv_simplify _ _ _ Inv) as (V & ND & W & C).
  eexists. eexists. split; [reflexivity|]. split; [reflexivity|].
  refine (proj1 (simplify_dfas_irredundant _ _ _ _ V ND W _)).
  reflexivity.
Defined.

(** ** Subset constructor: main results *)

Lemma set_eqb_false_iff {K : Type} `{EqKey K} (s other : pyset K) :
  NoDup s -> NoDup other -> set_eqb s other = false ->
  ~ (forall x, In x s <-> In x other).
Proof.
  intros ND ND' Q Same.
  assert (T : set_eqb s other = true); [|congruence].
  apply set_eqb_true; [exact ND|]. split; [|exact Same].
  apply Nat.le_antisymm; apply NoDup_incl_length; auto;
    intros x I; now apply Same.
Qed.

(** C9.  Index 0 of the state sequence of a rule is its start state, as
    [_make_dfas] returns the sequence and after [_simplify_dfas]: the first
    element stands for the epsilon closure of the start state of the NFA,
    the minimiser leaves this object at index 0 with its NFA set, its
    [isfinal] flag and its labels, a merge deletes at an index [j > i >= 0]
    and so never the first element, and an arc that leads to the start
    state keeps leading to it. *)
Theorem start_state_is_first (fuel : nat) (nfa : NFA) (h : heap)
    (states : list ref) (h' : heap) (dfas' : list ref) :
  _make_dfas fuel nfa = Ok (h, states) ->
  _simplify_dfas h states = Ok (h', dfas') ->
  exists start o o',
    nth_error states 0 = Some start /\ nth_error h start = Some o /\
    closure fuel nfa (nfa_start nfa) = Ok (nfaset o) /\
    isfinal o = set_mem (nfa_finish nfa) (nfaset o) /\
    nth_error dfas' 0 = Some start /\ nth_error h' start = Some o' /\
    nfaset o' = nfaset o /\ isfinal o' = isfinal o /\
    dict_keys (arcs o') = dict_keys (arcs o) /\
    (forall r x label,
        nth_error h r = Some x -> dict_get label (arcs x) = Some start ->
        exists x', nth_error h' r = Some x' /\
                   dict_get label (arcs x') = Some start) /\
    (forall h1 dfas1 h2 dfas2,
        merges h states h1 dfas1 -> merge_step h1 dfas1 h2 dfas2 ->
        exists j, 1 <= j /\ dfas2 = del dfas1 j /\
                  nth_error dfas2 0 = Some start).
Proof.
  intros Em Es.
  destruct (make_dfas_Ok _ _ _ _ Em) as (o & Inv & _ & Eo & Ec & Ef).
  destruct (dfa_inv_simplify _ _ _ Inv) as (V & ND & _ & _).
  assert (E0 : nth_error states 0 = Some 0).
  { destruct Inv as (-> & _). pose proof (nth_error_Some_lt _ _ _ Eo) as L.
    destruct (List.length h); [lia | reflexivity]. }
  pose proof (simplify_dfas_inv _ _ _ _ V ND Es)
    as (_ & _ & _ & Hd & Sh & Keep & _).
  destruct (Forall2_nth_error _ _ _ _ _ Sh Eo) as (o' & Eo' & N & F & K).
  exists 0, o, o'.
  split; [exact E0|]. split; [exact Eo|]. split; [exact Ec|].
  split; [exact Ef|]. split; [rewrite Hd; exact E0|]. split; [exact Eo'|].
  split; [exact N|]. split; [exact F|]. split; [exact K|]. split.
  - intros r x label Ex G.
    destruct (Forall2_nth_error _ _ _ _ _ (Keep 0 E0) Ex) as (x' & Ex' & Kx).
    exists x'. auto.
  - intros h1 dfas1 h2 dfas2 M S.
    assert (Inv1 : simplify_inv h states h1 dfas1).
    { clear S. induction M as [|ha da hb db M IH S].
      - now apply simplify_inv_init.
      - eapply simplify_inv_step; eauto. }
    pose proof (simplify_inv_step _ _ _ _ _ _ Inv1 S) as (_ & _ & _ & Hd2 & _).
    destruct S as (i & j & si & sj & Lt & _ & _ & _ & -> & _).
    exists j. split; [lia|]. split; [reflexivity|].
    rewrite Hd2. exact E0.
Qed.

Lemma start_state_is_first_witness :
  exists h' dfas' start o o',
    _simplify_dfas (fst Samples.a_or_b_then_c_dfa) (snd Samples.a_or_b_then_c_dfa)
    = Ok (h', dfas') /\
    nth_error (snd Samples.a_or_b_then_c_dfa) 0 = Some start /\
    nth_error (fst Samples.a_or_b_then_c_dfa) start = Some o /\
    nth_error dfas' 0 = Some start /\ nth_error h' start = Some o' /\
    nfaset o' = nfaset o.
Proof.
  eexists. eexists.
  destruct (start_state_is_first 20 Samples.a_or_b_then_c
              (fst Samples.a_or_b_then_c_dfa) (snd Samples.a_or_b_then_c_dfa)
              _ _ eq_refl eq_refl)
    as (start & o & o' & E1 & E2 & _ & _ & E3 & E4 & E5 & _).
  exists start, o, o'. split; [reflexivity|]. auto.
Defined.

(** ** Sorting rule names *)







Lemma insert_sorted_perm (x : string) (l : list string) :
  Permutation (insert_sorted x l) (x :: l).
Proof.
  induction l as [|y l IH]; simpl; [reflexivity|].
  destruct (String.leb x y); [reflexivity|].
  rewrite IH. apply perm_swap.
Qed.

Lemma sort_perm (l : list string) : Permutation (sort l) l.
Proof.
  induction l as [|x l IH]; simpl; [reflexivity|].
  rewrite insert_sorted_perm. now constructor.
Qed.






(** ** Label classifier *)

Lemma label_kind_eq_dec (k k' : label_kind) : {k = k'} + {k <> k'}.
Proof.
  decide equality; auto using string_dec, Z.eq_dec.
Defined.

Section Classifier.
Variable token_NAME : Z.
Variable token_namespace : TokenNamespace.

Lemma make_label_classify (g : Grammar) (label : string) :
  _make_label token_NAME token_namespace g label =
  ('(k, entry) <- classify token_NAME token_namespace g label ;;
   Ok (match label_of g k with
       | Some l => (l, g)
       | None => (List.length (labels g), assign g k entry)
       end)).
Proof.
  unfold _make_label, classify, label_of_token.
  destruct label as [|c rest]; [reflexivity|].
  destruct (isalpha c).
  - destruct (dict_get (String c rest) (symbol2number g)); simpl.
    + now destruct (dict_get (String c rest) (symbol2label g)).
    + destruct (token_attr token_namespace (String c rest)); simpl;
        [|reflexivity].
      now destruct (dict_get z (tokens g)).
  - destruct (negb (is_quote c)); [reflexivity|].
    destruct (eval (String c rest)) as [value|]; simpl; [|reflexivity].
    destruct value as [|v value]; [reflexivity|].
    destruct (isalpha v); simpl.
    + now destruct (dict_get (String v value) (keywords g)).
    + destruct (generate_token_id token_namespace (String v value)); simpl;
        [|reflexivity].
      now destruct (dict_get a (tokens g)).
Qed.

Lemma classify_frame (g g' : Grammar) (label : string) :
  symbol2number g' = symbol2number g -> classify token_NAME token_namespace g' label =
    classify token_NAME token_namespace g label.
Proof. unfold classify. now intros ->. Qed.

Lemma assign_labels (g : Grammar) (k : label_kind) (entry : Z * option string) :
  labels (assign g k entry) = labels g ++ [entry].
Proof. now destruct k. Qed.

Lemma assign_frame (g : Grammar) (k : label_kind) (entry : Z * option string) :
  symbol2number (assign g k entry) = symbol2number g /\
  number2symbol (assign g k entry) = number2symbol g /\
  states (assign g k entry) = states g /\
  dfas (assign g k entry) = dfas g /\
  start (assign g k entry) = start g.
Proof. now destruct k. Qed.

Lemma label_of_assign (g : Grammar) (k k' : label_kind)
    (entry : Z * option string) :
  label_of (assign g k entry) k' =
  if label_kind_eq_dec k k' then Some (List.length (labels g))
  else label_of g k'.
Proof.
  destruct (label_kind_eq_dec k k') as [<-|Ne].
  - destruct k; simpl; apply dict_get_set_same.
  - destruct k, k'; simpl; try reflexivity;
      apply dict_get_set_other; congruence.
Qed.
End Classifier.

Lemma grammar_le_refl (g : Grammar) : grammar_le g g.
Proof.
  unfold grammar_le. repeat split; auto. exists []. now rewrite app_nil_r.
Qed.

Lemma grammar_le_trans (g1 g2 g3 : Grammar) :
  grammar_le g1 g2 -> grammar_le g2 g3 -> grammar_le g1 g3.
Proof.
  intros (S1 & N1 & (m1 & L1) & K1) (S2 & N2 & (m2 & L2) & K2).
  unfold grammar_le. repeat split; try congruence; auto.
  exists (m1 ++ m2). now rewrite L2, L1, app_assoc.
Qed.

Lemma label_inv_new (start_symbol : option string) :
  label_inv (Grammar_new start_symbol).
Proof.
  unfold label_inv. simpl. split; [lia|].
  split; intros [n|t|v]; simpl; discriminate.
Qed.

Lemma known_le (token_NAME : Z) (ns : TokenNamespace) (g g' : Grammar)
    (label : string) (i : nat) :
  grammar_le g g' -> known token_NAME ns g label i ->
  known token_NAME ns g' label i.
Proof.
  intros (S & _ & _ & K) (k & entry & C & L).
  exists k, entry. split; [|auto].
  now rewrite (classify_frame token_NAME ns g g' label S).
Qed.

(** The outcome of [_make_label]: an id that was there and an unchanged
    grammar, or the next free id and one more entry in [labels]. *)
Lemma make_label_spec (token_NAME : Z) (ns : TokenNamespace) (g g' : Grammar)
    (label : string) (i : nat) :
  _make_label token_NAME ns g label = Ok (i, g') ->
  exists k entry,
    classify token_NAME ns g label = Ok (k, entry) /\
    (label_of g k = Some i /\ g' = g \/
     label_of g k = None /\ i = List.length (labels g) /\
     g' = assign g k entry) /\
    grammar_le g g' /\ known token_NAME ns g' label i /\
    states g' = states g /\ dfas g' = dfas g /\
    (label_inv g -> label_inv g').
Proof.
  rewrite make_label_classify. intros E. inv_bind E. destruct x as [k entry].
  exists k, entry. split; [exact E0|].
  destruct (label_of g k) as [l|] eqn:L; inv_ok E.
  - split; [now left|]. split; [apply grammar_le_refl|].
    split; [exists k, entry; auto|]. auto.
  - pose proof (assign_frame g k entry) as (S & N & St & D & _).
    pose proof (label_of_assign g k) as La.
    split; [right; auto|]. split; [|split; [|split; [|split]]]; auto.
    + unfold grammar_le. rewrite assign_labels. repeat split; auto.
      * now exists [entry].
      * intros k' i E. rewrite La.
        destruct (label_kind_eq_dec k k'); [congruence | exact E].
    + exists k, entry. split.
      * now rewrite (classify_frame token_NAME ns g _ label S).
      * rewrite La. now destruct (label_kind_eq_dec k k).
    + intros (L1 & Rng & Inj). unfold label_inv. rewrite assign_labels, length_app.
      simpl. split; [lia|]. split.
      * intros k' i E. rewrite La in E.
        destruct (label_kind_eq_dec k k'); [inv_ok E; lia|].
        apply Rng in E. lia.
      * intros k1 k2 i E1 E2. rewrite La in E1, E2.
        destruct (label_kind_eq_dec k k1) as [<-|N1];
          destruct (label_kind_eq_dec k k2) as [<-|N2]; auto.
        -- inv_ok E1. apply Rng in E2. lia.
        -- inv_ok E2. apply Rng in E1. lia.
        -- eauto.
Qed.

(** ** Table assembler *)

Section AssemblerFacts.
Variable token_NAME : Z.
Variable ns : TokenNamespace.

Lemma arc_entry_le (g g' : Grammar) (h : heap) (dfa : list ref)
    (items : dict string ref) (l : list (nat * nat)) :
  grammar_le g g' ->
  Forall2 (arc_entry token_NAME ns g h dfa) items l -> Forall2 (arc_entry token_NAME ns g' h dfa) items l.
Proof.
  intros Le. induction 1 as [|a e items l (K & I) F IH]; constructor; auto.
  split; [|exact I]. eapply known_le; eauto.
Qed.

Lemma state_entry_le (g g' : Grammar) (h : heap) (dfa : list ref)
    (todo : list ref) (l : list (list (nat * nat))) :
  grammar_le g g' ->
  Forall2 (state_entry token_NAME ns g h dfa) todo l -> Forall2 (state_entry token_NAME ns g' h dfa) todo l.
Proof.
  intros Le.
  induction 1 as [|s e todo l (o & a & Eo & Fa & Fin) F IH]; constructor; auto.
  exists o, a. split; [exact Eo|]. split; [|exact Fin].
  eapply arc_entry_le; eauto.
Qed.

Lemma make_arcs_spec (h : heap) (dfa : list ref) (items : dict string ref) :
  forall g arcs0 g',
    make_arcs token_NAME ns h dfa items g = Ok (arcs0, g') ->
    grammar_le g g' /\ (label_inv g -> label_inv g') /\
    states g' = states g /\ dfas g' = dfas g /\
    Forall2 (arc_entry token_NAME ns g' h dfa) items arcs0.
Proof.
  induction items as [|[label next] items IH]; intros g arcs0 g' E; simpl in E.
  - inv_ok E. auto using grammar_le_refl.
  - inv_bind E. destruct x as [ilabel g1]. inv_bind E. inv_bind E.
    destruct x0 as [arcs1 g2]. inv_ok E.
    apply make_label_spec in E0.
    destruct E0 as (k & entry & _ & _ & Le1 & K1 & S1 & D1 & I1).
    apply IH in E2. destruct E2 as (Le2 & I2 & S2 & D2 & F).
    split; [eapply grammar_le_trans; eauto|]. split; [auto|].
    split; [congruence|]. split; [congruence|].
    constructor; [|exact F]. split; [|exact E1]. eapply known_le; eauto.
Qed.

Lemma make_states_spec (h : heap) (dfa : list ref) (todo : list ref) :
  forall g table g',
    make_states token_NAME ns h dfa todo g = Ok (table, g') ->
    grammar_le g g' /\ (label_inv g -> label_inv g') /\
    states g' = states g /\ dfas g' = dfas g /\
    Forall2 (state_entry token_NAME ns g' h dfa) todo table.
Proof.
  induction todo as [|state todo IH]; intros g table g' E; simpl in E.
  - inv_ok E. auto using grammar_le_refl.
  - inv_bind E. rename x into o. inv_bind E. destruct x as [arcs0 g1].
    inv_bind E. rename x into arcs1. inv_bind E. destruct x as [table0 g2].
    inv_ok E. apply deref_Ok in E0.
    apply make_arcs_spec in E1. destruct E1 as (Le1 & I1 & S1 & D1 & F1).
    apply IH in E3. destruct E3 as (Le2 & I2 & S2 & D2 & F2).
    split; [eapply grammar_le_trans; eauto|]. split; [auto|].
    split; [congruence|]. split; [congruence|].
    constructor; [|exact F2].
    exists o, arcs0. split; [exact E0|].
    split; [eapply arc_entry_le; eauto|].
    destruct (isfinal o).
    + inv_bind E2. inv_ok E2. eauto.
    + now inv_ok E2.
Qed.

(** The translation of a first set: every raw label has its id in the
    result, and every id of the result is the id of a raw label. *)
Lemma make_first_loop_spec (rawfirst : pyset string) :
  forall g first0 first g',
    make_first_loop token_NAME ns g rawfirst first0 = Ok (first, g') ->
    grammar_le g g' /\ (label_inv g -> label_inv g') /\
    states g' = states g /\ dfas g' = dfas g /\
    (NoDup first0 -> NoDup first) /\ incl first0 first /\
    (forall label, In label rawfirst ->
                   exists i, known token_NAME ns g' label i /\ In i first) /\
    (forall i, In i first ->
               In i first0 \/
               exists label, In label rawfirst /\ known token_NAME ns g' label i) /\
    List.length first <= List.length first0 + List.length rawfirst.
Proof.
  induction rawfirst as [|label rawfirst IH]; intros g first0 first g' E;
    simpl in E.
  - inv_ok E. split; [apply grammar_le_refl|]. split; [auto|].
    split; [reflexivity|]. split; [reflexivity|]. split; [auto|].
    split; [apply incl_refl|]. split; [intros label []|].
    split; [auto | simpl; lia].
  - inv_bind E. destruct x as [ilabel g1].
    apply make_label_spec in E0.
    destruct E0 as (k & entry & _ & _ & Le1 & K1 & S1 & D1 & I1).
    apply IH in E.
    destruct E as (Le2 & I2 & S2 & D2 & ND & Inc & All & Only & Len).
    split; [eapply grammar_le_trans; eauto|]. split; [auto|].
    split; [congruence|]. split; [congruence|].
    split; [auto using set_add_NoDup|].
    split; [intros x I; apply Inc, set_add_In; now right|].
    split; [|split].
    + intros l [<-|I].
      * exists ilabel. split; [eapply known_le; eauto|].
        apply Inc, set_add_In. now left.
      * destruct (All l I) as (i & K & Ii). eauto.
    + intros i I. destruct (Only i I) as [I0|(l & Il & K)].
      * apply set_add_In in I0. destruct I0 as [->|I0]; [|now left].
        right. exists label. split; [now left|]. eapply known_le; eauto.
      * right. exists l. split; [now right | exact K].
    + assert (List.length (set_add ilabel first0) <= S (List.length first0)).
      { unfold set_add. destruct (set_mem ilabel first0); [lia|].
        rewrite length_app. simpl. lia. }
      simpl. lia.
Qed.

Lemma number_symbols_frame (names : list string) :
  forall g,
    labels (number_symbols names g) = labels g /\
    (forall k, label_of (number_symbols names g) k = label_of g k) /\
    states (number_symbols names g) = states g /\
    dfas (number_symbols names g) = dfas g.
Proof.
  induction names as [|name names IH]; intros g; [simpl; auto|].
  cbn [number_symbols].
  destruct (IH (set_symbol_number g name
                  (256 + Z.of_nat (List.length (symbol2number g)))%Z))
    as (L & K & S & D).
  rewrite L, S, D. split; [reflexivity|]. split; [|split; reflexivity].
  intros k. rewrite K. now destruct k.
Qed.

(** The second loop of [make_grammar] appends one table per rule, in the
    order of the names, and leaves the symbol numbers alone. *)
Lemma assemble_spec (rules : rule_table) (_first : dict string first_slot)
    (names : list string) :
  forall g gf,
    assemble token_NAME ns rules _first names g = Ok gf ->
    grammar_le g gf /\ (label_inv g -> label_inv gf) /\
    exists tables,
      states gf = states g ++ tables /\
      Forall2 (fun name table =>
                 exists h dfa,
                   dict_get name rules = Some (h, dfa) /\
                   Forall2 (state_entry token_NAME ns gf h dfa) dfa table)
              names tables.
Proof.
  induction names as [|name names IH]; intros g gf E; simpl in E.
  - inv_ok E. split; [apply grammar_le_refl|]. split; [auto|].
    exists []. rewrite app_nil_r. auto.
  - inv_bind E. destruct x as [h dfa]. inv_bind E. destruct x as [table g1].
    inv_bind E. destruct x as [first g2]. inv_bind E. rename x into number.
    destruct (dict_get name rules) as [[h' dfa']|] eqn:Er; simpl in E0;
      [inv_ok E0|discriminate].
    apply make_states_spec in E1. destruct E1 as (Le1 & I1 & S1 & D1 & F1).
    unfold _make_first in E2. inv_bind E2. inv_bind E2.
    apply make_first_loop_spec in E2.
    destruct E2 as (Le2 & I2 & S2 & D2 & _).
    apply IH in E. destruct E as (Le3 & I3 & tables & St & F3).
    assert (Le : grammar_le g2 (add_dfa g2 table number first)).
    { unfold grammar_le. simpl. split; [reflexivity|].
      split; [reflexivity|]. split; [|now intros [n|t|v]].
      exists []. now rewrite app_nil_r. }
    assert (Le' : grammar_le g1 gf).
    { eapply grammar_le_trans; [exact Le2|].
      eapply grammar_le_trans; [exact Le | exact Le3]. }
    split; [eapply grammar_le_trans; eauto|]. split.
    + intros I. apply I3. apply I1, I2 in I.
      destruct I as (L1 & Rng & Inj). unfold label_inv. simpl.
      split; [exact L1|]. split.
      * intros k i A. apply (Rng k). destruct k; exact A.
      * intros k1 k2 i A B.
        apply (Inj k1 k2 i); [destruct k1 | destruct k2]; assumption.
    + exists (table :: tables). simpl in St.
      rewrite St, S2, S1, <- app_assoc. split; [reflexivity|].
      constructor; [|exact F3].
      exists h, dfa. split; [exact Er|].
      eapply state_entry_le; eauto.
Qed.
End AssemblerFacts.

(** ** Symbol numbers *)

Lemma combine_app_eq {A B : Type} (l1 l2 : list A) (m1 m2 : list B) :
  List.length l1 = List.length m1 ->
  combine (l1 ++ l2) (m1 ++ m2) = combine l1 m1 ++ combine l2 m2.
Proof.
  revert m1. induction l1 as [|a l1 IH]; intros [|b m1] L; simpl in *;
    try discriminate; [reflexivity|].
  f_equal. apply IH. lia.
Qed.

Lemma combine_keys {A B : Type} (l : list A) (m : list B) :
  List.length l = List.length m -> dict_keys (combine l m) = l.
Proof.
  revert m. induction l as [|a l IH]; intros [|b m] L; simpl in *;
    try discriminate; [reflexivity|].
  f_equal. apply IH. lia.
Qed.


Lemma combine_nth_error {A B : Type} (l : list A) (m : list B) (k : nat)
    (a : A) (b : B) :
  nth_error l k = Some a -> nth_error m k = Some b ->
  nth_error (combine l m) k = Some (a, b).
Proof.
  revert m k. induction l as [|x l IH]; intros [|y m] [|k]; simpl;
    try discriminate; [congruence | apply IH].
Qed.

Lemma symbol_number_inj (j k : nat) : symbol_number j = symbol_number k -> j = k.
Proof. unfold symbol_number. lia. Qed.



(** The tables after the first loop of [make_grammar]: the [k]-th name and
    the [k]-th number, paired in this order. *)
Lemma number_symbols_tables (names : list string) :
  forall done g,
    symbol2number g =
      combine done (map symbol_number (seq 0 (List.length done))) ->
    number2symbol g =
      combine (map symbol_number (seq 0 (List.length done))) done ->
    NoDup (done ++ names) ->
    symbol2number (number_symbols names g) =
      combine (done ++ names)
        (map symbol_number (seq 0 (List.length (done ++ names)))) /\
    number2symbol (number_symbols names g) =
      combine (map symbol_number (seq 0 (List.length (done ++ names))))
        (done ++ names).
Proof.
  induction names as [|name names IH]; intros done g S2N N2S ND.
  - simpl. rewrite app_nil_r. auto.
  - cbn [number_symbols].
    set (n := List.length done) in *.
    assert (Ln : List.length (map symbol_number (seq 0 n)) = n)
      by now rewrite length_map, length_seq.
    assert (Li : List.length (symbol2number g) = n).
    { rewrite S2N, length_combine, Ln. fold n. lia. }
    rewrite Li. fold (symbol_number n).
    assert (Nn : ~ In name done).
    { apply NoDup_remove_2 in ND. intros I. apply ND, in_or_app. now left. }
    replace (done ++ name :: names) with ((done ++ [name]) ++ names) in *
      by now rewrite <- app_assoc.
    assert (Ld : List.length (done ++ [name]) = S n)
      by (rewrite length_app; simpl; lia).
    apply IH; auto; simpl; rewrite Ld, seq_snoc, map_app; simpl.
    + rewrite combine_app_eq by (symmetry; exact Ln). simpl.
      rewrite <- S2N. apply dict_set_new. apply dict_get_None.
      rewrite S2N, combine_keys by (symmetry; exact Ln). exact Nn.
    + rewrite combine_app_eq by exact Ln. simpl.
      rewrite <- N2S. apply dict_set_new. apply dict_get_None.
      rewrite N2S, combine_keys by exact Ln.
      rewrite in_map_iff. intros (k & E & I).
      apply symbol_number_inj in E. apply in_seq in I. lia.
Qed.



(** ** Translating first sets *)

(** A label that has its id is classified without a change of the
    grammar. *)
Lemma make_label_known (token_NAME : Z) (ns : TokenNamespace) (g : Grammar)
    (label : string) (i : nat) :
  known token_NAME ns g label i ->
  _make_label token_NAME ns g label = Ok (i, g).
Proof.
  intros (k & entry & C & L). rewrite make_label_classify, C. simpl.
  now rewrite L.
Qed.

Lemma known_fun (token_NAME : Z) (ns : TokenNamespace) (g : Grammar)
    (label : string) (i j : nat) :
  known token_NAME ns g label i -> known token_NAME ns g label j -> i = j.
Proof.
  intros (k & e & C & L) (k' & e' & C' & L'). congruence.
Qed.

Lemma make_label_labels (token_NAME : Z) (ns : TokenNamespace) (g g' : Grammar)
    (label : string) (i : nat) :
  _make_label token_NAME ns g label = Ok (i, g') ->
  exists more, labels g' = labels g ++ more /\ List.length more <= 1.
Proof.
  intros E. apply make_label_spec in E.
  destruct E as (k & entry & _ & [[_ ->]|(_ & _ & ->)] & _).
  - exists []. rewrite app_nil_r. auto.
  - exists [entry]. rewrite assign_labels. auto.
Qed.

(** The ids of the raw labels, in the order of the labels, and the first set
    made of them. *)
Lemma make_first_loop_ids (token_NAME : Z) (ns : TokenNamespace)
    (rawfirst : pyset string) :
  forall g first0 first g',
    make_first_loop token_NAME ns g rawfirst first0 = Ok (first, g') ->
    exists ids more,
      Forall2 (known token_NAME ns g') rawfirst ids /\
      first = set_update first0 ids /\
      labels g' = labels g ++ more /\
      List.length more <= List.length rawfirst.
Proof.
  induction rawfirst as [|label rawfirst IH]; intros g first0 first g' E;
    simpl in E.
  - inv_ok E. exists [], []. rewrite app_nil_r. auto.
  - inv_bind E. destruct x as [ilabel g1].
    destruct (make_label_labels _ _ _ _ _ _ E0) as (m1 & L1 & N1).
    apply make_label_spec in E0.
    destruct E0 as (k & entry & _ & _ & _ & K1 & _).
    pose proof (make_first_loop_spec _ _ _ _ _ _ _ E) as (Le & _).
    apply IH in E. destruct E as (ids & m2 & F & -> & L2 & N2).
    exists (ilabel :: ids), (m1 ++ m2).
    split; [constructor; [eapply known_le; eauto | exact F]|].
    split; [reflexivity|]. split; [now rewrite L2, L1, app_assoc|].
    rewrite length_app. simpl. lia.
Qed.

Lemma make_first_loop_known (token_NAME : Z) (ns : TokenNamespace)
    (rawfirst : pyset string) :
  forall g first0,
    (forall label, In label rawfirst -> exists i, known token_NAME ns g label i) ->
    exists first, make_first_loop token_NAME ns g rawfirst first0 = Ok (first, g).
Proof.
  induction rawfirst as [|label rawfirst IH]; intros g first0 K; simpl.
  - eauto.
  - destruct (K label (or_introl eq_refl)) as (i & Ki).
    rewrite (make_label_known _ _ _ _ _ Ki). simpl.
    apply IH. intros l I. apply K. now right.
Qed.

Lemma make_first_loop_total (token_NAME : Z) (ns : TokenNamespace)
    (rawfirst : pyset string) :
  forall g first0,
    (forall label, In label rawfirst ->
                   is_ok (classify token_NAME ns g label) = true) ->
    exists first g',
      make_first_loop token_NAME ns g rawfirst first0 = Ok (first, g').
Proof.
  induction rawfirst as [|label rawfirst IH]; intros g first0 C; simpl.
  - eauto.
  - pose proof (C label (or_introl eq_refl)) as Cl.
    rewrite make_label_classify.
    destruct (classify token_NAME ns g label) as [[k entry]|] eqn:E;
      [|discriminate]. simpl.
    set (r := match label_of g k with
              | Some l => (l, g)
              | None => (List.length (labels g), assign g k entry)
              end).
    assert (S : symbol2number (snd r) = symbol2number g).
    { unfold r. destruct (label_of g k); [reflexivity|].
      apply (assign_frame g k entry). }
    destruct r as [ilabel g1]. simpl in S.
    apply IH. intros l I.
    rewrite (classify_frame token_NAME ns g g1 l S). apply C. now right.
Qed.

(** C6, counterexample.  For [b: 'x'] and [a: b] the first set of [a] is
    ['x'].  The arcs of [a], the first rule in lexicographic order, mention
    only [b]; so when the first set of [a] is translated, ['x'] has no id
    yet and [_make_first] appends an entry for it to [labels]. *)
Lemma make_first_creates_label :
  exists h dfa table first fs g2,
    dict_get "a" Samples.b_then_a_rules = Some (h, dfa) /\
    _addfirstsets Samples.b_then_a_rules [] = Ok first /\
    make_states Samples.NAME Samples.python_tokens h dfa dfa
      (number_symbols (sort (dict_keys Samples.b_then_a_rules))
         (Grammar_new (Some "b")))
    = Ok (table, grammar_before_first_of_a) /\
    _make_first Samples.NAME Samples.python_tokens first
      grammar_before_first_of_a "a" = Ok (fs, g2) /\
    labels grammar_before_first_of_a = [(0%Z, Some "EMPTY"); (257%Z, None)] /\
    labels g2 = [(0%Z, Some "EMPTY"); (257%Z, None); (1%Z, Some "x")] /\
    labels g2 <> labels grammar_before_first_of_a.
Proof.
  do 6 eexists.
  split; [reflexivity|]. split; [reflexivity|]. split; [reflexivity|].
  split; [reflexivity|]. split; [reflexivity|]. split; [reflexivity|].
  discriminate.
Qed.

Lemma set_update_fresh {K : Type} `{EqKey K} (other : pyset K) :
  forall s, NoDup (s ++ other) -> set_update s other = s ++ other.
Proof.
  unfold set_update.
  induction other as [|k other IH]; intros s ND; simpl.
  - now rewrite app_nil_r.
  - assert (N : ~ In k s).
    { apply NoDup_remove_2 in ND. intros I. apply ND, in_or_app. now left. }
    unfold set_add at 2. rewrite (proj2 (set_mem_false k s) N).
    rewrite IH; rewrite <- app_assoc; [reflexivity | exact ND].
Qed.

(** A first set with fewer ids than labels: two labels share an id. *)
Lemma shared_id_shrinks (fs ids : list nat) (p q : nat) (i : nat) :
  NoDup fs -> incl fs ids -> p <> q ->
  nth_error ids p = Some i -> nth_error ids q = Some i ->
  List.length fs < List.length ids.
Proof.
  intros ND Inc Ne Ep Eq.
  destruct (Nat.lt_ge_cases (List.length fs) (List.length ids)) as [L|L];
    [exact L|].
  exfalso. apply Ne.
  pose proof (NoDup_incl_NoDup ND L Inc) as ND'.
  rewrite NoDup_nth_error in ND'.
  apply ND'; [eapply nth_error_Some_lt; eauto | congruence].
Qed.

Lemma Forall2_nth_error_l {A B : Type} (R : A -> B -> Prop) (l : list A)
    (m : list B) (x : A) :
  Forall2 R l m -> In x l ->
  exists n y, nth_error l n = Some x /\ nth_error m n = Some y /\ R x y.
Proof.
  induction 1 as [|a b l m Rab F IH]; intros I; [destruct I|].
  destruct I as [->|I].
  - exists 0, b. auto.
  - destruct (IH I) as (n & y & E1 & E2 & Rxy). exists (S n), y. auto.
Qed.

(** A start state all of whose arcs are terminals passes the overlap check
    of [_calcfirst], whatever the terminals are: the check looks at the text
    of the labels, and the labels of a state are distinct. *)
Lemma calcfirst_terminals (rules : rule_table) (fuel : nat) (name : string)
    (f : dict string first_slot) (h : heap) (dfa : list ref) (r : ref)
    (state : DFAState) :
  dict_get name rules = Some (h, dfa) ->
  nth_error dfa 0 = Some r ->
  nth_error h r = Some state ->
  NoDup (dict_keys (arcs state)) ->
  (forall l, In l (dict_keys (arcs state)) -> dict_mem l rules = false) ->
  _calcfirst (S fuel) rules name f =
  Ok (dict_set name (Some (dict_keys (arcs state))) (dict_set name None f)).
Proof.
  intros Ed Er Es ND T.
  rewrite calcfirst_S, Ed. cbn [from_option bind]. rewrite Er.
  cbn [from_option bind]. rewrite (proj2 (deref_Ok h r state) Es). cbn [bind].
  assert (Ea : forall items f0 t oc,
             (forall l, In l (dict_keys items) -> dict_mem l rules = false) ->
             calcfirst_arcs (_calcfirst fuel rules) rules name items f0 t oc =
             Ok (f0, set_update t (dict_keys items),
                 fold_left (fun acc l => dict_set l [l] acc) (dict_keys items) oc)).
  { induction items as [|[l n] items IH]; intros f0 t oc Tm; [reflexivity|].
    simpl. rewrite (Tm l (or_introl eq_refl)). rewrite IH; [reflexivity|].
    intros x I. apply Tm. now right. }
  rewrite (Ea _ _ _ _ T). cbn [bind].
  rewrite (set_update_fresh (dict_keys (arcs state)) [] ND). simpl.
  set (oc := fold_left _ _ _).
  assert (Eoc : oc = map (fun l => (l, [l])) (dict_keys (arcs state))).
  { unfold oc. clear oc.
    assert (G : forall keys acc,
               NoDup (dict_keys acc ++ keys) ->
               fold_left (fun acc l => dict_set l [l] acc) keys acc =
               acc ++ map (fun l : string => (l, [l])) keys).
    { induction keys as [|k keys IH]; intros acc NDa; simpl.
      - now rewrite app_nil_r.
      - assert (N : ~ In k (dict_keys acc)).
        { apply NoDup_remove_2 in NDa. intros I. apply NDa, in_or_app. now left. }
        rewrite (dict_set_new k [k] acc (proj2 (dict_get_None k acc) N)).
        rewrite IH; rewrite ?dict_keys_app; simpl; rewrite <- app_assoc;
          [reflexivity | exact NDa]. }
    apply (G _ []). exact ND. }
  pose proof (check_overlap_spec name oc []) as Hc.
  destruct (check_overlap name oc []) as [inverse|e]; [reflexivity|].
  exfalso. destruct Hc as (s & label & fs & other & _ & Is & [[G _]|(i & j & fs' & Lt & Ei & Ej & Is')]).
  - intros l fs I. rewrite Eoc in I. apply in_map_iff in I.
    destruct I as (x & E & _). inv_ok E. repeat constructor. intros [].
  - discriminate.
  - rewrite Eoc in Ei, Ej. rewrite nth_error_map in Ei, Ej.
    destruct (nth_error (dict_keys (arcs state)) i) as [li|] eqn:Ki;
      [|discriminate].
    destruct (nth_error (dict_keys (arcs state)) j) as [lj|] eqn:Kj;
      [|discriminate].
    simpl in Ei, Ej. inv_ok Ei. inv_ok Ej.
    destruct Is as [<-|[]]. destruct Is' as [E|[]].
    rewrite NoDup_nth_error in ND.
    assert (i = j); [|lia].
    apply ND; [eapply nth_error_Some_lt; eauto | congruence].
Qed.

(** C10.  [_make_first] keys the translated first set by label id.  It
    raises nothing as long as every raw label can be classified; the result
    has every id once; and when two different raw labels are of one kind
    (two spellings of an operator with one terminal class), they have one id
    and one entry, so that the translated set is smaller than the raw one.
    The overlap check of [_calcfirst] does not stand in the way: it lets
    every start state pass whose arcs are terminals, since it compares the
    labels as texts. *)
Theorem make_first_collapses_equal_ids (token_NAME : Z) (ns : TokenNamespace) :
  (forall (_first : dict string first_slot) (g : Grammar) (name : string)
          (rawfirst : pyset string),
      dict_get name _first = Some (Some rawfirst) ->
      (forall label, In label rawfirst ->
                     is_ok (classify token_NAME ns g label) = true) ->
      exists fs g' ids,
        _make_first token_NAME ns _first g name = Ok (fs, g') /\
        Forall2 (known token_NAME ns g') rawfirst ids /\
        NoDup fs /\ (forall i, In i fs <-> In i ids) /\
        forall l1 l2 k e1 e2,
          NoDup rawfirst -> l1 <> l2 ->
          In l1 rawfirst -> In l2 rawfirst ->
          classify token_NAME ns g l1 = Ok (k, e1) ->
          classify token_NAME ns g l2 = Ok (k, e2) ->
          exists i,
            known token_NAME ns g' l1 i /\ known token_NAME ns g' l2 i /\
            In i fs /\ List.length fs < List.length rawfirst) /\
  (forall (rules : rule_table) (fuel : nat) (name : string)
          (f : dict string first_slot) (h : heap) (dfa : list ref) (r : ref)
          (state : DFAState),
      dict_get name rules = Some (h, dfa) ->
      nth_error dfa 0 = Some r ->
      nth_error h r = Some state ->
      NoDup (dict_keys (arcs state)) ->
      (forall l, In l (dict_keys (arcs state)) -> dict_mem l rules = false) ->
      _calcfirst (S fuel) rules name f =
      Ok (dict_set name (Some (dict_keys (arcs state))) (dict_set name None f))).
Proof.
  split; [|apply calcfirst_terminals].
  intros _first g name rawfirst Ef C.
  destruct (make_first_loop_total token_NAME ns rawfirst g [] C) as (fs & g' & E).
  destruct (make_first_loop_ids _ _ _ _ _ _ _ E) as (ids & more & F & -> & _).
  pose proof (make_first_loop_spec _ _ _ _ _ _ _ E) as ((S & _) & _).
  assert (In_fs : forall i, In i (set_update [] ids) <-> In i ids).
  { intros i. rewrite set_update_In. simpl. tauto. }
  assert (NDfs : NoDup (set_update [] ids))
    by (apply set_update_NoDup; constructor).
  exists (set_update [] ids), g', ids.
  split; [unfold _make_first; rewrite Ef; exact E|].
  split; [exact F|]. split; [exact NDfs|]. split; [exact In_fs|].
  intros l1 l2 k e1 e2 ND Ne I1 I2 C1 C2.
  destruct (Forall2_nth_error_l _ _ _ _ F I1) as (p & i1 & Ep & Eip & K1).
  destruct (Forall2_nth_error_l _ _ _ _ F I2) as (q & i2 & Eq & Eiq & K2).
  assert (i1 = i2).
  { destruct K1 as (k1 & x1 & D1 & L1). destruct K2 as (k2 & x2 & D2 & L2).
    rewrite (classify_frame token_NAME ns g g' l1 S) in D1.
    rewrite (classify_frame token_NAME ns g g' l2 S) in D2. congruence. }
  subst i2. exists i1. split; [exact K1|]. split; [exact K2|].
  split; [apply In_fs; eapply nth_error_In; eauto|].
  rewrite (Forall2_length F).
  apply (shared_id_shrinks _ ids p q i1); auto.
  - intros i. apply In_fs.
  - intros ->. congruence.
Qed.

Lemma make_first_collapses_equal_ids_witness :
  exists fs g',
    _make_first Samples.NAME Samples.python_tokens
      [("comp_op", Some ["'<>'"; "'!='"])] (Grammar_new (Some "comp_op"))
      "comp_op" = Ok (fs, g') /\
    List.length fs < 2.
Proof.
  destruct (proj1 (make_first_collapses_equal_ids
                     Samples.NAME Samples.python_tokens)
              [("comp_op", Some ["'<>'"; "'!='"])]
              (Grammar_new (Some "comp_op")) "comp_op" ["'<>'"; "'!='"]
              eq_refl)
    as (fs & g' & ids & E & _ & _ & _ & H).
  - intros label [<-|[<-|[]]]; reflexivity.
  - exists fs, g'. split; [exact E|].
    destruct (H "'<>'" "'!='" (TokenClass 29) (29%Z, None) (29%Z, None))
      as (i & _ & _ & _ & L); simpl; auto.
    + repeat constructor; simpl; intuition discriminate.
    + discriminate.
Defined.

(** ** One target per label *)

Lemma add_arc_refuses (h : heap) (self next : ref) (label : string)
    (o : DFAState) :
  nth_error h self = Some o -> In label (dict_keys (arcs o)) ->
  add_arc h self next label = Err (AssertionError label).
Proof.
  intros E I. unfold add_arc. rewrite (proj2 (deref_Ok h self o) E). simpl.
  now rewrite (proj2 (dict_mem_In label (arcs o)) I).
Qed.

Lemma known_ids (token_NAME : Z) (ns : TokenNamespace) (g : Grammar)
    (l1 l2 : string) (i1 i2 : nat) :
  label_inv g ->
  known token_NAME ns g l1 i1 -> known token_NAME ns g l2 i2 ->
  1 <= i1 /\
  (i1 = i2 <-> kind_of token_NAME ns g l1 = kind_of token_NAME ns g l2).
Proof.
  intros (_ & Rng & Inj) (k1 & e1 & C1 & L1) (k2 & e2 & C2 & L2).
  unfold kind_of. rewrite C1, C2. split; [apply (Rng k1 i1 L1)|].
  split.
  - intros ->. f_equal. eapply Inj; eauto.
  - intros E. inv_ok E. congruence.
Qed.

(** C3, counterexample.  [comp_op: '<>' | '!='], compiled with a token
    namespace in which both operators are of one terminal class, has a
    start state with the arc-list [[(1, 1); (1, 1)]]: two entries with the
    label id 1. *)
Lemma final_table_shares_label_id :
  exists gf,
    generate_grammar Samples.NAME Samples.python_tokens 20 [Samples.comp_op]
    = Ok gf /\
    states gf = [[[(1, 1); (1, 1)]; [(0, 1)]]] /\
    ~ (forall table entries,
          In table (states gf) -> In entries table ->
          NoDup (map fst entries)).
Proof.
  eexists. split; [reflexivity|]. split; [reflexivity|].
  intros H.
  specialize (H [[(1, 1); (1, 1)]; [(0, 1)]] [(1, 1); (1, 1)]
                (or_introl eq_refl) (or_introl eq_refl)).
  inversion H as [|x l N _]; subst. apply N. now left.
Qed.

(** C3, amended.  Within a DFAState every label has exactly one target,
    from the subset construction through the minimisation: [add_arc]
    refuses a label that the state already has, [_make_dfas] never runs
    into this refusal (it raises nothing but the exhaustion of its budget),
    and the labels of every state that [_make_dfas] and [_simplify_dfas]
    leave behind are distinct.
    In the table that [make_grammar] adds to a grammar whose labels are in
    order (as they are in a new grammar), every state has one entry per
    label, in the order of its arcs, followed by the entry [(0, self)] if
    the state is final.  The ids of the label entries are at least 1, so none of them is
    the accept entry; and the entries of two labels have the same id exactly
    when the labels are of the same kind: the same rule, the same terminal
    class, or the same keyword. *)
Theorem each_label_has_one_target (token_NAME : Z) (ns : TokenNamespace) :
  (forall h self next label o,
      nth_error h self = Some o -> In label (dict_keys (arcs o)) ->
      add_arc h self next label = Err (AssertionError label)) /\
  (forall fuel nfa e, _make_dfas fuel nfa = Err e -> e = OutOfFuel) /\
  (forall fuel nfa h states0 h' dfas',
      _make_dfas fuel nfa = Ok (h, states0) ->
      _simplify_dfas h states0 = Ok (h', dfas') ->
      wf_arcs h /\ wf_arcs h') /\
  (forall start_symbol, label_inv (Grammar_new start_symbol)) /\
  (forall rules g gf,
      label_inv g -> states g = [] ->
      make_grammar token_NAME ns rules g = Ok gf ->
      Forall2 (fun name table =>
                 exists h dfa,
                   dict_get name rules = Some (h, dfa) /\
                   Forall2 (state_entry token_NAME ns gf h dfa) dfa table)
              (sort (dict_keys rules)) (states gf) /\
      forall l1 l2 i1 i2,
        known token_NAME ns gf l1 i1 -> known token_NAME ns gf l2 i2 ->
        1 <= i1 /\
        (i1 = i2 <->
         kind_of token_NAME ns gf l1 = kind_of token_NAME ns gf l2)).
Proof.
  split; [apply add_arc_refuses|]. split; [|split; [|split]].
  - intros fuel nfa e E.
    destruct (make_dfas_spec fuel nfa) as [F|(h & s & x & o & F & _)];
      congruence.
  - intros fuel nfa h states0 h' dfas' Em Es.
    destruct (make_dfas_Ok _ _ _ _ Em) as (o & Inv & _).
    destruct (dfa_inv_simplify _ _ _ Inv) as (V & ND & W & _).
    split; [exact W|].
    pose proof (simplify_dfas_inv _ _ _ _ V ND Es) as (_ & _ & _ & _ & Sh & _).
    eapply wf_arcs_shape; eauto.
  - apply label_inv_new.
  - intros rules g gf Ig Sg E. unfold make_grammar in E. inv_bind E.
    set (g0 := number_symbols (sort (dict_keys rules)) g) in *.
    destruct (number_symbols_frame (sort (dict_keys rules)) g)
      as (L0 & K0 & S0 & _).
    fold g0 in L0, K0, S0.
    assert (I0 : label_inv g0).
    { destruct Ig as (A & B & C).
      unfold label_inv. rewrite L0. split; [exact A|]. split.
      - intros k i Ek. rewrite K0 in Ek. eauto.
      - intros k1 k2 i E1 E2. rewrite K0 in E1, E2. eauto. }
    apply assemble_spec in E. destruct E as (_ & If & tables & St & F).
    rewrite S0, Sg in St. simpl in St. rewrite St. split; [exact F|].
    intros l1 l2 i1 i2. apply known_ids. auto.
Qed.

Lemma each_label_has_one_target_witness :
  add_arc (fst Samples.a_or_b_then_c_dfa) 0 3 "'a'"
  = Err (AssertionError "'a'").
Proof.
  refine (proj1 (each_label_has_one_target Samples.NAME Samples.python_tokens)
            (fst Samples.a_or_b_then_c_dfa) 0 3 "'a'" _ eq_refl _).
  simpl. auto.
Defined.

(** ** Epsilon closure as reachability *)

Lemma eps_reach_trans (nfa : NFA) (a b c : NFAState) :
  eps_reach nfa a b -> eps_reach nfa b c -> eps_reach nfa a c.
Proof.
  intros R1 R2. induction R2 as [|x y _ IH A]; [exact R1|].
  eapply eps_more; eauto.
Qed.

Lemma eps_reach_first (nfa : NFA) (a b c : NFAState) :
  In (None, b) (arcs_of nfa a) -> eps_reach nfa b c -> eps_reach nfa a c.
Proof.
  intros A R. eapply eps_reach_trans; [|exact R].
  eapply eps_more; [apply eps_here | exact A].
Qed.

Lemma eps_closed_reach (nfa : NFA) (base : pyset NFAState) (s x : NFAState) :
  eps_closed nfa base -> In s base -> eps_reach nfa s x -> In x base.
Proof.
  intros C I R. induction R as [|x y _ IH A]; [exact I|].
  eapply C; eauto.
Qed.

(** What [addclosure] adds to [base] is reached from [state]. *)
Lemma addclosure_sound (fuel : nat) :
  forall nfa state base base',
    addclosure fuel nfa state base = Ok base' ->
    forall x, In x base' -> In x base \/ eps_reach nfa state x.
Proof.
  induction fuel as [|fuel IH]; intros nfa state base base' E; simpl in E.
  - discriminate.
  - destruct (set_mem state base); [inv_ok E; auto|].
    assert (L : forall l b b',
               incl l (arcs_of nfa state) ->
               closure_arcs (addclosure fuel nfa) l b = Ok b' ->
               forall x, In x b' -> In x b \/ eps_reach nfa state x).
    { induction l as [|[[label|] next] l IHl]; intros b b' S E' x I;
        simpl in E'.
      - inv_ok E'. auto.
      - eapply IHl; eauto. intros a Ia. apply S. now right.
      - inv_bind E'.
        destruct (IHl _ _ (fun a Ia => S a (or_intror Ia)) E' x I) as [I1|R];
          [|auto].
        destruct (IH _ _ _ _ E0 x I1) as [I0|R]; [auto|].
        right. eapply eps_reach_first; [|exact R]. apply S. now left. }
    intros x I.
    destruct (L _ _ _ (incl_refl _) E x I) as [I0|R]; [|auto].
    apply set_add_In in I0. destruct I0 as [->|I0]; [right; constructor | auto].
Qed.

(** The members that [addclosure] adds have their epsilon successors in the
    result. *)
Lemma addclosure_new_closed (fuel : nat) :
  forall nfa state base base',
    addclosure fuel nfa state base = Ok base' ->
    forall x y,
      In x base' -> ~ In x base -> In (None, y) (arcs_of nfa x) -> In y base'.
Proof.
  induction fuel as [|fuel IH]; intros nfa state base base' E; simpl in E.
  - discriminate.
  - destruct (set_mem state base) eqn:M; [inv_ok E; intros x y I N; tauto|].
    assert (L : forall l b b',
               closure_arcs (addclosure fuel nfa) l b = Ok b' ->
               incl b b' /\
               (forall x y, In x b' -> ~ In x b ->
                            In (None, y) (arcs_of nfa x) -> In y b') /\
               (forall next, In (None, next) l -> In next b')).
    { induction l as [|[[label|] next] l IHl]; intros b b' E'; simpl in E'.
      - inv_ok E'. split; [apply incl_refl|]. split; [tauto|]. intros n [].
      - destruct (IHl _ _ E') as (I1 & C1 & A1).
        split; [exact I1|]. split; [exact C1|].
        intros n [D|I]; [discriminate | auto].
      - inv_bind E'. destruct (IHl _ _ E') as (I1 & C1 & A1).
        pose proof (addclosure_incl _ _ _ _ _ E0) as I0.
        split; [eapply incl_tran; eauto|]. split.
        + intros u v I N A.
          destruct (in_dec Nat.eq_dec u x) as [Ia|Na].
          * apply I1. eapply IH; eauto.
          * eapply C1; eauto.
        + intros n [D|I]; [|auto].
          inv_ok D. apply I1. eapply addclosure_In; eauto. }
    destruct (L _ _ _ E) as (I1 & C1 & A1).
    intros x y I N A.
    destruct (in_dec Nat.eq_dec x (set_add state base)) as [Ia|Na].
    + apply set_add_In in Ia. destruct Ia as [->|Ia]; [auto | tauto].
    + eapply C1; eauto.
Qed.

(** [addclosure] appends to [base]. *)
Lemma addclosure_appends (fuel : nat) (nfa : NFA) (state : NFAState)
    (base base' : pyset NFAState) :
  addclosure fuel nfa state base = Ok base' -> exists more, base' = base ++ more.
Proof.
  apply (addclosure_rel (fun s s' => exists more, s' = s ++ more)).
  - intros s. exists []. now rewrite app_nil_r.
  - intros x y z [m1 ->] [m2 ->]. exists (m1 ++ m2). now rewrite app_assoc.
  - intros k s. unfold set_add. destruct (set_mem k s).
    + exists []. now rewrite app_nil_r.
    + now exists [k].
Qed.

(** [addclosure(state, base)] on a set [base] that has the epsilon
    successors of its members: the result has them too, and it holds the
    members of [base] and the states reached from [state] through epsilon
    arcs, and nothing else. *)
Lemma addclosure_reach (fuel : nat) (nfa : NFA) (state : NFAState)
    (base base' : pyset NFAState) :
  eps_closed nfa base ->
  addclosure fuel nfa state base = Ok base' ->
  eps_closed nfa base' /\
  forall x, In x base' <-> In x base \/ eps_reach nfa state x.
Proof.
  intros C E.
  assert (C' : eps_closed nfa base').
  { intros x y I A.
    destruct (in_dec Nat.eq_dec x base) as [Ib|Nb].
    - eapply addclosure_incl; [exact E|]. eapply C; eauto.
    - eapply addclosure_new_closed; eauto. }
  split; [exact C'|]. intros x. split.
  - eapply addclosure_sound; eauto.
  - intros [I|R].
    + eapply addclosure_incl; eauto.
    + eapply eps_closed_reach; [exact C'| |exact R].
      eapply addclosure_In; eauto.
Qed.

(** X1.  [closure(state)] is the set of the NFA states that are reached from
    [state] through epsilon arcs: it holds [state] itself, as its first
    member, every member is reached from [state], every state reached from
    [state] is a member, and no member is repeated. *)
Theorem closure_is_epsilon_reachability (fuel : nat) (nfa : NFA)
    (state : NFAState) (c : pyset NFAState) :
  closure fuel nfa state = Ok c ->
  nth_error c 0 = Some state /\ NoDup c /\
  (forall x, In x c <-> eps_reach nfa state x) /\
  eps_closed nfa c.
Proof.
  unfold closure. intros E.
  assert (C0 : eps_closed nfa []) by (intros x y []).
  destruct (addclosure_reach _ _ _ _ _ C0 E) as (C & I).
  split; [|split; [|split]].
  - destruct fuel as [|fuel]; simpl in E; [discriminate|].
    assert (P : forall l b b',
               closure_arcs (addclosure fuel nfa) l b = Ok b' ->
               exists more, b' = b ++ more).
    { induction l as [|[[label|] next] l IHl]; intros b b' E'; simpl in E'.
      - inv_ok E'. exists []. now rewrite app_nil_r.
      - eauto.
      - inv_bind E'. apply addclosure_appends in E0. destruct E0 as [m1 ->].
        destruct (IHl _ _ E') as [m2 ->]. exists (m1 ++ m2).
        now rewrite app_assoc. }
    destruct (P _ _ _ E) as [more ->]. reflexivity.
  - eapply addclosure_NoDup; [exact E | constructor].
  - intros x. rewrite I. simpl. tauto.
  - exact C.
Qed.

Lemma closure_is_epsilon_reachability_witness :
  nth_error [4; 0; 2] 0 = Some 4 /\ NoDup [4; 0; 2] /\
  (forall x, In x [4; 0; 2] <-> eps_reach Samples.a_or_b_then_c 4 x) /\
  eps_closed Samples.a_or_b_then_c [4; 0; 2].
Proof.
  apply (closure_is_epsilon_reachability 20 Samples.a_or_b_then_c 4).
  reflexivity.
Defined.

(** ** The language of a fragment and of its automaton *)

Lemma move_arcs_spec (fuel : nat) (nfa : NFA)
    (l : list (option string * NFAState)) :
  forall done arcs0 arcs1,
    move_arcs fuel nfa l arcs0 = Ok arcs1 ->
    move_spec nfa done arcs0 -> move_spec nfa (done ++ l) arcs1.
Proof.
  induction l as [|[[label|] next] l IH]; intros done arcs0 arcs1 E M;
    simpl in E.
  - inv_ok E. now rewrite app_nil_r.
  - inv_bind E.
    replace (done ++ (Some label, next) :: l)
      with ((done ++ [(Some label, next)]) ++ l)
      by (now rewrite <- app_assoc).
    eapply IH; [exact E|]. clear IH E.
    intros label'. destruct (String.eqb_spec label' label) as [->|N].
    + rewrite dict_get_set_same.
      pose proof (M label) as Ml.
      assert (C : eps_closed nfa
                    match dict_get label arcs0 with Some s => s | None => [] end).
      { destruct (dict_get label arcs0); [tauto | intros u v []]. }
      destruct (addclosure_reach _ _ _ _ _ C E0) as (C' & I').
      split; [exact C'|]. intros u. rewrite I'. split.
      * intros [I|R].
        -- destruct (dict_get label arcs0); [|destruct I].
           apply Ml in I. destruct I as (y & Iy & R). exists y.
           split; [apply in_or_app; now left | exact R].
        -- exists next. split; [apply in_or_app; right; now left | exact R].
      * intros (y & Iy & R). apply in_app_or in Iy.
        destruct Iy as [Iy|[Iy|[]]].
        -- left. destruct (dict_get label arcs0).
           ++ apply Ml. eauto.
           ++ destruct (Ml _ Iy).
        -- inv_ok Iy. now right.
    + rewrite dict_get_set_other by exact N.
      pose proof (M label') as Ml.
      assert (Q : forall y, In (Some label', y) (done ++ [(Some label, next)])
                            <-> In (Some label', y) done).
      { intros y. split.
        - intros I. apply in_app_or in I. destruct I as [I|[I|[]]]; [exact I|].
          inv_ok I. congruence.
        - intros I. apply in_or_app. now left. }
      destruct (dict_get label' arcs0).
      * split; [tauto|]. intros u. destruct Ml as (_ & Ml). rewrite Ml.
        split; intros (y & Iy & R); exists y; (split; [now apply Q | exact R]).
      * intros y I. apply Q in I. now apply Ml in I.
  - replace (done ++ (None, next) :: l) with ((done ++ [(None, next)]) ++ l)
      by (now rewrite <- app_assoc).
    eapply IH; [exact E|]. clear IH E.
    assert (Q : forall label y, In (Some label, y) (done ++ [(None, next)])
                                <-> In (Some label, y) done).
    { intros label y. split.
      - intros I. apply in_app_or in I. destruct I as [I|[I|[]]]; [exact I|].
        discriminate.
      - intros I. apply in_or_app. now left. }
    intros label. pose proof (M label) as Ml.
    destruct (dict_get label arcs0).
    + split; [tauto|]. intros u. destruct Ml as (_ & Ml). rewrite Ml.
      split; intros (y & Iy & R); exists y; (split; [now apply Q | exact R]).
    + intros y I. apply Q in I. now apply Ml in I.
Qed.

Lemma move_sets_spec (fuel : nat) (nfa : NFA) (members : list NFAState) :
  forall done arcs0 arcs1,
    move_sets fuel nfa members arcs0 = Ok arcs1 ->
    move_spec nfa done arcs0 ->
    move_spec nfa (done ++ flat_map (arcs_of nfa) members) arcs1.
Proof.
  induction members as [|m members IH]; intros done arcs0 arcs1 E M;
    simpl in E.
  - inv_ok E. simpl. now rewrite app_nil_r.
  - inv_bind E. simpl. rewrite app_assoc.
    eapply IH; [exact E|]. eapply move_arcs_spec; eauto.
Qed.

(** The candidate targets of a set of NFA states. *)
Lemma move_sets_moves (fuel : nat) (nfa : NFA) (members : list NFAState)
    (arcs0 : dict string (pyset NFAState)) (label : string) :
  move_sets fuel nfa members [] = Ok arcs0 ->
  match dict_get label arcs0 with
  | None => forall m y, In m members -> ~ In (Some label, y) (arcs_of nfa m)
  | Some s =>
      forall x, In x s <->
                exists m y, In m members /\ In (Some label, y) (arcs_of nfa m) /\
                            eps_reach nfa y x
  end.
Proof.
  intros E.
  assert (M0 : move_spec nfa [] []) by (intros l y []).
  pose proof (move_sets_spec _ _ _ _ _ _ E M0 label) as M. simpl in M.
  destruct (dict_get label arcs0).
  - destruct M as (_ & M). intros x. rewrite M. split.
    + intros (y & I & R). apply in_flat_map in I. destruct I as (m & Im & I).
      eauto.
    + intros (m & y & Im & I & R). exists y. split; [|exact R].
      apply in_flat_map. eauto.
  - intros m y Im I. apply (M y). apply in_flat_map. eauto.
Qed.

Lemma nfa_run_app (nfa : NFA) (s : NFAState) (w1 : list string) (t : NFAState)
    (w2 : list string) (u : NFAState) :
  nfa_run nfa s w1 t -> nfa_run nfa t w2 u -> nfa_run nfa s (w1 ++ w2) u.
Proof.
  intros R1 R2. induction R1 as [s|s t w s' A R IH|s label t w s' A R IH];
    simpl.
  - exact R2.
  - eapply nfa_eps; eauto.
  - eapply nfa_read; eauto.
Qed.

Lemma nfa_run_eps (nfa : NFA) (s x : NFAState) :
  nfa_run nfa s [] x <-> eps_reach nfa s x.
Proof.
  split.
  - intros R. remember [] as w eqn:Ew.
    induction R as [s|s t w s' A R IH|s label t w s' A R IH].
    + constructor.
    + eapply eps_reach_first; eauto.
    + discriminate.
  - intros R. induction R as [|x y _ IH A]; [constructor|].
    change (@nil string) with (@nil string ++ []).
    eapply nfa_run_app; [exact IH|].
    eapply nfa_eps; [exact A | constructor].
Qed.

Lemma eps_reach_run (nfa : NFA) (s t : NFAState) (w : list string)
    (u : NFAState) :
  eps_reach nfa s t -> nfa_run nfa t w u -> nfa_run nfa s w u.
Proof.
  intros R1 R2. apply nfa_run_eps in R1.
  change w with ([] ++ w). eapply nfa_run_app; eauto.
Qed.

Lemma nfa_run_cons (nfa : NFA) (s : NFAState) (label : string)
    (w : list string) (x : NFAState) :
  nfa_run nfa s (label :: w) x ->
  exists m y, eps_reach nfa s m /\ In (Some label, y) (arcs_of nfa m) /\
              nfa_run nfa y w x.
Proof.
  intros R. remember (label :: w) as lw eqn:Ew.
  induction R as [s|s t w0 s' A R IH|s label0 t w0 s' A R IH].
  - discriminate.
  - destruct (IH Ew) as (m & y & R1 & A1 & R2).
    exists m, y. split; [eapply eps_reach_first; eauto | auto].
  - inv_ok Ew. exists s, t. split; [constructor | auto].
Qed.

(** Two arc maps that are related entry by entry answer a lookup alike. *)
Lemma Forall2_dict_get {V W : Type} (R : string * V -> string * W -> Prop)
    (d1 : dict string V) (d2 : dict string W) (label : string) :
  Forall2 R d1 d2 ->
  (forall a b, R a b -> fst b = fst a) ->
  match dict_get label d2 with
  | Some t => exists s, dict_get label d1 = Some s /\ R (label, s) (label, t)
  | None => dict_get label d1 = None
  end.
Proof.
  intros F Hk. induction F as [|[k1 v1] [k2 v2] d1 d2 Rab F IH]; simpl.
  - reflexivity.
  - pose proof (Hk _ _ Rab) as Ek. simpl in Ek. subst k2.
    destruct (String.eqb_spec label k1) as [->|N]; [eauto | exact IH].
Qed.

(** One arc of a processed state: it leads to the state that stands for
    what the NFA reaches from the members of the set by one arc with this
    label and epsilon arcs after it; a label without an arc leaves none of
    the members. *)
Lemma dfa_arc_spec (fuel : nat) (nfa : NFA) (h : heap) (states : list ref)
    (k : nat) (o : DFAState) (label : string) :
  dfa_inv (nfa_finish nfa) h states ->
  processed fuel nfa h k ->
  nth_error h k = Some o ->
  match dict_get label (arcs o) with
  | Some t =>
      exists ot,
        nth_error h t = Some ot /\
        forall x, In x (nfaset ot) <->
                  exists m y, In m (nfaset o) /\
                              In (Some label, y) (arcs_of nfa m) /\
                              eps_reach nfa y x
  | None => forall m y, In m (nfaset o) -> ~ In (Some label, y) (arcs_of nfa m)
  end.
Proof.
  intros (_ & Sets & _) (o' & arcs0 & Eo & Em & F) Ek.
  rewrite Ek in Eo. inv_ok Eo.
  pose proof (move_sets_moves _ _ _ _ label Em) as M.
  pose proof (Forall2_dict_get _ _ _ label F) as G.
  destruct (dict_get label (arcs o')) as [t|].
  - destruct G as (s & Es & _ & ot & Et & Q); [now intros a b [E _]|].
    simpl in Et, Q. rewrite Es in M.
    exists ot. split; [exact Et|].
    apply nth_error_In in Et. destruct (Sets _ Et) as (ND & _).
    apply set_eqb_true in Q; [|exact ND]. destruct Q as (_ & Q).
    intros x. rewrite Q. apply M.
  - rewrite G in M by (now intros a b [E _]). exact M.
Qed.

(** The run of the automaton on [w] from a state follows all runs of the
    NFA on [w] from the members of the state. *)
Lemma subset_run (fuel : nat) (nfa : NFA) (h : heap) (states : list ref) :
  dfa_inv (nfa_finish nfa) h states ->
  (forall k, k < List.length h -> processed fuel nfa h k) ->
  forall w r o,
    nth_error h r = Some o -> eps_closed nfa (nfaset o) ->
    match run_dfa h r w with
    | Some r' =>
        exists o',
          nth_error h r' = Some o' /\
          forall x, In x (nfaset o') <->
                    exists m, In m (nfaset o) /\ nfa_run nfa m w x
    | None => forall m x, In m (nfaset o) -> ~ nfa_run nfa m w x
    end.
Proof.
  intros Inv P. induction w as [|label w IH]; intros r o Er C; simpl.
  - exists o. split; [exact Er|]. intros x. split.
    + intros I. exists x. split; [exact I | constructor].
    + intros (m & I & R). apply nfa_run_eps in R.
      eapply eps_closed_reach; eauto.
  - rewrite Er.
    assert (L : r < List.length h) by (apply nth_error_Some; congruence).
    pose proof (dfa_arc_spec _ _ _ _ _ _ label Inv (P _ L) Er) as A.
    destruct (dict_get label (arcs o)) as [t|].
    + destruct A as (ot & Et & Q).
      assert (Ct : eps_closed nfa (nfaset ot)).
      { intros x y I A. apply Q in I. apply Q.
        destruct I as (m & y0 & Im & Am & R).
        exists m, y0. split; [exact Im|]. split; [exact Am|].
        eapply eps_more; eauto. }
      specialize (IH t ot Et Ct).
      destruct (run_dfa h t w) as [r'|].
      * destruct IH as (o' & Eo' & Q'). exists o'. split; [exact Eo'|].
        intros x. rewrite Q'. split.
        -- intros (m' & Im' & R'). apply Q in Im'.
           destruct Im' as (m & y & Im & Am & R).
           exists m. split; [exact Im|].
           eapply nfa_read; [exact Am|]. eapply eps_reach_run; eauto.
        -- intros (m & Im & R). apply nfa_run_cons in R.
           destruct R as (m1 & y & R1 & A1 & R2).
           exists y. split; [|exact R2]. apply Q.
           exists m1, y. split; [eapply eps_closed_reach; eauto|].
           split; [exact A1 | constructor].
      * intros m x Im R. apply nfa_run_cons in R.
        destruct R as (m1 & y & R1 & A1 & R2).
        apply (IH y x); [|exact R2]. apply Q.
        exists m1, y. split; [eapply eps_closed_reach; eauto|].
        split; [exact A1 | constructor].
    + intros m x Im R. apply nfa_run_cons in R.
      destruct R as (m1 & y & R1 & A1 & R2).
      apply (A m1 y); [|exact A1]. eapply eps_closed_reach; eauto.
Qed.

(** The automaton of [_make_dfas] and the fragment accept the same label
    sequences. *)
Lemma make_dfas_language (fuel : nat) (nfa : NFA) (h : heap)
    (states : list ref) :
  _make_dfas fuel nfa = Ok (h, states) ->
  nth_error states 0 = Some 0 /\
  forall w, dfa_accepts h 0 w = true <-> nfa_accepts nfa w.
Proof.
  intros E. destruct (make_dfas_Ok _ _ _ _ E) as (o & Inv & P & E0 & Ec & Ef).
  split.
  { destruct Inv as (-> & _). destruct h; [discriminate | reflexivity]. }
  assert (C0 : eps_closed nfa []) by (intros x y []).
  destruct (addclosure_reach _ _ _ _ _ C0 Ec) as (C & Q0).
  assert (Q : forall x, In x (nfaset o) <-> eps_reach nfa (nfa_start nfa) x).
  { intros x. rewrite Q0. simpl. tauto. }
  intros w. unfold dfa_accepts, nfa_accepts.
  pose proof (subset_run _ _ _ _ Inv P w 0 o E0 C) as R.
  destruct (run_dfa h 0 w) as [r'|].
  - destruct R as (o' & Eo' & Q'). rewrite Eo'.
    destruct Inv as (_ & Sets & _).
    destruct (Sets o' (nth_error_In _ _ Eo')) as (_ & _ & ->).
    rewrite set_mem_In, Q'. split.
    + intros (m & Im & R). apply Q in Im. eapply eps_reach_run; eauto.
    + intros R. exists (nfa_start nfa). split; [apply Q; constructor | exact R].
  - split; [discriminate|]. intros Rn. exfalso.
    apply (R (nfa_start nfa) (nfa_finish nfa)); [apply Q; constructor | exact Rn].
Qed.

(** X2.  The subset construction keeps the language: the automaton that
    [_make_dfas] returns accepts, from its first state, exactly the label
    sequences that take the NFA of the rule from its start state to its
    finish state. *)
Theorem make_dfas_accepts_the_language_of_the_nfa (fuel : nat) (nfa : NFA)
    (h : heap) (states : list ref) :
  _make_dfas fuel nfa = Ok (h, states) ->
  exists start,
    nth_error states 0 = Some start /\
    forall w, dfa_accepts h start w = true <-> nfa_accepts nfa w.
Proof.
  intros E. exists 0. now apply make_dfas_language in E.
Qed.

Lemma make_dfas_accepts_the_language_of_the_nfa_witness :
  exists start,
    nth_error (snd Samples.a_or_b_then_c_dfa) 0 = Some start /\
    forall w, dfa_accepts (fst Samples.a_or_b_then_c_dfa) start w = true <->
              nfa_accepts Samples.a_or_b_then_c w.
Proof.
  apply (make_dfas_accepts_the_language_of_the_nfa 20 Samples.a_or_b_then_c).
  reflexivity.
Defined.

(** ** Subset constructor: the states and the arcs it returns *)

(** C4.  What [_make_dfas] returns.  The first state of the sequence is the
    epsilon closure of the start state of the NFA: its set holds exactly the
    NFA states that are reached from the start state through epsilon arcs.
    No two states of the sequence stand for the same set of NFA states.
    Every state has exactly one arc for every label that leaves its NFA
    states, and no other arc; the arc leads to the state of the sequence
    whose set holds exactly what is reached from the members by one arc
    with this label and epsilon arcs after it.  The target is chosen by
    comparing the candidate set against every state of the growing list: an
    existing state with an equal set is taken, otherwise a new state is
    appended and taken. *)
Theorem make_dfas_subset_construction (fuel : nat) (nfa : NFA) (h : heap)
    (states : list ref) :
  _make_dfas fuel nfa = Ok (h, states) ->
  (exists o,
      nth_error states 0 = Some 0 /\ nth_error h 0 = Some o /\
      closure fuel nfa (nfa_start nfa) = Ok (nfaset o) /\
      nth_error (nfaset o) 0 = Some (nfa_start nfa) /\
      (forall x, In x (nfaset o) <-> eps_reach nfa (nfa_start nfa) x)) /\
  (forall i j a b oa ob,
      i <> j -> nth_error states i = Some a -> nth_error states j = Some b ->
      nth_error h a = Some oa -> nth_error h b = Some ob ->
      set_eqb (nfaset oa) (nfaset ob) = false /\
      ~ (forall x, In x (nfaset oa) <-> In x (nfaset ob))) /\
  (forall r,
      In r states ->
      exists o arcs0,
        nth_error h r = Some o /\
        move_sets fuel nfa (nfaset o) [] = Ok arcs0 /\
        Forall2 (fun item arc =>
                   fst arc = fst item /\ In (snd arc) states /\
                   exists target,
                     nth_error h (snd arc) = Some target /\
                     set_eqb (nfaset target) (snd item) = true)
                arcs0 (arcs o)) /\
  (forall r o,
      In r states -> nth_error h r = Some o ->
      NoDup (dict_keys (arcs o)) /\
      forall label,
        match dict_get label (arcs o) with
        | Some t =>
            In t states /\
            exists target,
              nth_error h t = Some target /\
              forall x, In x (nfaset target) <->
                        exists m y, In m (nfaset o) /\
                                    In (Some label, y) (arcs_of nfa m) /\
                                    eps_reach nfa y x
        | None =>
            forall m y, In m (nfaset o) -> ~ In (Some label, y) (arcs_of nfa m)
        end) /\
  (forall h1 states1 s,
      valid h1 states1 -> s <> [] ->
      exists h2 states2 st,
        target_state (nfa_finish nfa) h1 states1 s = Ok (h2, states2, st) /\
        ((exists o, In st states1 /\ nth_error h1 st = Some o /\
                    set_eqb (nfaset o) s = true /\
                    h2 = h1 /\ states2 = states1) \/
         ((forall st' o, In st' states1 -> nth_error h1 st' = Some o ->
                         set_eqb (nfaset o) s = false) /\
          st = List.length h1 /\ states2 = states1 ++ [st] /\
          h2 = h1 ++ [{| nfaset := s;
                         isfinal := set_mem (nfa_finish nfa) s;
                         arcs := [] |}]))).
Proof.
  intros E. destruct (make_dfas_Ok _ _ _ _ E) as (o & Inv & Done & Eo & Ec & _).
  pose proof Inv as (Es & Sets & Dist & Wf & Cl).
  split; [|split; [|split; [|split]]].
  - exists o. split; [|split; [exact Eo|split; [exact Ec|]]].
    + rewrite Es. pose proof (nth_error_Some_lt _ _ _ Eo) as L.
      destruct (List.length h); [lia | reflexivity].
    + pose proof Ec as Ec'. unfold closure in Ec'.
      assert (C0 : eps_closed nfa []) by (intros x y []).
      destruct (addclosure_reach _ _ _ _ _ C0 Ec') as (_ & I).
      split; [|intros x; rewrite I; simpl; tauto].
      destruct fuel as [|fuel']; simpl in Ec'; [discriminate|].
      assert (P : forall l b b',
                 closure_arcs (addclosure fuel' nfa) l b = Ok b' ->
                 exists more, b' = b ++ more).
      { induction l as [|[[label|] next] l IHl]; intros b b' E'; simpl in E'.
        - inv_ok E'. exists []. now rewrite app_nil_r.
        - eauto.
        - inv_bind E'. apply addclosure_appends in E0. destruct E0 as [m1 ->].
          destruct (IHl _ _ E') as [m2 ->]. exists (m1 ++ m2).
          now rewrite app_assoc. }
      destruct (P _ _ _ Ec') as [more' ->]. reflexivity.
  - intros i j a b oa ob Ne Ea Eb Eoa Eob.
    rewrite Es in Ea, Eb. apply nth_error_seq0 in Ea, Eb.
    destruct Ea as (-> & _). destruct Eb as (-> & _).
    destruct (Sets oa (nth_error_In _ _ Eoa)) as (NDa & _).
    destruct (Sets ob (nth_error_In _ _ Eob)) as (NDb & _).
    assert (Q : set_eqb (nfaset oa) (nfaset ob) = false).
    { destruct (Nat.lt_ge_cases i j) as [Lt|Ge]; [eauto|].
      assert (Lt : j < i) by lia.
      pose proof (Dist j i ob oa Lt Eob Eoa) as Q.
      destruct (set_eqb (nfaset oa) (nfaset ob)) eqn:Q'; [|reflexivity].
      apply set_eqb_true in Q'; [|exact NDa]. destruct Q' as (L & Same).
      assert (T : set_eqb (nfaset ob) (nfaset oa) = true); [|congruence].
      apply set_eqb_true; [exact NDb|]. split; [lia|].
      intros x. symmetry. apply Same. }
    split; [exact Q | now apply set_eqb_false_iff].
  - intros r Ir. rewrite Es in Ir. apply in_seq in Ir.
    destruct (Done r ltac:(lia)) as (x & arcs0 & Ex & Em & L).
    exists x, arcs0. split; [exact Ex|]. split; [exact Em|].
    assert (T : forall arc, In arc (arcs x) -> In (snd arc) states).
    { intros [label t] I. rewrite Es. apply in_seq. simpl.
      pose proof (Cl x label t (nth_error_In _ _ Ex) I). lia. }
    clear Ex Em. revert T.
    induction L as [|item arc items l (Ef & target & Et & Q) L IH]; intros T;
      constructor.
    + split; [exact Ef|]. split; [apply T; now left|]. eauto.
    + apply IH. intros a I. apply T. now right.
  - intros r x Ir Ex. split.
    + unfold wf_arcs in Wf. rewrite Forall_forall in Wf.
      apply Wf. eapply nth_error_In; eauto.
    + intros label.
      pose proof (nth_error_Some_lt _ _ _ Ex) as Lr.
      pose proof (dfa_arc_spec fuel nfa h states r x label Inv (Done r Lr) Ex)
        as A.
      destruct (dict_get label (arcs x)) as [t|] eqn:G; [|exact A].
      split; [|exact A].
      rewrite Es. apply in_seq. simpl.
      pose proof (Cl x label t (nth_error_In _ _ Ex) (dict_get_In _ _ _ G)).
      lia.
  - intros h1 states1 s V Ne. unfold target_state.
    destruct (find_state_spec h1 states1 s V)
      as [(st & x & Ef & I & Ex & Q)|(Ef & None)]; rewrite Ef; simpl.
    + exists h1, states1, st. split; [reflexivity|]. left. exists x. auto.
    + unfold DFAState_new. destruct s as [|k s]; [congruence|]. simpl.
      eexists. eexists. eexists. split; [reflexivity|]. right. auto.
Qed.

Lemma make_dfas_subset_construction_witness :
  exists o,
    nth_error (snd Samples.a_or_b_then_c_dfa) 0 = Some 0 /\
    nth_error (fst Samples.a_or_b_then_c_dfa) 0 = Some o /\
    closure 20 Samples.a_or_b_then_c 4 = Ok (nfaset o) /\
    nth_error (nfaset o) 0 = Some 4 /\
    (forall x, In x (nfaset o) <-> eps_reach Samples.a_or_b_then_c 4 x).
Proof.
  refine (proj1 (make_dfas_subset_construction 20 Samples.a_or_b_then_c
                   (fst Samples.a_or_b_then_c_dfa)
                   (snd Samples.a_or_b_then_c_dfa) _)).
  reflexivity.
Defined.

(** ** State minimiser: the language of the states *)

Lemma dfa_accepts_nil (h : heap) (r : ref) :
  dfa_accepts h r [] =
  match nth_error h r with
  | Some o => isfinal o
  | None => false
  end.
Proof. reflexivity. Qed.

Lemma dfa_accepts_cons (h : heap) (r : ref) (label : string) (w : list string) :
  dfa_accepts h r (label :: w) =
  match nth_error h r with
  | Some o =>
      match dict_get label (arcs o) with
      | Some t => dfa_accepts h t w
      | None => false
      end
  | None => false
  end.
Proof.
  unfold dfa_accepts. simpl. destruct (nth_error h r) as [o|]; [|reflexivity].
  now destruct (dict_get label (arcs o)).
Qed.

(** Two states that [__eq__] holds of answer every lookup in their arcs
    alike. *)
Lemma eq_states_get (a b : DFAState) (label : string) :
  NoDup (dict_keys (arcs a)) -> NoDup (dict_keys (arcs b)) ->
  eq_states a b = true ->
  isfinal a = isfinal b /\ dict_get label (arcs a) = dict_get label (arcs b).
Proof.
  intros Na Nb E. pose proof (eq_states_sym _ _ Na Nb E) as E'.
  apply eq_states_true in E. apply eq_states_true in E'.
  destruct E as (F & _ & G), E' as (_ & _ & G').
  split; [exact F|].
  destruct (dict_get label (arcs a)) as [t|] eqn:Ga.
  - symmetry. apply G. now apply dict_get_In.
  - destruct (dict_get label (arcs b)) as [t|] eqn:Gb; [|reflexivity].
    apply dict_get_In, G' in Gb. congruence.
Qed.

(** A merge keeps what every state accepts; the deleted state accepted what
    the surviving one accepts. *)
Lemma merge_step_language (h : heap) (dfas : list ref) (h' : heap)
    (dfas' : list ref) :
  valid h dfas -> NoDup dfas -> wf_arcs h -> closed h dfas ->
  merge_step h dfas h' dfas' ->
  forall w r, In r dfas' -> dfa_accepts h' r w = dfa_accepts h r w.
Proof.
  intros V ND W C (i & j & si & sj & Lt & Ei & Ej & Q & -> & U).
  assert (V' : valid h (del dfas j)) by (eapply valid_incl; eauto using del_incl).
  assert (ND' : NoDup (del dfas j)) by now apply del_NoDup.
  destruct (unify_all_spec (del dfas j) h sj si V' ND') as (h2 & E & L & _ & Inn).
  assert (h2 = h') by congruence. subst h2. clear E U.
  assert (Nij : si <> sj).
  { intros ->. rewrite NoDup_nth_error in ND.
    assert (i = j); [|lia].
    apply ND; [eapply nth_error_Some_lt; eauto | congruence]. }
  assert (Ii : In si (del dfas j)).
  { apply (del_In dfas j sj si ND Ej). split; [eapply nth_error_In; eauto|].
    exact Nij. }
  unfold DFAState_eq in Q. inv_bind Q. inv_bind Q. inv_ok Q.
  apply deref_Ok in E, E0. rename x into oi, x0 into oj.
  unfold wf_arcs in W. rewrite Forall_forall in W.
  pose proof (W _ (nth_error_In _ _ E)) as Wi.
  pose proof (W _ (nth_error_In _ _ E0)) as Wj.
  set (phi := fun r : ref => if r =? sj then si else r).
  assert (G : forall w r, In r dfas ->
                          dfa_accepts h' (phi r) w = dfa_accepts h r w).
  { induction w as [|label w IH]; intros r Ir.
    - rewrite !dfa_accepts_nil. unfold phi.
      destruct (Nat.eqb_spec r sj) as [->|Nr].
      + rewrite (Inn si oi Ii E), E0. simpl.
        now destruct (eq_states_get oi oj EmptyString Wi Wj Q).
      + assert (Ir' : In r (del dfas j))
          by (apply (del_In dfas j sj r ND Ej); auto).
        assert (Lr : r < List.length h).
        { unfold valid in V. rewrite Forall_forall in V. auto. }
        destruct (deref_valid h r Lr) as (o & Eo). apply deref_Ok in Eo.
        now rewrite (Inn r o Ir' Eo), Eo.
    - rewrite !dfa_accepts_cons.
      assert (Lr : r < List.length h).
      { unfold valid in V. rewrite Forall_forall in V. auto. }
      destruct (deref_valid h r Lr) as (o & Eo). apply deref_Ok in Eo.
      rewrite Eo.
      assert (X : exists o',
                 nth_error h' (phi r) = Some o' /\
                 dict_get label (arcs o') =
                 option_map phi (dict_get label (arcs o))).
      { unfold phi at 1. destruct (Nat.eqb_spec r sj) as [->|Nr].
        - rewrite (Inn si oi Ii E). eexists. split; [reflexivity|].
          simpl. rewrite unify_arcs_get.
          assert (oj = o) by congruence. subst o.
          now destruct (eq_states_get oi oj label Wi Wj Q) as (_ & ->).
        - assert (Ir' : In r (del dfas j))
            by (apply (del_In dfas j sj r ND Ej); auto).
          rewrite (Inn r o Ir' Eo). eexists. split; [reflexivity|].
          simpl. now rewrite unify_arcs_get. }
      destruct X as (o' & -> & ->).
      destruct (dict_get label (arcs o)) as [t|] eqn:Gt; simpl; [|reflexivity].
      apply IH. apply (C r o label t Ir Eo). now apply dict_get_In. }
  intros w r Ir. apply (del_In dfas j sj r ND Ej) in Ir. destruct Ir as (Ir & Nr).
  rewrite <- (G w r Ir). unfold phi.
  now destruct (Nat.eqb_spec r sj).
Qed.

Lemma merges_language (h : heap) (dfas : list ref) (h' : heap)
    (dfas' : list ref) :
  merges h dfas h' dfas' ->
  valid h dfas -> NoDup dfas -> wf_arcs h -> closed h dfas ->
  (valid h' dfas' /\ NoDup dfas' /\ wf_arcs h' /\ closed h' dfas' /\
   incl dfas' dfas) /\
  forall w r, In r dfas' -> dfa_accepts h' r w = dfa_accepts h r w.
Proof.
  induction 1 as [|h1 dfas1 h2 dfas2 M IH S]; intros V ND W C.
  - split; [|reflexivity]. auto using incl_refl.
  - destruct (IH V ND W C) as ((V1 & ND1 & W1 & C1 & I1) & L1).
    destruct (merge_step_valid _ _ _ _ (conj V1 ND1) S) as (V2 & ND2).
    assert (I12 : incl dfas2 dfas1).
    { destruct S as (i & j & si & sj & _ & _ & _ & _ & -> & _).
      apply del_incl. }
    split.
    + split; [exact V2|]. split; [exact ND2|]. split.
      * exact (wf_arcs_shape _ _ (merge_step_shape _ _ _ _ S) W1).
      * split; [exact (merge_step_closed _ _ _ _ V1 ND1 C1 S)|].
        exact (incl_tran I12 I1).
    + intros w r Ir.
      rewrite (merge_step_language _ _ _ _ V1 ND1 W1 C1 S w r Ir).
      apply L1. now apply I12.
Qed.

(** X3.  The minimiser keeps the language of every state it keeps: on a list
    of states whose arcs stay inside the list, every state of the result
    accepts exactly the label sequences it accepted before, and the result
    is again such a list. *)
Theorem simplify_dfas_preserves_language (h : heap) (dfas : list ref)
    (h' : heap) (dfas' : list ref) :
  valid h dfas -> NoDup dfas -> wf_arcs h -> closed h dfas ->
  _simplify_dfas h dfas = Ok (h', dfas') ->
  incl dfas' dfas /\ closed h' dfas' /\
  forall w r, In r dfas' -> dfa_accepts h' r w = dfa_accepts h r w.
Proof.
  intros V ND W C E. apply simplify_dfas_merges in E.
  destruct (merges_language _ _ _ _ E V ND W C) as ((_ & _ & _ & C' & I) & L).
  auto.
Qed.

Lemma simplify_dfas_preserves_language_witness :
  exists h' dfas',
    _simplify_dfas (fst Samples.a_or_b_then_c_dfa)
      (snd Samples.a_or_b_then_c_dfa) = Ok (h', dfas') /\
    incl dfas' (snd Samples.a_or_b_then_c_dfa) /\ closed h' dfas' /\
    forall w r,
      In r dfas' ->
      dfa_accepts h' r w = dfa_accepts (fst Samples.a_or_b_then_c_dfa) r w.
Proof.
  eexists. eexists. split; [reflexivity|].
  apply (simplify_dfas_preserves_language
           (fst Samples.a_or_b_then_c_dfa) (snd Samples.a_or_b_then_c_dfa)).
  - repeat constructor.
  - repeat constructor; simpl; intuition discriminate.
  - repeat constructor; simpl; intuition discriminate.
  - intros r o label t Ir Er It. simpl in Ir.
    destruct Ir as [<-|[<-|[<-|[<-|[]]]]]; inv_ok Er; simpl in It;
      repeat (destruct It as [It|It]; [inv_ok It; simpl; tauto|]);
      destruct It.
  - reflexivity.
Defined.

(** X4.  From a rule to its minimised automaton: the states that
    [_make_dfas] and [_simplify_dfas] leave for a rule accept, from the
    first state of the list, exactly the label sequences of the NFA of the
    rule. *)
Theorem minimised_dfa_accepts_the_rule (fuel : nat) (nfa : NFA) (h : heap)
    (states : list ref) (h' : heap) (dfas' : list ref) :
  _make_dfas fuel nfa = Ok (h, states) ->
  _simplify_dfas h states = Ok (h', dfas') ->
  exists start,
    nth_error dfas' 0 = Some start /\
    forall w, dfa_accepts h' start w = true <-> nfa_accepts nfa w.
Proof.
  intros E E'.
  destruct (make_dfas_Ok _ _ _ _ E) as (o & Inv & _).
  destruct (dfa_inv_simplify _ _ _ Inv) as (V & ND & W & C).
  destruct (make_dfas_language _ _ _ _ E) as (E0 & L).
  destruct (simplify_dfas_inv _ _ _ _ V ND E') as (_ & _ & _ & E0' & _).
  pose proof (simplify_dfas_merges _ _ _ _ E') as M.
  destruct (merges_language _ _ _ _ M V ND W C) as (_ & L').
  exists 0. rewrite E0', E0. split; [reflexivity|].
  intros w. rewrite L'; [apply L|].
  eapply nth_error_In. rewrite E0'. exact E0.
Qed.

Lemma minimised_dfa_accepts_the_rule_witness :
  exists h' dfas' start,
    _simplify_dfas (fst Samples.a_or_b_then_c_dfa)
      (snd Samples.a_or_b_then_c_dfa) = Ok (h', dfas') /\
    nth_error dfas' 0 = Some start /\
    forall w, dfa_accepts h' start w = true <->
              nfa_accepts Samples.a_or_b_then_c w.
Proof.
  eexists. eexists.
  assert (E : _simplify_dfas (fst Samples.a_or_b_then_c_dfa)
                (snd Samples.a_or_b_then_c_dfa) = Ok _) by reflexivity.
  destruct (minimised_dfa_accepts_the_rule 20 Samples.a_or_b_then_c
              (fst Samples.a_or_b_then_c_dfa) (snd Samples.a_or_b_then_c_dfa)
              _ _ eq_refl E) as (start & E0 & L).
  exists start. split; [exact E|]. split; [exact E0 | exact L].
Defined.

(** ** First-set analyser: what the computed table holds *)

Lemma first_complete_wf (dfas : rule_table) (f : dict string first_slot) :
  first_complete dfas f -> first_wf f.
Proof. intros C k fs G. destruct (C k fs G) as (items & _ & ND & _). exact ND. Qed.

Lemma contribution_ext (dfas : rule_table) (f f' : dict string first_slot)
    (label : string) :
  (dict_mem label dfas = true ->
   exists fset, dict_get label f = Some (Some fset)) ->
  (forall k v, dict_get k f = Some (Some v) -> dict_get k f' = Some (Some v)) ->
  contribution dfas f' label = contribution dfas f label.
Proof.
  intros R Ext. unfold contribution.
  destruct (dict_mem label dfas); [|reflexivity].
  destruct (R eq_refl) as (fset & G). now rewrite G, (Ext _ _ G).
Qed.

(** A first set stays one when the table gets more entries. *)
Lemma solved_ext (dfas : rule_table) (f f' : dict string first_slot)
    (name : string) (fs : pyset string) :
  solved dfas f name fs ->
  (forall k v, dict_get k f = Some (Some v) -> dict_get k f' = Some (Some v)) ->
  solved dfas f' name fs.
Proof.
  intros (items & Es & ND & Refs & Eq & Dis & Term & Snd & Gr) Ext.
  assert (Ec : forall label, In label (dict_keys items) ->
                             contribution dfas f' label =
                             contribution dfas f label).
  { intros label I. apply contribution_ext; auto. }
  exists items. split; [exact Es|]. split; [exact ND|].
  split; [|split; [|split; [|split; [|split]]]].
  - intros label I M. destruct (Refs label I M) as (fset & G). eauto.
  - intros s. rewrite Eq. split; intros (label & I & Is); exists label;
      (split; [exact I|]); [rewrite Ec | rewrite <- Ec]; assumption.
  - intros l1 l2 s I1 I2. rewrite !Ec by assumption. now apply Dis.
  - exact Term.
  - exact Snd.
  - exact Gr.
Qed.

Lemma contribution_NoDup (dfas : rule_table) (f : dict string first_slot)
    (label : string) :
  first_wf f -> NoDup (contribution dfas f label).
Proof.
  intros W. unfold contribution. destruct (dict_mem label dfas).
  - destruct (dict_get label f) as [[fset|]|] eqn:G; [eauto | |]; constructor.
  - repeat constructor. intros [].
Qed.

(** The loop over the arcs of a start state: the referenced rules get their
    first sets, and [totalset] collects what the arcs contribute. *)
Lemma calcfirst_arcs_solves
    (rec : string -> dict string first_slot -> result (dict string first_slot))
    (dfas : rule_table) (name : string) :
  solving_call dfas rec ->
  forall items f t oc f' t' oc',
    calcfirst_arcs rec dfas name items f t oc = Ok (f', t', oc') ->
    first_complete dfas f ->
    first_complete dfas f' /\
    (forall k v, dict_get k f = Some v -> dict_get k f' = Some v) /\
    (forall label,
        In label (dict_keys items) -> dict_mem label dfas = true ->
        exists fset, dict_get label f' = Some (Some fset)) /\
    (forall s,
        In s t' <->
        In s t \/ exists label, In label (dict_keys items) /\
                                In s (contribution dfas f' label)) /\
    (forall k, dict_get k f' = Some None -> dict_get k f = Some None).
Proof.
  intros Hrec.
  induction items as [|[label next] items IH]; intros f t oc f' t' oc' E C.
  - simpl in E. inv_ok E. split; [exact C|]. split; [auto|].
    split; [intros label []|]. split; [|auto].
    intros s. split; [auto|]. intros [I|(label & [] & _)]. exact I.
  - destruct (dict_mem label dfas) eqn:M.
    + apply calcfirst_arcs_cons in E; [|exact M].
      destruct E as (f1 & fset & G1 & Hf & E).
      assert (X : first_complete dfas f1 /\
                  (forall k v, dict_get k f = Some v -> dict_get k f1 = Some v) /\
                  (forall k, dict_get k f1 = Some None ->
                             dict_get k f = Some None)).
      { destruct Hf as [[_ ->]|[G R]]; [auto|].
        destruct (Hrec label f f1 R G C) as (C1 & Ext1 & _ & D1). auto. }
      destruct X as (C1 & Ext1 & D1).
      destruct (IH _ _ _ _ _ _ E C1) as (C' & Ext' & Refs' & Tot' & D').
      split; [exact C'|]. split; [auto|]. split; [|split; [|auto]].
      * intros l [<-|I] Ml; [eauto | auto].
      * assert (Ec : contribution dfas f' label = fset).
        { unfold contribution. now rewrite M, (Ext' _ _ G1). }
        intros s. rewrite Tot', set_update_In. split.
        -- intros [[I|I]|(l & I & Is)]; [now left | |].
           ++ right. exists label. split; [now left | now rewrite Ec].
           ++ right. exists l. split; [now right | exact Is].
        -- intros [I|(l & [<-|I] & Is)]; [auto | |].
           ++ simpl in Is. rewrite Ec in Is. auto.
           ++ right. eauto.
    + simpl in E. rewrite M in E.
      destruct (IH _ _ _ _ _ _ E C) as (C' & Ext' & Refs' & Tot' & D').
      split; [exact C'|]. split; [exact Ext'|]. split; [|split; [|exact D']].
      * intros l [<-|I] Ml; [simpl in Ml; congruence | auto].
      * assert (Ec : contribution dfas f' label = [label]).
        { unfold contribution. now rewrite M. }
        intros s. rewrite Tot', set_add_In. split.
        -- intros [[->|I]|(l & I & Is)]; [|now left|].
           ++ right. exists label. split; [now left|]. rewrite Ec. now left.
           ++ right. exists l. split; [now right | exact Is].
        -- intros [I|(l & [<-|I] & Is)]; [auto | |].
           ++ simpl in Is. rewrite Ec in Is. destruct Is as [<-|[]]. auto.
           ++ right. eauto.
Qed.

Lemma start_arcs_Some (dfas : rule_table) (name : string) (h : heap)
    (dfa : list ref) (r : ref) (state : DFAState) :
  dict_get name dfas = Some (h, dfa) -> nth_error dfa 0 = Some r ->
  nth_error h r = Some state ->
  start_arcs dfas name = Some (arcs state).
Proof. intros E1 E2 E3. unfold start_arcs. now rewrite E1, E2, E3. Qed.

Lemma start_arcs_NoDup (dfas : rule_table) (name : string)
    (items : dict string ref) :
  table_wf dfas -> start_arcs dfas name = Some items ->
  NoDup (dict_keys items).
Proof.
  unfold table_wf, start_arcs. rewrite Forall_forall. intros W E.
  destruct (dict_get name dfas) as [[h dfa]|] eqn:G; [|discriminate].
  destruct (nth_error dfa 0) as [r|]; [|discriminate].
  destruct (nth_error h r) as [state|] eqn:Es; [|discriminate].
  inv_ok E. apply dict_get_In, W in G. simpl in G.
  unfold wf_arcs in G. rewrite Forall_forall in G.
  apply G. eapply nth_error_In; eauto.
Qed.

Lemma start_arcs_mem (dfas : rule_table) (name : string)
    (items : dict string ref) :
  start_arcs dfas name = Some items -> dict_mem name dfas = true.
Proof.
  unfold start_arcs, dict_mem.
  destruct (dict_get name dfas); [reflexivity | discriminate].
Qed.

(** [_calcfirst] is such a call. *)
Lemma calcfirst_solves (dfas : rule_table) (fuel : nat) :
  table_wf dfas -> solving_call dfas (_calcfirst fuel dfas).
Proof.
  intros Wt.
  induction fuel as [|fuel IH]; intros name f f' E G C; [discriminate|].
  rewrite calcfirst_S in E.
  inv_bind E. destruct x as [h dfa]. inv_bind E. rename x into r.
  inv_bind E. rename x into state.
  inv_bind E. destruct x as [[f1 totalset] oc]. inv_bind E. inv_ok E.
  destruct (dict_get name dfas) as [[h' dfa']|] eqn:Ed; simpl in E0;
    [inv_ok E0 | discriminate].
  destruct (nth_error dfa 0) as [r'|] eqn:Er; simpl in E1;
    [inv_ok E1 | discriminate].
  apply deref_Ok in E2.
  pose proof (start_arcs_Some _ _ _ _ _ _ Ed Er E2) as Es.
  pose proof (start_arcs_NoDup _ _ _ Wt Es) as NDk.
  set (f0 := dict_set name None f) in *.
  assert (Ext0 : forall k v, dict_get k f = Some v -> dict_get k f0 = Some v).
  { intros k v Gk. unfold f0. rewrite dict_get_set_other; [exact Gk|].
    intros ->. congruence. }
  assert (C0 : first_complete dfas f0).
  { intros k fs Gk. unfold f0 in Gk.
    destruct (String.eqb_spec k name) as [->|Ne].
    - rewrite dict_get_set_same in Gk. discriminate.
    - rewrite dict_get_set_other in Gk by exact Ne.
      eapply solved_ext; [apply C; exact Gk|]. intros k' v'. apply Ext0. }
  pose proof (first_complete_wf _ _ C0) as W0.
  pose proof (calcfirst_arcs_overlapcheck _ dfas name (calcfirst_stable dfas fuel)
                _ _ _ _ _ _ _ E3 W0 (NoDup_nil _) NDk (fun l _ => eq_refl))
    as Eoc.
  simpl in Eoc. subst oc.
  set (oc := map (fun item : string * ref =>
                    (fst item, contribution dfas f1 (fst item)))
                 (arcs state)) in *.
  pose proof (calcfirst_arcs_stable _ dfas name (calcfirst_stable dfas fuel)
                _ _ _ _ _ _ _ E3 W0 (NoDup_nil _)) as (W1 & NDt & _).
  destruct (calcfirst_arcs_solves _ dfas name IH _ _ _ _ _ _ _ E3 C0)
    as (C1 & Ext1 & Refs1 & Tot1 & D1).
  assert (Gn : dict_get name f1 = Some None).
  { apply Ext1. unfold f0. apply dict_get_set_same. }
  set (f2 := dict_set name (Some totalset) f1).
  assert (Ext2 : forall k v, dict_get k f1 = Some (Some v) ->
                             dict_get k f2 = Some (Some v)).
  { intros k v Gk. unfold f2. rewrite dict_get_set_other; [exact Gk|].
    intros ->. congruence. }
  assert (Ec : forall label, In label (dict_keys (arcs state)) ->
                             contribution dfas f2 label =
                             contribution dfas f1 label).
  { intros label I. apply contribution_ext; auto. }
  pose proof (check_overlap_spec name oc []) as Ov.
  rewrite E4 in Ov.
  destruct Ov as (_ & Dis).
  { intros l fs I. apply in_map_iff in I.
    destruct I as (item & Ei & _). inv_ok Ei. now apply contribution_NoDup. }
  split; [|split; [|split]].
  - intros k fs Gk. fold f2 in Gk.
    destruct (String.eqb_spec k name) as [->|Ne].
    + unfold f2 in Gk. rewrite dict_get_set_same in Gk. inv_ok Gk.
      exists (arcs state). split; [exact Es|]. split; [exact NDt|].
      split; [|split; [|split; [|split; [|split]]]].
      * intros label I M. destruct (Refs1 label I M) as (fset & Gl). eauto.
      * intros s. rewrite Tot1. split.
        -- intros [[]|(label & I & Is)]. exists label.
           split; [exact I | now rewrite Ec].
        -- intros (label & I & Is). right. exists label.
           split; [exact I | now rewrite <- Ec].
      * intros l1 l2 s I1 I2. rewrite !Ec by assumption. intros S1 S2.
        unfold dict_keys in I1, I2.
        apply In_nth_error in I1, I2.
        destruct I1 as (i & Ei), I2 as (j & Ej).
        rewrite nth_error_map in Ei, Ej.
        destruct (nth_error (arcs state) i) as [a1|] eqn:Ai; [|discriminate].
        destruct (nth_error (arcs state) j) as [a2|] eqn:Aj; [|discriminate].
        simpl in Ei, Ej. inv_ok Ei. inv_ok Ej.
        assert (Oi : nth_error oc i =
                     Some (fst a1, contribution dfas f1 (fst a1))).
        { unfold oc. rewrite nth_error_map, Ai. reflexivity. }
        assert (Oj : nth_error oc j =
                     Some (fst a2, contribution dfas f1 (fst a2))).
        { unfold oc. rewrite nth_error_map, Aj. reflexivity. }
        destruct (Nat.lt_trichotomy i j) as [Lt|[->|Lt]].
        -- destruct (Dis _ _ _ _ _ _ s Lt Oi Oj S1 S2).
        -- congruence.
        -- destruct (Dis _ _ _ _ _ _ s Lt Oj Oi S2 S1).
      * intros s Is. apply Tot1 in Is. destruct Is as [[]|(label & I & Is)].
        unfold contribution in Is. destruct (dict_mem label dfas) eqn:M.
        -- destruct (Refs1 label I M) as (fset & Gl). rewrite Gl in Is.
           destruct (C1 _ _ Gl) as (items' & _ & _ & _ & _ & _ & Term & _).
           now apply Term.
        -- destruct Is as [<-|[]]. exact M.
      * intros s Is. apply Tot1 in Is. destruct Is as [[]|(label & I & Is)].
        unfold contribution in Is. destruct (dict_mem label dfas) eqn:M.
        -- destruct (Refs1 label I M) as (fset & Gl). rewrite Gl in Is.
           destruct (C1 _ _ Gl) as (items' & _ & _ & _ & _ & _ & _ & Snd & _).
           apply (first_rule dfas name label s); [|now apply Snd].
           exists (arcs state). split; [exact Es|]. split; [exact I | exact M].
        -- destruct Is as [<-|[]]. eapply first_terminal; eauto.
      * constructor. intros label (items' & Es' & I & M).
        assert (items' = arcs state) by congruence. subst items'.
        destruct (Refs1 label I M) as (fset & Gl).
        now destruct (C1 _ _ Gl) as (items' & _ & _ & _ & _ & _ & _ & _ & Gr).
    + unfold f2 in Gk. rewrite dict_get_set_other in Gk by exact Ne.
      eapply solved_ext; [apply C1; exact Gk | exact Ext2].
  - intros k v Gk. fold f2.
    assert (Ne : k <> name) by (intros ->; congruence).
    unfold f2. rewrite dict_get_set_other by exact Ne. auto.
  - exists totalset. apply dict_get_set_same.
  - intros k Gk. fold f2 in Gk.
    destruct (String.eqb_spec k name) as [->|Ne].
    + unfold f2 in Gk. rewrite dict_get_set_same in Gk. discriminate.
    + unfold f2 in Gk. rewrite dict_get_set_other in Gk by exact Ne.
      apply D1 in Gk. unfold f0 in Gk.
      now rewrite dict_get_set_other in Gk by exact Ne.
Qed.

(** The loop of [_addfirstsets]: afterwards the rules it went through have
    their first sets. *)
Lemma addfirstsets_loop_solves (fuel : nat) (dfas : rule_table)
    (names : list string) :
  table_wf dfas ->
  forall f f',
    addfirstsets_loop fuel dfas names f = Ok f' ->
    first_complete dfas f ->
    (forall k, dict_get k f <> Some None) ->
    first_complete dfas f' /\
    (forall k, dict_get k f' <> Some None) /\
    (forall k v, dict_get k f = Some v -> dict_get k f' = Some v) /\
    (forall name, In name names -> exists fs, dict_get name f' = Some (Some fs)).
Proof.
  intros Wt.
  induction names as [|name names IH]; intros f f' E C D; simpl in E.
  - inv_ok E. split; [exact C|]. split; [exact D|]. split; [auto|].
    intros name [].
  - destruct (dict_mem name f) eqn:M.
    + destruct (IH _ _ E C D) as (C' & D' & Ext' & All').
      split; [exact C'|]. split; [exact D'|]. split; [exact Ext'|].
      intros n [<-|I]; [|auto].
      unfold dict_mem in M. destruct (dict_get name f) as [[fs|]|] eqn:G;
        [|destruct (D name G)|discriminate].
      exists fs. auto.
    + inv_bind E. rename x into f1.
      destruct (calcfirst_solves dfas fuel Wt name f f1 E0
                  (dict_mem_get_None _ _ M) C) as (C1 & Ext1 & (fs & G1) & D1).
      assert (D1' : forall k, dict_get k f1 <> Some None).
      { intros k Gk. apply D1 in Gk. now apply D in Gk. }
      destruct (IH _ _ E C1 D1') as (C' & D' & Ext' & All').
      split; [exact C'|]. split; [exact D'|]. split; [auto|].
      intros n [<-|I]; [eauto | auto].
Qed.

(** The table of [_addfirstsets]: a first set for every rule, and for the
    rules alone. *)
Lemma addfirstsets_solves (dfas : rule_table) (first : dict string first_slot) :
  table_wf dfas ->
  _addfirstsets dfas [] = Ok first ->
  first_complete dfas first /\
  (forall name, dict_mem name dfas = true <->
                exists fs, dict_get name first = Some (Some fs)) /\
  (forall name, dict_get name first <> Some None).
Proof.
  intros Wt E. unfold _addfirstsets in E.
  destruct (addfirstsets_loop_solves _ _ _ Wt _ _ E) as (C & D & _ & All).
  { intros k fs G. discriminate. }
  { intros k G. discriminate. }
  split; [exact C|]. split; [|exact D].
  intros name. split.
  - intros M. apply All. apply dict_mem_In in M.
    eapply Permutation_in; [apply Permutation_sym, sort_perm | exact M].
  - intros (fs & G). destruct (C _ _ G) as (items & Es & _).
    eapply start_arcs_mem; eauto.
Qed.

Lemma refers_mem (dfas : rule_table) (name label : string) :
  refers dfas name label ->
  dict_mem name dfas = true /\ dict_mem label dfas = true.
Proof.
  intros (items & Es & _ & M). split; [eapply start_arcs_mem; eauto | exact M].
Qed.

(** In a complete table, the first set of a rule has all first symbols of
    the rule. *)
Lemma first_of_complete (dfas : rule_table) (f : dict string first_slot)
    (name s : string) :
  first_complete dfas f ->
  (forall n, dict_mem n dfas = true ->
             exists fs, dict_get n f = Some (Some fs)) ->
  first_of dfas name s ->
  forall fs, dict_get name f = Some (Some fs) -> In s fs.
Proof.
  intros C All F.
  induction F as [name items label Es I M|name label s (items & Es & I & M) F IH];
    intros fs G;
    destruct (C _ _ G) as (items' & Es' & _ & _ & Eq & _);
    assert (items' = items) by congruence; subst items';
    apply Eq; exists label; (split; [exact I|]); unfold contribution; rewrite M.
  - now left.
  - destruct (All label M) as (fset & Gl). rewrite Gl. now apply IH.
Qed.

Lemma arc_first_contribution (dfas : rule_table) (f : dict string first_slot)
    (label s : string) :
  first_complete dfas f ->
  (dict_mem label dfas = true ->
   exists fs, dict_get label f = Some (Some fs)) ->
  In s (contribution dfas f label) -> arc_first dfas label s.
Proof.
  intros C R. unfold contribution, arc_first.
  destruct (dict_mem label dfas).
  - destruct (R eq_refl) as (fs & G). rewrite G. intros I.
    destruct (C _ _ G) as (items & _ & _ & _ & _ & _ & _ & Snd & _). now apply Snd.
  - intros [<-|[]]. reflexivity.
Qed.

(** A rule without an endless chain of references does not come back to
    itself. *)
Lemma Acc_no_cycle (dfas : rule_table) (name : string) :
  Acc (referred_by dfas) name -> ~ clos_trans string (refers dfas) name name.
Proof.
  induction 1 as [name _ IH]. intros T.
  apply clos_trans_t1n in T.
  inversion T as [y R|y z R T']; subst.
  - apply (IH name R). now apply t_step.
  - apply (IH y R). apply clos_t1n_trans in T'.
    eapply t_trans; [exact T' | now apply t_step].
Qed.

(** X5.  The first sets that [_addfirstsets] computes are the first sets of
    the rules.  On a rule table whose arc maps have distinct labels: when
    [_addfirstsets] returns, the table [_first] has an entry for every rule
    and for nothing else, and no entry is the dummy any more.  The first set
    of a rule has no repeated symbol, and it holds exactly the first symbols
    of the rule: the terminals on the arcs of its start state and,
    for the rules named on these arcs, their first symbols in turn. *)
Theorem addfirstsets_computes_first_sets (rules : rule_table)
    (first : dict string first_slot) :
  table_wf rules ->
  _addfirstsets rules [] = Ok first ->
  (forall name, dict_mem name rules = true <->
                exists fs, dict_get name first = Some (Some fs)) /\
  (forall name, dict_get name first <> Some None) /\
  forall name fs,
    dict_get name first = Some (Some fs) ->
    NoDup fs /\
    (forall s, In s fs <-> first_of rules name s) /\
    (forall s, In s fs -> dict_mem s rules = false).
Proof.
  intros Wt E. destruct (addfirstsets_solves _ _ Wt E) as (C & K & D).
  split; [exact K|]. split; [exact D|].
  intros name fs G.
  destruct (C _ _ G) as (items & Es & ND & _ & _ & _ & T & Snd & _).
  split; [exact ND|]. split; [|exact T].
  intros s. split; [apply Snd|].
  intros F. eapply first_of_complete; eauto. intros n. apply K.
Qed.

Lemma addfirstsets_computes_first_sets_witness :
  NoDup ["'x'"] /\
  (forall s, In s ["'x'"] <-> first_of Samples.b_then_a_rules "a" s) /\
  (forall s, In s ["'x'"] -> dict_mem s Samples.b_then_a_rules = false).
Proof.
  refine (proj2 (proj2 (addfirstsets_computes_first_sets
                          Samples.b_then_a_rules
                          [("a", Some ["'x'"]); ("b", Some ["'x'"])] _ _))
            "a" ["'x'"] eq_refl).
  - repeat constructor; simpl; intuition discriminate.
  - reflexivity.
Defined.

(** X6.  A grammar that gets through the first-set analysis has no left
    recursion: when [_addfirstsets] returns, no rule comes back to itself
    along references at the start of rules, where a rule refers to the
    rules that label the arcs of its start state. *)
Theorem addfirstsets_passes_no_left_recursion (rules : rule_table)
    (first : dict string first_slot) (name : string) :
  table_wf rules ->
  _addfirstsets rules [] = Ok first ->
  ~ clos_trans string (refers rules) name name.
Proof.
  intros Wt E T. destruct (addfirstsets_solves _ _ Wt E) as (C & K & _).
  assert (M : dict_mem name rules = true).
  { apply clos_trans_t1n in T. inversion T as [y R|y z R T']; subst;
      now apply refers_mem in R. }
  destruct (proj1 (K name) M) as (fs & G).
  destruct (C _ _ G) as (items & _ & _ & _ & _ & _ & _ & _ & Gr).
  exact (Acc_no_cycle _ _ Gr T).
Qed.

Lemma addfirstsets_passes_no_left_recursion_witness :
  ~ clos_trans string (refers Samples.b_then_a_rules) "a" "a".
Proof.
  apply (addfirstsets_passes_no_left_recursion Samples.b_then_a_rules
           [("a", Some ["'x'"]); ("b", Some ["'x'"])] "a").
  - repeat constructor; simpl; intuition discriminate.
  - reflexivity.
Defined.

(** X7.  A grammar that gets through the first-set analysis is unambiguous
    at the start of every rule: when [_addfirstsets] returns, no two
    different arcs of the start state of a rule have a first symbol in
    common, the first symbols of an arc being its label if that is a
    terminal, and the first symbols of the rule it names otherwise. *)
Theorem addfirstsets_start_arcs_disjoint (rules : rule_table)
    (first : dict string first_slot) (name : string)
    (items : dict string ref) (l1 l2 : string) :
  table_wf rules ->
  _addfirstsets rules [] = Ok first ->
  start_arcs rules name = Some items ->
  In l1 (dict_keys items) -> In l2 (dict_keys items) -> l1 <> l2 ->
  forall s, ~ (arc_first rules l1 s /\ arc_first rules l2 s).
Proof.
  intros Wt E Es I1 I2 Ne s (S1 & S2). apply Ne.
  destruct (addfirstsets_solves _ _ Wt E) as (C & K & D).
  destruct (proj1 (K name) (start_arcs_mem _ _ _ Es)) as (fs & G).
  destruct (C _ _ G) as (items' & Es' & _ & _ & _ & Dis & _).
  assert (items' = items) by congruence. subst items'.
  assert (X : forall l, arc_first rules l s ->
                        In s (contribution rules first l)).
  { intros l. unfold arc_first, contribution.
    destruct (dict_mem l rules) eqn:M.
    - destruct (proj1 (K l) M) as (fl & Gl). rewrite Gl. intros F.
      eapply first_of_complete; eauto. intros n. apply K.
    - intros ->. now left. }
  eapply Dis; eauto.
Qed.

Lemma addfirstsets_start_arcs_disjoint_witness :
  ~ exists s,
      arc_first
        (Samples.rules_of
           [Samples.a_is_b_or_c; Samples.is_x "b";
            Samples.fragment "c" [ [(Some "'y'", 1)]; [] ] 0 1]) "b" s /\
      arc_first
        (Samples.rules_of
           [Samples.a_is_b_or_c; Samples.is_x "b";
            Samples.fragment "c" [ [(Some "'y'", 1)]; [] ] 0 1]) "c" s.
Proof.
  intros (s & H). revert H.
  refine (addfirstsets_start_arcs_disjoint
            (Samples.rules_of
               [Samples.a_is_b_or_c; Samples.is_x "b";
                Samples.fragment "c" [ [(Some "'y'", 1)]; [] ] 0 1])
            _ "a" _ "b" "c" _ _ _ _ _ _ s).
  - vm_compute. repeat constructor; simpl; intuition discriminate.
  - vm_compute. reflexivity.
  - vm_compute. reflexivity.
  - vm_compute. auto.
  - vm_compute. auto.
  - discriminate.
Defined.

(** ** State minimiser: fixed points *)

(** The last pass of the loop found nothing to merge. *)
Lemma simplify_loop_final (fuel : nat) :
  forall h dfas h' dfas',
    simplify_loop fuel h dfas = Ok (h', dfas') ->
    simplify_pass (List.length dfas') h' dfas' 0 false = Ok (h', dfas', false).
Proof.
  induction fuel as [|fuel IH]; intros h dfas0 h' dfas' E; simpl in E.
  - discriminate.
  - inv_bind E. destruct x as [[h1 dfas1] changes]. destruct changes.
    + eauto.
    + inv_ok E. destruct (simplify_pass_unchanged _ _ _ _ _ _ _ E0)
        as (_ & -> & -> & _).
      exact E0.
Qed.

Lemma first_equal_none (h : heap) (state_i : ref) (tail : list ref) :
  forall j0,
    (forall a, In a tail -> DFAState_eq h state_i a = Ok false) ->
    first_equal h state_i tail j0 = Ok None.
Proof.
  induction tail as [|a tail IH]; intros j0 F; simpl; [reflexivity|].
  rewrite (F a (or_introl eq_refl)). simpl. apply IH.
  intros b I. apply F. now right.
Qed.

(** A pass over a list without equal states changes nothing. *)
Lemma simplify_pass_irredundant (n : nat) :
  forall h dfas i,
    irredundant h dfas ->
    simplify_pass n h dfas i false = Ok (h, dfas, false).
Proof.
  induction n as [|n IH]; intros h dfas0 i Irr; [reflexivity|].
  rewrite simplify_pass_S.
  destruct (nth_error dfas0 i) as [state_i|] eqn:Ei; [|reflexivity].
  rewrite (first_equal_none h state_i (skipn (S i) dfas0) (S i)).
  - simpl. now apply IH.
  - intros a I. apply In_nth_error in I. destruct I as (k & Ek).
    rewrite nth_error_skipn in Ek.
    apply (Irr i (S i + k) state_i a); [lia | exact Ei | exact Ek].
Qed.

(** X8.  [_simplify_dfas] merges only states that are equal: a list in
    which no state equals a later one under [DFAState.__eq__] is returned as
    it is, with every object unchanged; so are the empty list and a list
    of one state. *)
Theorem simplify_dfas_keeps_distinct_states (h : heap) (dfas : list ref) :
  irredundant h dfas -> _simplify_dfas h dfas = Ok (h, dfas).
Proof.
  intros Irr. unfold _simplify_dfas. cbn [simplify_loop].
  now rewrite simplify_pass_irredundant.
Qed.

Lemma simplify_dfas_keeps_distinct_states_witness :
  _simplify_dfas (fst Samples.a_or_b_then_c_dfa) [0; 1; 3]
  = Ok (fst Samples.a_or_b_then_c_dfa, [0; 1; 3]).
Proof.
  apply (simplify_dfas_keeps_distinct_states
           (fst Samples.a_or_b_then_c_dfa) [0; 1; 3]).
  intros i j a b L Ei Ej.
  destruct i as [|[|[|i]]]; simpl in Ei; [| | |destruct i; discriminate];
    inv_ok Ei;
    (destruct j as [|[|[|j]]]; simpl in Ej; [| | |destruct j; discriminate];
     try lia; inv_ok Ej; reflexivity).
Defined.

(** X9.  [_simplify_dfas] is idempotent: run on its own result, it returns
    this result, the list and every object unchanged. *)
Theorem simplify_dfas_idempotent (h : heap) (dfas : list ref) (h' : heap)
    (dfas' : list ref) :
  _simplify_dfas h dfas = Ok (h', dfas') ->
  _simplify_dfas h' dfas' = Ok (h', dfas').
Proof.
  intros E. apply simplify_loop_final in E.
  unfold _simplify_dfas. cbn [simplify_loop]. now rewrite E.
Qed.

Lemma simplify_dfas_idempotent_witness :
  exists h' dfas',
    _simplify_dfas (fst Samples.a_or_b_then_c_dfa)
      (snd Samples.a_or_b_then_c_dfa) = Ok (h', dfas') /\
    _simplify_dfas h' dfas' = Ok (h', dfas').
Proof.
  eexists. eexists.
  assert (E : _simplify_dfas (fst Samples.a_or_b_then_c_dfa)
                (snd Samples.a_or_b_then_c_dfa) = Ok _) by reflexivity.
  split; [exact E|].
  exact (simplify_dfas_idempotent _ _ _ _ E).
Defined.

(** ** [DFAState.__eq__] *)

Lemma eq_states_refl (a : DFAState) :
  NoDup (dict_keys (arcs a)) -> eq_states a a = true.
Proof.
  intros N. apply eq_states_true. split; [reflexivity|]. split; [reflexivity|].
  intros label next I. now apply In_dict_get.
Qed.

Lemma eq_states_trans (a b c : DFAState) :
  NoDup (dict_keys (arcs a)) -> NoDup (dict_keys (arcs b)) ->
  NoDup (dict_keys (arcs c)) ->
  eq_states a b = true -> eq_states b c = true -> eq_states a c = true.
Proof.
  intros Na Nb Nc Eab Ebc.
  pose proof (fun label => eq_states_get a b label Na Nb Eab) as Gab.
  pose proof (fun label => eq_states_get b c label Nb Nc Ebc) as Gbc.
  apply eq_states_true in Eab. apply eq_states_true in Ebc.
  destruct Eab as (F1 & L1 & _), Ebc as (F2 & L2 & _).
  apply eq_states_true. split; [congruence|]. split; [congruence|].
  intros label next I. apply (In_dict_get _ _ _ Na) in I.
  rewrite <- (proj2 (Gbc label)), <- (proj2 (Gab label)). exact I.
Qed.

(** X10.  [DFAState.__eq__] is an equivalence on states: every state equals
    itself, [a == b] and [b == a] have the same answer, and two states that
    equal a third equal each other. *)
Theorem DFAState_eq_is_an_equivalence (a b c : DFAState) :
  NoDup (dict_keys (arcs a)) -> NoDup (dict_keys (arcs b)) ->
  NoDup (dict_keys (arcs c)) ->
  eq_states a a = true /\
  eq_states a b = eq_states b a /\
  (eq_states a b = true -> eq_states b c = true -> eq_states a c = true).
Proof.
  intros Na Nb Nc. split; [now apply eq_states_refl|]. split.
  - destruct (eq_states a b) eqn:Eab; destruct (eq_states b a) eqn:Eba;
      try reflexivity.
    + apply eq_states_sym in Eab; [congruence | exact Na | exact Nb].
    + apply eq_states_sym in Eba; [congruence | exact Nb | exact Na].
  - now apply eq_states_trans.
Qed.

Lemma DFAState_eq_is_an_equivalence_witness :
  eq_states {| nfaset := [1; 5; 6]; isfinal := false; arcs := [("'c'", 3)] |}
            {| nfaset := [3; 5; 6]; isfinal := false; arcs := [("'c'", 3)] |}
  = eq_states
      {| nfaset := [3; 5; 6]; isfinal := false; arcs := [("'c'", 3)] |}
      {| nfaset := [1; 5; 6]; isfinal := false; arcs := [("'c'", 3)] |}.
Proof.
  refine (proj1 (proj2 (DFAState_eq_is_an_equivalence
                          {| nfaset := [1; 5; 6]; isfinal := false;
                             arcs := [("'c'", 3)] |}
                          {| nfaset := [3; 5; 6]; isfinal := false;
                             arcs := [("'c'", 3)] |}
                          {| nfaset := [7]; isfinal := true; arcs := [] |}
                          _ _ _)));
    repeat constructor; simpl; intuition discriminate.
Defined.

(** ** Positions in the minimised list *)

Lemma index_from_position (h : heap) (x : ref) :
  forall dfa k0 k,
    nth_error dfa k = Some x ->
    (forall m e, m < k -> nth_error dfa m = Some e ->
                 e <> x /\ DFAState_eq h e x = Ok false) ->
    index_from h dfa x k0 = Ok (k0 + k).
Proof.
  induction dfa as [|e dfa IH]; intros k0 [|k] E F; simpl in E; try discriminate.
  - inv_ok E. simpl. rewrite Nat.eqb_refl. f_equal. lia.
  - simpl. destruct (F 0 e) as (Ne & Eq); [lia | reflexivity |].
    destruct (Nat.eqb_spec e x) as [|_]; [contradiction|].
    rewrite Eq. simpl. rewrite (IH (S k0) k E).
    + f_equal. lia.
    + intros m e' L Em. apply (F (S m) e'); [lia | exact Em].
Qed.

Lemma index_from_ge (h : heap) (x : ref) :
  forall dfa k0 k, index_from h dfa x k0 = Ok k ->
                   k0 <= k < k0 + List.length dfa.
Proof.
  induction dfa as [|e dfa IH]; intros k0 k E; simpl in E; [discriminate|].
  destruct (e =? x); [inv_ok E; simpl; lia|].
  inv_bind E. destruct x0; [inv_ok E; simpl; lia|].
  apply IH in E. simpl. lia.
Qed.

(** X11.  [dfa.index(state)] in the minimised list.  [list.index] compares with
    [==], which is [DFAState.__eq__]; since no state of the list that
    [_simplify_dfas] leaves equals another one, the index of a state of the
    list is the position of this very object.  An index that [index]
    returns is always a position of the list. *)
Theorem index_is_position_after_simplify (h : heap) (dfas : list ref)
    (h' : heap) (dfas' : list ref) :
  valid h dfas -> NoDup dfas ->
  _simplify_dfas h dfas = Ok (h', dfas') ->
  (forall k x, nth_error dfas' k = Some x -> index h' dfas' x = Ok k) /\
  (forall x k, index h' dfas' x = Ok k -> k < List.length dfas').
Proof.
  intros V ND E. split.
  - intros k x Ek.
    pose proof (simplify_loop_irredundant _ _ _ _ _ E) as Irr.
    destruct (simplify_dfas_inv _ _ _ _ V ND E) as (_ & ND' & _).
    unfold index. rewrite (index_from_position h' x dfas' 0 k Ek); [reflexivity|].
    intros m e L Em. split.
    + intros ->. rewrite NoDup_nth_error in ND'.
      assert (m = k); [|lia].
      apply ND'; [eapply nth_error_Some_lt; eauto | congruence].
    + eapply Irr; eauto.
  - intros x k Ei. apply index_from_ge in Ei. lia.
Qed.

Lemma index_is_position_after_simplify_witness :
  exists h' dfas',
    _simplify_dfas (fst Samples.a_or_b_then_c_dfa)
      (snd Samples.a_or_b_then_c_dfa) = Ok (h', dfas') /\
    index h' dfas' 3 = Ok 2.
Proof.
  eexists. eexists.
  assert (E : _simplify_dfas (fst Samples.a_or_b_then_c_dfa)
                (snd Samples.a_or_b_then_c_dfa) = Ok _) by reflexivity.
  split; [exact E|].
  refine (proj1 (index_is_position_after_simplify _ _ _ _ _ _ E) 2 3 eq_refl).
  - repeat constructor.
  - repeat constructor; simpl; intuition discriminate.
Defined.

(** ** Label ids and the entries of [labels] *)

(** What one call of [_make_label] keeps, the loops of the assembler
    keep. *)
Lemma make_arcs_keeps (token_NAME : Z) (ns : TokenNamespace)
    (P : Grammar -> Prop) (h : heap) (dfa : list ref) :
  (forall g label i g',
      P g -> _make_label token_NAME ns g label = Ok (i, g') -> P g') ->
  forall items g arcs0 g',
    make_arcs token_NAME ns h dfa items g = Ok (arcs0, g') -> P g -> P g'.
Proof.
  intros Step. induction items as [|[label next] items IH];
    intros g arcs0 g' E Pg; simpl in E.
  - now inv_ok E.
  - inv_bind E. destruct x as [ilabel g1]. inv_bind E. inv_bind E.
    destruct x0 as [arcs1 g2]. inv_ok E. eauto.
Qed.

Lemma make_states_keeps (token_NAME : Z) (ns : TokenNamespace)
    (P : Grammar -> Prop) (h : heap) (dfa : list ref) :
  (forall g label i g',
      P g -> _make_label token_NAME ns g label = Ok (i, g') -> P g') ->
  forall todo g table g',
    make_states token_NAME ns h dfa todo g = Ok (table, g') -> P g -> P g'.
Proof.
  intros Step. induction todo as [|state todo IH];
    intros g table g' E Pg; simpl in E.
  - now inv_ok E.
  - inv_bind E. inv_bind E. destruct x0 as [arcs0 g1]. inv_bind E.
    inv_bind E. destruct x1 as [states0 g2]. inv_ok E.
    eapply IH; [exact E3|]. eapply make_arcs_keeps; eauto.
Qed.

Lemma make_first_loop_keeps (token_NAME : Z) (ns : TokenNamespace)
    (P : Grammar -> Prop) :
  (forall g label i g',
      P g -> _make_label token_NAME ns g label = Ok (i, g') -> P g') ->
  forall rawfirst g first0 first g',
    make_first_loop token_NAME ns g rawfirst first0 = Ok (first, g') ->
    P g -> P g'.
Proof.
  intros Step. induction rawfirst as [|label rawfirst IH];
    intros g first0 first g' E Pg; simpl in E.
  - now inv_ok E.
  - inv_bind E. destruct x as [ilabel g1]. eauto.
Qed.

Lemma assemble_keeps (token_NAME : Z) (ns : TokenNamespace)
    (P : Grammar -> Prop) (rules : rule_table)
    (_first : dict string first_slot) :
  (forall g label i g',
      P g -> _make_label token_NAME ns g label = Ok (i, g') -> P g') ->
  (forall g table number first, P g -> P (add_dfa g table number first)) ->
  forall names g gf,
    assemble token_NAME ns rules _first names g = Ok gf -> P g -> P gf.
Proof.
  intros Step Add. induction names as [|name names IH];
    intros g gf E Pg; simpl in E.
  - now inv_ok E.
  - inv_bind E. destruct x as [h dfa]. inv_bind E. destruct x as [table g1].
    inv_bind E. destruct x as [first g2]. inv_bind E.
    eapply IH; [exact E|]. apply Add.
    unfold _make_first in E2. inv_bind E2. inv_bind E2.
    eapply make_first_loop_keeps; [exact Step | exact E2 |].
    eapply make_states_keeps; eauto.
Qed.

Lemma classify_entry (token_NAME : Z) (ns : TokenNamespace) (g : Grammar)
    (label : string) (k : label_kind) (entry : Z * option string) :
  classify token_NAME ns g label = Ok (k, entry) ->
  entry_of token_NAME g k = Some entry.
Proof.
  unfold classify. destruct label as [|c rest]; [discriminate|].
  destruct (isalpha c).
  - destruct (dict_get (String c rest) (symbol2number g)) eqn:G.
    + intros E. inv_ok E. simpl. now rewrite G.
    + destruct (token_attr ns (String c rest)); intros E;
        [inv_ok E; reflexivity | discriminate].
  - destruct (negb (is_quote c)); [discriminate|].
    intros E. inv_bind E. destruct x as [|v value]; [discriminate|].
    destruct (isalpha v).
    + now inv_ok E.
    + inv_bind E. now inv_ok E.
Qed.

Lemma entry_of_frame (token_NAME : Z) (g g' : Grammar) (k : label_kind) :
  symbol2number g' = symbol2number g ->
  entry_of token_NAME g' k = entry_of token_NAME g k.
Proof. intros E. destruct k; simpl; now rewrite ?E. Qed.

Lemma make_label_labels_ok (token_NAME : Z) (ns : TokenNamespace)
    (g : Grammar) (label : string) (i : nat) (g' : Grammar) :
  labels_ok token_NAME g ->
  _make_label token_NAME ns g label = Ok (i, g') ->
  labels_ok token_NAME g'.
Proof.
  intros L E. apply make_label_spec in E.
  destruct E as (k & entry & C & [[_ ->]|(N & -> & ->)] & _); [exact L|].
  pose proof (assign_frame g k entry) as (S & _).
  intros k' i' E'. rewrite label_of_assign in E'.
  rewrite (entry_of_frame token_NAME g _ k' S), assign_labels.
  destruct (label_kind_eq_dec k k') as [<-|Ne].
  - inv_ok E'. exists entry. split; [eapply classify_entry; eauto|].
    now rewrite nth_error_app2, Nat.sub_diag by lia.
  - destruct (L _ _ E') as (entry' & Ee & En). exists entry'.
    split; [exact Ee|]. rewrite nth_error_app1; [exact En|].
    eapply nth_error_Some_lt; eauto.
Qed.

Lemma number_symbols_start (names : list string) :
  forall g,
    start (number_symbols names g) = start g /\
    symbol2label (number_symbols names g) = symbol2label g /\
    label2symbol (number_symbols names g) = label2symbol g.
Proof.
  induction names as [|name names IH]; intros g; [simpl; auto|].
  cbn [number_symbols].
  destruct (IH (set_symbol_number g name
                  (256 + Z.of_nat (List.length (symbol2number g)))%Z))
    as (A & B & C).
  now rewrite A, B, C.
Qed.

(** The grammar of [make_grammar]: the labels of the grammar it was given,
    followed by one entry for every kind of label, under the id of the
    kind. *)
Lemma make_grammar_labels_ok (token_NAME : Z) (ns : TokenNamespace)
    (rules : rule_table) (g gf : Grammar) :
  labels_ok token_NAME g -> symbol2label g = [] ->
  make_grammar token_NAME ns rules g = Ok gf ->
  labels_ok token_NAME gf.
Proof.
  intros L S E. unfold make_grammar in E. inv_bind E.
  eapply (assemble_keeps token_NAME ns (labels_ok token_NAME)); [| |exact E|].
  - intros g0 label i g' P0 E'. eapply make_label_labels_ok; eauto.
  - intros g0 table number first P0 k i. apply (P0 k i).
  - destruct (number_symbols_frame (sort (dict_keys rules)) g)
      as (L0 & K0 & _).
    destruct (number_symbols_start (sort (dict_keys rules)) g) as (_ & S0 & _).
    intros k i Ek. rewrite L0. rewrite K0 in Ek.
    destruct k as [name|itoken|value]; simpl in *.
    + rewrite S in Ek. discriminate.
    + exact (L (TokenClass itoken) i Ek).
    + exact (L (Keyword value) i Ek).
Qed.

(** X12.  The entries of [labels].  [make_grammar], given a grammar in which
    no rule has a label id yet and whose ids index the right entries (a new
    grammar is one), returns a grammar in which the id of every label
    indexes the entry of [labels] that describes the label: the number of
    the rule and [None] for a rule name, the terminal class and [None] for
    a named token or an operator, [token.NAME] and the text for a
    keyword. *)
Theorem label_ids_index_their_entries (token_NAME : Z) (ns : TokenNamespace)
    (rules : rule_table) (g gf : Grammar) :
  labels_ok token_NAME g -> symbol2label g = [] ->
  make_grammar token_NAME ns rules g = Ok gf ->
  forall label i,
    known token_NAME ns gf label i ->
    exists k entry,
      classify token_NAME ns gf label = Ok (k, entry) /\
      nth_error (labels gf) i = Some entry /\
      entry = match k with
              | SymbolRef name =>
                  (match dict_get name (symbol2number gf) with
                   | Some number => number
                   | None => 0%Z
                   end, None)
              | TokenClass itoken => (itoken, None)
              | Keyword value => (token_NAME, Some value)
              end.
Proof.
  intros L S E label i (k & entry & C & Ek).
  pose proof (make_grammar_labels_ok _ _ _ _ _ L S E) as Lf.
  destruct (Lf _ _ Ek) as (entry' & Ee & En).
  pose proof (classify_entry _ _ _ _ _ _ C) as Ee'.
  assert (entry' = entry) by congruence. subst entry'.
  exists k, entry. split; [exact C|]. split; [exact En|].
  destruct k as [name|itoken|value]; simpl in Ee; [|congruence|congruence].
  destruct (dict_get name (symbol2number gf)); simpl in Ee; [congruence|].
  discriminate.
Qed.

Lemma label_ids_index_their_entries_witness :
  exists gf,
    generate_grammar Samples.NAME Samples.python_tokens 20
      [Samples.is_x "b"; Samples.a_is_b] = Ok gf /\
    exists k entry,
      classify Samples.NAME Samples.python_tokens gf "'x'" = Ok (k, entry) /\
      nth_error (labels gf) 2 = Some entry /\
      entry = match k with
              | SymbolRef name =>
                  (match dict_get name (symbol2number gf) with
                   | Some number => number
                   | None => 0%Z
                   end, None)
              | TokenClass itoken => (itoken, None)
              | Keyword value => (Samples.NAME, Some value)
              end.
Proof.
  eexists. split; [vm_compute; reflexivity|].
  apply (label_ids_index_their_entries Samples.NAME Samples.python_tokens
           Samples.b_then_a_rules (Grammar_new (Some "b"))).
  - intros [n|t|v] i E; discriminate.
  - reflexivity.
  - vm_compute. reflexivity.
  - exists (Keyword "x"), (Samples.NAME, Some "x").
    split; vm_compute; reflexivity.
Defined.

(** ** Translating first sets: the labels that get their id *)

(** The loop of [_make_first] at one of its labels. *)
Lemma make_first_loop_at (token_NAME : Z) (ns : TokenNamespace)
    (label : string) (post : pyset string) :
  forall pre g first0 first g',
    make_first_loop token_NAME ns g (pre ++ label :: post) first0
    = Ok (first, g') ->
    exists ids1 g1 i g2,
      make_first_loop token_NAME ns g pre first0 = Ok (ids1, g1) /\
      _make_label token_NAME ns g1 label = Ok (i, g2) /\
      make_first_loop token_NAME ns g2 post (set_add i ids1) = Ok (first, g').
Proof.
  induction pre as [|l pre IH]; intros g first0 first g' E; simpl in E.
  - inv_bind E. destruct x as [i g2]. exists first0, g, i, g2. auto.
  - inv_bind E. destruct x as [il g0].
    destruct (IH _ _ _ _ E) as (ids1 & g1 & i & g2 & E1 & E2 & E3).
    exists ids1, g1, i, g2. simpl. rewrite E0. simpl. auto.
Qed.

(** A kind that gets its id in the loop of [_make_first] gets an id past
    the entries that were there, and its entry is appended under this id. *)
Lemma make_first_loop_new (token_NAME : Z) (ns : TokenNamespace)
    (rawfirst : pyset string) :
  forall g first0 first g',
    make_first_loop token_NAME ns g rawfirst first0 = Ok (first, g') ->
    forall k i,
      label_of g k = None -> label_of g' k = Some i ->
      List.length (labels g) <= i < List.length (labels g') /\
      exists entry,
        entry_of token_NAME g k = Some entry /\
        nth_error (labels g') i = Some entry.
Proof.
  induction rawfirst as [|label rawfirst IH]; intros g first0 first g' E k i N S;
    simpl in E.
  - inv_ok E. congruence.
  - inv_bind E. destruct x as [il g1].
    pose proof (make_first_loop_spec _ _ _ _ _ _ _ E) as (Le1 & _).
    apply make_label_spec in E0.
    destruct E0 as (k0 & entry0 & C & [[L ->]|(N0 & -> & ->)] & Le & _).
    + eapply IH; eauto.
    + destruct (label_of (assign g k0 entry0) k) as [n|] eqn:L1.
      * rewrite label_of_assign in L1.
        destruct (label_kind_eq_dec k0 k) as [<-|Ne]; [|congruence].
        inv_ok L1.
        destruct Le1 as (_ & _ & (more & Lm) & Keep).
        assert (Q : label_of g' k0 = Some (List.length (labels g))).
        { apply Keep. rewrite label_of_assign.
          destruct (label_kind_eq_dec k0 k0); congruence. }
        assert (i = List.length (labels g)) by congruence. subst i.
        rewrite Lm, assign_labels, !length_app. simpl. split; [lia|].
        exists entry0. split; [eapply classify_entry; eauto|].
        rewrite nth_error_app1 by (rewrite length_app; simpl; lia).
        now rewrite nth_error_app2, Nat.sub_diag by lia.
      * destruct (IH _ _ _ _ E k i L1 S) as (B & entry & Ee & En).
        rewrite assign_labels, length_app in B. simpl in B. split; [lia|].
        exists entry. split; [|exact En].
        rewrite <- Ee. symmetry. apply entry_of_frame.
        apply (assign_frame g k0 entry0).
Qed.

(** C6, amended.  [_make_first] sends every label of the raw first set
    through [_make_label].  It only ever appends to [labels], at most one
    entry per raw label; a label that has an id keeps it, and when all raw
    labels have one the grammar is not changed at all; afterwards every raw
    label has an id, and the translated first set consists of these ids.
    When the loop comes to a label that has no id, the label gets the next
    free id, the length of [labels] at this moment, and the entry that
    describes it is appended to [labels] under this id; when it comes to a
    label that has one, nothing changes.  So a raw label without an id in
    the grammar [_make_first] is given ends up with an id past the entries
    that were there, and with its entry under this id. *)
Theorem make_first_reuses_or_appends
    (token_NAME : Z) (ns : TokenNamespace) (_first : dict string first_slot)
    (g : Grammar) (name : string) (fs : pyset nat) (g' : Grammar) :
  _make_first token_NAME ns _first g name = Ok (fs, g') ->
  exists rawfirst more,
    dict_get name _first = Some (Some rawfirst) /\
    labels g' = labels g ++ more /\
    List.length more <= List.length rawfirst /\
    (forall label i,
        In label rawfirst -> known token_NAME ns g label i ->
        known token_NAME ns g' label i /\ In i fs) /\
    ((forall label, In label rawfirst ->
                    exists i, known token_NAME ns g label i) ->
     g' = g) /\
    (forall label, In label rawfirst ->
                   exists i, known token_NAME ns g' label i /\ In i fs) /\
    (forall i, In i fs ->
               exists label, In label rawfirst /\
                             known token_NAME ns g' label i) /\
    (forall pre label post,
        rawfirst = pre ++ label :: post ->
        exists ids1 g1 i g2,
          make_first_loop token_NAME ns g pre [] = Ok (ids1, g1) /\
          _make_label token_NAME ns g1 label = Ok (i, g2) /\
          make_first_loop token_NAME ns g2 post (set_add i ids1)
          = Ok (fs, g') /\
          known token_NAME ns g' label i /\ In i fs /\
          (known token_NAME ns g1 label i /\ g2 = g1 \/
           (forall j, ~ known token_NAME ns g1 label j) /\
           i = List.length (labels g1) /\
           exists k entry,
             classify token_NAME ns g1 label = Ok (k, entry) /\
             labels g2 = labels g1 ++ [entry] /\
             nth_error (labels g') i = Some entry)) /\
    (forall label,
        In label rawfirst -> (forall j, ~ known token_NAME ns g label j) ->
        exists i k entry,
          known token_NAME ns g' label i /\ In i fs /\
          classify token_NAME ns g label = Ok (k, entry) /\
          List.length (labels g) <= i < List.length (labels g') /\
          nth_error (labels g') i = Some entry).
Proof.
  unfold _make_first. intros E. inv_bind E. inv_bind E.
  destruct (dict_get name _first) as [slot|]; simpl in E0; [inv_ok E0|discriminate].
  destruct x as [rawfirst|]; simpl in E1; [inv_ok E1|discriminate].
  pose proof (make_first_loop_spec _ _ _ _ _ _ _ E)
    as (Le & _ & _ & _ & _ & _ & All & Only & _).
  destruct (make_first_loop_ids _ _ _ _ _ _ _ E) as (ids & more & _ & _ & L & N).
  exists x0, more. split; [reflexivity|]. split; [exact L|]. split; [exact N|].
  split; [|split; [|split; [|split; [|split]]]].
  - intros label i I K.
    assert (K' : known token_NAME ns g' label i) by (eapply known_le; eauto).
    split; [exact K'|]. destruct (All label I) as (j & Kj & Ij).
    now rewrite (known_fun _ _ _ _ _ _ K' Kj).
  - intros K. destruct (make_first_loop_known token_NAME ns x0 g [] K) as (f & E').
    congruence.
  - exact All.
  - intros i I. destruct (Only i I) as [[]|H]. exact H.
  - intros pre label post ->.
    destruct (make_first_loop_at _ _ _ _ _ _ _ _ _ E)
      as (ids1 & g1 & i & g2 & E1 & E2 & E3).
    exists ids1, g1, i, g2.
    split; [exact E1|]. split; [exact E2|]. split; [exact E3|].
    pose proof (make_first_loop_spec _ _ _ _ _ _ _ E3)
      as (Le3 & _ & _ & _ & _ & Inc3 & _).
    apply make_label_spec in E2.
    destruct E2 as (k & entry & C & Step & _ & K2 & _).
    split; [eapply known_le; eauto|].
    split; [apply Inc3, set_add_In; now left|].
    destruct Step as [[Lk ->]|(Nk & -> & ->)].
    + left. split; [|reflexivity]. exists k, entry. auto.
    + right. split; [|split; [reflexivity|]].
      * intros j (k' & entry' & C' & L'). congruence.
      * exists k, entry. split; [exact C|]. split; [apply assign_labels|].
        destruct Le3 as (_ & _ & (more3 & L3) & _).
        rewrite L3, assign_labels.
        rewrite nth_error_app1 by (rewrite length_app; simpl; lia).
        now rewrite nth_error_app2, Nat.sub_diag by lia.
  - intros label I No.
    destruct (All label I) as (i & (k & entry & C' & L') & Ii).
    assert (C : classify token_NAME ns g label = Ok (k, entry)).
    { rewrite <- C'. symmetry. apply classify_frame. apply Le. }
    assert (Nk : label_of g k = None).
    { destruct (label_of g k) as [j|] eqn:Lk; [|reflexivity].
      destruct (No j). exists k, entry. auto. }
    destruct (make_first_loop_new _ _ _ _ _ _ _ E k i Nk L')
      as (B & entry' & Ee & En).
    exists i, k, entry. split; [exists k, entry; auto|].
    split; [exact Ii|]. split; [exact C|]. split; [exact B|].
    rewrite (classify_entry _ _ _ _ _ _ C) in Ee. congruence.
Qed.

Lemma make_first_reuses_or_appends_witness :
  exists fs g' i k entry,
    _make_first Samples.NAME Samples.python_tokens
      [("a", Some ["'x'"]); ("b", Some ["'x'"])]
      grammar_before_first_of_a "a" = Ok (fs, g') /\
    known Samples.NAME Samples.python_tokens g' "'x'" i /\ In i fs /\
    classify Samples.NAME Samples.python_tokens grammar_before_first_of_a
      "'x'" = Ok (k, entry) /\
    List.length (labels grammar_before_first_of_a) <= i
      < List.length (labels g') /\
    nth_error (labels g') i = Some entry.
Proof.
  eexists. eexists.
  assert (E : _make_first Samples.NAME Samples.python_tokens
                [("a", Some ["'x'"]); ("b", Some ["'x'"])]
                grammar_before_first_of_a "a" = Ok (_, _)) by reflexivity.
  destruct (make_first_reuses_or_appends _ _ _ _ _ _ _ E)
    as (rawfirst & more & Er & _ & _ & _ & _ & _ & _ & _ & New).
  injection Er as <-.
  destruct (New "'x'" (or_introl eq_refl)) as (i & k & entry & H).
  { intros j (k & entry & C & L). vm_compute in C. injection C as <- <-.
    vm_compute in L. discriminate. }
  exists i, k, entry. split; [exact E | exact H].
Defined.

(** ** [symbol2label] and [label2symbol] *)

Lemma make_label_inverse (token_NAME : Z) (ns : TokenNamespace)
    (g : Grammar) (label : string) (i : nat) (g' : Grammar) :
  label_inv g /\ symbol_labels_inverse g ->
  _make_label token_NAME ns g label = Ok (i, g') ->
  label_inv g' /\ symbol_labels_inverse g'.
Proof.
  intros (I & Sl) E. apply make_label_spec in E.
  destruct E as (k & entry & C & [[_ ->]|(N & -> & ->)] & _ & _ & _ & _ & I');
    [auto|].
  split; [auto|]. destruct I as (_ & Rng & _).
  destruct k as [name0|itoken|value]; simpl; try exact Sl.
  simpl in N. intros name i. simpl.
  destruct (String.eqb_spec name name0) as [->|Nn].
  - rewrite dict_get_set_same.
    destruct (Nat.eq_dec i (List.length (labels g))) as [->|Ni].
    + rewrite dict_get_set_same. tauto.
    + rewrite dict_get_set_other by exact Ni. split; [congruence|].
      intros G. apply Sl in G. congruence.
  - rewrite dict_get_set_other by exact Nn.
    destruct (Nat.eq_dec i (List.length (labels g))) as [->|Ni].
    + rewrite dict_get_set_same. split; [|congruence].
      intros G. apply (Rng (SymbolRef name)) in G. lia.
    + rewrite dict_get_set_other by exact Ni. apply Sl.
Qed.

(** X13.  [symbol2label] and [label2symbol] mirror each other.
    [make_grammar], given a grammar whose label ids are in order and in
    which the two maps are inverse to each other (a new grammar is one),
    returns a grammar in which they are: a rule name has the label id [i]
    exactly if [i] is the label id of this rule name. *)
Theorem symbol_labels_mirror_each_other (token_NAME : Z) (ns : TokenNamespace)
    (rules : rule_table) (g gf : Grammar) :
  label_inv g -> symbol_labels_inverse g ->
  make_grammar token_NAME ns rules g = Ok gf ->
  forall name i,
    dict_get name (symbol2label gf) = Some i <->
    dict_get i (label2symbol gf) = Some name.
Proof.
  intros I Sl E. unfold make_grammar in E. inv_bind E.
  refine (proj2 (assemble_keeps token_NAME ns
                   (fun g => label_inv g /\ symbol_labels_inverse g)
                   _ _ _ _ _ _ _ E _)).
  - intros g0 label i g' P0 E'. eapply make_label_inverse; eauto.
  - intros g0 table number first (I0 & S0). split; [|exact S0].
    destruct I0 as (A & B & C). unfold label_inv. simpl.
    split; [exact A|]. split.
    + intros k i Ek. apply (B k). destruct k; exact Ek.
    + intros k1 k2 i E1 E2.
      apply (C k1 k2 i); [destruct k1 | destruct k2]; assumption.
  - destruct (number_symbols_frame (sort (dict_keys rules)) g)
      as (L0 & K0 & _).
    destruct (number_symbols_start (sort (dict_keys rules)) g)
      as (_ & S0 & S1).
    split.
    + destruct I as (A & B & C). unfold label_inv. rewrite L0.
      split; [exact A|]. split.
      * intros k i Ek. rewrite K0 in Ek. eauto.
      * intros k1 k2 i E1 E2. rewrite K0 in E1, E2. eauto.
    + intros name i. rewrite S0, S1. apply Sl.
Qed.

Lemma symbol_labels_mirror_each_other_witness :
  exists gf,
    generate_grammar Samples.NAME Samples.python_tokens 20
      [Samples.is_x "b"; Samples.a_is_b] = Ok gf /\
    (dict_get "b" (symbol2label gf) = Some 1 <->
     dict_get 1 (label2symbol gf) = Some "b").
Proof.
  eexists. split; [vm_compute; reflexivity|].
  apply (symbol_labels_mirror_each_other Samples.NAME Samples.python_tokens
           Samples.b_then_a_rules (Grammar_new (Some "b"))).
  - apply label_inv_new.
  - intros name i. simpl. split; discriminate.
  - vm_compute. reflexivity.
Defined.

(** ** Asking for a label twice *)

(** X14.  [_make_label] answers a label it has met with the same id, and
    leaves the grammar as it is: right after the first call, and after any
    number of other labels have been classified with [_make_label] in
    between. *)
Theorem make_label_is_stable (token_NAME : Z) (ns : TokenNamespace)
    (g : Grammar) (label : string) (i : nat) (g' : Grammar) :
  _make_label token_NAME ns g label = Ok (i, g') ->
  _make_label token_NAME ns g' label = Ok (i, g') /\
  forall others g'' ids,
    make_first_loop token_NAME ns g' others [] = Ok (ids, g'') ->
    _make_label token_NAME ns g'' label = Ok (i, g'').
Proof.
  intros E. apply make_label_spec in E.
  destruct E as (k & entry & _ & _ & _ & K & _).
  assert (X : forall g0, known token_NAME ns g0 label i ->
                         _make_label token_NAME ns g0 label = Ok (i, g0)).
  { intros g0 (k0 & entry0 & C0 & L0).
    rewrite make_label_classify, C0. simpl. now rewrite L0. }
  split; [now apply X|].
  intros others g'' ids E'. apply X.
  apply make_first_loop_spec in E'. destruct E' as (Le & _).
  eapply known_le; eauto.
Qed.

Lemma make_label_is_stable_witness :
  _make_label Samples.NAME Samples.python_tokens
    (set_keyword
       (add_label (Grammar_new None) (Samples.NAME, Some "x")) "x" 1) "'x'"
  = Ok (1, set_keyword
             (add_label (Grammar_new None) (Samples.NAME, Some "x")) "x" 1).
Proof.
  refine (proj1 (make_label_is_stable Samples.NAME Samples.python_tokens
                   (Grammar_new None) "'x'" 1 _ _)).
  reflexivity.
Defined.

(** ** The tables of the grammar *)

Lemma Forall2_In_r {A B : Type} (R : A -> B -> Prop) (l : list A) (m : list B)
    (y : B) :
  Forall2 R l m -> In y m -> exists x, In x l /\ R x y.
Proof.
  induction 1 as [|a b l m Rab F IH]; intros I; [destruct I|].
  destruct I as [<-|I].
  - exists a. split; [now left | exact Rab].
  - destruct (IH I) as (x & Ix & Rx). exists x. split; [now right | exact Rx].
Qed.

(** The tables [make_grammar] adds to a grammar without tables: one per
    rule, in the order of the sorted names. *)
Lemma make_grammar_tables (token_NAME : Z) (ns : TokenNamespace)
    (rules : rule_table) (g gf : Grammar) :
  label_inv g -> states g = [] ->
  make_grammar token_NAME ns rules g = Ok gf ->
  label_inv gf /\
  Forall2 (fun name table =>
             exists h dfa,
               dict_get name rules = Some (h, dfa) /\
               Forall2 (state_entry token_NAME ns gf h dfa) dfa table)
          (sort (dict_keys rules)) (states gf).
Proof.
  intros Ig Sg E. unfold make_grammar in E. inv_bind E.
  set (g0 := number_symbols (sort (dict_keys rules)) g) in *.
  destruct (number_symbols_frame (sort (dict_keys rules)) g)
    as (L0 & K0 & S0 & _).
  fold g0 in L0, K0, S0.
  assert (I0 : label_inv g0).
  { destruct Ig as (A & B & C).
    unfold label_inv. rewrite L0. split; [exact A|]. split.
    - intros k i Ek. rewrite K0 in Ek. eauto.
    - intros k1 k2 i E1 E2. rewrite K0 in E1, E2. eauto. }
  apply assemble_spec in E. destruct E as (_ & If & tables & St & F).
  rewrite S0, Sg in St. simpl in St. rewrite St. auto.
Qed.

(** X15.  The tables of the grammar are in range.  In the grammar that
    [make_grammar] returns for a grammar without tables whose label ids are
    in order (a new grammar is one), there is one table per rule, with one
    list of entries per state of the rule; every entry [(ilabel, target)]
    has a label id that indexes [labels] and a target that is the index of
    a state of the same table. *)
Theorem table_entries_are_in_range (token_NAME : Z) (ns : TokenNamespace)
    (rules : rule_table) (g gf : Grammar) :
  label_inv g -> states g = [] ->
  make_grammar token_NAME ns rules g = Ok gf ->
  List.length (states gf) = List.length rules /\
  (forall k name h dfa table,
      nth_error (sort (dict_keys rules)) k = Some name ->
      dict_get name rules = Some (h, dfa) ->
      nth_error (states gf) k = Some table ->
      List.length table = List.length dfa) /\
  forall table entries ilabel target,
    In table (states gf) -> In entries table -> In (ilabel, target) entries ->
    ilabel < List.length (labels gf) /\ target < List.length table.
Proof.
  intros Ig Sg E.
  destruct (make_grammar_tables _ _ _ _ _ Ig Sg E) as (If & F).
  split; [|split].
  - rewrite <- (Forall2_length F).
    rewrite (Permutation_length (sort_perm (dict_keys rules))).
    apply length_map.
  - intros k name h dfa table En Er Et.
    assert (X : forall l m,
               Forall2 (fun name table =>
                          exists h dfa,
                            dict_get name rules = Some (h, dfa) /\
                            Forall2 (state_entry token_NAME ns gf h dfa)
                              dfa table) l m ->
               forall k, nth_error l k = Some name ->
                         nth_error m k = Some table ->
                         List.length table = List.length dfa).
    { induction 1 as [|a b l m (h' & dfa' & Ea & Fa) F' IH]; intros [|k'];
        simpl; try discriminate.
      - intros Ea' Eb'. inv_ok Ea'. inv_ok Eb'.
        assert (dfa' = dfa) by congruence. subst dfa'.
        symmetry. exact (Forall2_length Fa).
      - apply IH. }
    eapply X; eauto.
  - intros table entries ilabel target It Ie Ia.
    destruct (Forall2_In_r _ _ _ _ F It) as (name & _ & h & dfa & _ & Ft).
    rewrite <- (Forall2_length Ft).
    destruct (Forall2_In_r _ _ _ _ Ft Ie)
      as (state & _ & o & arcs0 & Eo & Fa & Fin).
    destruct If as (L1 & Rng & _).
    assert (A : In (ilabel, target) arcs0 ->
                ilabel < List.length (labels gf) /\
                target < List.length dfa).
    { intros I. destruct (Forall2_In_r _ _ _ _ Fa I)
        as ([label next] & _ & (k & entry & _ & Ek) & Ei).
      simpl in Ek, Ei. split.
      - apply Rng in Ek. lia.
      - unfold index in Ei. apply index_from_ge in Ei. lia. }
    destruct (isfinal o).
    + destruct Fin as (self & Es & ->). apply in_app_or in Ia.
      destruct Ia as [Ia|[Ia|[]]]; [auto|]. inv_ok Ia. split; [lia|].
      unfold index in Es. apply index_from_ge in Es. lia.
    + subst entries. auto.
Qed.

Lemma table_entries_are_in_range_witness :
  exists gf,
    generate_grammar Samples.NAME Samples.python_tokens 20
      [Samples.is_x "b"; Samples.a_is_b] = Ok gf /\
    List.length (states gf) = 2.
Proof.
  eexists. split; [vm_compute; reflexivity|].
  refine (proj1 (table_entries_are_in_range Samples.NAME Samples.python_tokens
                   Samples.b_then_a_rules (Grammar_new (Some "b")) _ _ _ _)).
  - apply label_inv_new.
  - reflexivity.
  - vm_compute. reflexivity.
Defined.

(** ** The start symbol *)

Lemma convert_rules_start (fuel : nat) (fragments : list NFA) :
  forall rules s rules' s',
    convert_rules fuel fragments rules s = Ok (rules', s') ->
    s' = match s with
         | Some x => Some x
         | None => option_map from_rule (hd_error fragments)
         end.
Proof.
  induction fragments as [|nfa fragments IH]; intros rules s rules' s' E;
    simpl in E.
  - injection E as <- <-. now destruct s.
  - inv_bind E. destruct x as [h dfas0]. inv_bind E. destruct x as [h' dfas1].
    apply IH in E. subst s'. now destruct s.
Qed.

Lemma make_grammar_start (token_NAME : Z) (ns : TokenNamespace)
    (rules : rule_table) (g gf : Grammar) :
  make_grammar token_NAME ns rules g = Ok gf -> start gf = start g.
Proof.
  intros E. unfold make_grammar in E. inv_bind E.
  eapply (assemble_keeps token_NAME ns (fun g0 => start g0 = start g));
    [| |exact E|].
  - intros g0 label i g' P0 E'. apply make_label_spec in E'.
    destruct E' as (k & entry & _ & [[_ ->]|(_ & _ & ->)] & _); [exact P0|].
    now destruct (assign_frame g0 k entry) as (_ & _ & _ & _ & ->).
  - intros g0 table number first P0. exact P0.
  - apply number_symbols_start.
Qed.

Lemma convert_rules_keys (fuel : nat) (fragments : list NFA) :
  forall rules s rules' s',
    convert_rules fuel fragments rules s = Ok (rules', s') ->
    NoDup (dict_keys rules) ->
    NoDup (dict_keys rules') /\
    forall name,
      In name (dict_keys rules') <->
      In name (dict_keys rules) \/ In name (map from_rule fragments).
Proof.
  induction fragments as [|nfa fragments IH]; intros rules s rules' s' E ND;
    simpl in E.
  - inv_ok E. split; [exact ND|]. intros name. simpl. tauto.
  - inv_bind E. destruct x as [h dfas0]. inv_bind E. destruct x as [h' dfas1].
    apply IH in E; [|now apply dict_set_NoDup].
    destruct E as (ND' & K). split; [exact ND'|].
    intros name. rewrite K, dict_keys_set. simpl.
    destruct (dict_mem (from_rule nfa) rules) eqn:M.
    + apply dict_mem_In in M. split; [tauto|].
      intros [I|[<-|I]]; auto.
    + rewrite in_app_iff. simpl. tauto.
Qed.

(** X16.  The start symbol of the grammar.  [generate_grammar] makes the
    rule of the first fragment the start symbol, whatever rules follow, and
    this rule has a number in [symbol2number]; without fragments the start
    symbol is [None]. *)
Theorem start_symbol_is_the_first_rule (token_NAME : Z) (ns : TokenNamespace)
    (fuel : nat) (fragments : list NFA) (gf : Grammar) :
  generate_grammar token_NAME ns fuel fragments = Ok gf ->
  start gf = option_map from_rule (hd_error fragments) /\
  forall name, start gf = Some name ->
               dict_mem name (symbol2number gf) = true.
Proof.
  intros E. unfold generate_grammar in E. inv_bind E.
  destruct x as [rules s].
  pose proof (convert_rules_start _ _ _ _ _ _ E0) as Es. simpl in Es.
  pose proof (make_grammar_start _ _ _ _ _ E) as Eg. simpl in Eg.
  split; [congruence|].
  intros name En.
  destruct (convert_rules_keys _ _ _ _ _ _ E0 (NoDup_nil _)) as (ND & K).
  assert (In name (dict_keys rules)).
  { apply K. right. destruct fragments as [|nfa fragments];
      simpl in Es; [congruence|].
    left. congruence. }
  assert (P : Permutation (sort (dict_keys rules)) (dict_keys rules))
    by apply sort_perm.
  assert (NDn : NoDup (sort (dict_keys rules)))
    by (eapply Permutation_NoDup; [symmetry; exact P | exact ND]).
  destruct (number_symbols_tables (sort (dict_keys rules)) []
              (Grammar_new s) eq_refl eq_refl NDn) as (T1 & _).
  simpl in T1.
  unfold make_grammar in E. inv_bind E.
  apply assemble_spec in E. destruct E as ((S2N & _) & _).
  rewrite dict_mem_In, S2N, T1, combine_keys
    by (now rewrite length_map, length_seq).
  eapply Permutation_in; [symmetry; exact P | assumption].
Qed.

Lemma start_symbol_is_the_first_rule_witness :
  exists gf,
    generate_grammar Samples.NAME Samples.python_tokens 20
      [Samples.is_x "b"; Samples.a_is_b] = Ok gf /\
    start gf = Some "b".
Proof.
  eexists.
  assert (E : generate_grammar Samples.NAME Samples.python_tokens 20
                [Samples.is_x "b"; Samples.a_is_b] = Ok _)
    by (vm_compute; reflexivity).
  split; [exact E|].
  exact (proj1 (start_symbol_is_the_first_rule _ _ _ _ _ E)).
Defined.

(** ** From the fragments to the rule table *)

Lemma compiled_rule_ok (fuel : nat) (nfa : NFA) (h : heap) (states : list ref)
    (h' : heap) (dfas' : list ref) :
  _make_dfas fuel nfa = Ok (h, states) ->
  _simplify_dfas h states = Ok (h', dfas') ->
  rule_ok nfa (h', dfas').
Proof.
  intros E E'.
  destruct (make_dfas_Ok _ _ _ _ E) as (o & Inv & _).
  destruct (dfa_inv_simplify _ _ _ Inv) as (V & ND & W & C).
  destruct (make_dfas_language _ _ _ _ E) as (E0 & L).
  destruct (simplify_dfas_inv _ _ _ _ V ND E') as (_ & _ & _ & E0' & _).
  pose proof (simplify_dfas_merges _ _ _ _ E') as M.
  destruct (merges_language _ _ _ _ M V ND W C)
    as ((V' & ND' & W' & C' & _) & L').
  unfold rule_ok. cbn [fst snd].
  split; [exact V'|]. split; [exact ND'|]. split; [exact W'|].
  split; [exact C'|]. split; [eapply simplify_loop_irredundant; eauto|].
  exists 0. rewrite E0', E0. split; [reflexivity|].
  intros w. rewrite L'; [apply L|].
  eapply nth_error_In. rewrite E0'. exact E0.
Qed.

Lemma convert_rules_rules (fuel : nat) (fragments : list NFA) :
  forall rules0 s0 rules s,
    convert_rules fuel fragments rules0 s0 = Ok (rules, s) ->
    forall name rule,
      dict_get name rules = Some rule ->
      (dict_get name rules0 = Some rule /\
       forall n, In n fragments -> from_rule n <> name) \/
      exists pre nfa post,
        fragments = pre ++ nfa :: post /\ from_rule nfa = name /\
        (forall n, In n post -> from_rule n <> name) /\
        rule_ok nfa rule.
Proof.
  induction fragments as [|nfa fragments IH]; intros rules0 s0 rules s E;
    simpl in E.
  - inv_ok E. intros name rule G. left. split; [exact G|]. intros n [].
  - inv_bind E. destruct x as [h dfas0]. inv_bind E. destruct x as [h' dfas1].
    intros name rule G.
    destruct (IH _ _ _ _ E name rule G)
      as [(G1 & No)|(pre & nfa' & post & -> & En & No & Ok')].
    + destruct (String.eqb_spec name (from_rule nfa)) as [->|Ne].
      * rewrite dict_get_set_same in G1. inv_ok G1. right.
        exists [], nfa, fragments. split; [reflexivity|].
        split; [reflexivity|]. split; [exact No|].
        eapply compiled_rule_ok; eauto.
      * rewrite dict_get_set_other in G1 by exact Ne. left.
        split; [exact G1|]. intros n [<-|I]; [congruence | auto].
    + right. exists (nfa :: pre), nfa', post. auto.
Qed.

(** X17.  The rule table of [generate_grammar].  The loop over the fragments
    leaves one entry per rule name.  The entry of a name holds the
    minimised automaton of the last fragment with this name: its arcs have
    distinct labels and stay inside its list of states, no state of the
    list equals another one, and from the first state of the list it
    accepts exactly the label sequences of that fragment. *)
Theorem convert_rules_compiles_every_rule (fuel : nat) (fragments : list NFA)
    (rules : rule_table) (s : option string) :
  convert_rules fuel fragments [] None = Ok (rules, s) ->
  NoDup (dict_keys rules) /\
  (forall name,
      In name (dict_keys rules) <-> In name (map from_rule fragments)) /\
  forall name rule,
    dict_get name rules = Some rule ->
    exists pre nfa post,
      fragments = pre ++ nfa :: post /\ from_rule nfa = name /\
      (forall n, In n post -> from_rule n <> name) /\
      rule_ok nfa rule.
Proof.
  intros E.
  destruct (convert_rules_keys _ _ _ _ _ _ E (NoDup_nil _)) as (ND & K).
  split; [exact ND|]. split.
  - intros name. rewrite K. simpl. tauto.
  - intros name rule G.
    destruct (convert_rules_rules _ _ _ _ _ _ E name rule G)
      as [(G0 & _)|X]; [discriminate | exact X].
Qed.

Lemma convert_rules_compiles_every_rule_witness :
  exists rules s,
    convert_rules 20 [Samples.is_x "b"; Samples.a_is_b] [] None
    = Ok (rules, s) /\
    NoDup (dict_keys rules).
Proof.
  eexists. eexists.
  assert (E : convert_rules 20 [Samples.is_x "b"; Samples.a_is_b] [] None
              = Ok (_, _)) by (vm_compute; reflexivity).
  split; [exact E|].
  exact (proj1 (convert_rules_compiles_every_rule _ _ _ _ E)).
Defined.

(** ** First-set analyser: the errors it raises *)

Lemma genuine_grammar_error (dfas : rule_table) (e : exn) :
  genuine dfas e -> e = OutOfFuel \/ grammar_error e.
Proof.
  unfold grammar_error. destruct e; simpl; intros G; try destruct G; eauto 8.
Qed.

Lemma first_complete_sentinel (dfas : rule_table) (name : string)
    (f : dict string first_slot) :
  first_complete dfas f -> dict_get name f = None ->
  first_complete dfas (dict_set name None f).
Proof.
  intros C G k fs Gk.
  destruct (String.eqb_spec k name) as [->|Ne].
  - rewrite dict_get_set_same in Gk. discriminate.
  - rewrite dict_get_set_other in Gk by exact Ne.
    eapply solved_ext; [apply C; exact Gk|].
    intros k' v' Gk'. rewrite dict_get_set_other; [exact Gk'|].
    intros ->. congruence.
Qed.

Lemma calcfirst_arcs_errors
    (rec : string -> dict string first_slot -> result (dict string first_slot))
    (dfas : rule_table) (name : string) (start0 : dict string ref) :
  solving_call dfas rec -> failing_call dfas rec ->
  start_arcs dfas name = Some start0 ->
  forall items f t oc e,
    incl (dict_keys items) (dict_keys start0) ->
    calcfirst_arcs rec dfas name items f t oc = Err e ->
    first_complete dfas f ->
    (forall k, dict_get k f = Some None ->
               k = name \/ clos_trans string (refers dfas) k name) ->
    genuine dfas e.
Proof.
  intros Hs Hf Es.
  induction items as [|[label next] items IH]; intros f t oc e Inc E C D;
    simpl in E; [discriminate|].
  assert (Inc' : incl (dict_keys items) (dict_keys start0))
    by (intros l I; apply Inc; now right).
  destruct (dict_mem label dfas) eqn:M; [|eauto].
  assert (R : refers dfas name label).
  { exists start0. split; [exact Es|]. split; [apply Inc; now left | exact M]. }
  destruct (dict_get label f) as [[fs|]|] eqn:G; simpl in E.
  - eauto.
  - inv_ok E. simpl. destruct (D label G) as [->|T].
    + now apply t_step.
    + eapply t_trans; [apply t_step; exact R | exact T].
  - destruct (rec label f) as [f1|e0] eqn:Rc; simpl in E.
    + destruct (Hs label f f1 Rc G C) as (C1 & _ & (fs & G1) & D1).
      rewrite G1 in E. simpl in E. eapply IH; eauto.
    + inv_ok E. eapply Hf; eauto.
      intros k Gk. destruct (D k Gk) as [->|T].
      * now apply t_step.
      * eapply t_trans; [exact T | apply t_step; exact R].
Qed.

Lemma table_startable_get (dfas : rule_table) (name : string) (h : heap)
    (dfa : list ref) :
  table_startable dfas -> dict_get name dfas = Some (h, dfa) ->
  exists r state, nth_error dfa 0 = Some r /\ nth_error h r = Some state.
Proof.
  unfold table_startable. rewrite Forall_forall. intros S G.
  apply dict_get_In in G. exact (S _ G).
Qed.

Lemma calcfirst_errors (dfas : rule_table) (fuel : nat) :
  table_wf dfas -> table_startable dfas ->
  failing_call dfas (_calcfirst fuel dfas).
Proof.
  intros Wt St.
  induction fuel as [|fuel IH]; intros name f e E M G C D.
  - now inv_ok E.
  - rewrite calcfirst_S in E.
    unfold dict_mem in M.
    destruct (dict_get name dfas) as [[h dfa]|] eqn:Ed; [|discriminate].
    destruct (table_startable_get _ _ _ _ St Ed) as (r & state & Er & Es).
    cbn [from_option bind] in E. rewrite Er in E. cbn [from_option bind] in E.
    rewrite (proj2 (deref_Ok h r state) Es) in E. cbn [bind] in E.
    pose proof (first_complete_sentinel _ name _ C G) as C0.
    pose proof (start_arcs_Some _ _ _ _ _ _ Ed Er Es) as Ea0.
    destruct (calcfirst_arcs (_calcfirst fuel dfas) dfas name (arcs state)
                (dict_set name None f) [] []) as [[[f1 totalset] oc]|e0] eqn:Ea;
      cbn [bind] in E.
    + pose proof (start_arcs_NoDup _ _ _ Wt Ea0) as NDk.
      pose proof (first_complete_wf _ _ C0) as W0.
      pose proof (calcfirst_arcs_overlapcheck _ dfas name
                    (calcfirst_stable dfas fuel) _ _ _ _ _ _ _ Ea W0
                    (NoDup_nil _) NDk (fun l _ => eq_refl)) as Eoc.
      pose proof (calcfirst_arcs_stable _ dfas name (calcfirst_stable dfas fuel)
                    _ _ _ _ _ _ _ Ea W0 (NoDup_nil _)) as (W1 & _ & _).
      destruct (calcfirst_arcs_solves _ dfas name (calcfirst_solves dfas fuel Wt)
                  _ _ _ _ _ _ _ Ea C0) as (C1 & _ & Refs1 & _ & _).
      simpl in Eoc.
      assert (NDoc : forall l fs, In (l, fs) oc -> NoDup fs).
      { intros l fs I. rewrite Eoc in I. apply in_map_iff in I.
        destruct I as (item & Ei & _). inv_ok Ei. now apply contribution_NoDup. }
      pose proof (check_overlap_spec name oc [] NDoc) as Ov.
      destruct (check_overlap name oc []) as [inverse|e1]; cbn [bind] in E;
        [discriminate|].
      destruct Ov as (symbol & label & fs & other & -> & Is & Ov).
      destruct Ov as [(Gi & _)|(i & j & fs' & Lt & Ei & Ej & Is')];
        [discriminate|].
      rewrite Eoc, nth_error_map in Ei, Ej.
      destruct (nth_error (arcs state) i) as [a1|] eqn:Ai; [|discriminate].
      destruct (nth_error (arcs state) j) as [a2|] eqn:Aj; [|discriminate].
      simpl in Ei, Ej.
      assert (Eo : other = fst a1 /\ fs' = contribution dfas f1 (fst a1))
        by (split; congruence).
      assert (El : label = fst a2 /\ fs = contribution dfas f1 (fst a2))
        by (split; congruence).
      destruct Eo as (-> & ->), El as (-> & ->).
      assert (Io : In (fst a1) (dict_keys (arcs state)))
        by (apply in_map; eapply nth_error_In; eauto).
      assert (Il : In (fst a2) (dict_keys (arcs state)))
        by (apply in_map; eapply nth_error_In; eauto).
      injection E as <-. simpl. exists (arcs state).
      split; [exact Ea0|]. split; [exact Il|]. split; [exact Io|]. split.
      * intros Eq. rewrite NoDup_nth_error in NDk.
        assert (i = j); [|lia].
        apply NDk.
        -- unfold dict_keys. rewrite length_map.
           eapply nth_error_Some_lt; eauto.
        -- unfold dict_keys. rewrite !nth_error_map, Ai, Aj. simpl.
           congruence.
      * split; apply (arc_first_contribution dfas f1); auto.
    + inv_ok E.
      eapply (calcfirst_arcs_errors _ dfas name (arcs state));
        [apply calcfirst_solves; exact Wt | exact IH | exact Ea0
        | apply incl_refl | exact Ea | exact C0 |].
      intros k Gk. destruct (String.eqb_spec k name) as [->|Ne]; [now left|].
      right. apply D. now rewrite dict_get_set_other in Gk by exact Ne.
Qed.

Lemma addfirstsets_loop_errors (fuel : nat) (dfas : rule_table)
    (names : list string) :
  table_wf dfas -> table_startable dfas ->
  (forall name, In name names -> dict_mem name dfas = true) ->
  forall f e,
    addfirstsets_loop fuel dfas names f = Err e ->
    first_complete dfas f ->
    (forall k, dict_get k f <> Some None) ->
    genuine dfas e.
Proof.
  intros Wt St.
  induction names as [|name names IH]; intros Mn f e E C D; simpl in E;
    [discriminate|].
  assert (Mn' : forall n, In n names -> dict_mem n dfas = true)
    by (intros n I; apply Mn; now right).
  destruct (dict_mem name f) eqn:M; [eauto|].
  apply dict_mem_get_None in M.
  destruct (_calcfirst fuel dfas name f) as [f1|e0] eqn:Ec; simpl in E.
  - destruct (calcfirst_solves dfas fuel Wt name f f1 Ec M C)
      as (C1 & _ & _ & D1).
    eapply IH; eauto. intros k Gk. apply D1 in Gk. now apply D in Gk.
  - inv_ok E. eapply calcfirst_errors; eauto.
    + apply Mn. now left.
    + intros k Gk. now apply D in Gk.
Qed.

Lemma addfirstsets_errors (dfas : rule_table) (e : exn) :
  table_wf dfas -> table_startable dfas ->
  _addfirstsets dfas [] = Err e ->
  genuine dfas e /\ grammar_error e.
Proof.
  intros Wt St E.
  assert (N : e <> OutOfFuel).
  { intros ->. now apply (addfirstsets_budget dfas). }
  unfold _addfirstsets in E.
  apply addfirstsets_loop_errors in E; auto.
  - split; [exact E|].
    destruct (genuine_grammar_error _ _ E); [contradiction | assumption].
  - intros name I. apply dict_mem_In.
    eapply Permutation_in; [apply sort_perm | exact I].
  - intros k fs G. discriminate.
  - intros k G. discriminate.
Qed.

(** X18.  The first-set analysis fails on grammar errors alone, and its
    errors are true.  On a rule table in which every rule has a start state
    (and arc maps have distinct labels), [_addfirstsets] either returns or
    raises one of its two [ValueError]s; it raises no [KeyError] for a
    missing first set and no [TypeError] for a dummy used as a set, and the
    recursion ends.  The rule it reports as left-recursive does come back
    to itself along references at the start of rules; the two arcs it
    reports as ambiguous are different arcs of the start state of the rule
    it names, and the symbol is a first symbol of both. *)
Theorem addfirstsets_fails_only_on_grammar_errors (rules : rule_table)
    (e : exn) :
  table_wf rules -> table_startable rules ->
  _addfirstsets rules [] = Err e ->
  (exists name,
      e = ValueError_recursion name /\
      clos_trans string (refers rules) name name) \/
  (exists name symbol label other items,
      e = ValueError_ambiguous name symbol label other /\
      start_arcs rules name = Some items /\
      In label (dict_keys items) /\ In other (dict_keys items) /\
      label <> other /\
      arc_first rules label symbol /\ arc_first rules other symbol).
Proof.
  intros Wt St E.
  destruct (addfirstsets_errors _ _ Wt St E) as (G & [(name & ->)|X]).
  - left. exists name. split; [reflexivity | exact G].
  - right. destruct X as (name & symbol & label & other & ->).
    destruct G as (items & G). exists name, symbol, label, other, items.
    split; [reflexivity | exact G].
Qed.

Lemma addfirstsets_fails_only_on_grammar_errors_witness :
  (exists name,
      ValueError_recursion "a" = ValueError_recursion name /\
      clos_trans string (refers Samples.left_recursive_rules) name name) \/
  (exists name symbol label other items,
      ValueError_recursion "a" = ValueError_ambiguous name symbol label other /\
      start_arcs Samples.left_recursive_rules name = Some items /\
      In label (dict_keys items) /\ In other (dict_keys items) /\
      label <> other /\
      arc_first Samples.left_recursive_rules label symbol /\
      arc_first Samples.left_recursive_rules other symbol).
Proof.
  apply (addfirstsets_fails_only_on_grammar_errors
           Samples.left_recursive_rules).
  - repeat constructor; simpl; intuition discriminate.
  - repeat constructor. simpl. eexists. eexists. split; reflexivity.
  - vm_compute. reflexivity.
Defined.

(** ** The errors of the compiler *)

Lemma index_from_total (h : heap) (x : ref) :
  forall dfa k0,
    valid h dfa -> x < List.length h -> In x dfa ->
    exists k, index_from h dfa x k0 = Ok k.
Proof.
  induction dfa as [|e dfa IH]; intros k0 V Lx I; [destruct I|].
  simpl. destruct (Nat.eqb_spec e x) as [->|Ne]; [eauto|].
  inversion V as [|? ? Le V']; subst.
  destruct (DFAState_eq_valid h e x Le Lx) as (b & ->). simpl.
  destruct b; [eauto|]. apply IH; auto.
  destruct I as [->|I]; [contradiction | exact I].
Qed.

(** [_make_label] raises what the classification of the label raises. *)
Lemma make_label_Err (token_NAME : Z) (ns : TokenNamespace) (g : Grammar)
    (label : string) (e : exn) :
  _make_label token_NAME ns g label = Err e ->
  classify token_NAME ns g label = Err e.
Proof.
  rewrite make_label_classify.
  destruct (classify token_NAME ns g label) as [[k entry]|e0]; simpl;
    intros E; [discriminate | now inv_ok E].
Qed.

(** The classification fails on the labels without an id. *)
Lemma classify_failure (token_NAME : Z) (ns : TokenNamespace) (g : Grammar)
    (names : list string) (label : string) (e : exn) :
  (forall name, dict_mem name (symbol2number g) = true <-> In name names) ->
  classify token_NAME ns g label = Err e ->
  label_failure ns names label e.
Proof.
  intros M. unfold classify. destruct label as [|c rest].
  - intros E. inv_ok E. constructor.
  - destruct (isalpha c) eqn:A.
    + destruct (dict_get (String c rest) (symbol2number g)) as [number|] eqn:G;
        [discriminate|].
      destruct (token_attr ns (String c rest)) as [itoken|] eqn:T;
        [discriminate|].
      intros E. inv_ok E. apply fail_unknown_name; [exact A| |exact T].
      intros I. apply M in I. unfold dict_mem in I. now rewrite G in I.
    + destruct (is_quote c) eqn:Q; cbn [negb].
      * destruct (eval (String c rest)) as [[|v more]|e0] eqn:Ev; cbn [bind].
        -- intros E. inv_ok E. now apply fail_empty_literal.
        -- destruct (isalpha v) eqn:Av; [discriminate|].
           destruct (generate_token_id ns (String v more)) as [itoken|e1] eqn:Gt;
             cbn [bind]; [discriminate|].
           intros E. inv_ok E. eapply fail_operator; eauto.
        -- intros E. inv_ok E. now apply fail_literal.
      * intros E. inv_ok E. now apply fail_not_quoted.
Qed.

Lemma make_arcs_errors (token_NAME : Z) (ns : TokenNamespace) (h : heap)
    (dfa : list ref) :
  valid h dfa ->
  forall items g e,
    (forall label next, In (label, next) items -> In next dfa) ->
    make_arcs token_NAME ns h dfa items g = Err e ->
    exists label,
      In label (dict_keys items) /\ classify token_NAME ns g label = Err e.
Proof.
  intros V. induction items as [|[label next] items IH]; intros g e Cl E;
    simpl in E; [discriminate|].
  destruct (_make_label token_NAME ns g label) as [[ilabel g1]|e0] eqn:El;
    simpl in E.
  2:{ inv_ok E. exists label. split; [now left | now apply make_label_Err]. }
  assert (In' : In next dfa) by (eapply Cl; now left).
  assert (Ln : next < List.length h).
  { unfold valid in V. rewrite Forall_forall in V. auto. }
  destruct (index_from_total h next dfa 0 V Ln In') as (k & Ek).
  unfold index in E. rewrite Ek in E. simpl in E.
  destruct (make_arcs token_NAME ns h dfa items g1) as [[arcs0 g2]|e1] eqn:Er;
    simpl in E; [discriminate|].
  inv_ok E.
  destruct (IH g1 e) as (l & Il & C); [|exact Er|].
  { intros l n I. eapply Cl. right. exact I. }
  apply make_label_spec in El. destruct El as (_ & _ & _ & _ & (S & _) & _).
  exists l. split; [now right|].
  now rewrite <- (classify_frame token_NAME ns g g1 l S).
Qed.

Lemma make_states_errors (token_NAME : Z) (ns : TokenNamespace) (h : heap)
    (dfa : list ref) :
  valid h dfa -> closed h dfa ->
  forall todo g e,
    incl todo dfa ->
    make_states token_NAME ns h dfa todo g = Err e ->
    exists state o label next,
      In state todo /\ nth_error h state = Some o /\
      In (label, next) (arcs o) /\ classify token_NAME ns g label = Err e.
Proof.
  intros V Cl. induction todo as [|state todo IH]; intros g e Inc E;
    simpl in E; [discriminate|].
  assert (Is : In state dfa) by (apply Inc; now left).
  assert (Ls : state < List.length h).
  { unfold valid in V. rewrite Forall_forall in V. auto. }
  destruct (deref_valid h state Ls) as (o & Eo). rewrite Eo in E.
  cbn [bind] in E. apply deref_Ok in Eo.
  destruct (make_arcs token_NAME ns h dfa (arcs o) g) as [[arcs0 g1]|e0] eqn:Ea;
    cbn [bind] in E.
  - assert (X : exists arcs1,
               (if isfinal o
                then self <- index h dfa state ;; Ok (arcs0 ++ [(0, self)])
                else Ok arcs0) = Ok arcs1).
    { destruct (isfinal o); [|eauto].
      destruct (index_from_total h state dfa 0 V Ls Is) as (k & Ek).
      unfold index. rewrite Ek. simpl. eauto. }
    destruct X as (arcs1 & X). rewrite X in E. cbn [bind] in E.
    destruct (make_states token_NAME ns h dfa todo g1) as [[states0 g2]|e1]
      eqn:Er; cbn [bind] in E; [discriminate|].
    inv_ok E.
    destruct (IH g1 e) as (st & o' & l & n & I & Eo' & Ia & C); [|exact Er|].
    { intros s I. apply Inc. now right. }
    apply make_arcs_spec in Ea. destruct Ea as ((S & _) & _).
    exists st, o', l, n. split; [now right|]. split; [exact Eo'|].
    split; [exact Ia|].
    now rewrite <- (classify_frame token_NAME ns g g1 l S).
  - inv_ok E.
    destruct (make_arcs_errors token_NAME ns h dfa V (arcs o) g e)
      as (l & Il & C); [|exact Ea|].
    { intros label next I. eapply Cl; eauto. }
    apply in_map_iff in Il. destruct Il as ([l' n] & El & Il).
    simpl in El. subst l'.
    exists state, o, l, n. split; [now left | auto].
Qed.

Lemma make_first_loop_errors (token_NAME : Z) (ns : TokenNamespace)
    (rawfirst : pyset string) :
  forall g first0 e,
    make_first_loop token_NAME ns g rawfirst first0 = Err e ->
    exists label,
      In label rawfirst /\ classify token_NAME ns g label = Err e.
Proof.
  induction rawfirst as [|label rawfirst IH]; intros g first0 e E;
    simpl in E; [discriminate|].
  destruct (_make_label token_NAME ns g label) as [[ilabel g1]|e0] eqn:El;
    simpl in E.
  - destruct (IH _ _ _ E) as (l & Il & C).
    apply make_label_spec in El. destruct El as (_ & _ & _ & _ & (S & _) & _).
    exists l. split; [now right|].
    now rewrite <- (classify_frame token_NAME ns g g1 l S).
  - inv_ok E. exists label. split; [now left | now apply make_label_Err].
Qed.

Lemma number_symbols_mem (names : list string) :
  forall g name,
    In name names \/ dict_mem name (symbol2number g) = true ->
    dict_mem name (symbol2number (number_symbols names g)) = true.
Proof.
  induction names as [|n names IH]; intros g name I; simpl.
  - destruct I as [[]|M]. exact M.
  - apply IH. destruct I as [[<-|I]|M]; [|auto|]; right; simpl;
      rewrite dict_mem_In, dict_keys_set.
    + destruct (dict_mem n (symbol2number g)) eqn:M;
        [now apply dict_mem_In | apply in_or_app; right; now left].
    + apply dict_mem_In in M.
      destruct (dict_mem n (symbol2number g));
        [exact M | apply in_or_app; now left].
Qed.

Lemma number_symbols_mem_inv (names : list string) :
  forall g name,
    dict_mem name (symbol2number (number_symbols names g)) = true ->
    In name names \/ dict_mem name (symbol2number g) = true.
Proof.
  induction names as [|n names IH]; intros g name M; simpl in M; [auto|].
  apply IH in M. destruct M as [I|M]; [left; now right|].
  simpl in M. rewrite dict_mem_In, dict_keys_set in M.
  destruct (dict_mem n (symbol2number g)) eqn:Mn.
  - right. now apply dict_mem_In.
  - apply in_app_or in M. destruct M as [M|[<-|[]]].
    + right. now apply dict_mem_In.
    + left. now left.
Qed.

Lemma table_closed_get (dfas : rule_table) (name : string) (h : heap)
    (dfa : list ref) :
  table_closed dfas -> dict_get name dfas = Some (h, dfa) ->
  valid h dfa /\ closed h dfa.
Proof.
  unfold table_closed. rewrite Forall_forall. intros S G.
  apply dict_get_In in G. exact (S _ G).
Qed.

(** The second loop of [make_grammar] fails on a label alone: a label on an
    arc of a rule, or a symbol of a first set. *)
Lemma assemble_errors (token_NAME : Z) (ns : TokenNamespace)
    (rules : rule_table) (_first : dict string first_slot) :
  table_closed rules ->
  forall names g e,
    (forall name, In name names ->
                  dict_mem name rules = true /\
                  (exists fs, dict_get name _first = Some (Some fs)) /\
                  dict_mem name (symbol2number g) = true) ->
    assemble token_NAME ns rules _first names g = Err e ->
    exists label,
      (rule_label rules label \/
       exists name fs, dict_get name _first = Some (Some fs) /\ In label fs) /\
      classify token_NAME ns g label = Err e.
Proof.
  intros Tc. induction names as [|name names IH]; intros g e Hn E;
    simpl in E; [discriminate|].
  destruct (Hn name (or_introl eq_refl)) as (Mr & (fs & Gf) & Ms).
  unfold dict_mem in Mr.
  destruct (dict_get name rules) as [[h dfa]|] eqn:Gr; [|discriminate].
  destruct (table_closed_get _ _ _ _ Tc Gr) as (V & Cl).
  cbn [from_option bind] in E.
  destruct (make_states token_NAME ns h dfa dfa g) as [[states0 g1]|e0] eqn:Es;
    cbn [bind] in E.
  2:{ inv_ok E.
      destruct (make_states_errors token_NAME ns h dfa V Cl dfa g e
                  (incl_refl _) Es) as (st & o & l & n & I & Eo & Ia & C).
      exists l. split; [|exact C]. left. exists name, h, dfa, st, o, n. auto. }
  apply make_states_spec in Es. destruct Es as ((S1 & _) & _).
  unfold _make_first in E. rewrite Gf in E. cbn [from_option bind] in E.
  destruct (make_first_loop token_NAME ns g1 fs []) as [[first g2]|e1] eqn:Ef;
    cbn [bind] in E.
  2:{ inv_ok E. destruct (make_first_loop_errors _ _ _ _ _ _ Ef) as (l & I & C).
      exists l. split; [right; eauto|].
      now rewrite <- (classify_frame token_NAME ns g g1 l S1). }
  apply make_first_loop_spec in Ef. destruct Ef as ((S2 & _) & _).
  unfold dict_mem in Ms. rewrite <- S1, <- S2 in Ms.
  destruct (dict_get name (symbol2number g2)) as [number|] eqn:Gn;
    [|discriminate].
  cbn [from_option bind] in E.
  destruct (IH (add_dfa g2 states0 number first) e) as (l & Il & C);
    [|exact E|].
  { intros n I. destruct (Hn n (or_intror I)) as (A & B & C).
    split; [exact A|]. split; [exact B|].
    simpl. now rewrite S2, S1. }
  exists l. split; [exact Il|].
  rewrite <- C. symmetry. apply classify_frame. simpl. congruence.
Qed.

(** A first symbol of a rule is on an arc of a rule. *)
Lemma first_of_rule_label (rules : rule_table) (name s : string) :
  first_of rules name s -> rule_label rules s.
Proof.
  induction 1 as [name items label Es I M|name label s R F IH]; [|exact IH].
  unfold start_arcs in Es.
  destruct (dict_get name rules) as [[h dfa]|] eqn:G; [|discriminate].
  destruct (nth_error dfa 0) as [r|] eqn:Er; [|discriminate].
  destruct (nth_error h r) as [o|] eqn:Eo; [|discriminate].
  inv_ok Es. apply in_map_iff in I. destruct I as ([l n] & El & I).
  simpl in El. subst l.
  exists name, h, dfa, r, o, n. split; [exact G|].
  split; [eapply nth_error_In; eauto | auto].
Qed.

(** [make_grammar] on a table of well-formed rules fails on grammar errors
    and on labels of the rules that cannot be classified, and on nothing
    else. *)
Lemma make_grammar_errors (token_NAME : Z) (ns : TokenNamespace)
    (rules : rule_table) (g : Grammar) (e : exn) :
  table_wf rules -> table_startable rules -> table_closed rules ->
  make_grammar token_NAME ns rules g = Err e ->
  grammar_error e \/
  exists label,
    rule_label rules label /\
    classify token_NAME ns (number_symbols (sort (dict_keys rules)) g) label
    = Err e.
Proof.
  intros Wt St Tc E. unfold make_grammar in E.
  destruct (_addfirstsets rules []) as [_first|e0] eqn:Ea; cbn [bind] in E.
  - right.
    destruct (addfirstsets_solves _ _ Wt Ea) as (C & K & _).
    assert (Hn : forall name,
               In name (sort (dict_keys rules)) ->
               dict_mem name rules = true /\
               (exists fs, dict_get name _first = Some (Some fs)) /\
               dict_mem name
                 (symbol2number (number_symbols (sort (dict_keys rules)) g))
               = true).
    { intros name I.
      assert (Ir : In name (dict_keys rules))
        by (eapply Permutation_in; [apply sort_perm | exact I]).
      split; [now apply dict_mem_In|]. split.
      - apply K. now apply dict_mem_In.
      - apply number_symbols_mem. now left. }
    destruct (assemble_errors token_NAME ns rules _first Tc _ _ _ Hn E)
      as (l & [R|(name & fs & G & I)] & Cl); [eauto|].
    exists l. split; [|exact Cl].
    destruct (C _ _ G) as (items & _ & _ & _ & _ & _ & _ & Snd & _).
    eapply first_of_rule_label. apply Snd. exact I.
  - inv_ok E. left. exact (proj2 (addfirstsets_errors _ _ Wt St Ea)).
Qed.

Lemma convert_rules_errors (fuel : nat) (fragments : list NFA) :
  forall rules s e,
    convert_rules fuel fragments rules s = Err e -> e = OutOfFuel.
Proof.
  induction fragments as [|nfa fragments IH]; intros rules s e E; simpl in E;
    [discriminate|].
  destruct (make_dfas_spec fuel nfa)
    as [F|(h & states0 & x & o & F & _ & Inv & _)]; rewrite F in E;
    cbn [bind] in E; [now inv_ok E|].
  destruct (dfa_inv_simplify _ _ _ Inv) as (V & _).
  destruct (simplify_loop_total (S (List.length states0)) h states0 V
              (Nat.lt_succ_diag_r _)) as (h' & dfas' & Es & _).
  unfold _simplify_dfas in E. rewrite Es in E. cbn [bind] in E. eauto.
Qed.

Lemma convert_rules_tables (fuel : nat) (fragments : list NFA)
    (rules : rule_table) (s : option string) :
  convert_rules fuel fragments [] None = Ok (rules, s) ->
  table_wf rules /\ table_startable rules /\ table_closed rules.
Proof.
  intros E.
  assert (X : forall name rule, In (name, rule) rules ->
                                exists nfa, rule_ok nfa rule).
  { intros name rule I.
    destruct (convert_rules_keys _ _ _ _ _ _ E (NoDup_nil _)) as (ND & _).
    apply (In_dict_get _ _ _ ND) in I.
    destruct (convert_rules_rules _ _ _ _ _ _ E name rule I)
      as [(G0 & _)|(pre & nfa & post & _ & _ & _ & R)]; [discriminate|].
    eauto. }
  unfold table_wf, table_startable, table_closed.
  rewrite !Forall_forall.
  split; [|split]; intros [name rule] I; destruct (X _ _ I)
    as (nfa & V & ND & W & C & _ & start0 & E0 & _); simpl.
  - exact W.
  - exists start0.
    assert (L : start0 < List.length (fst rule)).
    { unfold valid in V. rewrite Forall_forall in V.
      apply V. eapply nth_error_In; eauto. }
    destruct (deref_valid _ _ L) as (o & Eo). apply deref_Ok in Eo. eauto.
  - auto.
Qed.

(** The labels on the arcs of the minimised automaton of a fragment are
    labels on the arcs of the fragment. *)
Lemma compiled_rule_labels (fuel : nat) (nfa : NFA) (h : heap)
    (states : list ref) (h' : heap) (dfas' : list ref) (r : ref)
    (o' : DFAState) (label : string) (next : ref) :
  _make_dfas fuel nfa = Ok (h, states) ->
  _simplify_dfas h states = Ok (h', dfas') ->
  nth_error h' r = Some o' -> In (label, next) (arcs o') ->
  exists state y, In (Some label, y) (arcs_of nfa state).
Proof.
  intros E E' Er Ia.
  destruct (make_dfas_Ok _ _ _ _ E) as (o0 & Inv & Done & _).
  destruct (dfa_inv_simplify _ _ _ Inv) as (V & ND & _).
  destruct (simplify_dfas_inv _ _ _ _ V ND E') as (_ & _ & _ & _ & Sh & _).
  pose proof Inv as (_ & Sets & _ & Wf & _).
  assert (Lr : r < List.length h).
  { rewrite (Forall2_length Sh). eapply nth_error_Some_lt; eauto. }
  destruct (deref_valid _ _ Lr) as (o & Eo). apply deref_Ok in Eo.
  destruct (Forall2_nth_error _ _ _ _ _ Sh Eo) as (o'' & Eo'' & _ & _ & Keys).
  assert (o'' = o') by congruence. subst o''.
  assert (Il : In label (dict_keys (arcs o))).
  { rewrite <- Keys. apply in_map_iff. exists (label, next). auto. }
  apply in_map_iff in Il. destruct Il as ([l t] & El & Il).
  simpl in El. subst l.
  pose proof (dfa_arc_spec fuel nfa h states r o label Inv (Done r Lr) Eo) as A.
  assert (G : dict_get label (arcs o) = Some t).
  { apply In_dict_get; [|exact Il].
    unfold wf_arcs in Wf. rewrite Forall_forall in Wf.
    apply Wf. eapply nth_error_In; eauto. }
  rewrite G in A. destruct A as (ot & Et & Q).
  destruct (Sets ot (nth_error_In _ _ Et)) as (_ & Ne & _).
  destruct (nfaset ot) as [|x rest] eqn:En; [congruence|].
  destruct (proj1 (Q x) (or_introl eq_refl)) as (m & y & _ & Iy & _).
  eauto.
Qed.

Lemma convert_rules_labels (fuel : nat) (fragments : list NFA) :
  forall rules0 s0 rules s,
    convert_rules fuel fragments rules0 s0 = Ok (rules, s) ->
    forall label,
      rule_label rules label ->
      rule_label rules0 label \/ fragment_label fragments label.
Proof.
  induction fragments as [|nfa fragments IH]; intros rules0 s0 rules s E;
    simpl in E.
  - inv_ok E. auto.
  - inv_bind E. destruct x as [h dfas0]. inv_bind E. destruct x as [h' dfas1].
    intros label R.
    destruct (IH _ _ _ _ E label R) as [R1|(n & st & y & I & Ia)].
    + destruct R1 as (name & h1 & dfa1 & r & o & next & G & Ir & Eo & Ia).
      destruct (String.eqb_spec name (from_rule nfa)) as [->|Ne].
      * rewrite dict_get_set_same in G. inv_ok G. right.
        destruct (compiled_rule_labels _ _ _ _ _ _ _ _ _ _ E0 E1 Eo Ia)
          as (st & y & Iy).
        exists nfa, st, y. split; [now left | exact Iy].
      * rewrite dict_get_set_other in G by exact Ne. left.
        exists name, h1, dfa1, r, o, next. auto.
    + right. exists n, st, y. split; [now right | exact Ia].
Qed.

(** What [generate_grammar] raises: the budget of the subset construction,
    the errors of the first-set analysis, or what a label on an arc of a
    fragment stands for. *)
Lemma generate_grammar_errors (token_NAME : Z) (ns : TokenNamespace)
    (fuel : nat) (fragments : list NFA) (e : exn) :
  generate_grammar token_NAME ns fuel fragments = Err e ->
  (e = OutOfFuel /\
   convert_rules fuel fragments [] None = Err OutOfFuel) \/
  grammar_error e \/
  exists label,
    fragment_label fragments label /\
    label_failure ns (map from_rule fragments) label e.
Proof.
  intros E. unfold generate_grammar in E.
  destruct (convert_rules fuel fragments [] None) as [[rules s]|e0] eqn:Ec;
    cbn [bind] in E.
  - right. destruct (convert_rules_tables _ _ _ _ Ec) as (Wt & St & Tc).
    destruct (make_grammar_errors _ _ _ _ _ Wt St Tc E) as [G|(l & R & C)];
      [now left | right].
    assert (M : forall name,
               dict_mem name
                 (symbol2number
                    (number_symbols (sort (dict_keys rules)) (Grammar_new s)))
               = true <-> In name (map from_rule fragments)).
    { destruct (convert_rules_keys _ _ _ _ _ _ Ec (NoDup_nil _)) as (_ & K).
      intros name. split.
      - intros M. apply number_symbols_mem_inv in M.
        destruct M as [I|M]; [|discriminate].
        apply (Permutation_in _ (sort_perm _)) in I.
        apply K in I. destruct I as [[]|I]. exact I.
      - intros I. apply number_symbols_mem. left.
        eapply Permutation_in; [apply Permutation_sym, sort_perm|].
        apply K. now right. }
    exists l. split.
    + destruct (convert_rules_labels _ _ _ _ _ _ Ec l R) as [R0|F];
        [|exact F].
      destruct R0 as (name & h & dfa & r & o & next & G & _). discriminate.
    + apply (classify_failure token_NAME ns _ _ _ _ M C).
  - inv_ok E. left. pose proof (convert_rules_errors _ _ _ _ _ Ec). subst e.
    auto.
Qed.

(** X19.  What [generate_grammar] can fail on.  If [generate_grammar] raises,
    then the subset construction ran out of its recursion budget, or the
    first-set analysis raised one of its two [ValueError]s (left recursion,
    ambiguous first set), or the error is the one of a label that is on an
    arc of one of the fragments and cannot get an id: an [IndexError] for
    an empty label or an empty string literal, an [AssertionError] for a
    name that is neither a rule nor a token and for a text that is neither
    a name nor quoted, what [eval] raises for the text, or what the token
    namespace raises for the operator.  The compiler raises nothing else:
    no [ValueError] of [list.index], no [KeyError] for a rule or a first
    set, no [IndexError] for an automaton without states. *)
Theorem generate_grammar_fails_only_on_bad_grammars (token_NAME : Z)
    (ns : TokenNamespace) (fuel : nat) (fragments : list NFA) (e : exn) :
  generate_grammar token_NAME ns fuel fragments = Err e ->
  e = OutOfFuel \/
  (exists name, e = ValueError_recursion name) \/
  (exists name symbol label other,
      e = ValueError_ambiguous name symbol label other) \/
  (exists nfa state next label,
      In nfa fragments /\ In (Some label, next) (arcs_of nfa state) /\
      label_failure ns (map from_rule fragments) label e).
Proof.
  intros E.
  destruct (generate_grammar_errors _ _ _ _ _ E)
    as [(-> & _)|[[R|A]|(l & (nfa & st & y & I & Ia) & F)]].
  - now left.
  - right. now left.
  - right. right. now left.
  - right. right. right. exists nfa, st, y, l. auto.
Qed.

Lemma generate_grammar_fails_only_on_bad_grammars_witness :
  AssertionError "b" = OutOfFuel \/
  (exists name, AssertionError "b" = ValueError_recursion name) \/
  (exists name symbol label other,
      AssertionError "b" = ValueError_ambiguous name symbol label other) \/
  (exists nfa state next label,
      In nfa [Samples.a_is_b] /\
      In (Some label, next) (arcs_of nfa state) /\
      label_failure Samples.python_tokens (map from_rule [Samples.a_is_b])
        label (AssertionError "b")).
Proof.
  apply (generate_grammar_fails_only_on_bad_grammars
           Samples.NAME Samples.python_tokens 20 [Samples.a_is_b]).
  vm_compute. reflexivity.
Defined.

(** ** The entries of [grammar.dfas] *)

Lemma add_dfa_le (g : Grammar) (table : list (list (nat * nat))) (number : Z)
    (first : pyset nat) :
  grammar_le g (add_dfa g table number first).
Proof.
  unfold grammar_le. simpl. split; [reflexivity|].
  split; [reflexivity|]. split; [|now intros [n|t|v]].
  exists []. now rewrite app_nil_r.
Qed.

(** The second loop of [make_grammar] writes to [dfas] under the numbers of
    the names it goes through, and nowhere else. *)
Lemma assemble_dfas_other (token_NAME : Z) (ns : TokenNamespace)
    (rules : rule_table) (_first : dict string first_slot) (number : Z) :
  forall names g gf,
    assemble token_NAME ns rules _first names g = Ok gf ->
    (forall name, In name names ->
                  dict_get name (symbol2number g) <> Some number) ->
    dict_get number (dfas gf) = dict_get number (dfas g).
Proof.
  induction names as [|name names IH]; intros g gf E N; simpl in E.
  - now inv_ok E.
  - inv_bind E. destruct x as [h dfa]. inv_bind E. destruct x as [table g1].
    inv_bind E. destruct x as [first g2]. inv_bind E. rename x into number0.
    apply make_states_spec in E1. destruct E1 as ((S1 & _) & _ & _ & D1 & _).
    unfold _make_first in E2. inv_bind E2. inv_bind E2.
    apply make_first_loop_spec in E2.
    destruct E2 as ((S2 & _) & _ & _ & D2 & _).
    apply IH in E.
    + rewrite E. simpl. rewrite dict_get_set_other, D2, D1; [reflexivity|].
      intros ->. apply (N name); [now left|].
      destruct (dict_get name (symbol2number g2)) eqn:G; [|discriminate].
      simpl in E3. inv_ok E3. now rewrite <- S1, <- S2.
    + intros n I. simpl. rewrite S2, S1. apply N. now right.
Qed.

(** The table and the first set of every rule, as [make_grammar] files
    them. *)
Lemma assemble_entries (token_NAME : Z) (ns : TokenNamespace)
    (rules : rule_table) (_first : dict string first_slot) :
  forall names g gf,
    assemble token_NAME ns rules _first names g = Ok gf ->
    NoDup names ->
    (forall n1 n2 number,
        In n1 names -> In n2 names ->
        dict_get n1 (symbol2number g) = Some number ->
        dict_get n2 (symbol2number g) = Some number -> n1 = n2) ->
    exists tables,
      states gf = states g ++ tables /\
      forall k name,
        nth_error names k = Some name ->
        exists number table first rawfirst,
          dict_get name (symbol2number g) = Some number /\
          nth_error tables k = Some table /\
          dict_get number (dfas gf) = Some (table, first) /\
          dict_get name _first = Some (Some rawfirst) /\
          NoDup first /\
          (forall label, In label rawfirst ->
                         exists i, known token_NAME ns gf label i /\ In i first) /\
          (forall i, In i first ->
                     exists label, In label rawfirst /\
                                   known token_NAME ns gf label i).
Proof.
  induction names as [|name names IH]; intros g gf E ND Inj; simpl in E.
  - inv_ok E. exists []. rewrite app_nil_r. split; [reflexivity|].
    intros [|k] name; discriminate.
  - inversion ND as [|? ? Nn ND']; subst.
    inv_bind E. destruct x as [h dfa]. inv_bind E. destruct x as [table g1].
    inv_bind E. destruct x as [first g2]. inv_bind E. rename x into number.
    apply make_states_spec in E1. destruct E1 as ((S1 & _) & _ & St1 & _).
    unfold _make_first in E2. inv_bind E2. inv_bind E2. rename x0 into rawfirst.
    apply make_first_loop_spec in E2.
    destruct E2 as (Le2 & _ & St2 & _ & NDf & _ & Fwd & Bwd & _).
    pose proof Le2 as (S2 & _).
    set (g3 := add_dfa g2 table number first) in *.
    assert (S3 : symbol2number g3 = symbol2number g)
      by (simpl; now rewrite S2, S1).
    assert (Gn : dict_get name (symbol2number g) = Some number).
    { rewrite <- S1, <- S2.
      destruct (dict_get name (symbol2number g2)); [|discriminate].
      simpl in E3. now inv_ok E3. }
    assert (Gr : dict_get name _first = Some (Some rawfirst)).
    { destruct (dict_get name _first) as [[fs|]|]; simpl in E1;
        try discriminate; inv_ok E1; simpl in E4;
        [now inv_ok E4 | discriminate]. }
    pose proof (assemble_spec token_NAME ns _ _ _ _ _ E) as (Le3 & _).
    pose proof (assemble_dfas_other token_NAME ns _ _ number _ _ _ E) as Do.
    destruct (IH _ _ E ND') as (tables & St & Ent).
    { intros n1 n2 z I1 I2. rewrite S3. intros G1 G2.
      apply (Inj n1 n2 z); auto; now right. }
    exists (table :: tables). split.
    + rewrite St. simpl. now rewrite St2, St1, <- app_assoc.
    + intros [|k] n En; simpl in En.
      * inv_ok En. exists number, table, first, rawfirst.
        split; [exact Gn|]. split; [reflexivity|]. split.
        { rewrite Do; [simpl; apply dict_get_set_same|].
          intros n' I G. rewrite S3 in G.
          assert (n' = n) by (apply (Inj n' n number); auto; [now right | now left]).
          subst n'. contradiction. }
        split; [exact Gr|]. split; [apply NDf; constructor|].
        assert (Le : grammar_le g2 gf).
        { eapply grammar_le_trans; [apply add_dfa_le | exact Le3]. }
        split.
        -- intros label I. destruct (Fwd label I) as (i & K & Ii).
           exists i. split; [eapply known_le; eauto | exact Ii].
        -- intros i I. destruct (Bwd i I) as [[]|(label & Il & K)].
           exists label. split; [exact Il | eapply known_le; eauto].
      * destruct (Ent k n En) as (z & t & f & r & G1 & rest).
        exists z, t, f, r. split; [now rewrite <- S3 | exact rest].
Qed.

(** X20.  The entries of [grammar.dfas].  In the grammar that [make_grammar]
    returns for a grammar without symbols and tables: the rule that is
    [k]-th in the sorted order has, under its number [256 + k], the pair of
    its table (the [k]-th element of [states]) and its first set; this
    first set has every id once, and its ids are exactly the label ids of
    the symbols of the first set that [_addfirstsets] computed for the
    rule. *)
Theorem dfas_entries_pair_tables_with_first_sets (token_NAME : Z)
    (ns : TokenNamespace) (rules : rule_table) (g gf : Grammar)
    (k : nat) (name : string) :
  NoDup (dict_keys rules) ->
  symbol2number g = [] -> number2symbol g = [] -> states g = [] ->
  make_grammar token_NAME ns rules g = Ok gf ->
  nth_error (sort (dict_keys rules)) k = Some name ->
  exists _first rawfirst table first,
    _addfirstsets rules [] = Ok _first /\
    dict_get name _first = Some (Some rawfirst) /\
    nth_error (states gf) k = Some table /\
    dict_get (256 + Z.of_nat k)%Z (dfas gf) = Some (table, first) /\
    NoDup first /\
    (forall label, In label rawfirst ->
                   exists i, known token_NAME ns gf label i /\ In i first) /\
    (forall i, In i first ->
               exists label, In label rawfirst /\
                             known token_NAME ns gf label i).
Proof.
  intros ND S2N N2S Sg E Ek. unfold make_grammar in E.
  destruct (_addfirstsets rules []) as [_first|] eqn:Ea; [|discriminate].
  cbn [bind] in E.
  set (names := sort (dict_keys rules)) in *.
  assert (P : Permutation names (dict_keys rules)) by apply sort_perm.
  assert (NDn : NoDup names)
    by (eapply Permutation_NoDup; [symmetry; exact P | exact ND]).
  set (numbers := map symbol_number (seq 0 (List.length names))).
  assert (Lz : List.length numbers = List.length names)
    by (unfold numbers; now rewrite length_map, length_seq).
  destruct (number_symbols_tables names [] g S2N N2S NDn) as (T1 & _).
  simpl in T1. fold numbers in T1.
  set (g0 := number_symbols names g) in *.
  assert (K1 : dict_keys (combine names numbers) = names)
    by (apply combine_keys; lia).
  assert (Gk : forall j n, nth_error names j = Some n ->
                           dict_get n (symbol2number g0) =
                           Some (256 + Z.of_nat j)%Z).
  { intros j n En.
    assert (Ez : nth_error numbers j = Some (256 + Z.of_nat j)%Z).
    { unfold numbers. rewrite nth_error_map.
      pose proof (nth_error_Some_lt _ _ _ En) as L.
      rewrite (nth_error_nth' _ 0) by (rewrite length_seq; exact L).
      rewrite seq_nth by exact L. reflexivity. }
    rewrite T1. apply In_dict_get; [now rewrite K1|].
    eapply nth_error_In. apply combine_nth_error; eauto. }
  destruct (assemble_entries token_NAME ns _ _ _ _ _ E NDn)
    as (tables & St & Ent).
  { intros n1 n2 z I1 I2 G1 G2.
    apply In_nth_error in I1, I2.
    destruct I1 as (j1 & E1), I2 as (j2 & E2).
    rewrite (Gk _ _ E1) in G1. rewrite (Gk _ _ E2) in G2.
    assert (Hz : (256 + Z.of_nat j1)%Z = (256 + Z.of_nat j2)%Z) by congruence.
    assert (j1 = j2) by lia. subst j2. congruence. }
  destruct (Ent k name Ek) as (z & table & first & rawfirst & Gz & Et & rest).
  rewrite (Gk _ _ Ek) in Gz.
  assert (z = (256 + Z.of_nat k)%Z) by congruence. subst z. clear Gz.
  exists _first, rawfirst, table, first. split; [reflexivity|].
  destruct rest as (Gd & Gr & rest). split; [exact Gr|]. split.
  - destruct (number_symbols_frame names g) as (_ & _ & S0 & _).
    fold g0 in S0. rewrite St, S0, Sg. exact Et.
  - split; [exact Gd | exact rest].
Qed.

Lemma dfas_entries_pair_tables_with_first_sets_witness :
  exists gf _first rawfirst table first,
    generate_grammar Samples.NAME Samples.python_tokens 20
      [Samples.is_x "b"; Samples.a_is_b] = Ok gf /\
    _addfirstsets Samples.b_then_a_rules [] = Ok _first /\
    dict_get "b" _first = Some (Some rawfirst) /\
    nth_error (states gf) 1 = Some table /\
    dict_get 257%Z (dfas gf) = Some (table, first).
Proof.
  eexists.
  assert (E : make_grammar Samples.NAME Samples.python_tokens
                Samples.b_then_a_rules (Grammar_new (Some "b")) = Ok _)
    by (vm_compute; reflexivity).
  assert (ND : NoDup (dict_keys Samples.b_then_a_rules)).
  { repeat constructor; simpl; intuition discriminate. }
  destruct (dfas_entries_pair_tables_with_first_sets
              Samples.NAME Samples.python_tokens Samples.b_then_a_rules
              (Grammar_new (Some "b")) _ 1 "b" ND eq_refl eq_refl eq_refl E
              eq_refl)
    as (_first & rawfirst & table & first & A & B & C & D & _).
  exists _first, rawfirst, table, first.
  split; [vm_compute; reflexivity|]. auto.
Defined.

(** ** Subset constructor: the number of states *)

Lemma dfa_loop_range (nfa : NFA) (cfuel : nat)
    (n := List.length (nfa_arcs nfa)) :
  (forall state label next, In (label, next) (arcs_of nfa state) -> next < n) ->
  forall fuel h states0 i h' states',
    dfa_loop fuel cfuel nfa h states0 i = Ok (h', states') ->
    (forall o, In o h -> Forall (fun x => x < n) (nfaset o)) ->
    (forall o, In o h' -> Forall (fun x => x < n) (nfaset o)).
Proof.
  intros Wf.
  induction fuel as [|fuel IH]; intros h states0 i h' states' E R;
    simpl in E; [discriminate|].
  destruct (nth_error states0 i) as [state|]; [|now inv_ok E].
  inv_bind E. rename x into o. inv_bind E. rename x into arcs0.
  inv_bind E. destruct x as [h1 states1].
  eapply IH; [exact E|].
  eapply link_arcs_range; [exact E2 | | exact R].
  eapply move_sets_range; [exact Wf | exact E1 | intros l s []].
Qed.

(** X21.  The subset construction ends, and the number of its states is
    bounded.  For an NFA fragment with [n] states whose arcs lead to states
    of the fragment, [_make_dfas] returns (a budget above [2 ^ n] is never
    used up), and the list it returns has at least one and at most [2 ^ n]
    states. *)
Theorem make_dfas_ends_with_boundedly_many_states (nfa : NFA) (fuel : nat) :
  nfa_wf nfa -> 2 ^ List.length (nfa_arcs nfa) < fuel ->
  exists h states0,
    _make_dfas fuel nfa = Ok (h, states0) /\
    1 <= List.length states0 <= 2 ^ List.length (nfa_arcs nfa).
Proof.
  intros Wf L.
  destruct (make_dfas_terminates nfa fuel Wf L) as (h & states0 & E).
  exists h, states0. split; [exact E|].
  destruct (make_dfas_Ok _ _ _ _ E) as (o & Inv & _ & H0 & _).
  pose proof Inv as (Es & _).
  assert (Ll : List.length states0 = List.length h)
    by (rewrite Es; apply length_seq).
  split.
  - rewrite Ll. apply nth_error_Some_lt in H0. lia.
  - rewrite Ll. apply (dfa_inv_bound _ _ _ _ Inv).
    destruct Wf as (Ls & Wa).
    unfold _make_dfas, closure in E. inv_bind E. rename x into start.
    inv_bind E. destruct x as [h0 st].
    eapply dfa_loop_range; [exact Wa | exact E |].
    unfold DFAState_new in E1. destruct start as [|s0 start]; [discriminate|].
    inv_ok E1. intros o' [<-|[]]. simpl.
    eapply addclosure_range; [exact Wa | exact E0 | exact Ls | constructor].
Qed.

Lemma make_dfas_ends_with_boundedly_many_states_witness :
  exists h states0,
    _make_dfas 5 (Samples.is_x "b") = Ok (h, states0) /\
    1 <= List.length states0 <= 2 ^ 2.
Proof.
  apply (make_dfas_ends_with_boundedly_many_states (Samples.is_x "b") 5).
  - split; [simpl; lia|].
    intros state label next I. unfold arcs_of in I. simpl in I.
    destruct state as [|[|state]]; simpl in I.
    + destruct I as [I|[]]. inv_ok I. simpl. lia.
    + destruct I.
    + destruct state; destruct I.
  - simpl. lia.
Defined.

(** ** The tables and the rules *)

Lemma Forall2_nth {A B : Type} (R : A -> B -> Prop) (l : list A) (m : list B)
    (n : nat) (x : A) :
  Forall2 R l m -> nth_error l n = Some x ->
  exists y, nth_error m n = Some y /\ R x y.
Proof.
  intros F. revert n. induction F as [|a b l m Rab F IH]; intros [|n] E;
    simpl in E; try discriminate.
  - inv_ok E. exists b. auto.
  - apply IH. exact E.
Qed.

Lemma Forall2_nth_r {A B : Type} (R : A -> B -> Prop) (l : list A) (m : list B)
    (n : nat) (y : B) :
  Forall2 R l m -> nth_error m n = Some y ->
  exists x, nth_error l n = Some x /\ R x y.
Proof.
  intros F. revert n. induction F as [|a b l m Rab F IH]; intros [|n] E;
    simpl in E; try discriminate.
  - inv_ok E. exists a. auto.
  - apply IH. exact E.
Qed.

Lemma Forall2_In_l {A B : Type} (R : A -> B -> Prop) (l : list A) (m : list B)
    (x : A) :
  Forall2 R l m -> In x l -> exists y, In y m /\ R x y.
Proof.
  induction 1 as [|a b l m Rab F IH]; intros I; [destruct I|].
  destruct I as [<-|I].
  - exists b. split; [now left | exact Rab].
  - destruct (IH I) as (y & Iy & Ry). exists y. split; [now right | exact Ry].
Qed.

(** In a list without equal states, [index] is the position. *)
Lemma index_position (h : heap) (dfa : list ref) (p : nat) (x : ref) :
  irredundant h dfa -> NoDup dfa -> nth_error dfa p = Some x ->
  index h dfa x = Ok p.
Proof.
  intros Irr ND Ep. unfold index.
  rewrite (index_from_position h x dfa 0 p Ep); [reflexivity|].
  intros m e L Em. split.
  - intros ->. rewrite NoDup_nth_error in ND.
    assert (m = p); [|lia].
    apply ND; [eapply nth_error_Some_lt; eauto | congruence].
  - eapply Irr; eauto.
Qed.

Section TableOfARule.
Variable token_NAME : Z.
Variable ns : TokenNamespace.
Variable gf : Grammar.
Variable h : heap.
Variable dfa : list ref.
Variable table : list (list (nat * nat)).

Hypothesis Ids : label_inv gf.
Hypothesis V : valid h dfa.
Hypothesis ND : NoDup dfa.
Hypothesis W : wf_arcs h.
Hypothesis C : closed h dfa.
Hypothesis Irr : irredundant h dfa.
Hypothesis Ft : Forall2 (state_entry token_NAME ns gf h dfa) dfa table.

Lemma known_positive (label : string) (i : nat) :
  known token_NAME ns gf label i -> i <> 0.
Proof.
  intros (k & entry & _ & Ek). destruct Ids as (_ & Rng & _).
  apply Rng in Ek. lia.
Qed.

(** The entries of the state at position [p]. *)
Lemma table_entries (p : nat) (r : ref) :
  nth_error dfa p = Some r ->
  exists o arcs0 entries,
    nth_error h r = Some o /\ nth_error table p = Some entries /\
    Forall2 (arc_entry token_NAME ns gf h dfa) (arcs o) arcs0 /\
    entries = (if isfinal o then arcs0 ++ [(0, p)] else arcs0).
Proof.
  intros Ep. destruct (Forall2_nth _ _ _ _ _ Ft Ep)
    as (entries & Et & o & arcs0 & Eo & Fa & Fin).
  exists o, arcs0, entries. split; [exact Eo|]. split; [exact Et|].
  split; [exact Fa|].
  destruct (isfinal o); [|exact Fin].
  destruct Fin as (self & Es & ->).
  rewrite (index_position _ _ _ _ Irr ND Ep) in Es. now inv_ok Es.
Qed.

Lemma table_final (p : nat) (r : ref) (o : DFAState)
    (entries : list (nat * nat)) :
  nth_error dfa p = Some r -> nth_error h r = Some o ->
  nth_error table p = Some entries ->
  (isfinal o = true <-> In (0, p) entries).
Proof.
  intros Ep Eo Et.
  destruct (table_entries p r Ep) as (o' & arcs0 & entries' & Eo' & Et' & Fa & ->).
  assert (o' = o) by congruence. subst o'.
  assert (entries = if isfinal o then arcs0 ++ [(0, p)] else arcs0)
    by congruence.
  subst entries. clear Et Et'.
  assert (N : ~ In (0, p) arcs0).
  { intros I. destruct (Forall2_In_r _ _ _ _ Fa I) as (arc & _ & K & _).
    simpl in K. now apply known_positive in K. }
  destruct (isfinal o); split; try congruence; try contradiction.
  intros _. apply in_or_app. right. now left.
Qed.

(** An arc of a state and its entry. *)
Lemma table_arc (p : nat) (r : ref) (o : DFAState) (label : string) (t : ref) :
  nth_error dfa p = Some r -> nth_error h r = Some o ->
  dict_get label (arcs o) = Some t ->
  exists entries i pt,
    nth_error table p = Some entries /\ In (i, pt) entries /\
    known token_NAME ns gf label i /\ nth_error dfa pt = Some t.
Proof.
  intros Ep Eo Ga.
  destruct (table_entries p r Ep) as (o' & arcs0 & entries & Eo' & Et & Fa & ->).
  assert (o' = o) by congruence. subst o'.
  apply dict_get_In in Ga.
  destruct (Forall2_In_l _ _ _ _ Fa Ga) as ([i tt] & Ie & K & Ei).
  simpl in K, Ei.
  assert (It : In t dfa).
  { eapply C; [eapply nth_error_In; exact Ep | exact Eo | exact Ga]. }
  apply In_nth_error in It. destruct It as (pt & Ept).
  rewrite (index_position _ _ _ _ Irr ND Ept) in Ei. inv_ok Ei.
  eexists. exists i, tt. split; [exact Et|]. split; [|auto].
  destruct (isfinal o); [apply in_or_app; now left | exact Ie].
Qed.

Lemma table_entry (p : nat) (r : ref) (o : DFAState)
    (entries : list (nat * nat)) (i t : nat) :
  nth_error dfa p = Some r -> nth_error h r = Some o ->
  nth_error table p = Some entries -> In (i, t) entries -> i <> 0 ->
  exists label next,
    dict_get label (arcs o) = Some next /\
    known token_NAME ns gf label i /\ nth_error dfa t = Some next.
Proof.
  intros Ep Eo Et Ie Ni.
  destruct (table_entries p r Ep) as (o' & arcs0 & entries' & Eo' & Et' & Fa & ->).
  assert (o' = o) by congruence. subst o'.
  assert (entries = if isfinal o then arcs0 ++ [(0, p)] else arcs0)
    by congruence.
  subst entries. clear Et Et'.
  assert (I0 : In (i, t) arcs0).
  { destruct (isfinal o); [|exact Ie].
    apply in_app_or in Ie. destruct Ie as [Ie|[Ie|[]]]; [exact Ie|].
    inv_ok Ie. contradiction. }
  destruct (Forall2_In_r _ _ _ _ Fa I0) as ([label next] & Ia & K & Ei).
  simpl in K, Ei. exists label, next.
  split.
  - apply In_dict_get; [|exact Ia].
    unfold wf_arcs in W. rewrite Forall_forall in W.
    apply W. eapply nth_error_In; eauto.
  - split; [exact K|].
    assert (It : In next dfa).
    { eapply C; [eapply nth_error_In; exact Ep | exact Eo | exact Ia]. }
    apply In_nth_error in It. destruct It as (pt & Ept).
    rewrite (index_position _ _ _ _ Irr ND Ept) in Ei. now inv_ok Ei.
Qed.

Lemma deref_dfa (p : nat) (r : ref) :
  nth_error dfa p = Some r -> exists o, nth_error h r = Some o.
Proof.
  intros Ep. assert (L : r < List.length h).
  { unfold valid in V. rewrite Forall_forall in V.
    apply V. eapply nth_error_In; eauto. }
  destruct (deref_valid h r L) as (o & Eo). apply deref_Ok in Eo. eauto.
Qed.

(** A run of the automaton is a path in the table... *)
Lemma table_run_of_dfa_run (w : list string) :
  forall p r r',
    nth_error dfa p = Some r -> run_dfa h r w = Some r' ->
    exists ids q,
      Forall2 (known token_NAME ns gf) w ids /\
      table_run table p ids q /\ nth_error dfa q = Some r'.
Proof.
  induction w as [|label w IH]; intros p r r' Ep R; simpl in R.
  - inv_ok R. exists [], p. split; [constructor|]. split; [constructor | exact Ep].
  - destruct (nth_error h r) as [o|] eqn:Eo; [|discriminate].
    destruct (dict_get label (arcs o)) as [t|] eqn:Ga; [|discriminate].
    destruct (table_arc p r o label t Ep Eo Ga)
      as (entries & i & pt & Et & Ie & K & Ept).
    destruct (IH pt t r' Ept R) as (ids & q & Fk & Tr & Eq).
    exists (i :: ids), q. split; [now constructor|]. split; [|exact Eq].
    eapply table_step; eauto. eapply known_positive; eauto.
Qed.

(** ... and a path in the table is a run of the automaton. *)
Lemma dfa_run_of_table_run (p : nat) (ids : list nat) (q : nat) :
  table_run table p ids q ->
  forall r,
    nth_error dfa p = Some r ->
    exists w r',
      Forall2 (known token_NAME ns gf) w ids /\
      run_dfa h r w = Some r' /\ nth_error dfa q = Some r'.
Proof.
  induction 1 as [p|p entries i t ids q Et Ie Ni Tr IH]; intros r Ep.
  - exists [], r. split; [constructor|]. split; [reflexivity | exact Ep].
  - destruct (deref_dfa p r Ep) as (o & Eo).
    destruct (table_entry p r o entries i t Ep Eo Et Ie Ni)
      as (label & next & Ga & K & Ept).
    destruct (IH next Ept) as (w & r' & Fk & R & Eq).
    exists (label :: w), r'. split; [now constructor|]. split; [|exact Eq].
    simpl. now rewrite Eo, Ga.
Qed.

Lemma table_accepts_iff (start0 : ref) (ids : list nat) :
  nth_error dfa 0 = Some start0 ->
  (table_accepts table ids <->
   exists w, dfa_accepts h start0 w = true /\
             Forall2 (known token_NAME ns gf) w ids).
Proof.
  intros E0. split.
  - intros (q & entries & Tr & Et & Ia).
    destruct (dfa_run_of_table_run _ _ _ Tr start0 E0) as (w & r' & Fk & R & Eq).
    exists w. split; [|exact Fk].
    unfold dfa_accepts. rewrite R.
    destruct (deref_dfa q r' Eq) as (o & Eo). rewrite Eo.
    now apply (table_final q r' o entries Eq Eo Et).
  - intros (w & A & Fk). unfold dfa_accepts in A.
    destruct (run_dfa h start0 w) as [r'|] eqn:R; [|discriminate].
    destruct (nth_error h r') as [o|] eqn:Eo; [|discriminate].
    destruct (table_run_of_dfa_run w 0 start0 r' E0 R)
      as (ids' & q & Fk' & Tr & Eq).
    assert (ids' = ids).
    { clear - Fk Fk'. revert ids' Fk'.
      induction Fk as [|label i w ids K Fk IH]; intros ids' Fk';
        inversion Fk' as [|? i' ? ids0 K' Fk0]; subst; [reflexivity|].
      f_equal; [eapply known_fun; eauto | auto]. }
    subst ids'.
    destruct (Forall2_nth _ _ _ _ _ Ft Eq) as (entries & Et & _).
    exists q, entries. split; [exact Tr|]. split; [exact Et|].
    now apply (table_final q r' o entries Eq Eo Et).
Qed.
End TableOfARule.

(** X22.  The table of a rule accepts the rule.  Let [make_grammar] return a
    grammar for a rule table in which the rule [name], the [k]-th in the
    sorted order, is the minimised automaton of a fragment.  Then the
    [k]-th table of the grammar accepts a sequence of label ids (along its
    entries from state 0 to a state with the entry [(0, self)]) exactly if
    the ids are the label ids of a label sequence that takes the NFA of the
    fragment from its start state to its finish state. *)
Theorem table_accepts_the_rule (token_NAME : Z) (ns : TokenNamespace)
    (rules : rule_table) (g gf : Grammar) (k : nat) (name : string)
    (rule : heap * list ref) (nfa : NFA) :
  label_inv g -> states g = [] ->
  make_grammar token_NAME ns rules g = Ok gf ->
  nth_error (sort (dict_keys rules)) k = Some name ->
  dict_get name rules = Some rule ->
  rule_ok nfa rule ->
  exists table,
    nth_error (states gf) k = Some table /\
    forall ids,
      table_accepts table ids <->
      exists w, nfa_accepts nfa w /\ Forall2 (known token_NAME ns gf) w ids.
Proof.
  intros Ig Sg E Ek Er (V & ND & W & C & Irr & start0 & E0 & L).
  destruct (make_grammar_tables _ _ _ _ _ Ig Sg E) as (If & F).
  destruct (Forall2_nth _ _ _ _ _ F Ek) as (table & Et & h & dfa & Er' & Ft).
  rewrite Er in Er'. inv_ok Er'. simpl in *.
  exists table. split; [exact Et|].
  intros ids.
  rewrite (table_accepts_iff token_NAME ns gf h dfa table If V ND W C Irr Ft
             start0 ids E0).
  split; intros (w & A & Fk); exists w; (split; [now apply L | exact Fk]).
Qed.

Lemma table_accepts_the_rule_witness :
  exists gf table,
    generate_grammar Samples.NAME Samples.python_tokens 20
      [Samples.is_x "b"; Samples.a_is_b] = Ok gf /\
    nth_error (states gf) 1 = Some table /\
    forall ids,
      table_accepts table ids <->
      exists w, nfa_accepts (Samples.is_x "b") w /\
                Forall2 (known Samples.NAME Samples.python_tokens gf) w ids.
Proof.
  eexists.
  assert (E : make_grammar Samples.NAME Samples.python_tokens
                Samples.b_then_a_rules (Grammar_new (Some "b")) = Ok _)
    by (vm_compute; reflexivity).
  destruct (table_accepts_the_rule
              Samples.NAME Samples.python_tokens Samples.b_then_a_rules
              (Grammar_new (Some "b")) _ 1 "b" _ (Samples.is_x "b")
              (label_inv_new _) eq_refl E eq_refl eq_refl
              (compiled_rule_ok 20 (Samples.is_x "b") _ _ _ _ eq_refl eq_refl))
    as (table & Et & A).
  exists table. split; [vm_compute; reflexivity|]. split; [exact Et | exact A].
Defined.

(** ** Dumps *)

Lemma and_then_print {B : Type} (line : string) (k : unit -> printing B) :
  and_then (print line) k = (line :: fst (k tt), snd (k tt)).
Proof. reflexivity. Qed.

Lemma and_then_Ok {A B : Type} (l : list string) (a : A)
    (k : A -> printing B) :
  and_then (l, Ok a) k = (l ++ fst (k a), snd (k a)).
Proof. reflexivity. Qed.

(** *** [_dump_dfas] *)

Lemma dump_dfa_arcs_ok (h : heap) (dfas : list ref) :
  valid h dfas ->
  forall items,
    (forall label next, In (label, next) items -> In next dfas) ->
    exists lines,
      dump_dfa_arcs h dfas items = (lines, Ok tt) /\
      List.length lines = List.length items.
Proof.
  intros V. induction items as [|[label next] items IH]; intros Cl; simpl.
  - exists []. auto.
  - assert (In' : In next dfas) by (eapply Cl; now left).
    assert (Ln : next < List.length h).
    { unfold valid in V. rewrite Forall_forall in V. auto. }
    destruct (index_from_total h next dfas 0 V Ln In') as (k & Ek).
    unfold index. rewrite Ek.
    destruct IH as (lines & E & L).
    { intros l n I. eapply Cl. right. exact I. }
    unfold and_then. simpl. rewrite E. simpl.
    eexists. split; [reflexivity|]. simpl. now rewrite L.
Qed.

Lemma dump_dfa_states_ok (h : heap) (dfas : list ref) :
  valid h dfas -> closed h dfas ->
  forall todo i,
    incl todo dfas ->
    exists lines,
      dump_dfa_states h dfas todo i = (lines, Ok tt) /\
      List.length lines = dfa_lines h todo.
Proof.
  intros V Cl. induction todo as [|state todo IH]; intros i Inc; simpl.
  - exists []. auto.
  - assert (Is : In state dfas) by (apply Inc; now left).
    assert (Ls : state < List.length h).
    { unfold valid in V. rewrite Forall_forall in V. auto. }
    destruct (deref_valid h state Ls) as (o & Eo). rewrite Eo.
    apply deref_Ok in Eo.
    destruct (dump_dfa_arcs_ok h dfas V (arcs o)) as (l1 & E1 & L1).
    { intros label next I. eapply Cl; eauto. }
    destruct (IH (S i)) as (l2 & E2 & L2).
    { intros s I. apply Inc. now right. }
    unfold and_then. simpl. rewrite E1. simpl. rewrite E2. simpl.
    eexists. split; [reflexivity|].
    unfold dfa_lines. simpl. rewrite Eo, length_app, L1, L2. reflexivity.
Qed.

(** X23.  [_dump_dfas] on a list of states whose arcs stay inside the list
    (as they do in every list that [_make_dfas] and [_simplify_dfas] leave):
    it raises nothing, no [ValueError] of [dfas.index] in particular, and it
    prints the heading, one line for every state and one line for every
    arc. *)
Theorem dump_dfas_prints_every_state_and_arc (h : heap) (name : string)
    (dfas : list ref) :
  valid h dfas -> closed h dfas ->
  exists lines,
    _dump_dfas h name dfas
    = (("Dump of DFA for " ++ name)%string :: lines, Ok tt) /\
    List.length lines = dfa_lines h dfas.
Proof.
  intros V Cl.
  destruct (dump_dfa_states_ok h dfas V Cl dfas 0 (incl_refl _))
    as (lines & E & L).
  exists lines. split; [|exact L].
  unfold _dump_dfas, and_then. simpl. now rewrite E.
Qed.

Lemma dump_dfas_prints_every_state_and_arc_witness :
  exists lines,
    _dump_dfas (fst Samples.a_or_b_then_c_dfa) "start"
      (snd Samples.a_or_b_then_c_dfa)
    = ("Dump of DFA for start" :: lines, Ok tt) /\
    List.length lines = 8.
Proof.
  apply (dump_dfas_prints_every_state_and_arc
           (fst Samples.a_or_b_then_c_dfa) "start"
           (snd Samples.a_or_b_then_c_dfa)).
  - repeat constructor.
  - intros r o label t Ir Er It. simpl in Ir.
    destruct Ir as [<-|[<-|[<-|[<-|[]]]]]; inv_ok Er; simpl in It;
      repeat (destruct It as [It|It]; [inv_ok It; simpl; tauto|]);
      destruct It.
Defined.

(** *** [_dump_nfa] *)

Lemma position_Some (x : NFAState) (todo : list NFAState) (j : nat) :
  position x todo = Some j -> nth_error todo j = Some x.
Proof.
  revert j. induction todo as [|y todo IH]; intros j E; simpl in E;
    [discriminate|].
  destruct (Nat.eqb_spec y x) as [->|Ne].
  - now inv_ok E.
  - destruct (position x todo) as [j'|]; [|discriminate].
    simpl in E. inv_ok E. simpl. now apply IH.
Qed.

Lemma position_None (x : NFAState) (todo : list NFAState) :
  position x todo = None -> ~ In x todo.
Proof.
  induction todo as [|y todo IH]; intros E; simpl in E; [intros []|].
  destruct (Nat.eqb_spec y x) as [->|Ne]; [discriminate|].
  destruct (position x todo); [discriminate|].
  intros [I|I]; [contradiction | now apply IH].
Qed.

(** The arcs of one state: every target is in [todo] afterwards; what is
    appended are targets that were not there. *)
Lemma dump_nfa_arcs_spec (l : list (option string * NFAState)) :
  forall todo,
    exists lines more,
      dump_nfa_arcs l todo = (lines, Ok (todo ++ more)) /\
      List.length lines = List.length l /\
      (NoDup todo -> NoDup (todo ++ more)) /\
      (forall y, In y more -> exists label, In (label, y) l) /\
      (forall label y, In (label, y) l -> In y (todo ++ more)).
Proof.
  induction l as [|[label next] l IH]; intros todo; simpl.
  - exists [], []. rewrite app_nil_r. split; [reflexivity|].
    split; [reflexivity|]. split; [auto|]. split; [intros y []|].
    intros label y [].
  - destruct (position next todo) as [j|] eqn:P.
    + destruct (IH todo) as (lines & more & E & L & ND & Src & Tgt).
      unfold and_then. simpl. rewrite E. simpl.
      eexists. exists more. split; [reflexivity|]. split; [simpl; now rewrite L|].
      split; [exact ND|]. split.
      * intros y I. destruct (Src y I) as (lb & Il). exists lb. now right.
      * intros lb y [I|I]; [|eauto]. inv_ok I.
        apply in_or_app. left. eapply nth_error_In, position_Some; eauto.
    + destruct (IH (todo ++ [next])) as (lines & more & E & L & ND & Src & Tgt).
      unfold and_then. simpl. rewrite E. simpl.
      eexists. exists (next :: more).
      replace (todo ++ next :: more) with ((todo ++ [next]) ++ more)
        by (now rewrite <- app_assoc).
      split; [reflexivity|]. split; [simpl; now rewrite L|].
      split; [|split].
      * intros N. apply ND. apply NoDup_app; [exact N | repeat constructor; intros [] |].
        intros a Ia [<-|[]]. now apply position_None in P.
      * intros y [<-|I]; [exists label; now left|].
        destruct (Src y I) as (lb & Il). exists lb. now right.
      * intros lb y [I|I]; [|eauto]. inv_ok I.
        apply in_or_app. left. apply in_or_app. right. now left.
Qed.

Lemma nfa_reach_closed (nfa : NFA) (todo : list NFAState) (s x : NFAState) :
  (forall a label y, In a todo -> In (label, y) (arcs_of nfa a) -> In y todo) ->
  In s todo -> nfa_reach nfa s x -> In x todo.
Proof.
  intros Cl I R. induction R as [|a label y _ IH A]; [exact I|].
  eapply Cl; eauto.
Qed.

Lemma NoDup_bounded (n : nat) (l : list nat) :
  NoDup l -> Forall (fun x => x < n) l -> List.length l <= n.
Proof.
  intros ND F. rewrite <- (length_seq n 0) at 1.
  apply NoDup_incl_length; [exact ND|].
  intros x I. rewrite Forall_forall in F. apply in_seq. apply F in I. lia.
Qed.

(** The loop of [_dump_nfa], from position [i] on. *)
Lemma dump_nfa_loop_spec (nfa : NFA) (s : NFAState)
    (n := List.length (nfa_arcs nfa)) :
  (forall state label next, In (label, next) (arcs_of nfa state) -> next < n) ->
  forall fuel (todo : list NFAState) i,
    n - i < fuel -> i <= List.length todo ->
    NoDup todo -> Forall (fun x => x < n) todo ->
    (forall x, In x todo -> nfa_reach nfa s x) ->
    (forall k a label y,
        k < i -> nth_error todo k = Some a ->
        In (label, y) (arcs_of nfa a) -> In y todo) ->
    exists lines more,
      dump_nfa_loop fuel nfa todo i = (lines, Ok (todo ++ more)) /\
      List.length lines = nfa_lines nfa (skipn i (todo ++ more)) /\
      NoDup (todo ++ more) /\
      (forall x, In x (todo ++ more) -> nfa_reach nfa s x) /\
      (forall a label y,
          In a (todo ++ more) -> In (label, y) (arcs_of nfa a) ->
          In y (todo ++ more)).
Proof.
  intros Wf.
  induction fuel as [|fuel IH]; intros todo i Lf Li ND Rng Rch Done; [lia|].
  cbn [dump_nfa_loop]. destruct (nth_error todo i) as [state|] eqn:Ei.
  - destruct (dump_nfa_arcs_spec (arcs_of nfa state) todo)
      as (l1 & m1 & E1 & L1 & ND1 & Src1 & Tgt1).
    assert (Ii : i < List.length todo) by (eapply nth_error_Some_lt; eauto).
    assert (Rng1 : Forall (fun x => x < n) (todo ++ m1)).
    { apply Forall_app. split; [exact Rng|].
      rewrite Forall_forall. intros y I. destruct (Src1 y I) as (lb & Il).
      eapply Wf; eauto. }
    assert (Ln : List.length (todo ++ m1) <= n)
      by (apply NoDup_bounded; auto).
    destruct (IH (todo ++ m1) (S i)) as (l2 & m2 & E2 & L2 & ND2 & Rch2 & Cl2).
    + rewrite length_app in Ln. lia.
    + rewrite length_app. lia.
    + auto.
    + exact Rng1.
    + intros x I. apply in_app_or in I. destruct I as [I|I]; [auto|].
      destruct (Src1 x I) as (lb & Il).
      eapply reach_more; [|exact Il]. apply Rch. eapply nth_error_In; eauto.
    + intros k a label y Lk Ek A.
      destruct (Nat.eq_dec k i) as [->|Nk].
      * rewrite nth_error_app1 in Ek by exact Ii.
        assert (a = state) by congruence. subst a. eauto.
      * assert (Lk' : k < i) by lia.
        assert (Ek' : nth_error todo k = Some a).
        { rewrite nth_error_app1 in Ek by lia. exact Ek. }
        apply in_or_app. left. eauto.
    + rewrite and_then_print, E1, and_then_Ok, E2. cbn [fst snd].
      rewrite <- app_assoc in *.
      eexists. exists (m1 ++ m2). split; [reflexivity|].
      split; [|auto].
      assert (Es : skipn i (todo ++ m1 ++ m2) =
                   state :: skipn (S i) (todo ++ m1 ++ m2)).
      { assert (Ei' : nth_error (todo ++ m1 ++ m2) i = Some state)
          by (rewrite nth_error_app1 by exact Ii; exact Ei).
        clear - Ei'. revert i Ei'.
        generalize (todo ++ m1 ++ m2) as l.
        induction l as [|a l IHl]; intros [|i] E; simpl in E;
          try discriminate.
        - now inv_ok E.
        - simpl. now apply IHl. }
      rewrite Es. unfold nfa_lines. simpl. rewrite length_app, L1.
      unfold nfa_lines in L2. rewrite L2. reflexivity.
  - apply nth_error_None in Ei.
    assert (i = List.length todo) by lia. subst i.
    exists [], []. rewrite app_nil_r. split; [reflexivity|]. split.
    { rewrite skipn_all. reflexivity. }
    split; [exact ND|]. split; [exact Rch|].
    intros a label y I A. apply In_nth_error in I. destruct I as (k & Ek).
    eapply Done; eauto. eapply nth_error_Some_lt; eauto.
Qed.

(** X24.  [_dump_nfa] numbers the states of a fragment as it meets them.  For
    a fragment with [n] states whose arcs lead to states of the fragment,
    the loop ends (within [n + 1] rounds) and raises nothing; the list
    [todo] ends up with the start state first and with exactly the states
    that are reached from the start state along arcs, each of them once;
    and below the heading there is one line for every such state and one
    line for every arc of such a state. *)
Theorem dump_nfa_lists_the_reachable_states (nfa : NFA) (fuel : nat) :
  nfa_wf nfa -> List.length (nfa_arcs nfa) < fuel ->
  exists lines todo,
    dump_nfa_loop fuel nfa [nfa_start nfa] 0 = (lines, Ok todo) /\
    _dump_nfa fuel nfa =
      (("Dump of NFA for " ++ from_rule nfa)%string :: lines, Ok tt) /\
    nth_error todo 0 = Some (nfa_start nfa) /\ NoDup todo /\
    (forall x, In x todo <-> nfa_reach nfa (nfa_start nfa) x) /\
    List.length lines = nfa_lines nfa todo.
Proof.
  intros (Ls & Wf) Lf.
  destruct (dump_nfa_loop_spec nfa (nfa_start nfa) Wf fuel [nfa_start nfa] 0)
    as (lines & more & E & L & ND & Rch & Cl).
  - lia.
  - simpl. lia.
  - repeat constructor. intros [].
  - repeat constructor. exact Ls.
  - intros x [<-|[]]. constructor.
  - intros k a label y Lk. lia.
  - exists lines, ([nfa_start nfa] ++ more).
    split; [exact E|]. split.
    + unfold _dump_nfa, and_then. simpl. rewrite E. simpl.
      now rewrite app_nil_r.
    + split; [reflexivity|]. split; [exact ND|]. split; [|exact L].
      intros x. split; [apply Rch|].
      apply nfa_reach_closed; [exact Cl | now left].
Qed.

Lemma dump_nfa_lists_the_reachable_states_witness :
  exists lines todo,
    dump_nfa_loop 3 (Samples.is_x "b") [0] 0 = (lines, Ok todo) /\
    _dump_nfa 3 (Samples.is_x "b") = ("Dump of NFA for b" :: lines, Ok tt) /\
    nth_error todo 0 = Some 0 /\ NoDup todo /\
    (forall x, In x todo <-> nfa_reach (Samples.is_x "b") 0 x) /\
    List.length lines = nfa_lines (Samples.is_x "b") todo.
Proof.
  apply (dump_nfa_lists_the_reachable_states (Samples.is_x "b") 3).
  - split; [simpl; lia|].
    intros state label next I. unfold arcs_of in I. simpl in I.
    destruct state as [|[|state]]; simpl in I.
    + destruct I as [I|[]]. inv_ok I. simpl. lia.
    + destruct I.
    + destruct state; destruct I.
  - simpl. lia.
Defined.

(** ** The compiler ends *)

(** On fragments whose arcs lead to states of the fragment, the loop of
    [generate_grammar] goes through: the subset construction stays within
    a budget above [2 ^ n], and the minimiser returns. *)
Lemma convert_rules_total (fuel : nat) (fragments : list NFA) :
  Forall nfa_wf fragments ->
  Forall (fun nfa => 2 ^ List.length (nfa_arcs nfa) < fuel) fragments ->
  forall rules s,
    exists rules' s', convert_rules fuel fragments rules s = Ok (rules', s').
Proof.
  induction fragments as [|nfa fragments IH]; intros W B rules s; simpl.
  - eauto.
  - inversion W as [|u v Wn W']; subst. inversion B as [|u v Bn B']; subst.
    destruct (make_dfas_terminates nfa fuel Wn Bn) as (h & states0 & E).
    rewrite E. cbn [bind].
    destruct (make_dfas_Ok _ _ _ _ E) as (o & Inv & _).
    destruct (dfa_inv_simplify _ _ _ Inv) as (V & _).
    destruct (simplify_loop_total (S (List.length states0)) h states0 V
                (Nat.lt_succ_diag_r _)) as (h' & dfas' & Es & _).
    unfold _simplify_dfas. rewrite Es. cbn [bind]. now apply IH.
Qed.

Lemma literal_body_Err (q : ascii) (e : exn) :
  forall s, literal_body q s = Err e -> e = SyntaxError.
Proof.
  induction s as [|c s IH]; simpl; intros E; [now inv_ok E|].
  destruct (Ascii.eqb c q).
  - destruct s; [discriminate | now inv_ok E].
  - destruct (is_backslash c); [now inv_ok E|].
    destruct (literal_body q s) as [body|e0]; simpl in E; [discriminate|].
    inv_ok E. now apply IH.
Qed.

(** No label stands for the exhausted budget, unless the token namespace
    raises it. *)
Lemma label_failure_budget (ns : TokenNamespace) (names : list string)
    (label : string) :
  (forall value, generate_token_id ns value <> Err OutOfFuel) ->
  ~ label_failure ns names label OutOfFuel.
Proof.
  intros T F. inversion F as [|c rest A I Tk|c rest A Q|c rest e A Q Ev
                             |c rest A Q Ev|c rest v more e A Q Ev Av G]; subst.
  - unfold eval in Ev. rewrite Q in Ev. apply literal_body_Err in Ev.
    discriminate.
  - now apply T in G.
Qed.

(** X25.  [generate_grammar] ends on well-formed input.  For fragments whose
    arcs lead to states of the fragment, and a budget above [2 ^ n] for
    every fragment of [n] states, [generate_grammar] returns a grammar, or
    it raises one of the two [ValueError]s of the first-set analysis, or
    the error of a label that is on an arc of one of the fragments and
    cannot get an id (an empty label or literal, a name that is neither a
    rule nor a token, a text that is neither a name nor quoted, a text
    [eval] rejects, an operator the token namespace raises for).  The
    budget is never used up, so none of its loops and recursions goes on
    for ever: the error is not the exhausted budget, unless the token
    namespace itself raises that. *)
Theorem generate_grammar_ends_on_well_formed_fragments (token_NAME : Z)
    (ns : TokenNamespace) (fuel : nat) (fragments : list NFA) :
  Forall nfa_wf fragments ->
  Forall (fun nfa => 2 ^ List.length (nfa_arcs nfa) < fuel) fragments ->
  (exists gf, generate_grammar token_NAME ns fuel fragments = Ok gf) \/
  (exists e,
      generate_grammar token_NAME ns fuel fragments = Err e /\
      ((exists name, e = ValueError_recursion name) \/
       (exists name symbol label other,
           e = ValueError_ambiguous name symbol label other) \/
       (exists nfa state next label,
           In nfa fragments /\ In (Some label, next) (arcs_of nfa state) /\
           label_failure ns (map from_rule fragments) label e)) /\
      ((forall value, generate_token_id ns value <> Err OutOfFuel) ->
       e <> OutOfFuel)).
Proof.
  intros W B.
  destruct (convert_rules_total fuel fragments W B [] None)
    as (rules & s & Ec).
  destruct (generate_grammar token_NAME ns fuel fragments) as [gf|e] eqn:E.
  - left. now exists gf.
  - right. exists e. split; [reflexivity|].
    destruct (generate_grammar_errors _ _ _ _ _ E)
      as [(_ & Eb)|[[(name & ->)|(name & symbol & label & other & ->)]
                   |(l & (nfa & st & y & I & Ia) & F)]].
    + congruence.
    + split; [left; eauto | discriminate].
    + split; [right; left; eauto 6 | discriminate].
    + split; [right; right; exists nfa, st, y, l; auto|].
      intros T ->. exact (label_failure_budget _ _ _ T F).
Qed.

Lemma generate_grammar_ends_on_well_formed_fragments_witness :
  (exists gf,
      generate_grammar Samples.NAME Samples.python_tokens 5
        [Samples.a_is_b] = Ok gf) \/
  (exists e,
      generate_grammar Samples.NAME Samples.python_tokens 5
        [Samples.a_is_b] = Err e /\
      ((exists name, e = ValueError_recursion name) \/
       (exists name symbol label other,
           e = ValueError_ambiguous name symbol label other) \/
       (exists nfa state next label,
           In nfa [Samples.a_is_b] /\
           In (Some label, next) (arcs_of nfa state) /\
           label_failure Samples.python_tokens
             (map from_rule [Samples.a_is_b]) label e)) /\
      ((forall value,
           generate_token_id Samples.python_tokens value <> Err OutOfFuel) ->
       e <> OutOfFuel)).
Proof.
  apply (generate_grammar_ends_on_well_formed_fragments
           Samples.NAME Samples.python_tokens 5 [Samples.a_is_b]).
  - constructor; [|constructor]. split; [simpl; lia|].
    intros state label next I. unfold arcs_of in I. simpl in I.
    destruct state as [|[|state]]; simpl in I.
    + destruct I as [I|[]]. inv_ok I. simpl. lia.
    + destruct I.
    + destruct state; destruct I.
  - constructor; [simpl; lia | constructor].
Defined.
